(** * zxcvbn-cpp: the pattern-matching engine (native-src/zxcvbn/matching.cpp)

    A shallow embedding of [omnimatch] and of the eight matchers it runs,
    followed by the properties of the engine that the specification states.

    Conventions of the embedding.
    - [std::string] is a sequence of bytes: [str := list ascii].  [char] is
      signed, as the source assumes in [translate] ([c < 0]); [char_val] gives
      the signed value of a byte.
    - [idx_t] and [size_t] values are natural numbers.
    - An operation of the C++ library that throws, or whose behaviour is
      undefined, on some arguments returns [Err] on them: [substr] past the end
      ([std::out_of_range]), [std::stoul] on a string with no digits, an index
      past the end of an array, a failed [assert].  Loops whose exit depends on
      the data run on fuel and return [Err OutOfFuel] when it is exhausted.
    - [std::regex] (ECMAScript grammar) is modelled by a backtracking matcher
      that lists the successful matches in the order the backtracking search
      finds them; the regular expressions of the source are written as
      abstract syntax.
    - [std::unordered_map] is an association list; its iteration order, which
      the C++ library leaves open, is the order of the list.
    - [std::sort] is known by its contract only (a permutation that is ordered
      by the comparison): class [StdSort]. *)

From Stdlib Require Import Ascii String.
From Stdlib Require Import List Arith Lia Bool NArith ZArith.
From Stdlib Require Import Permutation Sorted.
Import ListNotations.

Set Implicit Arguments.

(* ------------------------------------------------------------------------- *)
(** ** Errors *)

Inductive error : Type :=
| OutOfRange        (* std::out_of_range, or an index past the end *)
| InvalidArgument   (* std::invalid_argument *)
| AssertionFailed   (* assert(...) *)
| BadVariant        (* Match::get_dictionary on another pattern *)
| DivisionByZero
| OutOfFuel.        (* a loop that did not finish *)

Inductive result (A : Type) : Type :=
| Ok (a : A)
| Err (e : error).

Arguments Ok {A} a.
Arguments Err {A} e.

Definition bind {A B : Type} (c : result A) (k : A -> result B) : result B :=
  match c with
  | Ok a => k a
  | Err e => Err e
  end.

Notation "x <- c ;; k" := (bind c (fun x => k))
  (at level 61, c at next level, right associativity).
Notation "' pat <- c ;; k" := (bind c (fun x => match x with pat => k end))
  (at level 61, pat pattern, c at next level, right associativity).

(** A loop whose body appends to a vector: the body returns what it pushed
    during one iteration, the loop returns everything pushed, in order. *)
Fixpoint for_each {A B : Type} (l : list A) (body : A -> result (list B))
  : result (list B) :=
  match l with
  | [] => Ok []
  | a :: l' =>
      pushed <- body a ;;
      rest <- for_each l' body ;;
      Ok (pushed ++ rest)
  end.

(* ------------------------------------------------------------------------- *)
(** ** Strings *)

Definition str : Type := list ascii.

Definition lit (s : string) : str := list_ascii_of_string s.

(** The value of a [char] (signed, 8 bits). *)
Definition char_val (c : ascii) : Z :=
  let n := Z.of_N (N_of_ascii c) in
  if (n <? 128)%Z then n else (n - 256)%Z.

Fixpoint str_eqb (a b : str) : bool :=
  match a, b with
  | [], [] => true
  | x :: a', y :: b' => Ascii.eqb x y && str_eqb a' b'
  | _, _ => false
  end.

(** [s.substr(pos, n)]: throws when [pos > s.size()], and is cut at the end
    of [s] otherwise. *)
Definition substr (s : str) (pos n : nat) : result str :=
  if length s <? pos then Err OutOfRange else Ok (firstn n (skipn pos s)).

(** [s.substr(pos)]. *)
Definition substr_from (s : str) (pos : nat) : result str :=
  if length s <? pos then Err OutOfRange else Ok (skipn pos s).

(** [s[k]] for [k < s.size()]. *)
Definition char_at (s : str) (k : nat) : result ascii :=
  match nth_error s k with
  | Some c => Ok c
  | None => Err OutOfRange
  end.

Fixpoint is_prefix (p s : str) : bool :=
  match p, s with
  | [], _ => true
  | x :: p', y :: s' => Ascii.eqb x y && is_prefix p' s'
  | _ :: _, [] => false
  end.

(** [s.find(sub)]: the first position where [sub] occurs, [None] for [npos]. *)
Fixpoint find (s sub : str) : option nat :=
  if is_prefix sub s then Some 0
  else match s with
       | [] => None
       | _ :: s' => option_map S (find s' sub)
       end.

(** Modelled from the spec: [util::ascii_lower] is defined in util.cpp, which
    is not among the sources.  The spec: "Case-folding is ASCII-only ...
    non-ASCII bytes pass through unfolded". *)
Definition ascii_lower_char (c : ascii) : ascii :=
  let n := nat_of_ascii c in
  if (65 <=? n) && (n <=? 90) then ascii_of_nat (n + 32) else c.

Definition ascii_lower (s : str) : str := map ascii_lower_char s.

(** Modelled from the spec: [util::reverse_string] is defined in util.cpp,
    which is not among the sources.  The spec treats the password as a byte
    sequence and remaps indices by [len - 1 - j], [len - 1 - i]: the bytes in
    reverse order. *)
Definition reverse_string (s : str) : str := rev s.

(** Lookup in a [std::unordered_map<std::string, V>]. *)
Fixpoint map_find {V : Type} (m : list (str * V)) (key : str) : option V :=
  match m with
  | [] => None
  | (k, v) :: m' => if str_eqb k key then Some v else map_find m' key
  end.

(** [translate], lines 103-121. *)
Definition translate (s : str) (chr_map : list (str * str)) : str :=
  flat_map (fun c =>
              if (char_val c <? 0)%Z then [c]
              else match map_find chr_map [c] with
                   | Some v => v
                   | None => [c]
                   end) s.

(* ------------------------------------------------------------------------- *)
(** ** Regular expressions ([std::regex], ECMAScript grammar)

    A matcher maps a state (the position reached and the captures made so far)
    to the states in which it can stop, in the order in which the backtracking
    search of ECMA-262 (15.10.2) tries them: the first state of the list that
    the rest of the pattern accepts is the match. *)

Module Regex.

Inductive class_item : Type :=
| CChar (c : ascii)
| CRange (lo hi : ascii)
| CDigit     (* \d *)
| CSpace.    (* \s *)

Inductive regex : Type :=
| REmpty
| RChar (c : ascii)
| RAny                                  (* . *)
| RClass (items : list class_item)      (* [...], \d, \s *)
| RSeq (r1 r2 : regex)
| RAlt (r1 r2 : regex)
| RGroup (n : nat) (r : regex)          (* the n-th capturing group *)
| RBackref (n : nat)                    (* \n *)
| RQuant (r : regex) (min : nat) (max : option nat) (greedy : bool)
| RBol                                  (* ^ *)
| REol.                                 (* $ *)

Definition is_digit (c : ascii) : bool :=
  let n := nat_of_ascii c in (48 <=? n) && (n <=? 57).

(** [isspace] in the "C" locale. *)
Definition is_space (c : ascii) : bool :=
  let n := nat_of_ascii c in ((9 <=? n) && (n <=? 13)) || (n =? 32).

(** [.] matches every character but the line terminators. *)
Definition is_line_terminator (c : ascii) : bool :=
  let n := nat_of_ascii c in (n =? 10) || (n =? 13).

Definition in_item (c : ascii) (it : class_item) : bool :=
  match it with
  | CChar d => Ascii.eqb d c
  | CRange lo hi => (nat_of_ascii lo <=? nat_of_ascii c) && (nat_of_ascii c <=? nat_of_ascii hi)
  | CDigit => is_digit c
  | CSpace => is_space c
  end.

Definition in_class (items : list class_item) (c : ascii) : bool :=
  existsb (in_item c) items.

Record MatchState : Type := mkState {
  endIndex : nat;
  captures : list (nat * (nat * nat))   (* group, [first, second) *)
}.

Definition Matcher : Type := MatchState -> list MatchState.

Fixpoint capture (n : nat) (caps : list (nat * (nat * nat))) : option (nat * nat) :=
  match caps with
  | [] => None
  | (k, span) :: caps' => if k =? n then Some span else capture n caps'
  end.

Definition clear_captures (groups : list nat) (caps : list (nat * (nat * nat)))
  : list (nat * (nat * nat)) :=
  filter (fun kc => negb (existsb (Nat.eqb (fst kc)) groups)) caps.

(** The capturing groups inside a pattern. *)
Fixpoint groups_of (r : regex) : list nat :=
  match r with
  | RSeq r1 r2 | RAlt r1 r2 => groups_of r1 ++ groups_of r2
  | RGroup n r' => n :: groups_of r'
  | RQuant r' _ _ _ => groups_of r'
  | _ => []
  end.

Definition slice (s : str) (a b : nat) : str := firstn (b - a) (skipn a s).

Section Matchers.

Variable input : str.

Definition char_matcher (p : ascii -> bool) : Matcher :=
  fun x =>
    match nth_error input (endIndex x) with
    | Some ch => if p ch then [mkState (S (endIndex x)) (captures x)] else []
    | None => []
    end.

(** A back reference to a group that has not matched matches the empty
    string (15.10.2.9). *)
Definition backref_matcher (n : nat) : Matcher :=
  fun x =>
    match capture n (captures x) with
    | None => [x]
    | Some (a, b) =>
        let len := b - a in
        let e := endIndex x in
        if (e + len <=? length input) && str_eqb (slice input a b) (slice input e (e + len))
        then [mkState (e + len) (captures x)]
        else []
    end.

(** RepeatMatcher (15.10.2.5).  Each round resets the captures of the groups
    inside the repeated atom; once [min] is reached a round that matches the
    empty string is refused, so [min] rounds and one round per character of
    the input are all there can be: [fuel] is set to more than that. *)
Fixpoint repeat_matcher (fuel : nat) (m : Matcher) (inner : list nat)
         (min : nat) (max : option nat) (greedy : bool) (x : MatchState)
  : list MatchState :=
  match fuel with
  | O => []
  | S fuel' =>
      match max with
      | Some O => [x]
      | _ =>
          let xr := mkState (endIndex x) (clear_captures inner (captures x)) in
          let more :=
            flat_map (fun y =>
                        if (min =? 0) && (endIndex y =? endIndex x) then []
                        else repeat_matcher fuel' m inner (pred min)
                                            (option_map pred max) greedy y)
                     (m xr) in
          if min =? 0 then (if greedy then more ++ [x] else x :: more)
          else more
      end
  end.

Fixpoint compile (r : regex) : Matcher :=
  match r with
  | REmpty => fun x => [x]
  | RChar c => char_matcher (Ascii.eqb c)
  | RAny => char_matcher (fun ch => negb (is_line_terminator ch))
  | RClass items => char_matcher (in_class items)
  | RSeq r1 r2 => fun x => flat_map (compile r2) (compile r1 x)
  | RAlt r1 r2 => fun x => compile r1 x ++ compile r2 x
  | RGroup n r' =>
      fun x => map (fun y => mkState (endIndex y)
                                     ((n, (endIndex x, endIndex y)) :: captures y))
                   (compile r' x)
  | RBackref n => backref_matcher n
  | RQuant r' min max greedy =>
      repeat_matcher (min + S (length input)) (compile r') (groups_of r')
                     min max greedy
  | RBol => fun x => if endIndex x =? 0 then [x] else []
  | REol => fun x => if endIndex x =? length input then [x] else []
  end.

End Matchers.

(** [std::match_results]: the sub-matches [0 .. mark_count] as offsets
    [first, second) into the searched range; empty after a failed search. *)
Definition smatch : Type := list (option (nat * nat)).

Fixpoint mark_count (r : regex) : nat :=
  match r with
  | RSeq r1 r2 | RAlt r1 r2 => Nat.max (mark_count r1) (mark_count r2)
  | RGroup n r' => Nat.max n (mark_count r')
  | RQuant r' _ _ _ => mark_count r'
  | _ => 0
  end.

Definition results (r : regex) (start : nat) (y : MatchState) : smatch :=
  Some (start, endIndex y)
  :: map (fun n => capture n (captures y)) (seq 1 (mark_count r)).

Fixpoint search_from (r : regex) (input : str) (starts : list nat) : smatch :=
  match starts with
  | [] => []
  | p :: starts' =>
      match compile input r (mkState p []) with
      | y :: _ => results r p y
      | [] => search_from r input starts'
      end
  end.

(** [std::regex_search(first, last, m, r)] on the range [input]: the match at
    the leftmost position where there is one. *)
Definition regex_search (r : regex) (input : str) : smatch :=
  search_from r input (seq 0 (S (length input))).

(** [std::regex_match(first, last, m, r)]: the pattern has to match the whole
    of the range [input]. *)
Definition regex_match (r : regex) (input : str) : smatch :=
  match List.find (fun y => endIndex y =? length input)
                  (compile input r (mkState 0 [])) with
  | Some y => results r 0 y
  | None => []
  end.

(** [m.size()]. *)
Definition size (m : smatch) : nat := length m.

(** [m[n]], an unmatched sub-match when [n >= m.size()]. *)
Definition sub (m : smatch) (n : nat) : option (nat * nat) :=
  nth n m None.

(** [m[n].length()] and [m.length(n)]. *)
Definition sub_length (m : smatch) (n : nat) : nat :=
  match sub m n with
  | Some (a, b) => b - a
  | None => 0
  end.

(** [m.position(n)]. *)
Definition position (m : smatch) (n : nat) : nat :=
  match sub m n with
  | Some (a, _) => a
  | None => 0
  end.

(** [m.str(n)], over the searched range [input]. *)
Definition sub_str (input : str) (m : smatch) (n : nat) : str :=
  match sub m n with
  | Some (a, b) => slice input a b
  | None => []
  end.

(** Sequences of atoms and literal text. *)
Fixpoint rseq (rs : list regex) : regex :=
  match rs with
  | [] => REmpty
  | [r] => r
  | r :: rs' => RSeq r (rseq rs')
  end.

Definition rtext (s : string) : regex := rseq (map RChar (list_ascii_of_string s)).

Definition rdigit : regex := RClass [CDigit].

Definition rplus (r : regex) (greedy : bool) : regex := RQuant r 1 None greedy.

End Regex.

(* ------------------------------------------------------------------------- *)
(** ** Library algorithms *)

(** [std::min_element(first, last, comp)] on a range that is not empty: the
    first of the smallest elements. *)
Definition min_element {A : Type} (comp : A -> A -> bool) (first : A) (rest : list A) : A :=
  fold_left (fun smallest a => if comp a smallest then a else smallest) rest first.

Fixpoint set_nth {A : Type} (n : nat) (a : A) (v : list A) : list A :=
  match v, n with
  | [], _ => []
  | _ :: v', O => a :: v'
  | x :: v', S n' => x :: set_nth n' a v'
  end.

(** [v.erase(std::remove_if(v.begin(), v.end(), pred), v.end())], as the
    library runs it: the elements to keep are moved to the front one by one
    ([*result = std::move( *first)]), and the tail is erased at the end.  The
    predicate is given the vector as it stands when it is called, because
    the lambda of [date_match] reads the vector that is being compacted;
    [moved_from] is what a moved-from element still holds.  Nothing is moved
    before the first element to remove is found ([std::find_if]). *)
Fixpoint remove_if_loop {A : Type} (pred : list A -> A -> bool) (moved_from : A -> A)
         (count : nat) (v : list A) (result first : nat) : list A :=
  match count with
  | O => firstn result v
  | S count' =>
      match nth_error v first with
      | None => firstn result v
      | Some x =>
          if pred v x then remove_if_loop pred moved_from count' v result (S first)
          else if result =? first
               then remove_if_loop pred moved_from count' v (S result) (S first)
               else remove_if_loop pred moved_from count'
                                   (set_nth first (moved_from x) (set_nth result x v))
                                   (S result) (S first)
      end
  end.

Definition erase_remove_if {A : Type} (pred : list A -> A -> bool) (moved_from : A -> A)
           (v : list A) : list A :=
  remove_if_loop pred moved_from (length v) v 0 0.

(** [operator<] of [std::string]: lexicographic, bytes compared unsigned. *)
Fixpoint str_ltb (a b : str) : bool :=
  match a, b with
  | _, [] => false
  | [], _ :: _ => true
  | x :: a', y :: b' =>
      if nat_of_ascii x <? nat_of_ascii y then true
      else if nat_of_ascii y <? nat_of_ascii x then false
      else str_ltb a' b'
  end.

(** [operator<] of [std::pair<std::string, std::string>]. *)
Definition pair_ltb (p q : str * str) : bool :=
  str_ltb (fst p) (fst q) || (negb (str_ltb (fst q) (fst p)) && str_ltb (snd p) (snd q)).

(** [std::sort] of a vector of pairs of strings.  [operator<] is a total
    order on them, so every ordered permutation is the same list and the
    algorithm does not matter: insertion sort. *)
Fixpoint insert_pair (p : str * str) (l : list (str * str)) : list (str * str) :=
  match l with
  | [] => [p]
  | q :: l' => if pair_ltb q p then q :: insert_pair p l' else p :: l
  end.

Definition sort_pairs (l : list (str * str)) : list (str * str) :=
  fold_right insert_pair [] l.

(* ------------------------------------------------------------------------- *)
(** ** Data model (matching.hpp, common.hpp: the declarations are read off
    their uses in matching.cpp) *)

(** Modelled from the spec: the enumerations are declared in headers that are
    not among the sources; matching.cpp names [USER_INPUTS], [QWERTY],
    [DVORAK], [RECENT_YEAR] and the four sequence tags. *)
Inductive DictionaryTag : Type :=
| ENGLISH_WIKIPEDIA | FEMALE_NAMES | MALE_NAMES | PASSWORDS | SURNAMES
| US_TV_AND_FILM | USER_INPUTS.

Inductive GraphTag : Type := QWERTY | DVORAK | KEYPAD | MAC_KEYPAD.

Inductive RegexTag : Type := RECENT_YEAR.

Inductive SequenceTag : Type := UPPER | LOWER | DIGITS | UNICODE.

Definition DictionaryTag_eqb (a b : DictionaryTag) : bool :=
  match a, b with
  | ENGLISH_WIKIPEDIA, ENGLISH_WIKIPEDIA | FEMALE_NAMES, FEMALE_NAMES
  | MALE_NAMES, MALE_NAMES | PASSWORDS, PASSWORDS | SURNAMES, SURNAMES
  | US_TV_AND_FILM, US_TV_AND_FILM | USER_INPUTS, USER_INPUTS => true
  | _, _ => false
  end.

Definition rank_t : Type := nat.
Definition RankedDict : Type := list (str * rank_t).
Definition RankedDicts : Type := list (DictionaryTag * RankedDict).
Definition Graph : Type := list (str * list (option str)).
Definition Graphs : Type := list (GraphTag * Graph).
Definition date_t : Type := N.

Record DictionaryMatch : Type := mkDictionaryMatch {
  dictionary_tag : DictionaryTag;
  matched_word : str;
  rank : rank_t;
  reversed : bool;
  l33t : bool;
  sub : list (str * str);
  sub_display : str
}.

Record SpatialMatch : Type := mkSpatialMatch {
  graph : GraphTag;
  turns : nat;
  shifted_count : nat
}.

Record SequenceMatch : Type := mkSequenceMatch {
  sequence_tag : SequenceTag;
  sequence_space : nat;
  ascending : bool
}.

Record RegexMatch : Type := mkRegexMatch {
  regex_tag : RegexTag;
  regex_groups : list str     (* PortableRegexMatch: the sub-matches as text *)
}.

Record DateMatch : Type := mkDateMatch {
  separator : str;
  year : date_t;
  month : date_t;
  day : date_t;
  has_full_year : bool
}.

Record DMY : Type := mkDMY {
  dmy_year : date_t;
  dmy_month : date_t;
  dmy_day : date_t
}.

Section Model.

(** The type of [base_guesses] and of the score ([double] in the source);
    the engine only stores it. *)
Context {guesses_t : Type}.

Inductive Match : Type :=
| mkMatch (i j : nat) (token : str) (pattern : Pattern)
with Pattern : Type :=
| PDictionary (d : DictionaryMatch)
| PSpatial (s : SpatialMatch)
| PRepeat (base_token : str) (base_guesses : guesses_t) (base_matches : list Match)
          (repeat_count : nat)
| PSequence (s : SequenceMatch)
| PRegex (r : RegexMatch)
| PDate (d : DateMatch).

Definition i (m : Match) : nat := let 'mkMatch a _ _ _ := m in a.
Definition j (m : Match) : nat := let 'mkMatch _ b _ _ := m in b.
Definition token (m : Match) : str := let 'mkMatch _ _ t _ := m in t.
Definition pattern (m : Match) : Pattern := let 'mkMatch _ _ _ p := m in p.

(** [match.get_dictionary()]. *)
Definition get_dictionary (m : Match) : result DictionaryMatch :=
  match pattern m with
  | PDictionary d => Ok d
  | _ => Err BadVariant
  end.

(** Modelled from the spec: the move assignment of [Match] is declared in
    common.hpp, which is not among the sources.  "Matches are value-immutable
    once emitted": a moved-from element keeps its scalar members and loses
    its string. *)
Definition moved_from (m : Match) : Match :=
  mkMatch (i m) (j m) [] (pattern m).

(** The comparison of [sorted], lines 126-128:
    [std::make_pair(m1.i, m1.j) < std::make_pair(m2.i, m2.j)]. *)
Definition match_lt (m1 m2 : Match) : bool :=
  (i m1 <? i m2) || (negb (i m2 <? i m1) && (j m1 <? j m2)).

(** [std::sort(first, last, comp)] with the comparison of [sorted]: the
    result is a permutation of the range in which no element is less than
    one before it.  The order of equivalent elements is not specified. *)
Class StdSort : Type := {
  std_sort : list Match -> list Match;
  std_sort_permutation : forall v, Permutation v (std_sort v);
  std_sort_ordered :
    forall v, StronglySorted (fun m1 m2 => match_lt m2 m1 = false) (std_sort v)
}.

(** The result of the scoring engine (scoring.hpp). *)
Record ScoringResult : Type := mkScoringResult {
  guesses : guesses_t;
  sequence : list Match
}.

(** What matching.cpp takes from the rest of the repository: the built-in
    dictionaries and [build_ranked_dict] (frequency_lists), the keyboard
    graphs (adjacency_graphs), the scoring engine and its reference year
    (scoring). *)
Class Environment : Type := {
  default_ranked_dicts : RankedDicts;
  build_ranked_dict : list str -> RankedDict;
  graphs : Graphs;
  most_guessable_match_sequence : str -> list Match -> bool -> ScoringResult;
  REFERENCE_YEAR : date_t
}.

Context {sorter : StdSort} {env : Environment}.

(** [sorted], lines 123-130. *)
Definition sorted (matches : list Match) : list Match := std_sort matches.

(* ------------------------------------------------------------------------- *)
(** ** Constant tables, lines 25-71 *)

Definition L33T_TABLE : list (str * list str) :=
  [ (lit "a", [lit "4"; lit "@"]);
    (lit "b", [lit "8"]);
    (lit "c", [lit "("; lit "{"; lit "["; lit "<"]);
    (lit "e", [lit "3"]);
    (lit "g", [lit "6"; lit "9"]);
    (lit "i", [lit "1"; lit "!"; lit "|"]);
    (lit "l", [lit "1"; lit "|"; lit "7"]);
    (lit "o", [lit "0"]);
    (lit "s", [lit "$"; lit "5"]);
    (lit "t", [lit "+"; lit "7"]);
    (lit "x", [lit "%"]);
    (lit "z", [lit "2"]) ].

(** [19\d\d|200\d|201\d] *)
Definition RECENT_YEAR_RX : Regex.regex :=
  Regex.RAlt (Regex.rseq [Regex.rtext "19"; Regex.rdigit; Regex.rdigit])
    (Regex.RAlt (Regex.rseq [Regex.rtext "200"; Regex.rdigit])
                (Regex.rseq [Regex.rtext "201"; Regex.rdigit])).

Definition REGEXEN : list (RegexTag * Regex.regex) :=
  [ (RECENT_YEAR, RECENT_YEAR_RX) ].

Definition DATE_MAX_YEAR : date_t := 2050%N.
Definition DATE_MIN_YEAR : date_t := 1000%N.

Definition DATE_SPLITS : list (list (nat * nat)) :=
  [ [ (1, 2); (2, 3) ];
    [ (1, 3); (2, 3) ];
    [ (1, 2); (2, 4); (4, 5) ];
    [ (1, 3); (2, 3); (4, 5); (4, 6) ];
    [ (2, 4); (4, 6) ] ].

(* ------------------------------------------------------------------------- *)
(** ** dictionary_match, lines 166-195 *)

Definition dictionary_match (password : str) (ranked_dictionaries : RankedDicts)
  : result (list Match) :=
  let len := length password in
  let password_lower := ascii_lower password in
  matches <-
    for_each ranked_dictionaries (fun item =>
      let dictionary_tag := fst item in
      let ranked_dict := snd item in
      for_each (seq 0 len) (fun i =>
        for_each (seq i (len - i)) (fun j =>
          word <- substr password_lower i (j - i + 1) ;;
          match map_find ranked_dict word with
          | Some rank =>
              tok <- substr password i (j - i + 1) ;;
              Ok [mkMatch i j tok
                    (PDictionary (mkDictionaryMatch dictionary_tag word rank
                                                    false false [] []))]
          | None => Ok []
          end))) ;;
  Ok (sorted matches).

(** [for (auto & match : matches)]: every element is rewritten in place. *)
Fixpoint for_each_in_place {A : Type} (v : list A) (body : A -> result A)
  : result (list A) :=
  match v with
  | [] => Ok []
  | a :: v' =>
      a' <- body a ;;
      rest <- for_each_in_place v' body ;;
      Ok (a' :: rest)
  end.

(** reverse_dictionary_match, lines 197-213 *)
Definition reverse_dictionary_match (password : str) (ranked_dictionaries : RankedDicts)
  : result (list Match) :=
  let reversed_password := reverse_string password in
  matches <- dictionary_match reversed_password ranked_dictionaries ;;
  matches <-
    for_each_in_place matches (fun m =>
      d <- get_dictionary m ;;
      Ok (mkMatch (length password - 1 - j m)
                  (length password - 1 - i m)
                  (reverse_string (token m))
                  (PDictionary (mkDictionaryMatch (dictionary_tag d) (matched_word d)
                                  (rank d) true (l33t d) (sub d) (sub_display d))))) ;;
  Ok (sorted matches).

(* ------------------------------------------------------------------------- *)
(** ** l33t_match, lines 215-349 *)

(** [m.insert(std::make_pair(k, v))] on a [std::unordered_map]: nothing
    happens when the key is present. *)
Definition map_insert {V : Type} (m : list (str * V)) (k : str) (v : V) : list (str * V) :=
  match map_find m k with
  | Some _ => m
  | None => m ++ [(k, v)]
  end.

(** relevant_l33t_subtable, lines 220-238 *)
Definition relevant_l33t_subtable (password : str) (table : list (str * list str))
  : list (str * list str) :=
  fold_left (fun subtable item =>
               let letter := fst item in
               let subs := snd item in
               let relevant_subs :=
                 filter (fun sub => match find password sub with
                                    | Some _ => true
                                    | None => false
                                    end) subs in
               if length relevant_subs =? 0 then subtable
               else map_insert subtable letter relevant_subs)
            table [].

Definition SubsType : Type := list (list (str * str)).

(** The label of [dedup], lines 250-256. *)
Definition label (sub : list (str * str)) : str :=
  flat_map (fun item => fst item ++ lit "," ++ snd item ++ lit "-") (sort_pairs sub).

(** [dedup], lines 246-263. *)
Definition dedup (subs : SubsType) : SubsType :=
  fst (fold_left (fun acc sub =>
                    let '(deduped, members) := acc in
                    let l := label sub in
                    if existsb (str_eqb l) members then (deduped, members)
                    else (deduped ++ [sub], l :: members))
                 subs ([], [])).

(** [std::find_if] for the first pair whose first component is [l33t_chr]. *)
Fixpoint find_sub (sub : list (str * str)) (l33t_chr : str) : option nat :=
  match sub with
  | [] => None
  | elt :: sub' =>
      if str_eqb (fst elt) l33t_chr then Some 0
      else option_map S (find_sub sub' l33t_chr)
  end.

Fixpoint erase_at {A : Type} (n : nat) (v : list A) : list A :=
  match v, n with
  | [], _ => []
  | _ :: v', O => v'
  | x :: v', S n' => x :: erase_at n' v'
  end.

(** The body of the inner loop of [enumerate_l33t_subs], lines 270-285:
    what one [sub] adds to [next_subs]. *)
Definition extend_sub (sub : list (str * str)) (l33t_chr first_key : str) : SubsType :=
  match find_sub sub l33t_chr with
  | None => [sub ++ [(l33t_chr, first_key)]]
  | Some it => [sub; erase_at it sub ++ [(l33t_chr, first_key)]]
  end.

(** The construction of a [std::unordered_map] from a range of pairs. *)
Definition to_unordered_map (sub : list (str * str)) : list (str * str) :=
  fold_left (fun m item => map_insert m (fst item) (snd item)) sub [].

(** enumerate_l33t_subs, lines 241-299 *)
Definition enumerate_l33t_subs (table : list (str * list str)) : list (list (str * str)) :=
  let subs :=
    fold_left (fun subs item =>
                 let first_key := fst item in
                 let next_subs :=
                   flat_map (fun l33t_chr =>
                               flat_map (fun sub => extend_sub sub l33t_chr first_key) subs)
                            (snd item) in
                 dedup next_subs)
              table [[]] in
  map to_unordered_map subs.

(** The text of [sub_display], lines 326-334. *)
Fixpoint display (items : list (str * str)) (sep : str) : str :=
  match items with
  | [] => []
  | item :: items' =>
      sep ++ fst item ++ lit " -> " ++ snd item
          ++ display items' (if length sep =? 0 then lit ", " else sep)
  end.

(** The loop over the substitutions, lines 306-337; an empty substitution
    ends it ([break]). *)
Fixpoint l33t_loop (password : str) (ranked_dictionaries : RankedDicts)
         (subs : list (list (str * str))) : result (list Match) :=
  match subs with
  | [] => Ok []
  | sub :: subs' =>
      if length sub =? 0 then Ok []
      else
        let subbed_password := translate password sub in
        found <- dictionary_match subbed_password ranked_dictionaries ;;
        pushed <-
          for_each found (fun m =>
            dmatch <- get_dictionary m ;;
            tok <- substr password (i m) (j m - i m + 1) ;;
            if str_eqb (ascii_lower tok) (matched_word dmatch) then Ok []
            else
              let match_sub :=
                filter (fun item => match find tok (fst item) with
                                    | Some _ => true
                                    | None => false
                                    end) sub in
              Ok [mkMatch (i m) (j m) tok
                    (PDictionary (mkDictionaryMatch (dictionary_tag dmatch)
                                    (matched_word dmatch) (rank dmatch) (reversed dmatch)
                                    true match_sub (display match_sub [])))]) ;;
        rest <- l33t_loop password ranked_dictionaries subs' ;;
        Ok (pushed ++ rest)
  end.

Definition l33t_match (password : str) (ranked_dictionaries : RankedDicts)
           (l33t_table : list (str * list str)) : result (list Match) :=
  matches <- l33t_loop password ranked_dictionaries
               (enumerate_l33t_subs (relevant_l33t_subtable password l33t_table)) ;;
  let matches :=
    erase_remove_if (fun _ a => length (token a) <=? 1) moved_from matches in
  Ok (sorted matches).

(* ------------------------------------------------------------------------- *)
(** ** spatial_match, lines 351-454 *)

(** The character class of line 371: the shifted symbols and the upper-case
    letters of a keyboard (character 34 is the double quote). *)
Definition SHIFTED_RX : Regex.regex :=
  Regex.RClass
    (map Regex.CChar
         (lit "~!@#$%^&*()_+QWERTYUIOP{}|ASDFGHJKL:" ++ [ascii_of_nat 34] ++ lit "ZXCVBNM<>?")).

(** The loop over [adjacents], lines 413-433: the direction of the first
    neighbour that holds [cur_char], and where in the neighbour it stands. *)
Fixpoint find_adjacent (adjacents : list (option str)) (cur_char : str) (cur_direction : Z)
  : option (Z * nat) :=
  match adjacents with
  | [] => None
  | adj :: adjacents' =>
      let cur_direction := (cur_direction + 1)%Z in
      match adj with
      | Some a =>
          match find a cur_char with
          | Some at_ => Some (cur_direction, at_)
          | None => find_adjacent adjacents' cur_char cur_direction
          end
      | None => find_adjacent adjacents' cur_char cur_direction
      end
  end.

(** The loop [while (true)], lines 395-451: returns [j], [turns] and
    [shifted_count] as they stand when the pattern stops growing. *)
Fixpoint spatial_grow (fuel : nat) (password : str) (graph : Graph)
         (j : nat) (last_direction : Z) (turns shifted_count : nat)
  : result (nat * nat * nat) :=
  match fuel with
  | O => Err OutOfFuel
  | S fuel' =>
      prev_char <- substr password (j - 1) 1 ;;
      let adjacents := match map_find graph prev_char with
                       | Some adjs => adjs
                       | None => []
                       end in
      found <-
        (if j <? length password then
           cur_char <- substr password j 1 ;;
           Ok (find_adjacent adjacents cur_char (-1))
         else Ok None) ;;
      match found with
      | Some (found_direction, at_) =>
          let shifted_count := if at_ =? 1 then shifted_count + 1 else shifted_count in
          if (last_direction =? found_direction)%Z
          then spatial_grow fuel' password graph (j + 1) last_direction turns shifted_count
          else spatial_grow fuel' password graph (j + 1) found_direction (turns + 1)
                            shifted_count
      | None => Ok (j, turns, shifted_count)
      end
  end.

(** The loop [while (i < password.length() - 1)], lines 381-452. *)
Fixpoint spatial_scan (fuel : nat) (password : str) (graph : Graph) (graph_tag : GraphTag)
         (i : nat) : result (list Match) :=
  match fuel with
  | O => Err OutOfFuel
  | S fuel' =>
      if i <? length password - 1 then
        let j := i + 1 in
        shifted_count <-
          (match graph_tag with
           | QWERTY | DVORAK =>
               first_char <- substr password i 1 ;;
               Ok (if Regex.size (Regex.regex_search SHIFTED_RX first_char) =? 0
                   then 0 else 1)
           | _ => Ok 0
           end) ;;
        '(j, turns, shifted_count) <-
          spatial_grow (S (length password)) password graph j (-1) 0 shifted_count ;;
        pushed <-
          (if 2 <? j - i then
             tok <- substr password i (j - i) ;;
             Ok [mkMatch i (j - 1) tok
                   (PSpatial (mkSpatialMatch graph_tag turns shifted_count))]
           else Ok []) ;;
        rest <- spatial_scan fuel' password graph graph_tag j ;;
        Ok (pushed ++ rest)
      else Ok []
  end.

(** spatial_match_helper, lines 373-454.  The test of line 378 keeps
    [password.length() - 1] from wrapping around. *)
Definition spatial_match_helper (password : str) (graph : Graph) (graph_tag : GraphTag)
  : result (list Match) :=
  if length password =? 0 then Ok []
  else spatial_scan (S (length password)) password graph graph_tag 0.

(** spatial_match, lines 360-369 *)
Definition spatial_match (password : str) (graphs : Graphs) : result (list Match) :=
  for_each graphs (fun item => spatial_match_helper password (snd item) (fst item)).

(* ------------------------------------------------------------------------- *)
(** ** repeat_match, lines 456-524 *)

(** [(.+)\1+] *)
Definition greedy : Regex.regex :=
  Regex.RSeq (Regex.RGroup 1 (Regex.rplus Regex.RAny true))
             (Regex.rplus (Regex.RBackref 1) true).

(** [(.+?)\1+] *)
Definition lazy : Regex.regex :=
  Regex.RSeq (Regex.RGroup 1 (Regex.rplus Regex.RAny false))
             (Regex.rplus (Regex.RBackref 1) true).

(** [^(.+?)\1+$] *)
Definition lazy_anchored : Regex.regex :=
  Regex.rseq [Regex.RBol; Regex.RGroup 1 (Regex.rplus Regex.RAny false);
              Regex.rplus (Regex.RBackref 1) true; Regex.REol].

(** Unsigned division; dividing by zero is undefined. *)
Definition udiv (a b : nat) : result nat :=
  if b =? 0 then Err DivisionByZero else Ok (a / b).

(** The choice of [match] and [base_token], lines 476-500: the greedy match
    when it is longer than the lazy one, the lazy match otherwise. *)
Definition choose_match (range : str) (greedy_match lazy_match : Regex.smatch)
  : result (Regex.smatch * str) :=
  if Regex.sub_length lazy_match 0 <? Regex.sub_length greedy_match 0 then
    let greedy_found := Regex.sub_str range greedy_match 0 in
    let lazy_anchored_match := Regex.regex_search lazy_anchored greedy_found in
    if Regex.size lazy_anchored_match =? 0 then Err AssertionFailed
    else Ok (greedy_match, Regex.sub_str greedy_found lazy_anchored_match 1)
  else Ok (lazy_match, Regex.sub_str range lazy_match 1).

(** The loop [while (lastIndex < password.length())], lines 468-522.
    [omnimatch] is the recursive call of line 504, on the base token and no
    user inputs. *)
Fixpoint repeat_loop (fuel : nat) (omnimatch : str -> result (list Match))
         (password : str) (lastIndex : nat) : result (list Match) :=
  match fuel with
  | O => Err OutOfFuel
  | S fuel' =>
      if lastIndex <? length password then
        let range := skipn lastIndex password in
        let greedy_match := Regex.regex_search greedy range in
        let lazy_match := Regex.regex_search lazy range in
        if Regex.size greedy_match =? 0 then Ok []
        else
          '(m, base_token) <- choose_match range greedy_match lazy_match ;;
          let i := lastIndex + Regex.position m 0 in
          let j := lastIndex + Regex.position m 0 + Regex.sub_length m 0 - 1 in
          sub_matches <- omnimatch base_token ;;
          let base_analysis := most_guessable_match_sequence base_token sub_matches false in
          let base_matches := sequence base_analysis in
          let base_guesses := guesses base_analysis in
          repeat_count <- udiv (Regex.sub_length m 0) (length base_token) ;;
          rest <- repeat_loop fuel' omnimatch password (j + 1) ;;
          Ok (mkMatch i j (Regex.sub_str range m 0)
                      (PRepeat base_token base_guesses base_matches repeat_count)
                :: rest)
      else Ok []
  end.

Definition repeat_match (omnimatch : str -> result (list Match)) (password : str)
  : result (list Match) :=
  repeat_loop (S (length password)) omnimatch password 0.

(* ------------------------------------------------------------------------- *)
(** ** sequence_match, lines 526-596 *)

Definition MAX_DELTA : Z := 5%Z.

Definition lower_rx : Regex.regex :=   (* ^[a-z]+$ *)
  Regex.rseq [Regex.RBol; Regex.rplus (Regex.RClass [Regex.CRange "a" "z"]) true; Regex.REol].

Definition upper_rx : Regex.regex :=   (* ^[A-Z]+$ *)
  Regex.rseq [Regex.RBol; Regex.rplus (Regex.RClass [Regex.CRange "A" "Z"]) true; Regex.REol].

Definition digits_rx : Regex.regex :=  (* ^\d+$ *)
  Regex.rseq [Regex.RBol; Regex.rplus Regex.rdigit true; Regex.REol].

Definition found (m : Regex.smatch) : bool := negb (Regex.size m =? 0).

(** The lambda [update], lines 548-576. *)
Definition update (password : str) (i j : nat) (delta : Z) : result (list Match) :=
  if (1 <? j - i) || (Z.abs delta =? 1)%Z then
    if (0 <? Z.abs delta)%Z && (Z.abs delta <=? MAX_DELTA)%Z then
      tok <- substr password i (j - i + 1) ;;
      let '(sequence_name, sequence_space) :=
        if found (Regex.regex_search lower_rx tok) then (LOWER, 26)
        else if found (Regex.regex_search upper_rx tok) then (UPPER, 26)
        else if found (Regex.regex_search digits_rx tok) then (DIGITS, 10)
        else (UNICODE, 26) in
      Ok [mkMatch i j tok
            (PSequence (mkSequenceMatch sequence_name sequence_space (0 <? delta)%Z))]
    else Ok []
  else Ok [].

(** The loop over [k], lines 580-591, and the last call of [update]. *)
Fixpoint sequence_loop (password : str) (ks : list nat) (i : nat)
         (maybe_last_delta : option Z) : result (list Match) :=
  match ks with
  | [] =>
      match maybe_last_delta with
      | Some last_delta => update password i (length password - 1) last_delta
      | None => Ok []
      end
  | k :: ks' =>
      c <- char_at password k ;;
      c_prev <- char_at password (k - 1) ;;
      let delta := (char_val c - char_val c_prev)%Z in
      let last_delta := match maybe_last_delta with
                        | Some d => d
                        | None => delta
                        end in
      if (delta =? last_delta)%Z then sequence_loop password ks' i (Some last_delta)
      else
        let j := k - 1 in
        pushed <- update password i j last_delta ;;
        rest <- sequence_loop password ks' j (Some delta) ;;
        Ok (pushed ++ rest)
  end.

Definition sequence_match (password : str) : result (list Match) :=
  if length password =? 1 then Ok []
  else sequence_loop password (seq 1 (length password - 1)) 0 None.

(* ------------------------------------------------------------------------- *)
(** ** regex_match, lines 599-623 *)

(** [PortableRegexMatch(rx_match)]: the text of every sub-match. *)
Definition portable (range : str) (rx_match : Regex.smatch) : list str :=
  map (Regex.sub_str range rx_match) (seq 0 (Regex.size rx_match)).

(** The loop [while (std::regex_match(lastIndex + password.begin(), ...))],
    lines 612-620.  [rx_match.position()] counts from the start of the range
    that was matched. *)
Fixpoint regex_loop (fuel : nat) (password : str) (tag : RegexTag) (regex : Regex.regex)
         (lastIndex : nat) : result (list Match) :=
  match fuel with
  | O => Err OutOfFuel
  | S fuel' =>
      if length password <? lastIndex then Err OutOfRange
      else
        let range := skipn lastIndex password in
        let rx_match := Regex.regex_match regex range in
        if Regex.size rx_match =? 0 then Ok []
        else
          let tok := Regex.sub_str range rx_match 0 in
          rest <- regex_loop fuel' password tag regex
                             (lastIndex + Regex.sub_length rx_match 0) ;;
          Ok (mkMatch (Regex.position rx_match 0)
                      (Regex.position rx_match 0 + Regex.sub_length rx_match 0 - 1)
                      tok
                      (PRegex (mkRegexMatch tag (portable range rx_match)))
                :: rest)
  end.

Definition regex_match (password : str) (regexen : list (RegexTag * Regex.regex))
  : result (list Match) :=
  matches <-
    for_each regexen (fun item =>
      regex_loop (S (S (length password))) password (fst item) (snd item) 0) ;;
  Ok (sorted matches).

(* ------------------------------------------------------------------------- *)
(** ** date_match, lines 625-846 *)

(** two_to_four_digit_year, lines 833-846.  [date_t] is [unsigned]; the sums
    are taken of values under 100 and do not wrap around. *)
Definition two_to_four_digit_year (year : date_t) : date_t :=
  if (99 <? year)%N then year
  else if (50 <? year)%N then (year + 1900)%N
  else (year + 2000)%N.

(** map_ints_to_dm, lines 822-831 *)
Definition map_ints_to_dm (vals : date_t * date_t) : option DMY :=
  let valid := fun (item : date_t * date_t) =>
                 let '(d, m) := item in
                 ((1 <=? d) && (d <=? 31) && (1 <=? m) && (m <=? 12))%N in
  match List.find valid [vals; (snd vals, fst vals)] with
  | Some (d, m) => Some (mkDMY 0%N m d)
  | None => None
  end.

(** The loop of lines 777-782: [None] when it returns [nullopt], the three
    counters otherwise. *)
Fixpoint count_ints (vals : list date_t) (over_12 over_31 under_1 : nat)
  : option (nat * nat * nat) :=
  match vals with
  | [] => Some (over_12, over_31, under_1)
  | val :: vals' =>
      if ((99 <? val) && (val <? DATE_MIN_YEAR) || (DATE_MAX_YEAR <? val))%N then None
      else count_ints vals'
                      (if (12 <? val)%N then over_12 + 1 else over_12)
                      (if (31 <? val)%N then over_31 + 1 else over_31)
                      (if (val <=? 0)%N then under_1 + 1 else under_1)
  end.

(** The loop of lines 790-805: [Some r] when it returns [r], [None] when it
    ends without returning. *)
Fixpoint four_digit_year (splits : list (date_t * (date_t * date_t)))
  : option (option DMY) :=
  match splits with
  | [] => None
  | (y, rest) :: splits' =>
      if ((DATE_MIN_YEAR <=? y) && (y <=? DATE_MAX_YEAR))%N then
        match map_ints_to_dm rest with
        | Some dm => Some (Some (mkDMY y (dmy_month dm) (dmy_day dm)))
        | None => Some None
        end
      else four_digit_year splits'
  end.

(** The loop of lines 809-817. *)
Fixpoint two_digit_year (splits : list (date_t * (date_t * date_t))) : option DMY :=
  match splits with
  | [] => None
  | (y, rest) :: splits' =>
      match map_ints_to_dm rest with
      | Some dm => Some (mkDMY (two_to_four_digit_year y) (dmy_month dm) (dmy_day dm))
      | None => two_digit_year splits'
      end
  end.

(** map_ints_to_dmy, lines 763-820 *)
Definition map_ints_to_dmy (vals : date_t * date_t * date_t) : option DMY :=
  let '(v0, v1, v2) := vals in
  if ((31 <? v1) || (v1 =? 0))%N then None
  else
    match count_ints [v0; v1; v2] 0 0 0 with
    | None => None
    | Some (over_12, over_31, under_1) =>
        if (2 <=? over_31) || (over_12 =? 3) || (2 <=? under_1) then None
        else
          let possible_year_splits := [ (v2, (v0, v1)); (v0, (v1, v2)) ] in
          match four_digit_year possible_year_splits with
          | Some r => r
          | None => two_digit_year possible_year_splits
          end
    end.

Fixpoint parse_digits (a : str) (acc : N) : N :=
  match a with
  | c :: a' =>
      if Regex.is_digit c then parse_digits a' (10 * acc + (N_of_ascii c - 48))%N
      else acc
  | [] => acc
  end.

Definition ULONG_MAX : N := 18446744073709551615%N.
Definition UINT_MODULUS : N := 4294967296%N.

(** stou, lines 638-641: [std::stoul] converted to [unsigned].  It is called
    on digits only; for a string that does not start with a digit (white
    space and signs, which [strtoul] skips, included) the model answers
    [std::invalid_argument]. *)
Definition stou (a : str) : result date_t :=
  match a with
  | c :: _ =>
      if Regex.is_digit c then
        let v := parse_digits a 0%N in
        if (ULONG_MAX <? v)%N then Err OutOfRange else Ok (v mod UINT_MODULUS)%N
      else Err InvalidArgument
  | [] => Err InvalidArgument
  end.

(** [^\d{4,8}$] *)
Definition maybe_date_no_separator : Regex.regex :=
  Regex.rseq [Regex.RBol; Regex.RQuant Regex.rdigit 4 (Some 8) true; Regex.REol].

(** [^(\d{1,4})([\s/\\_.-])(\d{1,2})\2(\d{1,4})$] *)
Definition maybe_date_with_separator : Regex.regex :=
  Regex.rseq
    [ Regex.RBol;
      Regex.RGroup 1 (Regex.RQuant Regex.rdigit 1 (Some 4) true);
      Regex.RGroup 2 (Regex.RClass [Regex.CSpace; Regex.CChar "/"; Regex.CChar "\";
                                    Regex.CChar "_"; Regex.CChar "."; Regex.CChar "-"]);
      Regex.RGroup 3 (Regex.RQuant Regex.rdigit 1 (Some 2) true);
      Regex.RBackref 2;
      Regex.RGroup 4 (Regex.RQuant Regex.rdigit 1 (Some 4) true);
      Regex.REol ].

(** The lambda [metric], lines 690-697. *)
Definition metric (candidate : DMY) : date_t :=
  if (REFERENCE_YEAR <=? dmy_year candidate)%N
  then (dmy_year candidate - REFERENCE_YEAR)%N
  else (REFERENCE_YEAR - dmy_year candidate)%N.

(** The loop over [DATE_SPLITS[token.length() - 4]], lines 673-682. *)
Definition date_candidates (tok : str) : result (list DMY) :=
  match nth_error DATE_SPLITS (length tok - 4) with
  | None => Err OutOfRange
  | Some splits =>
      for_each splits (fun item =>
        let k := fst item in
        let l := snd item in
        s0 <- substr tok 0 k ;;
        s1 <- substr tok k (l - k) ;;
        s2 <- substr_from tok l ;;
        v0 <- stou s0 ;;
        v1 <- stou s1 ;;
        v2 <- stou s2 ;;
        match map_ints_to_dmy (v0, v1, v2) with
        | Some dmy => Ok [dmy]
        | None => Ok []
        end)
  end.

Fixpoint take_while {A : Type} (p : A -> bool) (l : list A) : list A :=
  match l with
  | [] => []
  | a :: l' => if p a then a :: take_while p l' else []
  end.

(** The values of [j] in [for (j = first; j <= last; ++j) { if (j >=
    password.length()) break; ... }]. *)
Definition until_end (password : str) (first count : nat) : list nat :=
  take_while (fun j => j <? length password) (seq first count).

(** Dates without separators, lines 667-710. *)
Definition date_without_separator (password : str) : result (list Match) :=
  for_each (seq 0 (length password - 3)) (fun i =>
    for_each (until_end password (i + 3) 5) (fun j =>
      tok <- substr password i (j - i + 1) ;;
      if negb (found (Regex.regex_search maybe_date_no_separator tok)) then Ok []
      else
        candidates <- date_candidates tok ;;
        match candidates with
        | [] => Ok []
        | first :: rest =>
            let best_candidate :=
              min_element (fun a b => (metric a <? metric b)%N) first rest in
            Ok [mkMatch i j tok
                  (PDate (mkDateMatch [] (dmy_year best_candidate)
                            (dmy_month best_candidate) (dmy_day best_candidate) false))]
        end)).

(** Dates with separators, lines 712-734. *)
Definition date_with_separator (password : str) : result (list Match) :=
  for_each (seq 0 (length password - 5)) (fun i =>
    for_each (until_end password (i + 5) 5) (fun j =>
      tok <- substr password i (j - i + 1) ;;
      let rx_match := Regex.regex_match maybe_date_with_separator tok in
      if negb (found rx_match) then Ok []
      else
        v0 <- stou (Regex.sub_str tok rx_match 1) ;;
        v1 <- stou (Regex.sub_str tok rx_match 3) ;;
        v2 <- stou (Regex.sub_str tok rx_match 4) ;;
        match map_ints_to_dmy (v0, v1, v2) with
        | None => Ok []
        | Some dmy =>
            Ok [mkMatch i j tok
                  (PDate (mkDateMatch (Regex.sub_str tok rx_match 2) (dmy_year dmy)
                            (dmy_month dmy) (dmy_day dmy) false))]
        end)).

(** The predicate of lines 743-751; [matches] is the vector it is removing
    from. *)
Definition is_submatch (matches : list Match) (m : Match) : bool :=
  existsb (fun other_match =>
             negb ((i other_match =? i m) && (j other_match =? j m))
             && ((i other_match <=? i m) && (j m <=? j other_match)))
          matches.

Definition date_match (password : str) : result (list Match) :=
  without <- date_without_separator password ;;
  with_ <- date_with_separator password ;;
  let matches := without ++ with_ in
  let matches := erase_remove_if is_submatch moved_from matches in
  Ok (sorted matches).

(* ------------------------------------------------------------------------- *)
(** ** omnimatch, lines 132-160 *)

(** [ranked_dictionaries.insert(std::make_pair(tag, std::cref(dict)))]. *)
Definition insert_dict (dicts : RankedDicts) (tag : DictionaryTag) (dict : RankedDict)
  : RankedDicts :=
  if existsb (fun item => DictionaryTag_eqb (fst item) tag) dicts then dicts
  else dicts ++ [(tag, dict)].

(** [depth] bounds the nesting of the calls of [omnimatch] by [repeat_match]
    (line 504). *)
Fixpoint omnimatch_rec (depth : nat) (password : str) (ordered_list : list str)
  : result (list Match) :=
  match depth with
  | O => Err OutOfFuel
  | S depth' =>
      let ranked_dictionaries :=
        insert_dict default_ranked_dicts USER_INPUTS (build_ranked_dict ordered_list) in
      let matchers : list (str -> result (list Match)) :=
        [ (fun p => dictionary_match p ranked_dictionaries);
          (fun p => reverse_dictionary_match p ranked_dictionaries);
          (fun p => l33t_match p ranked_dictionaries L33T_TABLE);
          (fun p => spatial_match p graphs);
          repeat_match (fun base_token => omnimatch_rec depth' base_token []);
          sequence_match;
          (fun p => regex_match p REGEXEN);
          date_match ] in
      matches <- for_each matchers (fun matcher => matcher password) ;;
      Ok (sorted matches)
  end.

Definition omnimatch (password : str) (ordered_list : list str) : result (list Match) :=
  omnimatch_rec (S (length password)) password ordered_list.

End Model.

(* ------------------------------------------------------------------------- *)
(** * Properties *)

(** ** The error monad and the loops *)

Lemma bind_Ok {A B : Type} (c : result A) (k : A -> result B) (b : B) :
  bind c k = Ok b -> exists a, c = Ok a /\ k a = Ok b.
Proof.
  destruct c as [a|e]; simpl; intros H; [eauto | discriminate].
Qed.

Ltac inv_bind H :=
  let a := fresh "r" in
  let Ha := fresh "Hr" in
  apply bind_Ok in H; destruct H as (a & Ha & H).

Ltac inv_Ok H := injection H as H; try subst.

Lemma for_each_In {A B : Type} (body : A -> result (list B)) (l : list A) (r : list B) :
  for_each l body = Ok r ->
  forall y, In y r <-> exists x ys, In x l /\ body x = Ok ys /\ In y ys.
Proof.
  revert r; induction l as [|a l IH]; simpl; intros r H y.
  - inv_Ok H. split; [intros [] | intros (x & ys & [] & _)].
  - inv_bind H. inv_bind H. inv_Ok H. rewrite in_app_iff, (IH _ Hr0). split.
    + intros [Hy | (x & ys & Hx & Hb & Hy)]; [exists a, r0 | exists x, ys]; auto.
    + intros (x & ys & [-> | Hx] & Hb & Hy).
      * left. rewrite Hr in Hb. now inv_Ok Hb.
      * right. eauto.
Qed.

Lemma for_each_Forall {A B : Type} (P : B -> Prop) (body : A -> result (list B))
      (l : list A) (r : list B) :
  (forall x ys, In x l -> body x = Ok ys -> Forall P ys) ->
  for_each l body = Ok r -> Forall P r.
Proof.
  intros Hb H. apply Forall_forall. intros y Hy.
  apply (for_each_In _ _ H) in Hy. destruct Hy as (x & ys & Hx & Hbx & Hy).
  specialize (Hb x ys Hx Hbx). rewrite Forall_forall in Hb. auto.
Qed.

Lemma for_each_total {A B : Type} (body : A -> result (list B)) (l : list A) :
  (forall x, In x l -> exists ys, body x = Ok ys) ->
  exists r, for_each l body = Ok r.
Proof.
  induction l as [|a l IH]; simpl; intros Hb; [eauto |].
  destruct (Hb a (or_introl eq_refl)) as (ys & ->).
  destruct IH as (r & ->); [auto |]. simpl. eauto.
Qed.

Lemma for_each_ext {A B : Type} (f g : A -> result (list B)) (l : list A) :
  (forall x, In x l -> f x = g x) -> for_each l f = for_each l g.
Proof.
  induction l as [|a l IH]; simpl; intros H; [reflexivity |].
  rewrite H by auto. rewrite IH by auto. reflexivity.
Qed.

Lemma for_each_in_place_Forall2 {A : Type} (body : A -> result A) (v r : list A) :
  for_each_in_place v body = Ok r -> Forall2 (fun a a' => body a = Ok a') v r.
Proof.
  revert r; induction v as [|a v IH]; simpl; intros r H.
  - inv_Ok H. constructor.
  - inv_bind H. inv_bind H. inv_Ok H. constructor; auto.
Qed.

Lemma for_each_in_place_total {A : Type} (body : A -> result A) (v : list A) :
  (forall a, In a v -> exists a', body a = Ok a') ->
  exists r, for_each_in_place v body = Ok r.
Proof.
  induction v as [|a v IH]; simpl; intros Hb; [eauto |].
  destruct (Hb a (or_introl eq_refl)) as (a' & ->).
  destruct IH as (r & ->); [auto |]. simpl. eauto.
Qed.

(** ** Strings *)

Lemma str_eqb_eq (a b : str) : str_eqb a b = true <-> a = b.
Proof.
  revert b; induction a as [|x a IH]; destruct b as [|y b]; simpl;
    try (split; [discriminate | discriminate]); try tauto.
  rewrite andb_true_iff, Ascii.eqb_eq, IH. split.
  - intros [-> ->]; reflexivity.
  - intros H; injection H; auto.
Qed.

Lemma str_eqb_refl (a : str) : str_eqb a a = true.
Proof. now apply str_eqb_eq. Qed.

Lemma substr_Ok (s : str) (pos n : nat) :
  pos <= length s -> substr s pos n = Ok (firstn n (skipn pos s)).
Proof.
  intros H. unfold substr. destruct (Nat.ltb_spec (length s) pos); [lia | reflexivity].
Qed.

Lemma substr_inv (s : str) (pos n : nat) (t : str) :
  substr s pos n = Ok t -> pos <= length s /\ t = firstn n (skipn pos s).
Proof.
  unfold substr. destruct (Nat.ltb_spec (length s) pos) as [Hlt|Hle]; [discriminate |].
  intros H; inv_Ok H. auto.
Qed.

Lemma ascii_lower_length (s : str) : length (ascii_lower s) = length s.
Proof. apply length_map. Qed.

(** ** The regular expression matcher *)

Module RegexFacts.
Import Regex.

(** [lo + n - 1, ..., lo + 1, lo]: the order in which a greedy quantifier
    tries the numbers of rounds. *)
Fixpoint countdown (lo n : nat) : list nat :=
  match n with
  | O => []
  | S n' => (lo + n') :: countdown lo n'
  end.

(** The number of leading characters of [l] that satisfy [p]. *)
Fixpoint run (p : ascii -> bool) (l : str) : nat :=
  match l with
  | c :: l' => if p c then S (run p l') else 0
  | [] => 0
  end.

(** The number of copies of [s] that [l] starts with. *)
Fixpoint copies_fuel (fuel : nat) (s l : str) : nat :=
  match fuel with
  | O => 0
  | S fuel' =>
      if (length s <=? length l) && str_eqb s (firstn (length s) l)
      then S (copies_fuel fuel' s (skipn (length s) l))
      else 0
  end.

Definition copies (s l : str) : nat := copies_fuel (S (length l)) s l.

Definition at_ (x : MatchState) (n : nat) : MatchState :=
  mkState (endIndex x + n) (captures x).

Lemma countdown_In (lo n k : nat) : In k (countdown lo n) <-> lo <= k < lo + n.
Proof.
  induction n as [|n IH]; simpl; [lia |]. rewrite IH. lia.
Qed.

Lemma countdown_S (lo n : nat) : countdown (S lo) n = map S (countdown lo n).
Proof. induction n as [|n IH]; simpl; [reflexivity | now rewrite IH]. Qed.

Lemma countdown_snoc (lo n : nat) :
  countdown lo (S n) = countdown (S lo) n ++ [lo].
Proof.
  induction n as [|n IH]; simpl.
  - now rewrite Nat.add_0_r.
  - simpl in IH. rewrite IH. simpl. do 2 f_equal. lia.
Qed.

Lemma countdown_rev (lo n : nat) : countdown lo n = rev (seq lo n).
Proof.
  revert lo; induction n as [|n IH]; intros lo; [reflexivity |].
  rewrite countdown_snoc, IH. simpl. reflexivity.
Qed.

Lemma clear_captures_nil caps : clear_captures [] caps = caps.
Proof.
  unfold clear_captures. induction caps as [|kc caps IH]; simpl in *; [reflexivity | now rewrite IH].
Qed.

Lemma nth_error_skipn {A : Type} (l : list A) (n : nat) :
  nth_error l n = hd_error (skipn n l).
Proof.
  revert l; induction n as [|n IH]; intros [|a l]; simpl; auto.
Qed.

Lemma skipn_S_tail {A : Type} (l : list A) (n : nat) (a : A) (t : list A) :
  skipn n l = a :: t -> skipn (S n) l = t.
Proof.
  revert l; induction n as [|n IH]; intros [|b l]; simpl; try discriminate.
  - intros H; now injection H.
  - intros H. apply IH in H. exact H.
Qed.

Lemma char_matcher_skipn input p x :
  char_matcher input p x =
  match skipn (endIndex x) input with
  | ch :: _ => if p ch then [at_ x 1] else []
  | [] => []
  end.
Proof.
  unfold char_matcher, at_. rewrite nth_error_skipn.
  destruct (skipn (endIndex x) input) as [|ch t]; simpl; [reflexivity |].
  now rewrite Nat.add_1_r.
Qed.

Lemma at_0 x : at_ x 0 = x.
Proof. destruct x; unfold at_; simpl. now rewrite Nat.add_0_r. Qed.

Lemma at_at x a b : at_ (at_ x a) b = at_ x (a + b).
Proof. unfold at_; simpl. f_equal. lia. Qed.

Lemma option_eq_dec_nat (a b : option nat) : {a = b} + {a <> b}.
Proof. repeat decide equality. Qed.

Definition upper (max : option nat) (r : nat) : nat :=
  match max with
  | None => r
  | Some mx => Nat.min r mx
  end.

Definition le_max (min : nat) (max : option nat) : Prop :=
  match max with
  | None => True
  | Some mx => min <= mx
  end.

Lemma repeat_matcher_unfold fuel m inner min max greedy x :
  max <> Some 0 ->
  repeat_matcher (S fuel) m inner min max greedy x =
  let xr := mkState (endIndex x) (clear_captures inner (captures x)) in
  let more :=
    flat_map (fun y =>
                if (min =? 0) && (endIndex y =? endIndex x) then []
                else repeat_matcher fuel m inner (pred min) (option_map pred max) greedy y)
             (m xr) in
  if min =? 0 then (if greedy then more ++ [x] else x :: more) else more.
Proof.
  intros Hmax. destruct max as [[|mx]|]; [congruence | reflexivity | reflexivity].
Qed.

Lemma upper_S max r :
  max <> Some 0 -> upper max (S r) = S (upper (option_map pred max) r).
Proof.
  destruct max as [[|mx]|]; simpl; intros H; [congruence | | reflexivity].
  now rewrite Nat.succ_min_distr.
Qed.

Lemma upper_0 max : upper max 0 = 0.
Proof. destruct max; reflexivity. Qed.

Lemma le_max_pred min max :
  max <> Some 0 -> le_max min max -> le_max (pred min) (option_map pred max).
Proof. destruct max as [[|mx]|]; simpl; intros; try congruence; lia. Qed.

(** A quantified character class: the numbers of rounds from the longest run
    the input and [max] allow down to [min] (greedy), or upwards (lazy). *)
Lemma repeat_char input p greedy : forall fuel min max x,
  run p (skipn (endIndex x) input) < fuel ->
  le_max min max ->
  repeat_matcher fuel (char_matcher input p) [] min max greedy x =
  map (at_ x)
      (let n := upper max (run p (skipn (endIndex x) input)) + 1 - min in
       if greedy then countdown min n else seq min n).
Proof.
  induction fuel as [|fuel IH]; intros min max x Hfuel Hmax; [lia |].
  destruct (option_eq_dec_nat max (Some 0)) as [-> | Hpos].
  - simpl in Hmax. assert (min = 0) by lia. subst min.
    simpl repeat_matcher. unfold upper. rewrite Nat.min_0_r. simpl.
    destruct greedy; simpl; now rewrite at_0.
  - rewrite repeat_matcher_unfold by assumption. cbv zeta.
    rewrite clear_captures_nil.
    replace (mkState (endIndex x) (captures x)) with x by (now destruct x).
    rewrite char_matcher_skipn.
    destruct (skipn (endIndex x) input) as [|ch t] eqn:Hskip;
      [| destruct (p ch) eqn:Hp].
    + simpl run. rewrite upper_0. destruct min; simpl; destruct greedy; simpl;
        now rewrite ?at_0.
    + simpl run in *. rewrite Hp in *. simpl flat_map. rewrite app_nil_r.
      replace (endIndex x + 1 =? endIndex x) with false
        by (symmetry; apply Nat.eqb_neq; lia).
      rewrite andb_false_r.
      assert (Ht : skipn (endIndex (at_ x 1)) input = t).
      { unfold at_; simpl. rewrite Nat.add_1_r. eapply skipn_S_tail; eauto. }
      rewrite IH; [| rewrite Ht; lia | now apply le_max_pred].
      rewrite Ht, upper_S by assumption. cbv zeta.
      set (h := upper (option_map Nat.pred max) (run p t)).
      destruct min as [|min]; simpl Nat.pred; simpl Nat.eqb; cbv iota.
      * replace (S h + 1 - 0) with (S (h + 1 - 0)) by lia.
        destruct greedy.
        -- rewrite countdown_snoc, map_app. simpl. rewrite at_0. f_equal.
           rewrite countdown_S, !map_map. apply map_ext. intros n.
           rewrite at_at. reflexivity.
        -- simpl. rewrite at_0. f_equal. rewrite <- seq_shift, !map_map.
           apply map_ext. intros n. rewrite at_at. reflexivity.
      * replace (S h + 1 - S min) with (h + 1 - min) by lia.
        destruct greedy.
        -- rewrite countdown_S, !map_map. apply map_ext. intros n.
           rewrite at_at. reflexivity.
        -- rewrite <- seq_shift, !map_map. apply map_ext. intros n.
           rewrite at_at. reflexivity.
    + simpl run in *. rewrite Hp in *. rewrite upper_0.
      destruct min; simpl; destruct greedy; simpl; now rewrite ?at_0.
Qed.

(** *** Copies of a captured string *)

Definition starts_with (s l : str) : bool :=
  (length s <=? length l) && str_eqb s (firstn (length s) l).

Lemma starts_with_app (s l : str) :
  starts_with s l = true <-> exists t, l = s ++ t.
Proof.
  unfold starts_with. rewrite andb_true_iff, Nat.leb_le, str_eqb_eq. split.
  - intros [_ H]. exists (skipn (length s) l).
    rewrite H at 1. now rewrite firstn_skipn.
  - intros [t ->]. rewrite length_app. split; [lia |].
    rewrite firstn_app, Nat.sub_diag, firstn_all. simpl. now rewrite app_nil_r.
Qed.

Lemma copies_fuel_indep (s : str) : 0 < length s ->
  forall f1 f2 l, length l < f1 -> length l < f2 ->
  copies_fuel f1 s l = copies_fuel f2 s l.
Proof.
  intros Hs. induction f1 as [|f1 IH]; intros f2 l H1 H2; [lia |].
  destruct f2 as [|f2]; [lia |]. simpl.
  destruct (Nat.leb_spec (length s) (length l)) as [Hle|Hgt]; simpl; [| reflexivity].
  destruct (str_eqb s (firstn (length s) l)); [| reflexivity].
  f_equal. apply IH; rewrite length_skipn; lia.
Qed.

Lemma copies_unfold (s l : str) : 0 < length s ->
  copies s l = if starts_with s l then S (copies s (skipn (length s) l)) else 0.
Proof.
  intros Hs. unfold copies at 1. simpl. fold (starts_with s l).
  destruct (starts_with s l) eqn:Hst; [| reflexivity].
  unfold starts_with in Hst. apply andb_true_iff in Hst. destruct Hst as [Hle _].
  apply Nat.leb_le in Hle.
  f_equal. unfold copies. apply copies_fuel_indep; auto; rewrite length_skipn; lia.
Qed.

Lemma copies_app (s t : str) : 0 < length s -> copies s (s ++ t) = S (copies s t).
Proof.
  intros Hs. rewrite copies_unfold by assumption.
  replace (starts_with s (s ++ t)) with true
    by (symmetry; apply starts_with_app; eauto).
  now rewrite skipn_app, Nat.sub_diag, skipn_all.
Qed.

(** The string [s] written [k] times. *)
Definition power (s : str) (k : nat) : str := concat (repeat s k).

Lemma power_S (s : str) (k : nat) : power s (S k) = s ++ power s k.
Proof. reflexivity. Qed.

Lemma power_length (s : str) (k : nat) : length (power s k) = k * length s.
Proof.
  induction k as [|k IH]; [reflexivity |].
  rewrite power_S, length_app, IH. simpl. reflexivity.
Qed.

Lemma copies_power_app (s t : str) (k : nat) :
  0 < length s -> copies s (power s k ++ t) = k + copies s t.
Proof.
  intros Hs. induction k as [|k IH]; [reflexivity |].
  rewrite power_S, <- app_assoc, copies_app, IH by assumption. reflexivity.
Qed.

Lemma copies_nil (s : str) : 0 < length s -> copies s [] = 0.
Proof.
  intros Hs. rewrite copies_unfold by assumption.
  unfold starts_with. simpl. destruct (Nat.leb_spec (length s) 0); [lia | reflexivity].
Qed.

Lemma copies_power (s : str) (k : nat) : 0 < length s -> copies s (power s k) = k.
Proof.
  intros Hs. rewrite <- (app_nil_r (power s k)), copies_power_app by assumption.
  rewrite copies_nil by assumption. lia.
Qed.

(** [l] starts with [copies s l] copies of [s]. *)
Lemma copies_spec (s : str) : 0 < length s ->
  forall n l, length l < n -> exists t, l = power s (copies s l) ++ t.
Proof.
  intros Hs. induction n as [|n IH]; intros l Hn; [lia |].
  rewrite copies_unfold by assumption.
  destruct (starts_with s l) eqn:Hst.
  - apply starts_with_app in Hst. destruct Hst as [t ->].
    rewrite skipn_app, Nat.sub_diag, skipn_all. simpl skipn.
    change ([] ++ t) with t.
    rewrite length_app in Hn.
    destruct (IH t) as [t' Ht']; [lia |].
    exists t'. rewrite power_S, <- app_assoc. now rewrite <- Ht'.
  - exists l. reflexivity.
Qed.

Lemma copies_bound (s l : str) : 0 < length s -> copies s l * length s <= length l.
Proof.
  intros Hs. destruct (@copies_spec s Hs (S (length l)) l (Nat.lt_succ_diag_r _)) as [t Ht].
  apply (f_equal (@length _)) in Ht. rewrite length_app, power_length in Ht. lia.
Qed.

Lemma slice_length (input : str) (a b : nat) :
  b <= length input -> length (slice input a b) = b - a.
Proof.
  intros H. unfold slice. rewrite length_firstn, length_skipn. lia.
Qed.

Lemma backref_matcher_starts input k x a b :
  capture k (captures x) = Some (a, b) -> a < b -> b <= length input ->
  backref_matcher input k x =
  if starts_with (slice input a b) (skipn (endIndex x) input)
  then [at_ x (b - a)] else [].
Proof.
  intros Hcap Hab Hb. unfold backref_matcher. rewrite Hcap.
  unfold starts_with. rewrite slice_length, length_skipn by assumption.
  unfold slice at 2. replace (endIndex x + (b - a) - endIndex x) with (b - a) by lia.
  destruct (Nat.leb_spec (endIndex x + (b - a)) (length input));
    destruct (Nat.leb_spec (b - a) (length input - endIndex x)); try lia; reflexivity.
Qed.

(** A quantified back reference to a captured string that is not empty: the
    numbers of copies from all the input holds down to [min]. *)
Lemma repeat_backref input k a b : a < b -> b <= length input ->
  forall fuel min x,
  capture k (captures x) = Some (a, b) ->
  copies (slice input a b) (skipn (endIndex x) input) < fuel ->
  repeat_matcher fuel (backref_matcher input k) [] min None true x =
  map (fun c => at_ x (c * (b - a)))
      (countdown min (copies (slice input a b) (skipn (endIndex x) input) + 1 - min)).
Proof.
  intros Hab Hb.
  assert (Hs : 0 < length (slice input a b)) by (rewrite slice_length; lia).
  induction fuel as [|fuel IH]; intros min x Hcap Hfuel; [lia |].
  rewrite repeat_matcher_unfold by discriminate. cbv zeta.
  rewrite clear_captures_nil.
  replace (mkState (endIndex x) (captures x)) with x by (now destruct x).
  rewrite backref_matcher_starts with (a := a) (b := b) by assumption.
  rewrite copies_unfold in * by assumption.
  destruct (starts_with (slice input a b) (skipn (endIndex x) input)) eqn:Hst.
  - simpl flat_map. rewrite app_nil_r.
    replace (endIndex x + (b - a) =? endIndex x) with false
      by (symmetry; apply Nat.eqb_neq; lia).
    rewrite andb_false_r.
    rewrite skipn_skipn, slice_length in * by assumption.
    rewrite (Nat.add_comm (b - a)) in *.
    rewrite IH; [| exact Hcap | simpl; lia].
    simpl endIndex. simpl option_map.
    set (h := copies (slice input a b) (skipn (endIndex x + (b - a)) input)).
    destruct min as [|min]; simpl Nat.pred; simpl Nat.eqb; cbv iota.
    + replace (S h + 1 - 0) with (S (h + 1 - 0)) by lia.
      rewrite countdown_snoc, map_app. simpl. rewrite at_0. f_equal.
      rewrite countdown_S, !map_map. apply map_ext. intros n.
      rewrite at_at; f_equal; lia.
    + replace (S h + 1 - S min) with (h + 1 - min) by lia.
      rewrite countdown_S, !map_map. apply map_ext. intros n.
      rewrite at_at; f_equal; lia.
  - simpl. destruct min; simpl; now rewrite ?at_0.
Qed.

Lemma seq_split_order (lo len : nat) (l1 l2 : list nat) (a b : nat) :
  seq lo len = l1 ++ b :: l2 -> In a l1 -> a < b.
Proof.
  revert lo l1; induction len as [|len IH]; intros lo l1 H Ha.
  - destruct l1; discriminate.
  - destruct l1 as [|x l1]; [destruct Ha |].
    simpl in H. injection H as <- H. destruct Ha as [<- | Ha].
    + assert (Hb : In b (seq (S lo) len)) by (rewrite H; apply in_elt).
      apply in_seq in Hb. lia.
    + eapply IH; eauto.
Qed.

(** *** Lists of matches *)

Lemma flat_map_map {A B C : Type} (f : B -> list C) (g : A -> B) (l : list A) :
  flat_map f (map g l) = flat_map (fun a => f (g a)) l.
Proof. induction l as [|a l IH]; simpl; [reflexivity | now rewrite IH]. Qed.

Lemma flat_map_assoc {A B C : Type} (f : A -> list B) (g : B -> list C) (l : list A) :
  flat_map g (flat_map f l) = flat_map (fun a => flat_map g (f a)) l.
Proof.
  induction l as [|a l IH]; simpl; [reflexivity |].
  now rewrite flat_map_app, IH.
Qed.

Lemma flat_map_ext_in {A B : Type} (f g : A -> list B) (l : list A) :
  (forall a, In a l -> f a = g a) -> flat_map f l = flat_map g l.
Proof.
  induction l as [|a l IH]; simpl; intros H; [reflexivity |].
  rewrite H by auto. rewrite IH by auto. reflexivity.
Qed.

Lemma flat_map_nil {A B : Type} (f : A -> list B) (l : list A) :
  flat_map f l = [] <-> forall a, In a l -> f a = [].
Proof.
  induction l as [|a l IH]; simpl; [tauto |]. split.
  - intros H. apply app_eq_nil in H. destruct H as [Ha Hl].
    intros b [<- | Hb]; [assumption | now apply IH].
  - intros H. rewrite (H a) by auto. simpl. apply IH. auto.
Qed.

(** The first match of a sequence: the first choice of the first part that
    the second part accepts. *)
Lemma flat_map_head {A B : Type} (f : A -> list B) (l : list A) (y : B) (ys : list B) :
  flat_map f l = y :: ys ->
  exists l1 a l2 zs,
    l = l1 ++ a :: l2 /\ (forall b, In b l1 -> f b = []) /\ f a = y :: zs.
Proof.
  induction l as [|a l IH]; simpl; intros H; [discriminate |].
  destruct (f a) as [|z zs] eqn:Hfa.
  - simpl in H. destruct (IH H) as (l1 & b & l2 & zs & -> & Hl1 & Hb).
    exists (a :: l1), b, l2, zs. repeat split; auto.
    intros c [<- | Hc]; auto.
  - simpl in H. injection H as -> _. exists [], a, l, zs. repeat split; auto.
    intros b [].
Qed.

Lemma run_le (p : ascii -> bool) (l : str) : run p l <= length l.
Proof. induction l as [|c l IH]; simpl; [lia | destruct (p c); simpl; lia]. Qed.

Lemma run_Forall (p : ascii -> bool) (l : str) (n : nat) :
  n <= run p l -> Forall (fun c => p c = true) (firstn n l).
Proof.
  revert n; induction l as [|c l IH]; intros n Hn; simpl in Hn.
  - rewrite firstn_nil. constructor.
  - destruct n as [|n]; [constructor |]. simpl. destruct (p c) eqn:Hp; [| lia].
    constructor; [assumption | apply IH; lia].
Qed.

Lemma run_all (p : ascii -> bool) (l t : str) :
  Forall (fun c => p c = true) l -> length l <= run p (l ++ t).
Proof.
  induction 1 as [|c l Hc Hl IH]; simpl; [lia |]. rewrite Hc. lia.
Qed.

(** *** The patterns of repeat_match *)

Definition dot (c : ascii) : bool := negb (is_line_terminator c).

(** [(.+)\1+] and [(.+?)\1+]. *)
Definition unit_pattern (greedy : bool) : regex :=
  RSeq (RGroup 1 (rplus RAny greedy)) (rplus (RBackref 1) true).

(** The matches whose first group is the [n] characters from [p]: the group
    and [c] more copies of it, for the largest [c] first. *)
Definition unit_matches (input : str) (p n : nat) : list MatchState :=
  map (fun c => mkState (p + n * S c) [(1, (p, p + n))])
      (countdown 1 (copies (slice input p (p + n)) (skipn (p + n) input))).

Definition unit_lengths (input : str) (greedy : bool) (p : nat) : list nat :=
  let r := run dot (skipn p input) in
  if greedy then countdown 1 r else seq 1 r.

Lemma unit_lengths_In input greedy p n :
  In n (unit_lengths input greedy p) <-> 1 <= n <= run dot (skipn p input).
Proof.
  unfold unit_lengths. destruct greedy.
  - rewrite countdown_In. lia.
  - rewrite in_seq. lia.
Qed.

Lemma compile_unit_pattern input greedy p :
  compile input (unit_pattern greedy) (mkState p []) =
  flat_map (unit_matches input p) (unit_lengths input greedy p).
Proof.
  assert (Hrun : run dot (skipn p input) <= length input - p).
  { rewrite <- length_skipn. apply run_le. }
  unfold unit_pattern, rplus. cbn [compile groups_of].
  change (fun ch => negb (is_line_terminator ch)) with dot.
  rewrite repeat_char; [| simpl; lia | exact I].
  simpl endIndex. simpl upper. cbv zeta.
  replace (run dot (skipn p input) + 1 - 1) with (run dot (skipn p input)) by lia.
  fold (unit_lengths input greedy p).
  rewrite map_map, flat_map_map.
  apply flat_map_ext_in. intros n Hn. apply unit_lengths_In in Hn.
  cbn [at_ endIndex captures].
  rewrite repeat_backref with (a := p) (b := p + n).
  - cbn [endIndex captures]. unfold unit_matches, at_. cbn [endIndex captures].
    replace (p + n - p) with n by lia.
    replace (copies (slice input p (p + n)) (skipn (p + n) input) + 1 - 1)
      with (copies (slice input p (p + n)) (skipn (p + n) input)) by lia.
    apply map_ext. intros c. f_equal. nia.
  - lia.
  - lia.
  - reflexivity.
  - simpl.
    assert (Hc := @copies_bound (slice input p (p + n)) (skipn (p + n) input)).
    rewrite slice_length, length_skipn in Hc by lia. specialize (Hc ltac:(lia)). nia.
Qed.

(** What a match of [unit_pattern] looks like. *)
Record unit_match (input : str) (p : nat) (y : MatchState) (n c : nat) : Prop := {
  um_state : y = mkState (p + n * S c) [(1, (p, p + n))];
  um_length : 1 <= n <= run dot (skipn p input);
  um_copies : c = copies (slice input p (p + n)) (skipn (p + n) input);
  um_repeated : 1 <= c;
  um_end : p + n * S c <= length input
}.

Lemma unit_matches_head input p n y ys :
  1 <= n <= run dot (skipn p input) ->
  unit_matches input p n = y :: ys ->
  exists c, unit_match input p y n c.
Proof.
  intros Hn H. unfold unit_matches in H.
  assert (Hrun : run dot (skipn p input) <= length input - p).
  { rewrite <- length_skipn. apply run_le. }
  assert (Hc := @copies_bound (slice input p (p + n)) (skipn (p + n) input)).
  rewrite slice_length, length_skipn in Hc by lia. specialize (Hc ltac:(lia)).
  destruct (copies (slice input p (p + n)) (skipn (p + n) input)) as [|c] eqn:Hcopies;
    [discriminate |].
  simpl in H. injection H as <- _. exists (S c). split; auto; try lia; nia.
Qed.

Lemma unit_matches_nil input p n :
  unit_matches input p n = [] <->
  copies (slice input p (p + n)) (skipn (p + n) input) = 0.
Proof.
  unfold unit_matches.
  destruct (copies (slice input p (p + n)) (skipn (p + n) input)); simpl; split;
    congruence.
Qed.

(** The first match of the greedy pattern has the longest first group that
    is repeated, the first match of the lazy pattern the shortest. *)
Lemma unit_pattern_head input greedy p y ys :
  compile input (unit_pattern greedy) (mkState p []) = y :: ys ->
  exists n c,
    unit_match input p y n c /\
    forall n', 1 <= n' <= run dot (skipn p input) ->
               (if greedy then n < n' else n' < n) ->
               copies (slice input p (p + n')) (skipn (p + n') input) = 0.
Proof.
  rewrite compile_unit_pattern. intros H.
  apply flat_map_head in H. destruct H as (l1 & n & l2 & zs & Hl & Hl1 & Hn).
  assert (Hin : In n (unit_lengths input greedy p)) by (rewrite Hl; apply in_elt).
  apply unit_lengths_In in Hin.
  destruct (unit_matches_head _ _ Hin Hn) as [c Hc].
  exists n, c. split; [assumption |].
  intros n' Hn' Hlt. apply unit_matches_nil, Hl1.
  unfold unit_lengths in Hl. destruct greedy.
  - rewrite countdown_rev in Hl.
    apply (f_equal (@rev nat)) in Hl. rewrite rev_involutive, rev_app_distr in Hl.
    simpl in Hl. rewrite <- app_assoc in Hl. simpl in Hl.
    assert (Hin' : In n' (seq 1 (run dot (skipn p input)))) by (apply in_seq; lia).
    rewrite Hl in Hin'. apply in_app_or in Hin'.
    destruct Hin' as [Hin' | [-> | Hin']]; [| lia | now apply in_rev].
    exfalso. assert (n' < n); [| lia].
    eapply seq_split_order with (a := n') (b := n); eauto.
  - assert (Hin' : In n' (seq 1 (run dot (skipn p input)))) by (apply in_seq; lia).
    rewrite Hl in Hin'. apply in_app_or in Hin'.
    destruct Hin' as [Hin' | [-> | Hin']]; [assumption | lia |].
    exfalso. apply in_split in Hin'. destruct Hin' as (l3 & l4 & ->).
    assert (n < n'); [| lia].
    eapply seq_split_order with (a := n) (b := n') (l1 := l1 ++ n :: l3).
    + rewrite Hl, <- app_assoc. reflexivity.
    + apply in_elt.
Qed.

(** *** Searching *)

Lemma search_from_inv r input starts :
  search_from r input starts = [] \/
  exists p y ys,
    In p starts /\ compile input r (mkState p []) = y :: ys /\
    search_from r input starts = results r p y.
Proof.
  induction starts as [|p starts IH]; simpl; [auto |].
  destruct (compile input r (mkState p [])) as [|y ys] eqn:Hc.
  - destruct IH as [IH | (q & y & ys & Hq & Hy & IH)]; [auto |].
    right. exists q, y, ys. auto.
  - right. exists p, y, ys. auto.
Qed.

Lemma search_from_found r input starts p :
  In p starts -> compile input r (mkState p []) <> [] ->
  search_from r input starts <> [].
Proof.
  induction starts as [|q starts IH]; simpl; intros Hp Hc; [contradiction |].
  destruct (compile input r (mkState q [])) as [|y ys] eqn:Hq.
  - destruct Hp as [-> | Hp]; [contradiction |]. auto.
  - unfold results. discriminate.
Qed.

(** Two patterns that match at the same positions are found at the same
    position. *)
Lemma search_from_same r1 r2 input starts :
  (forall p, compile input r1 (mkState p []) = [] <->
             compile input r2 (mkState p []) = []) ->
  (search_from r1 input starts = [] /\ search_from r2 input starts = []) \/
  exists p y1 ys1 y2 ys2,
    In p starts /\
    compile input r1 (mkState p []) = y1 :: ys1 /\
    compile input r2 (mkState p []) = y2 :: ys2 /\
    search_from r1 input starts = results r1 p y1 /\
    search_from r2 input starts = results r2 p y2.
Proof.
  intros Hsame. induction starts as [|p starts IH]; simpl; [auto |].
  destruct (compile input r1 (mkState p [])) as [|y1 ys1] eqn:H1;
    destruct (compile input r2 (mkState p [])) as [|y2 ys2] eqn:H2.
  - destruct IH as [IH | (q & z1 & zs1 & z2 & zs2 & Hq & IH)]; [auto |].
    right. exists q, z1, zs1, z2, zs2. tauto.
  - apply Hsame in H1. congruence.
  - apply Hsame in H2. congruence.
  - right. exists p, y1, ys1, y2, ys2. auto.
Qed.

Lemma unit_pattern_same input p :
  compile input (unit_pattern true) (mkState p []) = [] <->
  compile input (unit_pattern false) (mkState p []) = [].
Proof.
  rewrite !compile_unit_pattern, !flat_map_nil.
  split; intros H n Hn; apply H; apply unit_lengths_In; apply unit_lengths_In in Hn;
    exact Hn.
Qed.

Lemma results_unit_pattern input greedy p y n c :
  unit_match input p y n c ->
  results (unit_pattern greedy) p y = [Some (p, p + n * S c); Some (p, p + n)].
Proof.
  intros [-> _ _ _ _]. reflexivity.
Qed.

(** The two searches of repeat_match, lines 471-474: both fail, or both
    succeed at the same position [p]; the greedy one with the longest first
    group that is repeated, the lazy one with the shortest. *)
Lemma unit_search (range : str) :
  (regex_search (unit_pattern true) range = [] /\
   regex_search (unit_pattern false) range = []) \/
  exists p n1 c1 n2 c2 y1 y2,
    regex_search (unit_pattern true) range = [Some (p, p + n1 * S c1); Some (p, p + n1)] /\
    regex_search (unit_pattern false) range = [Some (p, p + n2 * S c2); Some (p, p + n2)] /\
    unit_match range p y1 n1 c1 /\
    unit_match range p y2 n2 c2 /\
    (forall n', 1 <= n' < n2 ->
                copies (slice range p (p + n')) (skipn (p + n') range) = 0).
Proof.
  unfold regex_search.
  destruct (search_from_same (unit_pattern true) (unit_pattern false) range
              (seq 0 (S (length range))) (unit_pattern_same range))
    as [H | (p & y1 & ys1 & y2 & ys2 & Hp & H1 & H2 & Hs1 & Hs2)]; [auto |].
  right.
  apply unit_pattern_head in H1. destruct H1 as (n1 & c1 & Hm1 & _).
  apply unit_pattern_head in H2. destruct H2 as (n2 & c2 & Hm2 & Hmin).
  exists p, n1, c1, n2, c2, y1, y2.
  rewrite Hs1, Hs2.
  rewrite (results_unit_pattern true Hm1), (results_unit_pattern false Hm2).
  split; [reflexivity |]. split; [reflexivity |].
  split; [assumption |]. split; [assumption |].
  intros n' Hn'. apply Hmin; [| lia]. destruct Hm2. lia.
Qed.

Lemma slice_skipn (input : str) (a b : nat) :
  slice input a b = firstn (b - a) (skipn a input).
Proof. reflexivity. Qed.

(** The text of a match of [unit_pattern]: the first group, [c + 1] times. *)
Lemma unit_match_power input p y n c :
  unit_match input p y n c ->
  slice input p (p + n * S c) = power (slice input p (p + n)) (S c) /\
  length (slice input p (p + n)) = n /\
  Forall (fun ch => dot ch = true) (slice input p (p + n)).
Proof.
  intros [_ Hn Hc Hc1 Hend].
  assert (Hlen : length (slice input p (p + n)) = n) by (rewrite slice_length; lia).
  split; [| split; [assumption |]].
  - destruct (@copies_spec (slice input p (p + n)) ltac:(lia)
                (S (length (skipn (p + n) input))) (skipn (p + n) input)
                (Nat.lt_succ_diag_r _)) as [t Ht].
    rewrite <- Hc in Ht.
    unfold slice at 1. replace (p + n * S c - p) with (n + n * c) by lia.
    rewrite <- (firstn_skipn n (skipn p input)), skipn_skipn.
    rewrite (Nat.add_comm n p), Ht.
    rewrite firstn_app, length_firstn, length_skipn.
    replace (Nat.min n (length input - p)) with n by nia.
    rewrite firstn_firstn. replace (Nat.min (n + n * c) n) with n by nia.
    replace (n + n * c - n) with (n * c) by lia.
    rewrite firstn_app, power_length, Hlen. replace (n * c - c * n) with 0 by lia.
    rewrite (@firstn_all2 _ (n * c) (power (slice input p (p + n)) c))
      by (rewrite power_length, Hlen; lia).
    simpl firstn. rewrite app_nil_r. rewrite power_S. unfold slice.
    now replace (p + n - p) with n by lia.
  - unfold slice. replace (p + n - p) with n by lia. apply run_Forall. lia.
Qed.

(** *** The anchored pattern *)

Definition at_end (input : str) (y : MatchState) : list MatchState :=
  if endIndex y =? length input then [y] else [].

Lemma compile_lazy_anchored input p :
  compile input
          (rseq [RBol; RGroup 1 (rplus RAny false); rplus (RBackref 1) true; REol])
          (mkState p []) =
  if p =? 0
  then flat_map (at_end input) (compile input (unit_pattern false) (mkState 0 []))
  else [].
Proof.
  unfold rseq, unit_pattern. cbn [compile endIndex].
  destruct (Nat.eqb_spec p 0) as [-> | Hp]; [| reflexivity].
  cbn [flat_map]. rewrite app_nil_r, flat_map_assoc. reflexivity.
Qed.

(** A string that is a unit written twice or more. *)
Definition repeats (u t : str) : Prop :=
  u <> [] /\ exists k, 2 <= k /\ t = power u k.

Lemma power_firstn (v : str) (k : nat) : 1 <= k -> firstn (length v) (power v k) = v.
Proof.
  destruct k as [|k]; [lia |]. intros _. rewrite power_S.
  rewrite firstn_app, Nat.sub_diag, firstn_all. simpl. apply app_nil_r.
Qed.

Lemma power_skipn (v : str) (k : nat) : skipn (length v) (power v (S k)) = power v k.
Proof.
  rewrite power_S, skipn_app, Nat.sub_diag, skipn_all. reflexivity.
Qed.

Lemma power_Forall (P : ascii -> Prop) (v : str) (k : nat) :
  Forall P v -> Forall P (power v k).
Proof.
  intros Hv. induction k as [|k IH]; [constructor |].
  rewrite power_S. apply Forall_app. auto.
Qed.

(** A unit of [n] characters that [input] repeats is accepted by the anchored
    pattern. *)
Lemma unit_matches_at_end input (v : str) (k : nat) :
  v <> [] -> 2 <= k -> input = power v k ->
  flat_map (at_end input) (unit_matches input 0 (length v)) <> [].
Proof.
  intros Hv Hk ->. destruct k as [|[|k]]; try lia.
  assert (Hlen : 0 < length v) by (destruct v; simpl; [congruence | lia]).
  unfold unit_matches. rewrite slice_skipn. simpl skipn at 1.
  replace (0 + length v - 0) with (length v) by lia.
  rewrite power_firstn by lia. simpl (0 + length v). rewrite power_skipn.
  rewrite copies_power by assumption.
  simpl countdown. simpl map. simpl flat_map. unfold at_end at 1. simpl endIndex.
  rewrite power_length.
  replace (length v * S (S k) =? S (S k) * length v) with true
    by (symmetry; apply Nat.eqb_eq; lia).
  discriminate.
Qed.

(** The search of line 489 on a string that repeats a unit of characters
    other than line terminators succeeds. *)
Lemma anchored_search_total (w v : str) (k : nat) :
  v <> [] -> 2 <= k -> w = power v k -> Forall (fun ch => dot ch = true) v ->
  regex_search (rseq [RBol; RGroup 1 (rplus RAny false); rplus (RBackref 1) true; REol])
               w <> [].
Proof.
  intros Hv Hk Hw Hdot. unfold regex_search.
  apply search_from_found with (p := 0); [apply in_seq; lia |].
  rewrite compile_lazy_anchored. simpl Nat.eqb. cbv iota.
  rewrite compile_unit_pattern, flat_map_assoc.
  intros H. rewrite flat_map_nil in H.
  apply (unit_matches_at_end Hv Hk Hw). apply H.
  apply unit_lengths_In. simpl skipn.
  assert (Hlen : 0 < length v) by (destruct v; simpl; [congruence | lia]).
  split; [lia |].
  rewrite Hw. destruct k as [|k]; [lia |]. rewrite power_S.
  apply run_all. assumption.
Qed.

(** What the search of line 489 finds: the shortest unit that the whole
    string repeats. *)
Lemma anchored_search_sound (w : str) (m : smatch) :
  regex_search (rseq [RBol; RGroup 1 (rplus RAny false); rplus (RBackref 1) true; REol])
               w = m ->
  m <> [] ->
  exists n,
    m = [Some (0, length w); Some (0, n)] /\
    repeats (firstn n w) w /\
    length (firstn n w) = n /\
    forall v, repeats v w -> n <= length v.
Proof.
  intros Hm Hne. unfold regex_search in Hm.
  destruct (search_from_inv
              (rseq [RBol; RGroup 1 (rplus RAny false); rplus (RBackref 1) true; REol])
              w (seq 0 (S (length w))))
    as [H | (p & y & ys & Hp & Hc & Hs)]; [congruence |].
  rewrite compile_lazy_anchored in Hc.
  destruct (Nat.eqb_spec p 0) as [-> | Hp0]; [| discriminate].
  rewrite compile_unit_pattern, flat_map_assoc in Hc.
  apply flat_map_head in Hc. destruct Hc as (l1 & n & l2 & zs & Hl & Hl1 & Hn).
  assert (Hin : In n (unit_lengths w false 0)) by (rewrite Hl; apply in_elt).
  apply unit_lengths_In in Hin. simpl skipn in Hin.
  assert (Hrun := run_le dot w).
  (* the match: the unit and [c] copies, up to the end of [w] *)
  assert (Hy : In y (flat_map (at_end w) (unit_matches w 0 n)))
    by (rewrite Hn; now left).
  apply in_flat_map in Hy. destruct Hy as (z & Hz & Hy).
  unfold at_end in Hy. destruct (Nat.eqb_spec (endIndex z) (length w)) as [He|]; [| destruct Hy].
  destruct Hy as [<- | []].
  unfold unit_matches in Hz. apply in_map_iff in Hz. destruct Hz as (c & <- & Hc).
  apply countdown_In in Hc. simpl in He.
  assert (Hslice : slice w 0 (0 + n) = firstn n w).
  { unfold slice. simpl. now rewrite Nat.sub_0_r. }
  rewrite Hslice in Hc. simpl skipn in Hc.
  assert (Hlen : length (firstn n w) = n) by (rewrite length_firstn; lia).
  destruct (@copies_spec (firstn n w) ltac:(lia) (S (length (skipn n w))) (skipn n w)
              (Nat.lt_succ_diag_r _)) as [t Ht].
  assert (Hbound := @copies_bound (firstn n w) (skipn n w) ltac:(lia)).
  rewrite Hlen, length_skipn in Hbound.
  assert (Hcopies : copies (firstn n w) (skipn n w) = c) by nia.
  rewrite Hcopies in Ht.
  assert (Ht' : t = []).
  { apply (f_equal (@length _)) in Ht.
    rewrite length_app, power_length, length_skipn, Hlen in Ht.
    apply length_zero_iff_nil. nia. }
  subst t. rewrite app_nil_r in Ht.
  exists n. split; [| split; [| split]].
  - rewrite <- Hm, Hs. unfold results. simpl. rewrite <- He.
    reflexivity.
  - split; [intros E; rewrite E in Hlen; simpl in Hlen; lia |].
    exists (S c). split; [lia |].
    rewrite power_S, <- Ht. symmetry. apply firstn_skipn.
  - exact Hlen.
  - intros v [Hv (k & Hk & Hw)].
    destruct (Nat.le_gt_cases n (length v)) as [|Hlt]; [assumption | exfalso].
    assert (Hvlen : 0 < length v) by (destruct v; simpl; [congruence | lia]).
    apply (unit_matches_at_end Hv Hk Hw). apply Hl1.
    assert (Hin' : In (length v) (seq 1 (run dot w))) by (apply in_seq; lia).
    unfold unit_lengths in Hl. simpl skipn in Hl. rewrite Hl in Hin'.
    apply in_app_or in Hin'. destruct Hin' as [Hin' | [E | Hin']]; [assumption | lia |].
    exfalso. apply in_split in Hin'. destruct Hin' as (l3 & l4 & ->).
    assert (n < length v); [| lia].
    eapply seq_split_order with (a := n) (b := length v) (l1 := l1 ++ n :: l3).
    + rewrite Hl, <- app_assoc. reflexivity.
    + apply in_elt.
Qed.

End RegexFacts.

Import RegexFacts.

(** ** repeat_match *)

Lemma repeats_length (u t : str) : repeats u t -> 0 < length u < length t.
Proof.
  intros [Hu (k & Hk & ->)]. rewrite power_length.
  assert (0 < length u) by (destruct u; simpl; [congruence | lia]). nia.
Qed.

Lemma greedy_unit : greedy = unit_pattern true.
Proof. reflexivity. Qed.

Lemma lazy_unit : lazy = unit_pattern false.
Proof. reflexivity. Qed.

(** What lines 476-500 choose when the greedy search has succeeded: a match
    at [p] of [len] characters and the shortest unit that its text repeats. *)
Lemma choose_match_spec (range : str) :
  Regex.size (Regex.regex_search greedy range) <> 0 ->
  exists m base p len,
    choose_match range (Regex.regex_search greedy range) (Regex.regex_search lazy range)
    = Ok (m, base) /\
    Regex.position m 0 = p /\
    Regex.sub_length m 0 = len /\
    p + len <= length range /\
    Regex.sub_str range m 0 = Regex.slice range p (p + len) /\
    repeats base (Regex.slice range p (p + len)) /\
    (forall v, repeats v (Regex.slice range p (p + len)) -> length base <= length v) /\
    (Regex.sub_length (Regex.regex_search greedy range) 0
     <= Regex.sub_length (Regex.regex_search lazy range) 0 ->
     m = Regex.regex_search lazy range /\
     base = Regex.sub_str range (Regex.regex_search lazy range) 1).
Proof.
  rewrite greedy_unit, lazy_unit.
  destruct (unit_search range)
    as [[-> _] | (p & n1 & c1 & n2 & c2 & y1 & y2 & -> & -> & Hm1 & Hm2 & Hmin)];
    [intros H; now elim H |].
  intros _. unfold choose_match, Regex.sub_length, Regex.sub_str, Regex.sub.
  cbn [nth].
  replace (p + n1 * S c1 - p) with (n1 * S c1) by lia.
  replace (p + n2 * S c2 - p) with (n2 * S c2) by lia.
  destruct (unit_match_power Hm1) as (Hpow1 & Hlen1 & Hdot1).
  destruct (unit_match_power Hm2) as (Hpow2 & Hlen2 & Hdot2).
  destruct (Nat.ltb_spec (n2 * S c2) (n1 * S c1)) as [Hlt | Hge].
  - (* the greedy match is longer *)
    set (w := Regex.slice range p (p + n1 * S c1)) in *.
    assert (Hs1 : Regex.slice range p (p + n1) <> [])
      by (intros E; rewrite E in Hlen1; simpl in Hlen1; destruct Hm1; lia).
    assert (Hc1 : 2 <= S c1) by (destruct Hm1; lia).
    destruct (Regex.regex_search lazy_anchored w) as [|s0 rest] eqn:Hsearch.
    { exfalso. revert Hsearch. exact (anchored_search_total Hs1 Hc1 Hpow1 Hdot1). }
    destruct (@anchored_search_sound w (s0 :: rest) Hsearch ltac:(discriminate))
      as (n & E & Hrep & Hn & Hmin').
    rewrite E. cbn [Regex.size length Nat.eqb nth].
    exists [Some (p, p + n1 * S c1); Some (p, p + n1)], (Regex.slice w 0 n), p, (n1 * S c1).
    assert (Hslice : Regex.slice w 0 n = firstn n w)
      by (unfold Regex.slice; simpl; now rewrite Nat.sub_0_r).
    rewrite Hslice, Hn.
    unfold Regex.position, Regex.sub. cbn [nth].
    replace (p + n1 * S c1 - p) with (n1 * S c1) by lia.
    repeat split; auto; try (destruct Hm1; lia); try (now destruct Hrep).
  - (* the lazy match is at least as long *)
    exists [Some (p, p + n2 * S c2); Some (p, p + n2)], (Regex.slice range p (p + n2)),
           p, (n2 * S c2).
    unfold Regex.position, Regex.sub. cbn [nth].
    replace (p + n2 * S c2 - p) with (n2 * S c2) by lia.
    assert (Hs2 : Regex.slice range p (p + n2) <> [])
      by (intros E; rewrite E in Hlen2; simpl in Hlen2; destruct Hm2; lia).
    assert (Hc2 : 2 <= S c2) by (destruct Hm2; lia).
    repeat split; auto; try (destruct Hm2; lia).
    + exists (S c2). auto.
    + intros v Hv. rewrite Hlen2.
      destruct (Nat.le_gt_cases n2 (length v)) as [|Hlt]; [assumption | exfalso].
      pose proof (repeats_length Hv) as Hvlen.
      destruct Hv as [Hv (k & Hk & Hw)].
      assert (Hcopies := Hmin (length v) ltac:(lia)).
      set (R := skipn p range) in *.
      assert (HR : R = power v k ++ skipn (n2 * S c2) R).
      { rewrite <- Hw. unfold Regex.slice.
        replace (p + n2 * S c2 - p) with (n2 * S c2) by lia.
        symmetry. apply firstn_skipn. }
      destruct k as [|[|k]]; try lia.
      rewrite !power_S, <- !app_assoc in HR.
      unfold Regex.slice in Hcopies.
      replace (p + length v - p) with (length v) in Hcopies by lia.
      rewrite (Nat.add_comm p), <- skipn_skipn in Hcopies. fold R in Hcopies.
      rewrite HR in Hcopies.
      rewrite firstn_app, Nat.sub_diag, firstn_all in Hcopies.
      rewrite skipn_app, Nat.sub_diag, skipn_all in Hcopies.
      simpl in Hcopies. rewrite app_nil_r in Hcopies.
      rewrite copies_app in Hcopies by lia. discriminate.
Qed.

Section RepeatFacts.

Context {guesses_t : Type} {sorter : @StdSort guesses_t} {env : @Environment guesses_t}.

(** The invariant of the data model: [0 <= i <= j < length(password)] and
    [token == password[i..=j]]. *)
Definition in_range (password : str) (m : @Match guesses_t) : Prop :=
  i m <= j m /\ j m < length password /\
  token m = firstn (j m - i m + 1) (skipn (i m) password).

(** A repeat match whose base token is the shortest unit that the token
    repeats, [repeat_count] times. *)
Definition repeat_unit (m : @Match guesses_t) : Prop :=
  match pattern m with
  | PRepeat base_token _ _ repeat_count =>
      repeats base_token (token m) /\
      (forall v, repeats v (token m) -> length base_token <= length v) /\
      token m = power base_token repeat_count
  | _ => False
  end.

Lemma slice_of_skipn (password : str) (lastIndex p len : nat) :
  Regex.slice (skipn lastIndex password) p (p + len) =
  firstn len (skipn (lastIndex + p) password).
Proof.
  unfold Regex.slice. rewrite skipn_skipn. f_equal; [lia | f_equal; lia].
Qed.

Lemma repeats_div (u t : str) :
  repeats u t -> t = power u (length t / length u).
Proof.
  intros H. pose proof (repeats_length H) as Hlen. destruct H as [_ (k & _ & ->)].
  rewrite power_length, Nat.div_mul by lia. reflexivity.
Qed.

Lemma repeat_loop_sound (omni : str -> result (list Match)) (password : str) :
  forall fuel lastIndex ms,
  repeat_loop fuel omni password lastIndex = Ok ms ->
  Forall (fun m => in_range password m /\ lastIndex <= i m /\ repeat_unit m) ms.
Proof.
  induction fuel as [|fuel IH]; intros lastIndex ms H; [discriminate |].
  cbn [repeat_loop] in H.
  destruct (Nat.ltb_spec lastIndex (length password)) as [Hlt | Hge];
    [| inv_Ok H; constructor].
  set (range := skipn lastIndex password) in *.
  destruct (Nat.eqb_spec (Regex.size (Regex.regex_search greedy range)) 0) as [Hz | Hnz];
    [inv_Ok H; constructor |].
  destruct (choose_match_spec range Hnz)
    as (m & base & p & len & Hch & Hp & Hlen & Hend & Hstr & Hrep & Hmin & _).
  rewrite Hch in H. cbn [bind] in H.
  rewrite Hp, Hlen, Hstr in H.
  inv_bind H. inv_bind H. inv_bind H. injection H as <-.
  pose proof (repeats_length Hrep) as Hbase.
  assert (Hrange : length range = length password - lastIndex)
    by (unfold range; apply length_skipn).
  assert (Hslice : length (Regex.slice range p (p + len)) = len)
    by (rewrite slice_length; lia).
  rewrite Hslice in Hbase.
  constructor.
  - unfold in_range, repeat_unit. cbn [i j token pattern].
    unfold range at 1. rewrite slice_of_skipn.
    split; [| split; [| split; [| split]]]; try assumption; try lia.
    + split; [| split]; try lia. f_equal. lia.
    + unfold udiv in Hr0. destruct (length base =? 0); [discriminate |].
      injection Hr0 as <-. rewrite <- Hslice at 2. now apply repeats_div.
  - apply IH in Hr1. eapply Forall_impl; [| exact Hr1].
    intros a (Ha & Hi & Hu). split; [assumption | split; [lia | assumption]].
Qed.

Lemma repeat_match_sound (omni : str -> result (list Match)) (password : str) ms :
  repeat_match omni password = Ok ms ->
  Forall (fun m => in_range password m /\ repeat_unit m) ms.
Proof.
  intros H. apply repeat_loop_sound in H. eapply Forall_impl; [| exact H].
  intros a (Ha & _ & Hu). auto.
Qed.

(** The loop ends, and asks [omnimatch] about shorter strings only. *)
Lemma repeat_loop_total (omni : str -> result (list Match)) (password : str) :
  (forall s, length s < length password -> exists r, omni s = Ok r) ->
  forall fuel lastIndex,
  length password - lastIndex < fuel ->
  exists ms, repeat_loop fuel omni password lastIndex = Ok ms.
Proof.
  intros Homni. induction fuel as [|fuel IH]; intros lastIndex Hfuel; [lia |].
  cbn [repeat_loop].
  destruct (Nat.ltb_spec lastIndex (length password)) as [Hlt | Hge]; [| eauto].
  set (range := skipn lastIndex password) in *.
  destruct (Nat.eqb_spec (Regex.size (Regex.regex_search greedy range)) 0) as [Hz | Hnz];
    [eauto |].
  destruct (choose_match_spec range Hnz)
    as (m & base & p & len & Hch & Hp & Hlen & Hend & Hstr & Hrep & Hmin & _).
  rewrite Hch. cbn [bind]. rewrite Hp, Hlen, Hstr.
  pose proof (repeats_length Hrep) as Hbase.
  assert (Hrange : length range = length password - lastIndex)
    by (unfold range; apply length_skipn).
  rewrite slice_length in Hbase by lia.
  destruct (Homni base) as (r & ->); [lia |]. cbn [bind].
  unfold udiv. destruct (Nat.eqb_spec (length base) 0) as [|_]; [lia |]. cbn [bind].
  destruct (IH (lastIndex + p + len - 1 + 1)) as (ms & ->); [lia |].
  cbn [bind]. eauto.
Qed.

Lemma repeat_loop_ext (omni1 omni2 : str -> result (list Match)) (password : str) :
  (forall s, length s < length password -> omni1 s = omni2 s) ->
  forall fuel lastIndex,
  repeat_loop fuel omni1 password lastIndex = repeat_loop fuel omni2 password lastIndex.
Proof.
  intros Homni. induction fuel as [|fuel IH]; intros lastIndex; [reflexivity |].
  cbn [repeat_loop].
  destruct (Nat.ltb_spec lastIndex (length password)) as [Hlt | Hge]; [| reflexivity].
  set (range := skipn lastIndex password) in *.
  destruct (Nat.eqb_spec (Regex.size (Regex.regex_search greedy range)) 0) as [Hz | Hnz];
    [reflexivity |].
  destruct (choose_match_spec range Hnz)
    as (m & base & p & len & Hch & Hp & Hlen & Hend & Hstr & Hrep & Hmin & _).
  rewrite Hch. cbn [bind]. rewrite Hp, Hlen, Hstr.
  pose proof (repeats_length Hrep) as Hbase.
  assert (Hrange : length range = length password - lastIndex)
    by (unfold range; apply length_skipn).
  rewrite slice_length in Hbase by lia.
  rewrite Homni by lia. destruct (omni2 base); [| reflexivity]. cbn [bind].
  destruct (udiv len (length base)); [| reflexivity]. cbn [bind].
  rewrite IH. reflexivity.
Qed.

End RepeatFacts.

(** ** erase and remove_if *)

Section RemoveIf.

Variable A : Type.
Variable pred : list A -> A -> bool.
Variable moved : A -> A.

(** The predicate that [pred] computes whatever the state of the vector. *)
Variable p : A -> bool.
Variable v0 : list A.

Definition kept (n : nat) : list A := filter (fun x => negb (p x)) (firstn n v0).

(** What the vector holds between the elements kept and those still to be
    examined: removed elements and moved-from ones. *)
Definition stale_element (s : A) : Prop :=
  exists o, In o v0 /\ (s = o \/ s = moved o).

Hypothesis pred_stable :
  forall n x stale,
    nth_error v0 n = Some x ->
    length (kept n) + length stale = n ->
    Forall stale_element stale ->
    pred (kept n ++ stale ++ skipn n v0) x = p x.

Lemma set_nth_app_r (l1 l2 : list A) (a : A) :
  set_nth (length l1) a (l1 ++ l2) = l1 ++ set_nth 0 a l2.
Proof. induction l1 as [|x l1 IH]; simpl; [reflexivity | now rewrite IH]. Qed.

Lemma kept_S (n : nat) (x : A) :
  nth_error v0 n = Some x ->
  kept (S n) = if p x then kept n else kept n ++ [x].
Proof.
  intros Hx. unfold kept.
  assert (Hsplit : firstn (S n) v0 = firstn n v0 ++ [x]).
  { clear pred_stable. revert n Hx. induction v0 as [|a l IH]; intros [|n] Hx; simpl in *;
      try discriminate.
    - now injection Hx as ->.
    - now rewrite (IH n Hx). }
  rewrite Hsplit, filter_app. simpl. destruct (p x); simpl; [apply app_nil_r | reflexivity].
Qed.

Lemma skipn_nth_error (n : nat) (x : A) :
  nth_error v0 n = Some x -> skipn n v0 = x :: skipn (S n) v0.
Proof.
  clear pred_stable. revert n. induction v0 as [|a l IH]; intros [|n] Hx; simpl in *;
    try discriminate.
  - now injection Hx as ->.
  - now apply IH.
Qed.

Lemma remove_if_loop_spec :
  forall count n stale,
    count + n = length v0 ->
    length (kept n) + length stale = n ->
    Forall stale_element stale ->
    remove_if_loop pred moved count (kept n ++ stale ++ skipn n v0) (length (kept n)) n
    = filter (fun x => negb (p x)) v0.
Proof.
  induction count as [|count IH]; intros n stale Hcount Hlen Hstale.
  - simpl. rewrite firstn_app, Nat.sub_diag, firstn_all. simpl. rewrite app_nil_r.
    unfold kept. rewrite firstn_all2 by lia. reflexivity.
  - destruct (nth_error v0 n) as [x|] eqn:Hx;
      [| apply nth_error_None in Hx; lia].
    cbn [remove_if_loop].
    assert (Hnth : nth_error (kept n ++ stale ++ skipn n v0) n = Some x).
    { rewrite app_assoc, nth_error_app2 by (rewrite length_app; lia).
      rewrite length_app. replace (n - (length (kept n) + length stale)) with 0 by lia.
      rewrite skipn_nth_error with (x := x) by exact Hx. reflexivity. }
    rewrite Hnth, (pred_stable Hx Hlen Hstale).
    pose proof Hx as HS. apply kept_S in HS.
    rewrite skipn_nth_error with (x := x) by exact Hx.
    destruct (p x) eqn:Hpx.
    + (* removed: the element stays where it is *)
      rewrite <- HS.
      replace (kept (S n) ++ stale ++ x :: skipn (S n) v0)
        with (kept (S n) ++ (stale ++ [x]) ++ skipn (S n) v0)
        by (rewrite <- !app_assoc; reflexivity).
      apply IH; [lia | rewrite HS, length_app; simpl; lia |].
      apply Forall_app; split; [assumption |]. constructor; [| constructor].
      exists x. split; [eapply nth_error_In; eauto | auto].
    + destruct (Nat.eqb_spec (length (kept n)) n) as [Hfull | Hgap].
      * (* nothing removed so far: nothing is moved *)
        assert (stale = []) by (apply length_zero_iff_nil; lia). subst stale.
        replace (kept n ++ [] ++ x :: skipn (S n) v0)
          with (kept (S n) ++ [] ++ skipn (S n) v0)
          by (rewrite HS, <- app_assoc; reflexivity).
        replace (S (length (kept n))) with (length (kept (S n)))
          by (rewrite HS, length_app; simpl; lia).
        apply IH; [lia | rewrite HS, length_app; simpl; lia | constructor].
      * (* moved to the front *)
        destruct stale as [|s0 stale]; [simpl in Hlen; lia |].
        rewrite set_nth_app_r. cbn [app set_nth].
        replace (kept n ++ x :: stale ++ x :: skipn (S n) v0)
          with ((kept n ++ x :: stale) ++ x :: skipn (S n) v0)
          by (rewrite <- app_assoc; reflexivity).
        replace n with (length (kept n ++ x :: stale)) at 1
          by (rewrite length_app; simpl in *; lia).
        rewrite set_nth_app_r. cbn [set_nth].
        replace ((kept n ++ x :: stale) ++ moved x :: skipn (S n) v0)
          with (kept (S n) ++ (stale ++ [moved x]) ++ skipn (S n) v0)
          by (rewrite HS, <- !app_assoc; reflexivity).
        replace (S (length (kept n))) with (length (kept (S n)))
          by (rewrite HS, length_app; simpl; lia).
        apply IH; [lia | rewrite HS, !length_app; simpl in *; lia |].
        apply Forall_app; split; [now inversion Hstale |]. constructor; [| constructor].
        exists x. split; [eapply nth_error_In; eauto | auto].
Qed.

(** Under [pred_stable] the in-place algorithm is the filter. *)
Lemma erase_remove_if_filter :
  erase_remove_if pred moved v0 = filter (fun x => negb (p x)) v0.
Proof.
  unfold erase_remove_if.
  exact (@remove_if_loop_spec (length v0) 0 [] (Nat.add_0_r _) eq_refl (Forall_nil _)).
Qed.

End RemoveIf.

Unset Implicit Arguments.

(** ** sorted, dictionary_match, reverse_dictionary_match *)

Section DictionaryFacts.

Context {guesses_t : Type} {sorter : @StdSort guesses_t} {env : @Environment guesses_t}.

Lemma sorted_In (v : list Match) (m : Match) : In m (sorted v) <-> In m v.
Proof.
  unfold sorted. split; apply Permutation_in;
    [apply Permutation_sym |]; apply std_sort_permutation.
Qed.

Lemma sorted_Forall (P : Match -> Prop) (v : list Match) :
  Forall P (sorted v) <-> Forall P v.
Proof.
  rewrite !Forall_forall. split; intros H m Hm; apply H; now apply sorted_In.
Qed.

Lemma sorted_nil : sorted [] = [].
Proof.
  unfold sorted. apply Permutation_nil. apply std_sort_permutation.
Qed.

Definition is_dictionary (m : @Match guesses_t) : Prop :=
  exists d, pattern m = PDictionary d.

Lemma dictionary_match_sound (password : str) (dicts : RankedDicts) (ms : list Match) :
  dictionary_match password dicts = Ok ms ->
  Forall (fun m => in_range password m /\ is_dictionary m) ms.
Proof.
  unfold dictionary_match. intros H. inv_bind H. injection H as <-.
  apply sorted_Forall.
  eapply for_each_Forall; [| exact Hr]. intros item ys _ Hitem.
  eapply for_each_Forall; [| exact Hitem]. clear Hitem. intros i0 ys0 Hi Hbody.
  eapply for_each_Forall; [| exact Hbody]. clear Hbody. intros j0 ys1 Hj Hbody.
  apply in_seq in Hi, Hj.
  inv_bind Hbody. destruct (map_find (snd item) r0) as [rk|].
  - inv_bind Hbody. injection Hbody as <-. apply substr_inv in Hr1.
    destruct Hr1 as [_ ->]. constructor; [| constructor].
    split; [| eexists; reflexivity].
    unfold in_range. cbn [i j token]. repeat split; try lia.
  - injection Hbody as <-. constructor.
Qed.

Lemma dictionary_match_total (password : str) (dicts : RankedDicts) :
  exists ms, dictionary_match password dicts = Ok ms.
Proof.
  unfold dictionary_match.
  match goal with
  | |- exists ms, bind (for_each ?l ?body) _ = _ =>
      destruct (@for_each_total _ _ body l) as [r Hr]
  end.
  - intros item _. apply for_each_total. intros i0 Hi. apply for_each_total.
    intros j0 Hj. apply in_seq in Hi, Hj.
    rewrite !substr_Ok by (rewrite ?ascii_lower_length; lia). cbn [bind].
    destruct (map_find (snd item) _); cbn [bind]; eauto.
  - rewrite Hr. cbn [bind]. eauto.
Qed.

Lemma rev_substring (l : str) (a n : nat) :
  a + n <= length l ->
  rev (firstn n (skipn a (rev l))) = firstn n (skipn (length l - a - n) l).
Proof.
  intros H. rewrite skipn_rev, firstn_rev, rev_involutive.
  rewrite length_firstn. replace (Nat.min (length l - a) (length l)) with (length l - a) by lia.
  rewrite skipn_firstn_comm. f_equal. lia.
Qed.

Lemma reverse_dictionary_match_sound (password : str) (dicts : RankedDicts) ms :
  reverse_dictionary_match password dicts = Ok ms ->
  Forall (fun m => in_range password m /\ is_dictionary m) ms.
Proof.
  unfold reverse_dictionary_match. intros H. inv_bind H. inv_bind H. injection H as <-.
  apply sorted_Forall. apply dictionary_match_sound in Hr.
  apply for_each_in_place_Forall2 in Hr0.
  induction Hr0 as [|m m' v v' Hm Hv IH]; [constructor |].
  inversion Hr as [|? ? [Hin _] Hr']; subst. constructor; [| now apply IH].
  inv_bind Hm. injection Hm as <-. split; [| eexists; reflexivity].
  destruct Hin as (Hij & Hj & Htok). unfold reverse_string in *.
  rewrite length_rev in Hj.
  unfold in_range. cbn [i j token]. repeat split; try lia.
  rewrite Htok, rev_substring by lia. f_equal; [lia | f_equal; lia].
Qed.

Lemma reverse_dictionary_match_total (password : str) (dicts : RankedDicts) :
  exists ms, reverse_dictionary_match password dicts = Ok ms.
Proof.
  unfold reverse_dictionary_match.
  destruct (dictionary_match_total (reverse_string password) dicts) as [r Hr].
  rewrite Hr. cbn [bind]. apply dictionary_match_sound in Hr.
  match goal with
  | |- context [for_each_in_place r ?body] =>
      destruct (@for_each_in_place_total _ body r) as [r' Hr']
  end.
  - intros m Hm. rewrite Forall_forall in Hr. destruct (Hr m Hm) as [_ [d Hd]].
    unfold get_dictionary. rewrite Hd. cbn [bind]. eauto.
  - rewrite Hr'. cbn [bind]. eauto.
Qed.

End DictionaryFacts.

(** ** l33t_match *)

Lemma fold_left_invariant {A B : Type} (P : A -> Prop) (f : A -> B -> A) (l : list B) :
  (forall acc x, In x l -> P acc -> P (f acc x)) ->
  forall init, P init -> P (fold_left f l init).
Proof.
  induction l as [|x l IH]; simpl; intros Hf init Hinit; [assumption |].
  apply IH; auto.
Qed.

Lemma map_insert_In {V : Type} (m : list (str * V)) (k : str) (v : V) (kv : str * V) :
  In kv (map_insert m k v) -> In kv m \/ kv = (k, v).
Proof.
  unfold map_insert. destruct (map_find m k); [auto |].
  intros H. apply in_app_or in H. destruct H as [H | [<- | []]]; auto.
Qed.

Lemma map_insert_not_nil {V : Type} (m : list (str * V)) (k : str) (v : V) :
  map_insert m k v = [] -> False.
Proof.
  unfold map_insert. destruct m as [|kv m]; simpl; [discriminate |].
  destruct kv as [k' v']. destruct (str_eqb k' k); [discriminate |].
  destruct (map_find m k); discriminate.
Qed.

Lemma to_unordered_map_In (sub : list (str * str)) (kv : str * str) :
  In kv (to_unordered_map sub) -> In kv sub.
Proof.
  unfold to_unordered_map.
  assert (H : forall init, (forall x, In x init -> In x sub) ->
                           forall x, In x (fold_left (fun m item => map_insert m (fst item) (snd item))
                                                     sub init) -> In x sub).
  { apply (fold_left_invariant (fun acc => forall x, In x acc -> In x sub)).
    intros acc x Hx Hacc y Hy. apply map_insert_In in Hy.
    destruct Hy as [Hy | ->]; [auto | now destruct x]. }
  apply H. intros x [].
Qed.

Lemma to_unordered_map_not_nil (sub : list (str * str)) :
  sub <> [] -> to_unordered_map sub <> [].
Proof.
  destruct sub as [|item sub]; [congruence |]. intros _. unfold to_unordered_map. simpl.
  apply (fold_left_invariant (fun acc : list (str * str) => acc <> [])).
  - intros acc x _ _ H. now apply map_insert_not_nil in H.
  - unfold map_insert. simpl. discriminate.
Qed.

Lemma dedup_In (subs : SubsType) (sub : list (str * str)) :
  In sub (dedup subs) -> In sub subs.
Proof.
  unfold dedup.
  assert (H : forall init : SubsType * list str,
             (forall x, In x (fst init) -> In x subs) ->
             forall x,
               In x (fst (fold_left
                            (fun acc sub =>
                               let '(deduped, members) := acc in
                               let l := label sub in
                               if existsb (str_eqb l) members then (deduped, members)
                               else (deduped ++ [sub], l :: members))
                            subs init)) -> In x subs).
  { apply (fold_left_invariant
             (fun acc : SubsType * list str => forall x, In x (fst acc) -> In x subs)).
    intros [deduped members] x Hx Hacc y. simpl.
    destruct (existsb (str_eqb (label x)) members); simpl; [apply Hacc |].
    intros Hy. apply in_app_or in Hy. destruct Hy as [Hy | [<- | []]]; auto. }
  apply H. intros x [].
Qed.

Lemma erase_at_In {A : Type} (n : nat) (v : list A) (a : A) :
  In a (erase_at n v) -> In a v.
Proof.
  revert n; induction v as [|x v IH]; intros [|n]; simpl; auto.
  intros [-> | H]; eauto.
Qed.

Lemma find_sub_Some (sub : list (str * str)) (chr : str) (n : nat) :
  find_sub sub chr = Some n -> sub <> [].
Proof. destruct sub; simpl; [discriminate | congruence]. Qed.

Lemma extend_sub_In (sub : list (str * str)) (chr key : str) sub' kv :
  In sub' (extend_sub sub chr key) -> In kv sub' -> In kv sub \/ kv = (chr, key).
Proof.
  unfold extend_sub. destruct (find_sub sub chr) as [n|].
  - intros [<- | [<- | []]] Hkv; [auto |].
    apply in_app_or in Hkv. destruct Hkv as [Hkv | [<- | []]]; [| auto].
    left. eapply erase_at_In; eauto.
  - intros [<- | []] Hkv. apply in_app_or in Hkv.
    destruct Hkv as [Hkv | [<- | []]]; auto.
Qed.

Lemma extend_sub_not_nil (sub : list (str * str)) (chr key : str) sub' :
  In sub' (extend_sub sub chr key) -> sub' <> [].
Proof.
  unfold extend_sub. destruct (find_sub sub chr) as [n|] eqn:Hfind.
  - intros [<- | [<- | []]]; [eapply find_sub_Some; eauto |].
    intros H. apply app_eq_nil in H. destruct H; discriminate.
  - intros [<- | []] H. apply app_eq_nil in H. destruct H; discriminate.
Qed.

(** One round of the outer loop of [enumerate_l33t_subs]. *)
Definition enumerate_step (subs : SubsType) (item : str * list str) : SubsType :=
  dedup (flat_map (fun l33t_chr =>
                     flat_map (fun sub => extend_sub sub l33t_chr (fst item)) subs)
                  (snd item)).

Lemma enumerate_step_In subs item sub kv :
  In sub (enumerate_step subs item) -> In kv sub ->
  (exists sub0, In sub0 subs /\ In kv sub0) \/ snd kv = fst item.
Proof.
  unfold enumerate_step. intros H Hkv. apply dedup_In in H.
  apply in_flat_map in H. destruct H as (chr & _ & H).
  apply in_flat_map in H. destruct H as (sub0 & Hsub0 & H).
  destruct (extend_sub_In _ _ _ _ kv H Hkv) as [Hin | ->]; [eauto | auto].
Qed.

Lemma enumerate_step_not_nil subs item sub :
  In sub (enumerate_step subs item) -> sub <> [].
Proof.
  unfold enumerate_step. intros H. apply dedup_In in H.
  apply in_flat_map in H. destruct H as (chr & _ & H).
  apply in_flat_map in H. destruct H as (sub0 & _ & H).
  eapply extend_sub_not_nil; eauto.
Qed.

Lemma enumerate_l33t_subs_fold (table : list (str * list str)) :
  enumerate_l33t_subs table = map to_unordered_map (fold_left enumerate_step table [[]]).
Proof. reflexivity. Qed.

(** Every letter that a substitution yields is a key of the table. *)
Lemma enumerate_l33t_subs_values (table : list (str * list str)) sub kv :
  In sub (enumerate_l33t_subs table) -> In kv sub -> In (snd kv) (map fst table).
Proof.
  rewrite enumerate_l33t_subs_fold. intros H Hkv.
  apply in_map_iff in H. destruct H as (sub0 & <- & H).
  apply to_unordered_map_In in Hkv. revert sub0 H kv Hkv.
  apply (fold_left_invariant
           (fun subs : SubsType =>
              forall sub0, In sub0 subs -> forall kv, In kv sub0 -> In (snd kv) (map fst table))).
  - intros acc item Hitem Hacc sub0 Hsub0 kv Hkv.
    destruct (enumerate_step_In _ _ _ kv Hsub0 Hkv) as [(s & Hs & Hin) | ->]; [eauto |].
    now apply in_map.
  - intros sub0 [<- | []] kv [].
Qed.

(** The empty substitution is enumerated for the empty table only. *)
Lemma enumerate_l33t_subs_not_nil (table : list (str * list str)) :
  table <> [] -> Forall (fun sub => sub <> []) (enumerate_l33t_subs table).
Proof.
  destruct table as [|item table]; [congruence |]. intros _.
  rewrite enumerate_l33t_subs_fold. simpl fold_left.
  apply Forall_forall. intros sub H.
  apply in_map_iff in H. destruct H as (sub0 & <- & H).
  apply to_unordered_map_not_nil. revert sub0 H.
  apply (fold_left_invariant
           (fun subs : SubsType => forall sub0, In sub0 subs -> sub0 <> [])).
  - intros acc x _ _ sub0 H. eapply enumerate_step_not_nil; eauto.
  - intros sub0 H. eapply enumerate_step_not_nil; eauto.
Qed.

Lemma relevant_l33t_subtable_keys (password : str) (table : list (str * list str)) item :
  In item (relevant_l33t_subtable password table) -> In (fst item) (map fst table).
Proof.
  unfold relevant_l33t_subtable. revert item.
  apply (fold_left_invariant
           (fun acc : list (str * list str) =>
              forall item, In item acc -> In (fst item) (map fst table))).
  - intros acc x Hx Hacc item. cbv zeta.
    destruct (length (filter _ (snd x)) =? 0); [apply Hacc |].
    intros H. apply map_insert_In in H. destruct H as [H | ->]; [auto |].
    simpl. now apply in_map.
  - intros item [].
Qed.

Lemma translate_length (s : str) (chr_map : list (str * str)) :
  Forall (fun kv => length (snd kv) = 1) chr_map ->
  length (translate s chr_map) = length s.
Proof.
  intros Hmap. unfold translate. induction s as [|c s IH]; [reflexivity |].
  simpl. rewrite length_app, IH.
  assert (Hc : length (if (char_val c <? 0)%Z then [c]
                       else match map_find chr_map [c] with
                            | Some v => v
                            | None => [c]
                            end) = 1); [| now rewrite Hc].
  destruct (char_val c <? 0)%Z; [reflexivity |].
  destruct (map_find chr_map [c]) as [v|] eqn:Hfind; [| reflexivity].
  clear - Hmap Hfind. induction Hmap as [|[k w] m Hk Hm IH]; simpl in *; [discriminate |].
  destruct (str_eqb k [c]); [injection Hfind as <-; exact Hk | auto].
Qed.

Lemma L33T_TABLE_keys : Forall (fun k : str => length k = 1) (map fst L33T_TABLE).
Proof. repeat constructor. Qed.

(** The substitutions that [l33t_match] tries for a password map single
    characters to single letters. *)
Lemma l33t_subs_single (password : str) :
  Forall (Forall (fun kv : str * str => length (snd kv) = 1))
         (enumerate_l33t_subs (relevant_l33t_subtable password L33T_TABLE)).
Proof.
  apply Forall_forall. intros sub Hsub. apply Forall_forall. intros kv Hkv.
  pose proof (enumerate_l33t_subs_values _ _ kv Hsub Hkv) as H.
  apply in_map_iff in H. destruct H as (item & <- & Hitem).
  apply relevant_l33t_subtable_keys in Hitem.
  pose proof L33T_TABLE_keys as Hkeys. rewrite Forall_forall in Hkeys. auto.
Qed.

Section L33tFacts.

Context {guesses_t : Type} {sorter : @StdSort guesses_t} {env : @Environment guesses_t}.

(** A dictionary match found under a substitution that changes its token. *)
Definition l33t_substitution (m : @Match guesses_t) : Prop :=
  exists d, pattern m = PDictionary d /\ l33t d = true /\
            ascii_lower (token m) <> matched_word d.

Lemma l33t_loop_substitution (password : str) (dicts : RankedDicts) :
  forall subs ms,
  l33t_loop password dicts subs = Ok ms -> Forall l33t_substitution ms.
Proof.
  induction subs as [|sub subs IH]; intros ms H; cbn [l33t_loop] in H.
  - injection H as <-. constructor.
  - destruct (length sub =? 0); [injection H as <-; constructor |].
    inv_bind H. inv_bind H. inv_bind H. injection H as <-.
    apply Forall_app. split; [| now apply IH].
    eapply for_each_Forall; [| exact Hr0]. intros m ys _ Hbody.
    inv_bind Hbody. inv_bind Hbody.
    destruct (str_eqb (ascii_lower r3) (matched_word r2)) eqn:Heq;
      injection Hbody as <-; constructor; [| constructor].
    eexists. cbn [pattern token]. split; [reflexivity |]. split; [reflexivity |].
    cbn [matched_word]. intros E. apply str_eqb_eq in E. congruence.
Qed.

Lemma l33t_loop_in_range (password : str) (dicts : RankedDicts) :
  forall subs ms,
  Forall (Forall (fun kv : str * str => length (snd kv) = 1)) subs ->
  l33t_loop password dicts subs = Ok ms -> Forall (in_range password) ms.
Proof.
  induction subs as [|sub subs IH]; intros ms Hsubs H; cbn [l33t_loop] in H.
  - injection H as <-. constructor.
  - destruct (length sub =? 0); [injection H as <-; constructor |].
    inversion Hsubs as [|? ? Hsub Hsubs']; subst.
    inv_bind H. inv_bind H. inv_bind H. injection H as <-.
    apply Forall_app. split; [| now apply IH].
    apply dictionary_match_sound in Hr. rewrite Forall_forall in Hr.
    apply Forall_forall. intros y Hy.
    apply (for_each_In _ _ Hr0) in Hy. destruct Hy as (m & ys & Hm & Hbody & Hy).
    destruct (Hr m Hm) as [(Hij & Hj & _) _].
    rewrite translate_length in Hj by assumption.
    inv_bind Hbody. inv_bind Hbody. apply substr_inv in Hr3. destruct Hr3 as [_ ->].
    destruct (str_eqb _ _); injection Hbody as <-; [destruct Hy |].
    destruct Hy as [<- | []]. unfold in_range. cbn [i j token]. auto.
Qed.

Lemma l33t_loop_total (password : str) (dicts : RankedDicts) :
  forall subs,
  Forall (Forall (fun kv : str * str => length (snd kv) = 1)) subs ->
  exists ms, l33t_loop password dicts subs = Ok ms.
Proof.
  induction subs as [|sub subs IH]; intros Hsubs; cbn [l33t_loop]; [eauto |].
  destruct (length sub =? 0); [eauto |].
  inversion Hsubs as [|? ? Hsub Hsubs']; subst.
  destruct (dictionary_match_total (translate password sub) dicts) as [found Hfound].
  rewrite Hfound. cbn [bind].
  apply dictionary_match_sound in Hfound. rewrite Forall_forall in Hfound.
  match goal with
  | |- exists ms, bind (for_each ?l ?body) _ = _ =>
      destruct (@for_each_total _ _ body l) as [r Hr]
  end.
  - intros m Hm. destruct (Hfound m Hm) as [(Hij & Hj & _) [d Hd]].
    rewrite translate_length in Hj by assumption.
    unfold get_dictionary. rewrite Hd. cbn [bind].
    rewrite substr_Ok by lia. cbn [bind].
    destruct (str_eqb _ _); eauto.
  - rewrite Hr. cbn [bind]. destruct (IH Hsubs') as [ms ->]. cbn [bind]. eauto.
Qed.

(** An empty substitution ends the loop: neither it nor the substitutions
    after it push a match. *)
Lemma l33t_loop_break (password : str) (dicts : RankedDicts) subs1 subs2 :
  l33t_loop password dicts (subs1 ++ [] :: subs2) = l33t_loop password dicts subs1.
Proof.
  induction subs1 as [|sub subs1 IH]; [reflexivity |].
  cbn [app l33t_loop]. now rewrite IH.
Qed.

(** The filter of lines 339-346 does not read the vector. *)
Lemma l33t_match_filter (password : str) (dicts : RankedDicts) table ms :
  l33t_match password dicts table = Ok ms ->
  exists matches,
    l33t_loop password dicts (enumerate_l33t_subs (relevant_l33t_subtable password table))
    = Ok matches /\
    ms = sorted (filter (fun a => negb (length (token a) <=? 1)) matches).
Proof.
  unfold l33t_match. intros H. inv_bind H. injection H as <-.
  exists r. split; [assumption |]. f_equal.
  apply erase_remove_if_filter with (p := fun a => length (token a) <=? 1).
  reflexivity.
Qed.

Lemma l33t_match_total (password : str) (dicts : RankedDicts) :
  exists ms, l33t_match password dicts L33T_TABLE = Ok ms.
Proof.
  unfold l33t_match.
  destruct (l33t_loop_total password dicts _ (l33t_subs_single password)) as [r ->].
  cbn [bind]. eauto.
Qed.

Lemma l33t_match_in_range (password : str) (dicts : RankedDicts) ms :
  l33t_match password dicts L33T_TABLE = Ok ms -> Forall (in_range password) ms.
Proof.
  intros H. apply l33t_match_filter in H. destruct H as (matches & Hloop & ->).
  apply sorted_Forall. apply l33t_loop_in_range in Hloop; [| apply l33t_subs_single].
  apply Forall_forall. intros m Hm. apply filter_In in Hm.
  rewrite Forall_forall in Hloop. now apply Hloop.
Qed.

End L33tFacts.

(** ** spatial_match, sequence_match, regex_match *)

Section ScanFacts.

Context {guesses_t : Type} {sorter : @StdSort guesses_t} {env : @Environment guesses_t}.

(** A matcher returns, and what it returns is in range. *)
Definition returns_in_range (password : str) (r : result (list (@Match guesses_t))) : Prop :=
  exists ms, r = Ok ms /\ Forall (in_range password) ms.

Lemma returns_nil (password : str) : returns_in_range password (Ok []).
Proof. exists []. split; [reflexivity | constructor]. Qed.

Lemma returns_app (password : str) (r1 r2 : result (list Match)) :
  returns_in_range password r1 -> returns_in_range password r2 ->
  returns_in_range password (pushed <- r1 ;; rest <- r2 ;; Ok (pushed ++ rest)).
Proof.
  intros (m1 & -> & H1) (m2 & -> & H2). exists (m1 ++ m2).
  split; [reflexivity | now apply Forall_app].
Qed.

Lemma returns_for_each {A : Type} (password : str) (l : list A)
      (body : A -> result (list Match)) :
  (forall a, In a l -> returns_in_range password (body a)) ->
  returns_in_range password (for_each l body).
Proof.
  induction l as [|a l IH]; intros H; [apply returns_nil |].
  cbn [for_each]. apply returns_app; [apply H; now left |].
  apply IH. intros b Hb. apply H. now right.
Qed.

Lemma returns_sorted (password : str) (r : result (list Match)) :
  returns_in_range password r ->
  returns_in_range password (matches <- r ;; Ok (sorted matches)).
Proof.
  intros (ms & -> & H). exists (sorted ms). split; [reflexivity |].
  now apply sorted_Forall.
Qed.

Lemma spatial_grow_spec (password : str) (graph : Graph) :
  forall fuel j last_direction turns shifted_count,
  1 <= j <= length password ->
  length password - j < fuel ->
  exists j' turns' shifted_count',
    spatial_grow fuel password graph j last_direction turns shifted_count
    = Ok (j', turns', shifted_count') /\
    j <= j' <= length password.
Proof.
  induction fuel as [|fuel IH]; intros j0 ld t s Hj Hfuel; [lia |].
  cbn [spatial_grow]. rewrite substr_Ok by lia. cbn [bind].
  destruct (Nat.ltb_spec j0 (length password)) as [Hlt | Hge].
  - rewrite substr_Ok by lia. cbn [bind].
    destruct (find_adjacent _ _ _) as [[d at_]|].
    + assert (H1 : 1 <= j0 + 1 <= length password) by lia.
      assert (H2 : length password - (j0 + 1) < fuel) by lia.
      destruct (Z.eqb ld d);
        match goal with
        | |- context [spatial_grow fuel password graph (j0 + 1) ?a ?b ?c] =>
            destruct (IH (j0 + 1) a b c H1 H2) as (j' & t' & s' & -> & Hj')
        end; exists j', t', s'; (split; [reflexivity | lia]).
    + exists j0, t, s. split; [reflexivity | lia].
  - cbn [bind]. exists j0, t, s. split; [reflexivity | lia].
Qed.

Lemma spatial_scan_spec (password : str) (graph : Graph) (graph_tag : GraphTag) :
  forall fuel i0,
  length password - i0 < fuel ->
  returns_in_range password (spatial_scan fuel password graph graph_tag i0).
Proof.
  induction fuel as [|fuel IH]; intros i0 Hfuel; [lia |].
  cbn [spatial_scan].
  destruct (Nat.ltb_spec i0 (length password - 1)) as [Hlt | Hge]; [| apply returns_nil].
  assert (Hshift : exists s,
             match graph_tag with
             | QWERTY | DVORAK =>
                 first_char <- substr password i0 1 ;;
                 Ok (if Regex.size (Regex.regex_search SHIFTED_RX first_char) =? 0
                     then 0 else 1)
             | _ => Ok 0
             end = Ok s).
  { destruct graph_tag; try (rewrite substr_Ok by lia; cbn [bind]); eauto. }
  destruct Hshift as [s ->]. cbn [bind].
  destruct (spatial_grow_spec password graph (S (length password)) (i0 + 1) (-1) 0 s
                              ltac:(lia) ltac:(lia))
    as (j' & t' & s' & -> & Hj').
  cbn [bind]. apply returns_app.
  - destruct (Nat.ltb_spec 2 (j' - i0)); [| apply returns_nil].
    rewrite substr_Ok by lia. cbn [bind]. eexists. split; [reflexivity |].
    constructor; [| constructor]. unfold in_range. cbn [i j token].
    repeat split; try lia. f_equal. lia.
  - apply IH. lia.
Qed.

Lemma spatial_match_spec (password : str) (gs : Graphs) :
  returns_in_range password (spatial_match password gs).
Proof.
  unfold spatial_match. apply returns_for_each. intros item _.
  unfold spatial_match_helper.
  destruct (length password =? 0); [apply returns_nil |].
  apply spatial_scan_spec. lia.
Qed.

Lemma update_spec (password : str) (i0 j0 : nat) (delta : Z) :
  i0 <= j0 < length password ->
  returns_in_range password (update password i0 j0 delta).
Proof.
  intros H. unfold update.
  destruct (_ || _); [| apply returns_nil].
  destruct (_ && _); [| apply returns_nil].
  rewrite substr_Ok by lia. cbn [bind].
  destruct (if found _ then _ else _) as [name space].
  eexists. split; [reflexivity |]. constructor; [| constructor].
  unfold in_range. cbn [i j token]. repeat split; lia.
Qed.

Lemma char_at_Ok (s : str) (k : nat) : k < length s -> exists c, char_at s k = Ok c.
Proof.
  intros H. unfold char_at. destruct (nth_error s k) eqn:E; [eauto |].
  apply nth_error_None in E. lia.
Qed.

Lemma sequence_loop_spec (password : str) :
  forall n k0 i0 maybe_last_delta,
  k0 + n = length password -> i0 < k0 ->
  returns_in_range password (sequence_loop password (seq k0 n) i0 maybe_last_delta).
Proof.
  induction n as [|n IH]; intros k0 i0 last Hk Hi; cbn [seq sequence_loop].
  - destruct last; [apply update_spec; lia | apply returns_nil].
  - destruct (char_at_Ok password k0) as [c ->]; [lia |].
    destruct (char_at_Ok password (k0 - 1)) as [c' ->]; [lia |]. cbn [bind].
    destruct (Z.eqb _ _); [apply IH; lia |].
    apply returns_app; [apply update_spec; lia | apply IH; lia].
Qed.

Lemma sequence_match_spec (password : str) :
  returns_in_range password (sequence_match password).
Proof.
  unfold sequence_match. destruct (length password =? 1); [apply returns_nil |].
  destruct (length password) as [|len] eqn:Hlen; [apply returns_nil |].
  rewrite <- Hlen. apply sequence_loop_spec; lia.
Qed.

(** [std::regex_match] matches all of the range or nothing. *)
Lemma regex_match_whole (r : Regex.regex) (input : str) :
  Regex.regex_match r input = [] \/
  exists groups, Regex.regex_match r input = Some (0, length input) :: groups.
Proof.
  unfold Regex.regex_match.
  destruct (List.find _ _) as [y|] eqn:Hfind; [right | now left].
  apply find_some in Hfind. destruct Hfind as [_ Hend]. apply Nat.eqb_eq in Hend.
  unfold Regex.results. rewrite Hend. eauto.
Qed.

Lemma RECENT_YEAR_RX_empty : Regex.regex_match RECENT_YEAR_RX [] = [].
Proof. reflexivity. Qed.

(** The loop of [regex_match] on the pattern of [REGEXEN]: no match, or the
    whole password as the only one. *)
Lemma regex_loop_RECENT_YEAR (password : str) (tag : RegexTag) (fuel : nat) :
  regex_loop (guesses_t := guesses_t) (S (S fuel)) password tag RECENT_YEAR_RX 0 = Ok [] \/
  (password <> [] /\
   exists groups,
     regex_loop (guesses_t := guesses_t) (S (S fuel)) password tag RECENT_YEAR_RX 0
     = Ok [mkMatch 0 (length password - 1) password (PRegex (mkRegexMatch tag groups))]).
Proof.
  cbn [regex_loop]. simpl (length password <? 0). cbv iota. cbn [skipn].
  destruct (regex_match_whole RECENT_YEAR_RX password) as [-> | [groups Hm]];
    [now left |].
  right. assert (Hne : password <> []).
  { intros ->. rewrite RECENT_YEAR_RX_empty in Hm. discriminate. }
  split; [assumption |]. rewrite Hm.
  unfold Regex.size, Regex.sub_length, Regex.position, Regex.sub_str, Regex.sub.
  cbn [length Nat.eqb nth]. rewrite Nat.sub_0_r, Nat.add_0_l.
  destruct (Nat.ltb_spec (length password) (length password)) as [|_]; [lia |].
  rewrite skipn_all. rewrite RECENT_YEAR_RX_empty. cbn [length Nat.eqb bind].
  unfold Regex.slice. rewrite Nat.sub_0_r. cbn [skipn]. rewrite firstn_all.
  eexists. reflexivity.
Qed.

Lemma regex_match_spec (password : str) :
  returns_in_range password (regex_match password REGEXEN).
Proof.
  unfold regex_match, REGEXEN. apply returns_sorted. cbn [for_each fst snd].
  destruct (regex_loop_RECENT_YEAR password RECENT_YEAR (length password))
    as [-> | (Hne & groups & ->)]; cbn [bind app].
  - apply returns_nil.
  - eexists. split; [reflexivity |]. constructor; [| constructor].
    assert (0 < length password) by (destruct password; simpl; [congruence | lia]).
    unfold in_range. cbn [i j token skipn]. repeat split; try lia.
    replace (length password - 1 - 0 + 1) with (length password) by lia.
    symmetry. apply firstn_all.
Qed.

End ScanFacts.

(** ** date_match: the two patterns *)

Definition digit_class (c : ascii) : bool := Regex.in_class [Regex.CDigit] c.

Lemma digit_class_is_digit (c : ascii) : digit_class c = Regex.is_digit c.
Proof. unfold digit_class, Regex.in_class. simpl. apply orb_false_r. Qed.

Definition all_digits (s : str) : Prop := Forall (fun c => Regex.is_digit c = true) s.

Lemma run_digits (s : str) (n : nat) :
  n <= run digit_class s -> all_digits (firstn n s) /\ length (firstn n s) = n.
Proof.
  intros H. split.
  - apply run_Forall in H. eapply Forall_impl; [| exact H].
    intros c Hc. now rewrite <- digit_class_is_digit.
  - rewrite length_firstn. pose proof (run_le digit_class s). lia.
Qed.

Lemma all_digits_run (s : str) : all_digits s -> run digit_class s = length s.
Proof.
  induction 1 as [|c s Hc Hs IH]; simpl; [reflexivity |].
  rewrite digit_class_is_digit, Hc. now rewrite IH.
Qed.

(** The states in which a group of [min] to [max] digits can stop. *)
Lemma digits_group (input : str) (n min max : nat) (x y : Regex.MatchState) :
  min <= max ->
  In y (Regex.compile input
          (Regex.RGroup n (Regex.RQuant Regex.rdigit min (Some max) true)) x) ->
  exists k,
    min <= k <= max /\
    k <= run digit_class (skipn (Regex.endIndex x) input) /\
    y = Regex.mkState (Regex.endIndex x + k)
                      ((n, (Regex.endIndex x, Regex.endIndex x + k)) :: Regex.captures x).
Proof.
  intros Hmm H. cbn [Regex.compile Regex.rdigit Regex.groups_of] in H.
  apply in_map_iff in H. destruct H as (w & <- & Hw).
  change (Regex.in_class [Regex.CDigit]) with digit_class in Hw.
  pose proof (run_le digit_class (skipn (Regex.endIndex x) input)) as Hrun.
  rewrite length_skipn in Hrun.
  rewrite repeat_char in Hw by (simpl; lia).
  apply in_map_iff in Hw. destruct Hw as (k & <- & Hk).
  apply countdown_In in Hk. unfold upper in Hk.
  exists k. split; [lia |]. split; [lia |]. reflexivity.
Qed.

Lemma maybe_date_no_separator_compile (tok : str) (p : nat) :
  Regex.compile tok maybe_date_no_separator (Regex.mkState p []) =
  if p =? 0
  then flat_map (at_end tok)
                (map (at_ (Regex.mkState 0 []))
                     (countdown 4 (Nat.min (run digit_class tok) 8 + 1 - 4)))
  else [].
Proof.
  unfold maybe_date_no_separator, Regex.rseq.
  cbn [Regex.compile Regex.rdigit Regex.groups_of Regex.endIndex].
  destruct (Nat.eqb_spec p 0) as [-> | _]; [| reflexivity].
  cbn [flat_map]. rewrite app_nil_r.
  change (Regex.in_class [Regex.CDigit]) with digit_class.
  pose proof (run_le digit_class tok) as Hrun.
  rewrite repeat_char by (simpl; lia). reflexivity.
Qed.

(** Line 672: the pattern is found in the strings of four to eight digits. *)
Lemma maybe_date_no_separator_found (tok : str) :
  found (Regex.regex_search maybe_date_no_separator tok) = true <->
  4 <= length tok <= 8 /\ all_digits tok.
Proof.
  unfold found, Regex.regex_search, Regex.size. split.
  - intros H.
    destruct (search_from_inv maybe_date_no_separator tok (seq 0 (S (length tok))))
      as [E | (p & y & ys & _ & Hc & _)]; [rewrite E in H; discriminate |].
    rewrite maybe_date_no_separator_compile in Hc.
    destruct (p =? 0); [| discriminate].
    assert (Hy : In y (y :: ys)) by now left. rewrite <- Hc in Hy.
    apply in_flat_map in Hy. destruct Hy as (z & Hz & Hy).
    apply in_map_iff in Hz. destruct Hz as (k & <- & Hk). apply countdown_In in Hk.
    unfold at_end, at_ in Hy. cbn [Regex.endIndex] in Hy.
    destruct (Nat.eqb_spec (0 + k) (length tok)) as [E |]; [| destruct Hy].
    simpl in E. subst k. split; [lia |].
    destruct (run_digits tok (length tok)) as [Hd _]; [lia |].
    now rewrite firstn_all in Hd.
  - intros [Hlen Hd].
    destruct (Regex.search_from _ _ _) eqn:E; [exfalso | reflexivity].
    revert E. apply search_from_found with (p := 0); [apply in_seq; lia |].
    rewrite maybe_date_no_separator_compile. cbn [Nat.eqb].
    rewrite (all_digits_run _ Hd). intros E. rewrite flat_map_nil in E.
    specialize (E (at_ (Regex.mkState 0 []) (length tok))).
    unfold at_end, at_ in E. cbn [Regex.endIndex] in E.
    rewrite Nat.eqb_refl in E. simpl in E.
    assert (Hin : In (at_ (Regex.mkState 0 []) (length tok))
                     (map (at_ (Regex.mkState 0 []))
                          (countdown 4 (Nat.min (length tok) 8 + 1 - 4)))).
    { apply in_map. apply countdown_In. lia. }
    specialize (E Hin). discriminate.
Qed.

Lemma find_first_In {A : Type} (f : A -> bool) (l : list A) (y : A) :
  List.find f l = Some y -> In y l /\ f y = true.
Proof. apply find_some. Qed.

(** Line 718: the three groups of digits of a date with separators. *)
Lemma maybe_date_with_separator_groups (tok : str) :
  found (Regex.regex_match maybe_date_with_separator tok) = true ->
  let m := Regex.regex_match maybe_date_with_separator tok in
  forall n, n = 1 \/ n = 3 \/ n = 4 ->
    Regex.sub_str tok m n <> [] /\ all_digits (Regex.sub_str tok m n) /\
    length (Regex.sub_str tok m n) <= 4.
Proof.
  intros Hfound m. subst m. unfold Regex.regex_match in *.
  destruct (List.find _ _) as [y|] eqn:Hfind; [| discriminate]. clear Hfound.
  apply find_first_In in Hfind. destruct Hfind as [Hy _].
  unfold maybe_date_with_separator, Regex.rseq in Hy.
  cbn [Regex.compile Regex.endIndex Nat.eqb flat_map] in Hy.
  rewrite app_nil_r in Hy.
  apply in_flat_map in Hy. destruct Hy as (z1 & Hz1 & Hy).
  apply in_flat_map in Hy. destruct Hy as (z2 & Hz2 & Hy).
  apply in_flat_map in Hy. destruct Hy as (z3 & Hz3 & Hy).
  apply in_flat_map in Hy. destruct Hy as (z4 & Hz4 & Hy).
  apply in_flat_map in Hy. destruct Hy as (z5 & Hz5 & Hy).
  change (In z1 (Regex.compile tok
            (Regex.RGroup 1 (Regex.RQuant Regex.rdigit 1 (Some 4) true))
            (Regex.mkState 0 []))) in Hz1.
  change (In z3 (Regex.compile tok
            (Regex.RGroup 3 (Regex.RQuant Regex.rdigit 1 (Some 2) true)) z2)) in Hz3.
  change (In z5 (Regex.compile tok
            (Regex.RGroup 4 (Regex.RQuant Regex.rdigit 1 (Some 4) true)) z4)) in Hz5.
  apply digits_group in Hz1; [| lia]. destruct Hz1 as (k1 & Hk1 & Hr1 & ->).
  cbn [Regex.endIndex Regex.captures skipn] in *.
  (* the separator *)
  apply in_map_iff in Hz2. destruct Hz2 as (w2 & <- & Hw2).
  unfold Regex.char_matcher in Hw2. cbn [Regex.endIndex Regex.captures] in Hw2.
  destruct (nth_error tok (0 + k1)) as [ch|]; [| destruct Hw2].
  destruct (Regex.in_class _ ch); [| destruct Hw2]. destruct Hw2 as [<- | []].
  cbn [Regex.endIndex Regex.captures] in *.
  apply digits_group in Hz3; [| lia]. destruct Hz3 as (k3 & Hk3 & Hr3 & ->).
  cbn [Regex.endIndex Regex.captures] in *.
  (* the second separator *)
  unfold Regex.backref_matcher in Hz4. cbn [Regex.captures Regex.capture Nat.eqb] in Hz4.
  destruct (_ && _); [| destruct Hz4]. destruct Hz4 as [<- | []].
  cbn [Regex.endIndex Regex.captures] in *.
  apply digits_group in Hz5; [| lia]. destruct Hz5 as (k4 & Hk4 & Hr4 & ->).
  destruct (_ =? _); [| destruct Hy]. destruct Hy as [<- | []].
  unfold Regex.sub_str, Regex.sub, Regex.results.
  change (Regex.mark_count maybe_date_with_separator) with 4.
  cbn [Regex.captures Regex.endIndex seq map Regex.capture Nat.eqb].
  intros n [-> | [-> | ->]]; cbn [nth]; unfold Regex.slice.
  - replace (0 + k1 - 0) with k1 by lia. cbn [skipn].
    destruct (run_digits tok k1 Hr1) as [Hd Hl].
    repeat split; [| assumption | lia].
    intros E. rewrite E in Hl. simpl in Hl. lia.
  - match goal with
    | |- context [firstn ?a (skipn ?b tok)] =>
        replace a with k3 by lia;
        destruct (run_digits (skipn b tok) k3 Hr3) as [Hd Hl]
    end.
    repeat split; [| assumption | lia].
    intros E. rewrite E in Hl. simpl in Hl. lia.
  - match goal with
    | |- context [firstn ?a (skipn ?b tok)] =>
        replace a with k4 by lia;
        destruct (run_digits (skipn b tok) k4 Hr4) as [Hd Hl]
    end.
    repeat split; [| assumption | lia].
    intros E. rewrite E in Hl. simpl in Hl. lia.
Qed.

(** ** date_match: the conversions *)

Lemma digit_value (c : ascii) :
  Regex.is_digit c = true -> (N_of_ascii c - 48 <= 9)%N.
Proof.
  unfold Regex.is_digit, nat_of_ascii. rewrite andb_true_iff, !Nat.leb_le. lia.
Qed.

Lemma parse_digits_bound (a : str) :
  forall acc, (parse_digits a acc < (acc + 1) * 10 ^ N.of_nat (length a))%N.
Proof.
  induction a as [|c a IH]; intros acc; cbn [parse_digits length].
  - simpl. lia.
  - rewrite Nat2N.inj_succ, N.pow_succ_r'.
    assert (Hpos : (0 < 10 ^ N.of_nat (length a))%N) by (assert (10 ^ N.of_nat (length a) <> 0)%N by (apply N.pow_nonzero; lia); lia).
    destruct (Regex.is_digit c) eqn:Hc.
    + specialize (IH (10 * acc + (N_of_ascii c - 48))%N).
      apply digit_value in Hc. nia.
    + nia.
Qed.

Lemma stou_total (s : str) :
  s <> [] -> all_digits s -> length s <= 8 -> exists v, stou s = Ok v.
Proof.
  intros Hne Hd Hlen. unfold stou. destruct s as [|c s]; [congruence |].
  inversion Hd as [|? ? Hc _]; subst. rewrite Hc.
  pose proof (parse_digits_bound (c :: s) 0) as Hb.
  assert (Hpow : (10 ^ N.of_nat (length (c :: s)) <= 10 ^ 8)%N)
    by (apply N.pow_le_mono_r; lia).
  destruct (N.ltb_spec ULONG_MAX (parse_digits (c :: s) 0)) as [Hgt | _]; [| eauto].
  unfold ULONG_MAX in Hgt. change (10 ^ 8)%N with 100000000%N in Hpow. lia.
Qed.

Lemma all_digits_firstn (s : str) (n : nat) : all_digits s -> all_digits (firstn n s).
Proof.
  unfold all_digits. intros H. revert n.
  induction H as [|c s Hc Hs IH]; intros [|n]; simpl; constructor; auto.
Qed.

Lemma all_digits_skipn (s : str) (n : nat) : all_digits s -> all_digits (skipn n s).
Proof.
  unfold all_digits. intros H. revert n.
  induction H as [|c s Hc Hs IH]; intros [|n]; simpl; try constructor; auto.
Qed.

Lemma not_nil_length {A : Type} (l : list A) : 0 < length l -> l <> [].
Proof. destruct l; simpl; [lia | discriminate]. Qed.

(** The split points of [DATE_SPLITS] fall inside the token. *)
Lemma DATE_SPLITS_inside (len : nat) (splits : list (nat * nat)) (k l : nat) :
  4 <= len <= 8 ->
  nth_error DATE_SPLITS (len - 4) = Some splits ->
  In (k, l) splits -> 0 < k < l /\ l < len.
Proof.
  intros Hlen Hnth Hin.
  assert (Hcases : len = 4 \/ len = 5 \/ len = 6 \/ len = 7 \/ len = 8) by lia.
  destruct Hcases as [-> | [-> | [-> | [-> | ->]]]]; simpl in Hnth;
    injection Hnth as <-; simpl in Hin;
    repeat (destruct Hin as [Hin | Hin]; [injection Hin as <- <-; lia |]);
    destruct Hin.
Qed.

Lemma DATE_SPLITS_defined (len : nat) :
  4 <= len <= 8 -> exists splits, nth_error DATE_SPLITS (len - 4) = Some splits.
Proof.
  intros Hlen.
  assert (Hcases : len = 4 \/ len = 5 \/ len = 6 \/ len = 7 \/ len = 8) by lia.
  destruct Hcases as [-> | [-> | [-> | [-> | ->]]]]; simpl; eauto.
Qed.

Lemma date_candidates_total (tok : str) :
  4 <= length tok <= 8 -> all_digits tok -> exists cs, date_candidates tok = Ok cs.
Proof.
  intros Hlen Hd. unfold date_candidates.
  destruct (DATE_SPLITS_defined _ Hlen) as [splits Hsplits]. rewrite Hsplits.
  apply for_each_total. intros [k l] Hin. cbn [fst snd].
  destruct (DATE_SPLITS_inside _ _ _ _ Hlen Hsplits Hin) as [Hkl Hl].
  unfold substr_from. rewrite !substr_Ok by lia. cbn [bind skipn].
  destruct (Nat.ltb_spec (length tok) l) as [|_]; [lia |]. cbn [bind].
  destruct (stou_total (firstn k tok)) as [v0 ->];
    [apply not_nil_length; rewrite length_firstn; lia
    | now apply all_digits_firstn | rewrite length_firstn; lia |].
  cbn [bind].
  destruct (stou_total (firstn (l - k) (skipn k tok))) as [v1 ->];
    [apply not_nil_length; rewrite length_firstn, length_skipn; lia
    | now apply all_digits_firstn, all_digits_skipn
    | rewrite length_firstn, length_skipn; lia |].
  cbn [bind].
  destruct (stou_total (skipn l tok)) as [v2 ->];
    [apply not_nil_length; rewrite length_skipn; lia
    | now apply all_digits_skipn | rewrite length_skipn; lia |].
  cbn [bind]. destruct (map_ints_to_dmy _); eauto.
Qed.

(** ** date_match: the two passes *)

Lemma take_while_In {A : Type} (p : A -> bool) (l : list A) (a : A) :
  In a (take_while p l) -> In a l /\ p a = true.
Proof.
  induction l as [|x l IH]; simpl; [intros [] |].
  destruct (p x) eqn:Hx; [| intros []].
  intros [<- | H]; [auto |]. destruct (IH H). auto.
Qed.

Lemma until_end_In (password : str) (first count j0 : nat) :
  In j0 (until_end password first count) ->
  first <= j0 < first + count /\ j0 < length password.
Proof.
  unfold until_end. intros H. apply take_while_In in H. destruct H as [H Hlt].
  apply in_seq in H. apply Nat.ltb_lt in Hlt. auto.
Qed.

Section DateFacts.

Context {guesses_t : Type} {sorter : @StdSort guesses_t} {env : @Environment guesses_t}.

Lemma date_without_separator_spec (password : str) :
  returns_in_range password (date_without_separator password).
Proof.
  unfold date_without_separator. apply returns_for_each. intros i0 Hi.
  apply returns_for_each. intros j0 Hj.
  apply in_seq in Hi. apply until_end_In in Hj.
  rewrite substr_Ok by lia. cbn [bind].
  destruct (found _) eqn:Hfound; cbn [negb]; [| apply returns_nil].
  apply maybe_date_no_separator_found in Hfound. destruct Hfound as [Hlen Hd].
  destruct (date_candidates_total _ Hlen Hd) as [cs ->]. cbn [bind].
  destruct cs as [|c cs]; [apply returns_nil |].
  eexists. split; [reflexivity |]. constructor; [| constructor].
  unfold in_range. cbn [i j token]. repeat split; lia.
Qed.

Lemma date_with_separator_spec (password : str) :
  returns_in_range password (date_with_separator (guesses_t := guesses_t) password).
Proof.
  unfold date_with_separator. apply returns_for_each. intros i0 Hi.
  apply returns_for_each. intros j0 Hj.
  apply in_seq in Hi. apply until_end_In in Hj.
  rewrite substr_Ok by lia. cbn [bind].
  set (tok := firstn (j0 - i0 + 1) (skipn i0 password)).
  destruct (found _) eqn:Hfound; cbn [negb]; [| apply returns_nil].
  pose proof (maybe_date_with_separator_groups tok Hfound) as Hgroups. cbv zeta in Hgroups.
  destruct (Hgroups 1) as (Hne1 & Hd1 & Hl1); [auto |].
  destruct (Hgroups 3) as (Hne3 & Hd3 & Hl3); [auto |].
  destruct (Hgroups 4) as (Hne4 & Hd4 & Hl4); [auto |].
  destruct (stou_total _ Hne1 Hd1) as [v0 ->]; [lia |]. cbn [bind].
  destruct (stou_total _ Hne3 Hd3) as [v1 ->]; [lia |]. cbn [bind].
  destruct (stou_total _ Hne4 Hd4) as [v2 ->]; [lia |]. cbn [bind].
  destruct (map_ints_to_dmy _); [| apply returns_nil].
  eexists. split; [reflexivity |]. constructor; [| constructor].
  unfold in_range. cbn [i j token]. repeat split; lia.
Qed.

(** *** Overlap pruning *)

(** [other_match] covers [m] and is not the same range, lines 745-746. *)
Definition covers (other_match m : @Match guesses_t) : bool :=
  negb ((i other_match =? i m) && (j other_match =? j m))
  && ((i other_match <=? i m) && (j m <=? j other_match)).

Lemma is_submatch_true (matches : list Match) (m : Match) :
  is_submatch matches m = true <-> exists o, In o matches /\ covers o m = true.
Proof. unfold is_submatch. apply existsb_exists. Qed.

Lemma covers_moved_from (o m : Match) : covers (moved_from o) m = covers o m.
Proof. destruct o. reflexivity. Qed.

Lemma covers_trans (a b c : Match) :
  covers a b = true -> covers b c = true -> covers a c = true.
Proof.
  unfold covers. rewrite !andb_true_iff, !negb_true_iff, !andb_false_iff,
    !Nat.leb_le, !Nat.eqb_neq. lia.
Qed.

(** A match that is covered is covered by a match that nothing covers. *)
Lemma maximal_cover (matches : list Match) (m : Match) :
  forall o, In o matches -> covers o m = true ->
  exists o', In o' matches /\ covers o' m = true /\ is_submatch matches o' = false.
Proof.
  set (bound := list_max (map j matches)).
  assert (Hbound : forall o, In o matches -> j o <= bound).
  { intros o Ho. assert (H : list_max (map j matches) <= bound) by reflexivity.
    apply list_max_le in H. rewrite Forall_forall in H. apply H. now apply in_map. }
  intros o. remember (i o + (bound - j o)) as size eqn:Hsize. revert o Hsize.
  induction size as [size IH] using lt_wf_ind. intros o Hsize Ho Hcov.
  destruct (is_submatch matches o) eqn:Hsub; [| eauto].
  apply is_submatch_true in Hsub. destruct Hsub as (o2 & Ho2 & Hcov2).
  apply (IH (i o2 + (bound - j o2))) with (o := o2); auto.
  - pose proof (Hbound o Ho). pose proof (Hbound o2 Ho2). subst size.
    unfold covers in Hcov2.
    rewrite !andb_true_iff, !negb_true_iff, !andb_false_iff, !Nat.leb_le, !Nat.eqb_neq
      in Hcov2. lia.
  - eapply covers_trans; eauto.
Qed.

(** The lambda of lines 743-751 reads the vector that [std::remove_if] is
    compacting; what it answers is what it would answer on the vector as it
    was before. *)
Lemma is_submatch_stable (matches : list (@Match guesses_t)) (n : nat) (m : Match)
      (stale : list Match) :
  Forall (stale_element moved_from matches) stale ->
  is_submatch (kept (is_submatch matches) matches n ++ stale ++ skipn n matches) m
  = is_submatch matches m.
Proof.
  intros Hstale. apply eq_true_iff_eq.
  rewrite (is_submatch_true _ m), (is_submatch_true matches m). split.
  - intros (o & Ho & Hcov). apply in_app_or in Ho. destruct Ho as [Ho | Ho].
    + unfold kept in Ho. apply filter_In in Ho. destruct Ho as [Ho _].
      exists o. split; [| assumption].
      rewrite <- (firstn_skipn n matches). apply in_or_app. now left.
    + apply in_app_or in Ho. destruct Ho as [Ho | Ho].
      * rewrite Forall_forall in Hstale.
        destruct (Hstale o Ho) as (o' & Ho' & [-> | ->]); [eauto |].
        rewrite covers_moved_from in Hcov. eauto.
      * exists o. split; [| assumption].
        rewrite <- (firstn_skipn n matches). apply in_or_app. now right.
  - intros (o & Ho & Hcov).
    destruct (maximal_cover matches m o Ho Hcov) as (o' & Ho' & Hcov' & Hmax).
    exists o'. split; [| assumption].
    rewrite <- (firstn_skipn n matches) in Ho'. apply in_app_or in Ho'.
    destruct Ho' as [Ho' | Ho']; apply in_or_app.
    + left. unfold kept. apply filter_In. rewrite Hmax. auto.
    + right. apply in_or_app. now right.
Qed.

(** [date_match]: the matches of the two passes that no other match of the
    two passes covers, sorted. *)
Lemma date_match_filter (password : str) (ms : list Match) :
  date_match password = Ok ms <->
  exists without with_,
    date_without_separator password = Ok without /\
    date_with_separator password = Ok with_ /\
    ms = sorted (filter (fun m => negb (is_submatch (without ++ with_) m))
                        (without ++ with_)).
Proof.
  unfold date_match. split.
  - intros H. inv_bind H. inv_bind H. injection H as <-.
    exists r, r0. split; [assumption |]. split; [assumption |]. f_equal.
    apply erase_remove_if_filter. intros n x stale _ _ Hstale.
    now apply is_submatch_stable.
  - intros (a & b & -> & -> & ->). cbn [bind]. do 2 f_equal.
    apply erase_remove_if_filter. intros n x stale _ _ Hstale.
    now apply is_submatch_stable.
Qed.

Lemma date_match_spec (password : str) :
  returns_in_range password (date_match password).
Proof.
  destruct (date_without_separator_spec password) as (a & Ha & Hra).
  destruct (date_with_separator_spec password) as (b & Hb & Hrb).
  eexists. split.
  - apply date_match_filter. exists a, b. auto.
  - apply sorted_Forall. apply Forall_forall. intros m Hm. apply filter_In in Hm.
    destruct Hm as [Hm _]. revert m Hm. apply Forall_forall. now apply Forall_app.
Qed.

End DateFacts.

(** ** omnimatch *)

Section OmnimatchFacts.

Context {guesses_t : Type} {sorter : @StdSort guesses_t} {env : @Environment guesses_t}.

Lemma returns_of_total_sound (password : str) (r : result (list (@Match guesses_t))) :
  (exists ms, r = Ok ms) ->
  (forall ms, r = Ok ms -> Forall (in_range password) ms) ->
  returns_in_range password r.
Proof. intros [ms ->] H. exists ms. auto. Qed.

Lemma dictionary_match_spec (password : str) (dicts : RankedDicts) :
  returns_in_range password (dictionary_match password dicts).
Proof.
  apply returns_of_total_sound; [apply dictionary_match_total |].
  intros ms H. apply dictionary_match_sound in H.
  eapply Forall_impl; [| exact H]. now intros m [Hm _].
Qed.

Lemma reverse_dictionary_match_spec (password : str) (dicts : RankedDicts) :
  returns_in_range password (reverse_dictionary_match password dicts).
Proof.
  apply returns_of_total_sound; [apply reverse_dictionary_match_total |].
  intros ms H. apply reverse_dictionary_match_sound in H.
  eapply Forall_impl; [| exact H]. now intros m [Hm _].
Qed.

Lemma l33t_match_spec (password : str) (dicts : RankedDicts) :
  returns_in_range password (l33t_match password dicts L33T_TABLE).
Proof.
  apply returns_of_total_sound; [apply l33t_match_total | apply l33t_match_in_range].
Qed.

Lemma repeat_match_spec (omni : str -> result (list Match)) (password : str) :
  (forall s, length s < length password -> exists r, omni s = Ok r) ->
  returns_in_range password (repeat_match omni password).
Proof.
  intros Homni. apply returns_of_total_sound.
  - unfold repeat_match. apply repeat_loop_total; [assumption | lia].
  - intros ms H. apply repeat_match_sound in H.
    eapply Forall_impl; [| exact H]. now intros m [Hm _].
Qed.

(** The eight matchers of lines 141-154. *)
Definition matchers (omni : str -> result (list Match)) (ordered_list : list str)
  : list (str -> result (list (@Match guesses_t))) :=
  let ranked_dictionaries :=
    insert_dict default_ranked_dicts USER_INPUTS (build_ranked_dict ordered_list) in
  [ (fun p => dictionary_match p ranked_dictionaries);
    (fun p => reverse_dictionary_match p ranked_dictionaries);
    (fun p => l33t_match p ranked_dictionaries L33T_TABLE);
    (fun p => spatial_match p graphs);
    repeat_match omni;
    sequence_match;
    (fun p => regex_match p REGEXEN);
    date_match ].

Lemma omnimatch_rec_unfold (depth : nat) (password : str) (ordered_list : list str) :
  omnimatch_rec (S depth) password ordered_list =
  (matches <- for_each (matchers (fun base_token => omnimatch_rec depth base_token [])
                                 ordered_list)
                       (fun matcher => matcher password) ;;
   Ok (sorted matches)).
Proof. reflexivity. Qed.

Lemma matchers_spec (omni : str -> result (list Match)) (ordered_list : list str)
      (password : str) :
  (forall s, length s < length password -> exists r, omni s = Ok r) ->
  forall matcher, In matcher (matchers omni ordered_list) ->
                  returns_in_range password (matcher password).
Proof.
  intros Homni matcher Hin. unfold matchers in Hin. cbv zeta in Hin.
  repeat (destruct Hin as [<- | Hin]); try destruct Hin.
  - apply dictionary_match_spec.
  - apply reverse_dictionary_match_spec.
  - apply l33t_match_spec.
  - apply spatial_match_spec.
  - now apply repeat_match_spec.
  - apply sequence_match_spec.
  - apply regex_match_spec.
  - apply date_match_spec.
Qed.

(** [omnimatch] returns when it may nest deeper than the password is long,
    and its matches are in range. *)
Lemma omnimatch_rec_spec :
  forall depth password ordered_list,
  length password < depth ->
  returns_in_range password (omnimatch_rec depth password ordered_list).
Proof.
  induction depth as [|depth IH]; intros password ordered_list Hdepth; [lia |].
  rewrite omnimatch_rec_unfold. apply returns_sorted. apply returns_for_each.
  apply matchers_spec. intros s Hs.
  destruct (IH s [] ltac:(lia)) as (r & Hr & _). eauto.
Qed.

Lemma matchers_ext (omni1 omni2 : str -> result (list Match)) (ordered_list : list str)
      (password : str) :
  (forall s, length s < length password -> omni1 s = omni2 s) ->
  for_each (matchers omni1 ordered_list) (fun matcher => matcher password) =
  for_each (matchers omni2 ordered_list) (fun matcher => matcher password).
Proof.
  intros H. unfold matchers. cbv zeta. cbn [for_each].
  unfold repeat_match. rewrite (repeat_loop_ext omni1 omni2 password H).
  reflexivity.
Qed.

(** The depth does not matter once it exceeds the length of the password. *)
Lemma omnimatch_rec_depth :
  forall depth1 depth2 password ordered_list,
  length password < depth1 -> length password < depth2 ->
  omnimatch_rec depth1 password ordered_list = omnimatch_rec depth2 password ordered_list.
Proof.
  induction depth1 as [|depth1 IH]; intros depth2 password ordered_list H1 H2; [lia |].
  destruct depth2 as [|depth2]; [lia |].
  rewrite !omnimatch_rec_unfold. f_equal.
  apply matchers_ext. intros s Hs. apply IH; lia.
Qed.

Lemma omnimatch_unfold (password : str) (ordered_list : list str) :
  omnimatch password ordered_list =
  (matches <- for_each (matchers (fun base_token => omnimatch base_token []) ordered_list)
                       (fun matcher => matcher password) ;;
   Ok (sorted matches)).
Proof.
  unfold omnimatch. rewrite omnimatch_rec_unfold. f_equal.
  apply matchers_ext. intros s Hs. apply omnimatch_rec_depth; lia.
Qed.

Lemma in_range_nil (m : @Match guesses_t) : ~ in_range [] m.
Proof. intros (_ & H & _). simpl in H. lia. Qed.

Lemma returns_in_range_nil (r : result (list (@Match guesses_t))) :
  returns_in_range [] r -> r = Ok [].
Proof.
  intros (ms & -> & H). destruct ms as [|m ms]; [reflexivity |].
  inversion H as [|? ? Hm _]; subst. now apply in_range_nil in Hm.
Qed.

End OmnimatchFacts.

(** ** Instances

    A sorting algorithm that meets the contract of [std::sort], the stable
    insertion sort, and a small environment, on which the matchers can be
    run. *)

Section Sorters.

Context {guesses_t : Type}.

Lemma match_lt_spec (a b : @Match guesses_t) :
  match_lt a b = true <-> i a < i b \/ (i a = i b /\ j a < j b).
Proof.
  unfold match_lt. rewrite orb_true_iff, andb_true_iff, negb_true_iff,
    !Nat.ltb_lt, Nat.ltb_ge. lia.
Qed.

(** [(i, j)] of the first is not after [(i, j)] of the second. *)
Definition key_le (a b : @Match guesses_t) : Prop :=
  i a < i b \/ (i a = i b /\ j a <= j b).

Lemma match_lt_false (a b : @Match guesses_t) : match_lt b a = false <-> key_le a b.
Proof.
  unfold key_le. rewrite <- not_true_iff_false, match_lt_spec. lia.
Qed.

(** Insertion of [m] into a list: before the first element [x] for which
    [before m x] holds. *)
Fixpoint insert_match (before : @Match guesses_t -> @Match guesses_t -> bool)
         (m : @Match guesses_t) (l : list (@Match guesses_t)) : list (@Match guesses_t) :=
  match l with
  | [] => [m]
  | x :: l' => if before m x then m :: l else x :: insert_match before m l'
  end.

Definition insertion_sort (before : @Match guesses_t -> @Match guesses_t -> bool)
           (l : list (@Match guesses_t)) : list (@Match guesses_t) :=
  fold_right (insert_match before) [] l.

Lemma insert_match_permutation before m l :
  Permutation (m :: l) (insert_match before m l).
Proof.
  induction l as [|x l IH]; simpl; [reflexivity |].
  destruct (before m x); [reflexivity |].
  rewrite perm_swap. now constructor.
Qed.

Lemma insertion_sort_permutation before l : Permutation l (insertion_sort before l).
Proof.
  induction l as [|m l IH]; simpl; [constructor |].
  rewrite <- insert_match_permutation. now constructor.
Qed.

Section Ordered.

Variable before : @Match guesses_t -> @Match guesses_t -> bool.
Hypothesis before_true : forall m x, before m x = true -> key_le m x.
Hypothesis before_false : forall m x, before m x = false -> key_le x m.

Lemma insert_match_ordered m l :
  StronglySorted key_le l -> StronglySorted key_le (insert_match before m l).
Proof.
  induction 1 as [|x l Hl IH Hx]; simpl; [repeat constructor |].
  destruct (before m x) eqn:Hb.
  - constructor; [now constructor |]. apply before_true in Hb.
    constructor; [assumption |].
    eapply Forall_impl; [| exact Hx]. intros y Hy. unfold key_le in *. lia.
  - constructor; [assumption |]. apply before_false in Hb.
    apply Forall_forall. intros y Hy.
    apply (Permutation_in _ (Permutation_sym (insert_match_permutation before m l))) in Hy.
    destruct Hy as [<- | Hy]; [assumption |].
    rewrite Forall_forall in Hx. auto.
Qed.

Lemma insertion_sort_ordered l :
  StronglySorted (fun m1 m2 => match_lt m2 m1 = false) (insertion_sort before l).
Proof.
  assert (H : StronglySorted key_le (insertion_sort before l)).
  { induction l as [|m l IH]; simpl; [constructor | now apply insert_match_ordered]. }
  induction H as [|x l' Hl IH Hx]; constructor; [assumption |].
  eapply Forall_impl; [| exact Hx]. intros y Hy. now apply match_lt_false.
Qed.

End Ordered.

(** The stable insertion sort: equivalent matches keep their order. *)
Definition stable_before (m x : @Match guesses_t) : bool := negb (match_lt x m).

Lemma stable_before_true m x : stable_before m x = true -> key_le m x.
Proof.
  unfold stable_before. rewrite negb_true_iff. apply match_lt_false.
Qed.

Lemma stable_before_false m x : stable_before m x = false -> key_le x m.
Proof.
  unfold stable_before. rewrite negb_false_iff, match_lt_spec. unfold key_le. lia.
Qed.

Definition stable_sorter : @StdSort guesses_t :=
  {| std_sort := insertion_sort stable_before;
     std_sort_permutation := insertion_sort_permutation stable_before;
     std_sort_ordered :=
       insertion_sort_ordered stable_before stable_before_true stable_before_false |}.

End Sorters.

(** A dictionary of two words. *)
Definition sample_dicts : RankedDicts :=
  [ (PASSWORDS, [ (lit "password", 1); (lit "cat", 2) ]) ].

(** Modelled from the spec: [build_ranked_dict] is defined in
    frequency_lists, which is not among the sources.  The spec: "each word
    lower-cased and ranked by original order, 1-based". *)
Definition sample_build_ranked_dict (ordered_list : list str) : RankedDict :=
  combine (map ascii_lower ordered_list) (seq 1 (length ordered_list)).

(** The keys q, w, e, r, t of the qwerty graph with their neighbours. *)
Definition sample_graphs : Graphs :=
  [ (QWERTY,
     [ (lit "q", [Some (lit "`~"); Some (lit "1!"); Some (lit "2@"); Some (lit "wW");
                  Some (lit "aA"); None]);
       (lit "w", [Some (lit "qQ"); Some (lit "2@"); Some (lit "3#"); Some (lit "eE");
                  Some (lit "sS"); Some (lit "aA")]);
       (lit "e", [Some (lit "wW"); Some (lit "3#"); Some (lit "4$"); Some (lit "rR");
                  Some (lit "dD"); Some (lit "sS")]);
       (lit "r", [Some (lit "eE"); Some (lit "4$"); Some (lit "5%"); Some (lit "tT");
                  Some (lit "fF"); Some (lit "dD")]);
       (lit "t", [Some (lit "rR"); Some (lit "5%"); Some (lit "6^"); Some (lit "yY");
                  Some (lit "gG"); Some (lit "fF")]) ]) ].

(** An environment whose scoring engine keeps every match and counts them. *)
Definition sample_env (reference_year : date_t) : @Environment nat :=
  {| default_ranked_dicts := sample_dicts;
     build_ranked_dict := sample_build_ranked_dict;
     graphs := sample_graphs;
     most_guessable_match_sequence :=
       fun _ matches _ => mkScoringResult (length matches) matches;
     REFERENCE_YEAR := reference_year |}.

(** ** The examples of the specification, section 8 *)

Example dictionary_match_password123 :
  dictionary_match (guesses_t := nat) (sorter := stable_sorter) (lit "password123")
                   sample_dicts =
  Ok [mkMatch 0 7 (lit "password")
        (PDictionary (mkDictionaryMatch PASSWORDS (lit "password") 1 false false [] []))].
Proof. vm_compute. reflexivity. Qed.

Example reverse_dictionary_match_tac :
  reverse_dictionary_match (guesses_t := nat) (sorter := stable_sorter) (lit "tac") sample_dicts =
  Ok [mkMatch 0 2 (lit "tac")
        (PDictionary (mkDictionaryMatch PASSWORDS (lit "cat") 2 true false [] []))].
Proof. reflexivity. Qed.

Example l33t_match_p4ssword :
  l33t_match (guesses_t := nat) (sorter := stable_sorter) (lit "p4ssword") sample_dicts L33T_TABLE =
  Ok [mkMatch 0 7 (lit "p4ssword")
        (PDictionary (mkDictionaryMatch PASSWORDS (lit "password") 1 false true
                        [(lit "4", lit "a")] (lit "4 -> a")))].
Proof. vm_compute. reflexivity. Qed.

Example spatial_match_qwerty :
  spatial_match (guesses_t := nat) (lit "qwerty") sample_graphs =
  Ok [mkMatch 0 5 (lit "qwerty") (PSpatial (mkSpatialMatch QWERTY 1 0))].
Proof. vm_compute. reflexivity. Qed.

Example repeat_match_abcabcabc :
  omnimatch (sorter := stable_sorter) (env := sample_env 2000%N) (lit "abcabcabc") [] =
  Ok [mkMatch 0 2 (lit "abc") (PSequence (mkSequenceMatch LOWER 26 true));
      mkMatch 0 8 (lit "abcabcabc")
        (PRepeat (lit "abc") 1
           [mkMatch 0 2 (lit "abc") (PSequence (mkSequenceMatch LOWER 26 true))] 3);
      mkMatch 3 5 (lit "abc") (PSequence (mkSequenceMatch LOWER 26 true));
      mkMatch 6 8 (lit "abc") (PSequence (mkSequenceMatch LOWER 26 true))].
Proof. vm_compute. reflexivity. Qed.

Example sequence_match_abcdb975zy :
  sequence_match (guesses_t := nat) (lit "abcdb975zy") =
  Ok [mkMatch 0 3 (lit "abcd") (PSequence (mkSequenceMatch LOWER 26 true));
      mkMatch 5 7 (lit "975") (PSequence (mkSequenceMatch DIGITS 10 false));
      mkMatch 8 9 (lit "zy") (PSequence (mkSequenceMatch LOWER 26 false))].
Proof. vm_compute. reflexivity. Qed.

(* ------------------------------------------------------------------------- *)
(** * The sorting algorithm of the library *)

(** [std::sort] as libstdc++ runs it (bits/stl_algo.h and bits/stl_heap.h of
    GCC 12): an introsort.  A range is a vector [v] with the positions
    [first] and [last]; the library reads and writes inside the range only,
    and so does the model: a comparison with a position outside is false
    and an assignment outside is dropped. *)
Module Libstdcxx.

Section Sort.

Context {A : Type} (comp : A -> A -> bool).

(** [comp(a, b)] on two iterators. *)
Definition comp_at (v : list A) (a b : nat) : bool :=
  match nth_error v a, nth_error v b with
  | Some x, Some y => comp x y
  | _, _ => false
  end.

(** The move assignment of [*src] to [*dst]. *)
Definition assign (v : list A) (dst src : nat) : list A :=
  match nth_error v src with
  | Some x => set_nth dst x v
  | None => v
  end.

(** [std::iter_swap(a, b)]. *)
Definition iter_swap (v : list A) (a b : nat) : list A :=
  match nth_error v a, nth_error v b with
  | Some x, Some y => set_nth a y (set_nth b x v)
  | _, _ => v
  end.

(** [__move_median_to_first], stl_algo.h 82-100. *)
Definition move_median_to_first (v : list A) (result a b c : nat) : list A :=
  if comp_at v a b then
    if comp_at v b c then iter_swap v result b
    else if comp_at v a c then iter_swap v result c
    else iter_swap v result a
  else if comp_at v a c then iter_swap v result a
  else if comp_at v b c then iter_swap v result c
  else iter_swap v result b.

(** [while (comp(first, pivot)) ++first;] *)
Fixpoint scan_up (fuel : nat) (v : list A) (pivot first : nat) : nat :=
  match fuel with
  | O => first
  | S fuel' => if comp_at v first pivot then scan_up fuel' v pivot (S first) else first
  end.

(** [while (comp(pivot, last)) --last;] *)
Fixpoint scan_down (v : list A) (pivot last : nat) : nat :=
  match last with
  | O => O
  | S last' => if comp_at v pivot last then scan_down v pivot last' else last
  end.

(** [__unguarded_partition], stl_algo.h 1861-1877. *)
Fixpoint unguarded_partition (fuel : nat) (v : list A) (first last pivot : nat)
  : list A * nat :=
  match fuel with
  | O => (v, first)
  | S fuel' =>
      let first := scan_up (length v) v pivot first in
      let last := last - 1 in
      let last := scan_down v pivot last in
      if negb (first <? last) then (v, first)
      else unguarded_partition fuel' (iter_swap v first last) (S first) last pivot
  end.

(** [__unguarded_partition_pivot], stl_algo.h 1883-1890. *)
Definition unguarded_partition_pivot (v : list A) (first last : nat) : list A * nat :=
  let mid := first + (last - first) / 2 in
  let v := move_median_to_first v first (first + 1) mid (last - 1) in
  unguarded_partition (length v) v (first + 1) last first.

(** [__push_heap], stl_heap.h 135-147. *)
Fixpoint push_heap (fuel : nat) (v : list A) (first holeIndex topIndex : nat) (value : A)
  : list A :=
  match fuel with
  | O => set_nth (first + holeIndex) value v
  | S fuel' =>
      let parent := (holeIndex - 1) / 2 in
      if (topIndex <? holeIndex)
         && match nth_error v (first + parent) with
            | Some x => comp x value
            | None => false
            end
      then push_heap fuel' (assign v (first + holeIndex) (first + parent))
                     first parent topIndex value
      else set_nth (first + holeIndex) value v
  end.

(** The loop of [__adjust_heap], stl_heap.h 229-237; [holeIndex] and
    [secondChild] are equal when the condition is tested. *)
Fixpoint adjust_heap_loop (fuel : nat) (v : list A) (first holeIndex len : nat)
  : list A * nat :=
  match fuel with
  | O => (v, holeIndex)
  | S fuel' =>
      let secondChild := holeIndex in
      if secondChild <? (len - 1) / 2 then
        let secondChild := 2 * (secondChild + 1) in
        let secondChild :=
          if comp_at v (first + secondChild) (first + (secondChild - 1))
          then secondChild - 1 else secondChild in
        adjust_heap_loop fuel' (assign v (first + holeIndex) (first + secondChild))
                         first secondChild len
      else (v, holeIndex)
  end.

(** [__adjust_heap], stl_heap.h 224-249. *)
Definition adjust_heap (v : list A) (first holeIndex len : nat) (value : A) : list A :=
  let topIndex := holeIndex in
  let '(v, holeIndex) := adjust_heap_loop len v first holeIndex len in
  let secondChild := holeIndex in
  let '(v, holeIndex) :=
    if Nat.even len && (secondChild =? (len - 2) / 2) then
      let secondChild := 2 * (secondChild + 1) in
      (assign v (first + holeIndex) (first + (secondChild - 1)), secondChild - 1)
    else (v, holeIndex) in
  push_heap (S holeIndex) v first holeIndex topIndex value.

(** [__pop_heap], stl_heap.h 254-267. *)
Definition pop_heap (v : list A) (first last result : nat) : list A :=
  match nth_error v result with
  | Some value => adjust_heap (assign v result first) first 0 (last - first) value
  | None => v
  end.

(** The loop of [__make_heap], stl_heap.h 352-360. *)
Fixpoint make_heap_loop (v : list A) (first len parent : nat) : list A :=
  let v :=
    match nth_error v (first + parent) with
    | Some value => adjust_heap v first parent len value
    | None => v
    end in
  match parent with
  | O => v
  | S parent' => make_heap_loop v first len parent'
  end.

(** [__make_heap], stl_heap.h 340-361. *)
Definition make_heap (v : list A) (first last : nat) : list A :=
  if last - first <? 2 then v
  else
    let len := last - first in
    make_heap_loop v first len ((len - 2) / 2).

(** [__sort_heap], stl_heap.h 419-427. *)
Fixpoint sort_heap (fuel : nat) (v : list A) (first last : nat) : list A :=
  match fuel with
  | O => v
  | S fuel' =>
      if 1 <? last - first then
        let last := last - 1 in
        sort_heap fuel' (pop_heap v first last last) first last
      else v
  end.

(** [__heap_select], stl_algo.h 1625-1633. *)
Definition heap_select (v : list A) (first middle last : nat) : list A :=
  fold_left (fun v i => if comp_at v i first then pop_heap v first middle i else v)
            (seq middle (last - middle)) (make_heap v first middle).

(** [__partial_sort], stl_algo.h 1895-1902. *)
Definition partial_sort (v : list A) (first middle last : nat) : list A :=
  sort_heap (middle - first) (heap_select v first middle last) first middle.

Definition _S_threshold : nat := 16.

(** [__introsort_loop], stl_algo.h 1908-1926: the second call is the next
    round of the loop, which goes on with [last = cut] and the decremented
    [depth_limit]. *)
Fixpoint introsort_loop (v : list A) (first last depth_limit : nat) : list A :=
  if _S_threshold <? last - first then
    match depth_limit with
    | O => partial_sort v first last last
    | S depth_limit' =>
        let '(v, cut) := unguarded_partition_pivot v first last in
        let v := introsort_loop v cut last depth_limit' in
        introsort_loop v first cut depth_limit'
    end
  else v.

(** The loop of [__unguarded_linear_insert], stl_algo.h 1789-1794, with
    [next = last - 1]. *)
Fixpoint unguarded_linear_insert_loop (val : A) (v : list A) (last : nat) : list A :=
  match last with
  | O => set_nth last val v
  | S next =>
      match nth_error v next with
      | Some x =>
          if comp val x then unguarded_linear_insert_loop val (set_nth last x v) next
          else set_nth last val v
      | None => set_nth last val v
      end
  end.

(** [__unguarded_linear_insert], stl_algo.h 1782-1796. *)
Definition unguarded_linear_insert (v : list A) (last : nat) : list A :=
  match nth_error v last with
  | Some val => unguarded_linear_insert_loop val v last
  | None => v
  end.

(** [val = *i; std::move_backward(first, i, i + 1); *first = val],
    stl_algo.h 1811-1814. *)
Definition move_to_first (v : list A) (first i : nat) : list A :=
  match nth_error v i with
  | Some val =>
      firstn first v ++ val :: firstn (i - first) (skipn first v) ++ skipn (S i) v
  | None => v
  end.

(** [__insertion_sort], stl_algo.h 1802-1821. *)
Definition insertion_sort (v : list A) (first last : nat) : list A :=
  if first =? last then v
  else
    fold_left (fun v i => if comp_at v i first then move_to_first v first i
                          else unguarded_linear_insert v i)
              (seq (first + 1) (last - (first + 1))) v.

(** [__unguarded_insertion_sort], stl_algo.h 1826-1832. *)
Definition unguarded_insertion_sort (v : list A) (first last : nat) : list A :=
  fold_left unguarded_linear_insert (seq first (last - first)) v.

(** [__final_insertion_sort], stl_algo.h 1844-1855. *)
Definition final_insertion_sort (v : list A) (first last : nat) : list A :=
  if _S_threshold <? last - first then
    let v := insertion_sort v first (first + _S_threshold) in
    unguarded_insertion_sort v (first + _S_threshold) last
  else insertion_sort v first last.

(** [std::sort(v.begin(), v.end(), comp)], stl_algo.h 1932-1942;
    [std::__lg(n)] is the binary logarithm of [n], rounded down. *)
Definition sort (v : list A) : list A :=
  let first := 0 in
  let last := length v in
  if first =? last then v
  else
    let v := introsort_loop v first last (Nat.log2 (last - first) * 2) in
    final_insertion_sort v first last.

End Sort.

End Libstdcxx.

(** ** The library sort is a sorting algorithm *)

Section LibstdcxxFacts.

Context {A : Type} (comp : A -> A -> bool).

Lemma set_nth_length (n : nat) (a : A) (v : list A) : length (set_nth n a v) = length v.
Proof.
  revert n; induction v as [|x v IH]; intros [|n]; simpl; auto.
Qed.

Lemma set_nth_same (n : nat) (a : A) (v : list A) :
  nth_error v n = Some a -> set_nth n a v = v.
Proof.
  revert n; induction v as [|x v IH]; intros [|n]; simpl; intros H; try discriminate.
  - now injection H as ->.
  - now rewrite IH.
Qed.

Lemma set_nth_app_length (p : list A) (a y : A) (s : list A) :
  set_nth (length p) a (p ++ y :: s) = p ++ a :: s.
Proof. induction p as [|x p IH]; simpl; [reflexivity | now rewrite IH]. Qed.

Lemma nth_error_app_length (p : list A) (y : A) (s : list A) :
  nth_error (p ++ y :: s) (length p) = Some y.
Proof. induction p as [|x p IH]; simpl; auto. Qed.

(** Taking [x] out of the list at [s] and putting [val] there. *)
Lemma set_nth_take (val x : A) (s : nat) (t : list A) :
  nth_error t s = Some x -> Permutation (val :: t) (x :: set_nth s val t).
Proof.
  revert s; induction t as [|a t IH]; intros [|s]; simpl; intros H; try discriminate.
  - injection H as ->. apply perm_swap.
  - rewrite perm_swap. rewrite (IH _ H). apply perm_swap.
Qed.

Lemma set_nth_exchange (val x : A) (h : nat) (t : list A) :
  h < length t -> Permutation (x :: set_nth h val t) (val :: set_nth h x t).
Proof.
  revert h; induction t as [|a t IH]; intros [|h]; simpl; intros H; try lia.
  - apply perm_swap.
  - rewrite perm_swap. rewrite (IH h) by lia. apply perm_swap.
Qed.

(** The vector with [val] in the hole at [h], before and after the element
    at [s] is moved into the hole. *)
Lemma assign_hole (val : A) (v : list A) (h s : nat) :
  h < length v -> s < length v ->
  Permutation (set_nth h val v) (set_nth s val (Libstdcxx.assign v h s)).
Proof.
  unfold Libstdcxx.assign. intros Hh Hs.
  destruct (nth_error v s) as [x|] eqn:Hx; [| apply nth_error_None in Hx; lia].
  clear Hs. revert h s Hh Hx.
  induction v as [|a v IH]; intros [|h] [|s]; simpl; intros Hh Hx; try lia; try discriminate.
  - reflexivity.
  - now apply set_nth_take.
  - injection Hx as ->. apply set_nth_exchange. lia.
  - constructor. apply IH; [lia | assumption].
Qed.

Lemma assign_length (v : list A) (dst src : nat) :
  length (Libstdcxx.assign v dst src) = length v.
Proof.
  unfold Libstdcxx.assign. destruct (nth_error v src); [apply set_nth_length | reflexivity].
Qed.

Lemma iter_swap_permutation (v : list A) (a b : nat) :
  Permutation v (Libstdcxx.iter_swap v a b).
Proof.
  unfold Libstdcxx.iter_swap.
  destruct (nth_error v a) as [x|] eqn:Hx; [| reflexivity].
  destruct (nth_error v b) as [y|] eqn:Hy; [| reflexivity].
  revert a b Hx Hy.
  induction v as [|c v IH]; intros [|a] [|b]; simpl; intros Hx Hy; try discriminate.
  - injection Hx as ->. injection Hy as ->. reflexivity.
  - injection Hx as ->. now apply set_nth_take.
  - injection Hy as ->. now apply set_nth_take.
  - constructor. now apply IH.
Qed.

Lemma iter_swap_length (v : list A) (a b : nat) :
  length (Libstdcxx.iter_swap v a b) = length v.
Proof. symmetry. apply Permutation_length, iter_swap_permutation. Qed.

Lemma move_median_to_first_permutation (v : list A) (result a b c : nat) :
  Permutation v (Libstdcxx.move_median_to_first comp v result a b c).
Proof.
  unfold Libstdcxx.move_median_to_first.
  repeat match goal with |- context [if ?t then _ else _] => destruct t end;
    apply iter_swap_permutation.
Qed.

Lemma scan_up_bound (fuel : nat) (v : list A) (pivot first : nat) :
  first <= length v -> Libstdcxx.scan_up comp fuel v pivot first <= length v.
Proof.
  revert first; induction fuel as [|fuel IH]; intros first H; simpl; [assumption |].
  unfold Libstdcxx.comp_at at 1.
  destruct (nth_error v first) as [x|] eqn:Hx; [| assumption].
  destruct (nth_error v pivot); [| assumption].
  destruct (comp x _); [| assumption].
  apply IH. assert (first < length v) by (apply nth_error_Some; congruence). lia.
Qed.

Lemma scan_down_bound (v : list A) (pivot last : nat) :
  Libstdcxx.scan_down comp v pivot last <= last.
Proof.
  induction last as [|last IH]; simpl; [lia |].
  destruct (Libstdcxx.comp_at comp v pivot (S last)); lia.
Qed.

Lemma unguarded_partition_spec (fuel : nat) (v : list A) (first last pivot : nat) :
  first <= length v -> last <= length v ->
  Permutation v (fst (Libstdcxx.unguarded_partition comp fuel v first last pivot)) /\
  snd (Libstdcxx.unguarded_partition comp fuel v first last pivot) <= length v.
Proof.
  revert v first last; induction fuel as [|fuel IH]; intros v first last H Hlast; simpl.
  - split; [reflexivity | assumption].
  - pose proof (scan_up_bound (length v) v pivot first H) as Hup.
    pose proof (scan_down_bound v pivot (last - 1)) as Hdown.
    set (first1 := Libstdcxx.scan_up comp (length v) v pivot first) in *.
    set (last1 := Libstdcxx.scan_down comp v pivot (last - 1)) in *.
    destruct (Nat.ltb_spec first1 last1) as [Hlt | Hge]; simpl.
    + destruct (IH (Libstdcxx.iter_swap v first1 last1) (S first1) last1) as [Hp Hc].
      * rewrite iter_swap_length. lia.
      * rewrite iter_swap_length. lia.
      * rewrite iter_swap_length in Hc. split; [| assumption].
        rewrite <- Hp. apply iter_swap_permutation.
    + split; [reflexivity | assumption].
Qed.

Lemma unguarded_partition_pivot_spec (v : list A) (first last : nat) :
  first < last <= length v ->
  Permutation v (fst (Libstdcxx.unguarded_partition_pivot comp v first last)) /\
  snd (Libstdcxx.unguarded_partition_pivot comp v first last) <= length v.
Proof.
  intros H. unfold Libstdcxx.unguarded_partition_pivot.
  set (v1 := Libstdcxx.move_median_to_first comp v first (first + 1)
               (first + (last - first) / 2) (last - 1)).
  assert (Hv1 : Permutation v v1) by apply move_median_to_first_permutation.
  pose proof (Permutation_length Hv1) as Hlen.
  destruct (unguarded_partition_spec (length v1) v1 (first + 1) last first) as [Hp Hc];
    [lia | lia |].
  split; [now rewrite Hv1 | lia].
Qed.

Lemma half_spec (n : nat) : 2 * (n / 2) <= n < 2 * (n / 2) + 2.
Proof.
  pose proof (Nat.div_mod_eq n 2). pose proof (Nat.mod_upper_bound n 2). lia.
Qed.

Lemma push_heap_permutation (fuel : nat) (v : list A) (first holeIndex topIndex : nat)
      (value : A) :
  first + holeIndex < length v ->
  Permutation (set_nth (first + holeIndex) value v)
              (Libstdcxx.push_heap comp fuel v first holeIndex topIndex value).
Proof.
  revert v holeIndex; induction fuel as [|fuel IH]; intros v holeIndex H;
    cbn [Libstdcxx.push_heap]; [reflexivity |].
  destruct (topIndex <? holeIndex); cbn [andb]; [| reflexivity].
  destruct (nth_error v (first + (holeIndex - 1) / 2)) as [x|] eqn:Hx; [| reflexivity].
  destruct (comp x value); [| reflexivity].
  pose proof (half_spec (holeIndex - 1)) as Hhalf.
  rewrite (assign_hole value v (first + holeIndex) (first + (holeIndex - 1) / 2))
    by lia.
  apply IH. rewrite assign_length. lia.
Qed.

Lemma push_heap_length (fuel : nat) (v : list A) (first holeIndex topIndex : nat)
      (value : A) :
  length (Libstdcxx.push_heap comp fuel v first holeIndex topIndex value) = length v.
Proof.
  revert v holeIndex; induction fuel as [|fuel IH]; intros v holeIndex;
    cbn [Libstdcxx.push_heap]; [apply set_nth_length |].
  destruct (_ && _); [| apply set_nth_length].
  rewrite IH. apply assign_length.
Qed.

Lemma adjust_heap_loop_spec (fuel : nat) (v : list A) (first holeIndex len : nat)
      (value : A) :
  holeIndex < len -> first + len <= length v ->
  snd (Libstdcxx.adjust_heap_loop comp fuel v first holeIndex len) < len /\
  length (fst (Libstdcxx.adjust_heap_loop comp fuel v first holeIndex len)) = length v /\
  Permutation
    (set_nth (first + holeIndex) value v)
    (set_nth (first + snd (Libstdcxx.adjust_heap_loop comp fuel v first holeIndex len))
             value
             (fst (Libstdcxx.adjust_heap_loop comp fuel v first holeIndex len))).
Proof.
  revert v holeIndex; induction fuel as [|fuel IH]; intros v holeIndex Hh Hlen;
    cbn [Libstdcxx.adjust_heap_loop]; [cbn [fst snd]; auto |].
  destruct (Nat.ltb_spec holeIndex ((len - 1) / 2)) as [Hlt | Hge]; [| cbn [fst snd]; auto].
  pose proof (half_spec (len - 1)) as Hhalf.
  set (secondChild :=
         if Libstdcxx.comp_at comp v (first + 2 * (holeIndex + 1))
                              (first + (2 * (holeIndex + 1) - 1))
         then 2 * (holeIndex + 1) - 1
         else 2 * (holeIndex + 1)).
  assert (Hsc : secondChild < len) by (unfold secondChild; destruct (Libstdcxx.comp_at _ _ _ _); lia).
  destruct (IH (Libstdcxx.assign v (first + holeIndex) (first + secondChild)) secondChild)
    as (Hb & Hl & Hp); [assumption | rewrite assign_length; assumption |].
  split; [assumption |]. split; [now rewrite Hl, assign_length |].
  rewrite <- Hp. apply assign_hole; lia.
Qed.

Lemma adjust_heap_permutation (v : list A) (first holeIndex len : nat) (value : A) :
  holeIndex < len -> first + len <= length v ->
  Permutation (set_nth (first + holeIndex) value v)
              (Libstdcxx.adjust_heap comp v first holeIndex len value).
Proof.
  intros Hh Hlen. unfold Libstdcxx.adjust_heap.
  destruct (adjust_heap_loop_spec len v first holeIndex len value Hh Hlen)
    as (Hb & Hl & Hp).
  destruct (Libstdcxx.adjust_heap_loop comp len v first holeIndex len) as [v1 h1].
  cbn [fst snd] in Hb, Hl, Hp. rewrite Hp.
  destruct (Nat.even len && (h1 =? (len - 2) / 2)) eqn:Hlast.
  - apply andb_prop in Hlast. destruct Hlast as [Heven Hh1].
    apply Nat.eqb_eq in Hh1. pose proof (half_spec (len - 2)) as Hhalf.
    assert (Hlen2 : 2 <= len) by (destruct len as [|[|len]]; [lia | discriminate | lia]).
    rewrite (assign_hole value v1 (first + h1) (first + (2 * (h1 + 1) - 1))) by lia.
    apply push_heap_permutation. rewrite assign_length. lia.
  - apply push_heap_permutation. lia.
Qed.

Lemma adjust_heap_length (v : list A) (first holeIndex len : nat) (value : A) :
  holeIndex < len -> first + len <= length v ->
  length (Libstdcxx.adjust_heap comp v first holeIndex len value) = length v.
Proof.
  intros Hh Hlen.
  rewrite <- (Permutation_length (adjust_heap_permutation v first holeIndex len value Hh Hlen)).
  apply set_nth_length.
Qed.

Lemma make_heap_loop_permutation (v : list A) (first len parent : nat) :
  parent < len -> first + len <= length v ->
  Permutation v (Libstdcxx.make_heap_loop comp v first len parent).
Proof.
  revert v; induction parent as [|parent IH]; intros v Hp Hlen;
    cbn [Libstdcxx.make_heap_loop].
  - destruct (nth_error v (first + 0)) as [value|] eqn:Hv; [| reflexivity].
    rewrite <- (adjust_heap_permutation v first 0 len value Hp Hlen).
    now rewrite set_nth_same.
  - destruct (nth_error v (first + S parent)) as [value|] eqn:Hv.
    + assert (Hstep : Permutation v (Libstdcxx.adjust_heap comp v first (S parent) len value)).
      { rewrite <- (adjust_heap_permutation v first (S parent) len value Hp Hlen).
        now rewrite set_nth_same. }
      rewrite Hstep at 1. apply IH; [lia |].
      rewrite adjust_heap_length by assumption. assumption.
    + apply IH; [lia | assumption].
Qed.

Lemma make_heap_permutation (v : list A) (first last : nat) :
  last <= length v -> Permutation v (Libstdcxx.make_heap comp v first last).
Proof.
  intros H. unfold Libstdcxx.make_heap.
  destruct (Nat.ltb_spec (last - first) 2) as [|Hge]; [reflexivity |].
  pose proof (half_spec (last - first - 2)).
  apply make_heap_loop_permutation; lia.
Qed.

Lemma pop_heap_permutation (v : list A) (first last result : nat) :
  first < last <= length v -> Permutation v (Libstdcxx.pop_heap comp v first last result).
Proof.
  intros H. unfold Libstdcxx.pop_heap.
  destruct (nth_error v result) as [value|] eqn:Hvalue; [| reflexivity].
  rewrite <- adjust_heap_permutation; [| lia | rewrite assign_length; lia].
  unfold Libstdcxx.assign.
  destruct (nth_error v first) as [x|] eqn:Hx; [| apply nth_error_None in Hx; lia].
  rewrite Nat.add_0_r.
  pose proof (iter_swap_permutation v first result) as Hswap.
  unfold Libstdcxx.iter_swap in Hswap. now rewrite Hx, Hvalue in Hswap.
Qed.

Lemma sort_heap_permutation (fuel : nat) (v : list A) (first last : nat) :
  last <= length v -> Permutation v (Libstdcxx.sort_heap comp fuel v first last).
Proof.
  revert v last; induction fuel as [|fuel IH]; intros v last H;
    cbn [Libstdcxx.sort_heap]; [reflexivity |].
  destruct (Nat.ltb_spec 1 (last - first)) as [Hlt | _]; [| reflexivity].
  assert (Hpop : Permutation v (Libstdcxx.pop_heap comp v first (last - 1) (last - 1)))
    by (apply pop_heap_permutation; lia).
  rewrite Hpop at 1. apply IH. rewrite <- (Permutation_length Hpop). lia.
Qed.

Lemma partial_sort_permutation (v : list A) (first last : nat) :
  last <= length v -> Permutation v (Libstdcxx.partial_sort comp v first last last).
Proof.
  intros H. unfold Libstdcxx.partial_sort, Libstdcxx.heap_select.
  rewrite Nat.sub_diag. cbn [seq fold_left].
  pose proof (make_heap_permutation v first last H) as Hheap.
  rewrite Hheap at 1. apply sort_heap_permutation.
  now rewrite <- (Permutation_length Hheap).
Qed.

Lemma introsort_loop_permutation (depth_limit : nat) (v : list A) (first last : nat) :
  last <= length v ->
  Permutation v (Libstdcxx.introsort_loop comp v first last depth_limit).
Proof.
  revert v first last; induction depth_limit as [|depth_limit IH]; intros v first last H;
    cbn [Libstdcxx.introsort_loop].
  - destruct (Libstdcxx._S_threshold <? last - first); [| reflexivity].
    now apply partial_sort_permutation.
  - destruct (Nat.ltb_spec Libstdcxx._S_threshold (last - first)) as [Hlt | _];
      [| reflexivity].
    destruct (unguarded_partition_pivot_spec v first last) as [Hp Hc]; [lia |].
    destruct (Libstdcxx.unguarded_partition_pivot comp v first last) as [v1 cut].
    cbn [fst snd] in Hp, Hc.
    pose proof (Permutation_length Hp) as Hlen.
    assert (H1 : Permutation v1 (Libstdcxx.introsort_loop comp v1 cut last depth_limit))
      by (apply IH; lia).
    rewrite Hp at 1. rewrite H1 at 1. apply IH.
    rewrite <- (Permutation_length H1). lia.
Qed.

(** ** The final insertion sort *)

(** The comparison is a strict weak ordering. *)
Hypothesis comp_asym : forall a b, comp a b = true -> comp b a = false.
Hypothesis comp_le_trans :
  forall a b c, comp b a = false -> comp c b = false -> comp c a = false.

Definition comp_le (a b : A) : Prop := comp b a = false.

Lemma strongly_sorted_app (R : A -> A -> Prop) (l1 l2 : list A) :
  StronglySorted R (l1 ++ l2) <->
  StronglySorted R l1 /\ StronglySorted R l2 /\ (forall a b, In a l1 -> In b l2 -> R a b).
Proof.
  induction l1 as [|x l1 IH]; cbn [app].
  - split; [intros H; repeat split; [constructor | assumption | intros ? ? []]
           | intros (_ & H & _); assumption].
  - split.
    + intros H. inversion H as [|? ? Hs Hx]; subst.
      apply IH in Hs. destruct Hs as (H1 & H2 & H12).
      rewrite Forall_app in Hx. destruct Hx as [Hx1 Hx2].
      repeat split; [now constructor | assumption |].
      intros a b [<- | Ha] Hb; [| now apply H12].
      rewrite Forall_forall in Hx2. now apply Hx2.
    + intros (H1 & H2 & H12). inversion H1 as [|? ? Hs Hx]; subst.
      constructor.
      * apply IH. repeat split; [assumption | assumption |].
        intros a b Ha Hb. apply H12; [now right | assumption].
      * apply Forall_app. split; [assumption |].
        apply Forall_forall. intros b Hb. apply H12; [now left | assumption].
Qed.

Lemma unguarded_linear_insert_loop_spec (val : A) :
  forall (last : nat) (v p : list A) (y : A) (s : list A),
    v = p ++ y :: s -> length p = last ->
    exists p1 p2,
      p = p1 ++ p2 /\
      Libstdcxx.unguarded_linear_insert_loop comp val v last = p1 ++ val :: p2 ++ s /\
      Forall (fun x => comp val x = true) p2 /\
      (forall p1' x, p1 = p1' ++ [x] -> comp val x = false).
Proof.
  induction last as [|next IH]; intros v p y s -> Hlen.
  - destruct p; [| discriminate]. exists [], []. cbn.
    repeat split; [constructor |]. intros [|? ?] ? H; discriminate.
  - destruct (exists_last (l := p)) as (p' & x & ->); [intros ->; discriminate |].
    rewrite length_app in Hlen. cbn [length] in Hlen.
    assert (Hp' : length p' = next) by lia. clear Hlen.
    cbn [Libstdcxx.unguarded_linear_insert_loop].
    rewrite <- app_assoc. cbn [app].
    replace (nth_error (p' ++ x :: y :: s) next) with (Some x)
      by (subst next; now rewrite nth_error_app_length).
    destruct (comp val x) eqn:Hx.
    + replace (set_nth (S next) x (p' ++ x :: y :: s)) with (p' ++ x :: x :: s).
      2:{ change (p' ++ x :: y :: s) with (p' ++ [x] ++ y :: s).
          change (p' ++ x :: x :: s) with (p' ++ [x] ++ x :: s).
          rewrite !app_assoc.
          replace (S next) with (length (p' ++ [x]))
            by (rewrite length_app; cbn [length]; lia).
          now rewrite set_nth_app_length. }
      destruct (IH (p' ++ x :: x :: s) p' x (x :: s) eq_refl Hp')
        as (p1 & p2 & -> & Hloop & Hp2 & Hp1).
      exists p1, (p2 ++ [x]). rewrite Hloop, <- !app_assoc. cbn [app].
      repeat split; [| assumption].
      apply Forall_app. split; [assumption | constructor; [assumption | constructor]].
    + exists (p' ++ [x]), []. cbn [app]. rewrite app_nil_r. split; [reflexivity |].
      split; [| split; [constructor |]].
      * change (p' ++ x :: y :: s) with (p' ++ [x] ++ y :: s). rewrite !app_assoc.
        replace (S next) with (length (p' ++ [x]))
          by (rewrite length_app; cbn [length]; lia).
        rewrite set_nth_app_length. now rewrite <- app_assoc.
      * intros p1' x' H. apply app_inj_tail in H. destruct H as [_ <-]. assumption.
Qed.

(** Inserting the element after a sorted prefix into the prefix. *)
Definition inserts (step : list A -> nat -> list A) (lo : nat) : Prop :=
  forall (p : list A) (x : A) (s : list A),
    lo <= length p -> StronglySorted comp_le p ->
    exists q,
      step (p ++ x :: s) (length p) = q ++ s /\
      StronglySorted comp_le q /\ Permutation (p ++ [x]) q.

Lemma unguarded_linear_insert_inserts :
  inserts (Libstdcxx.unguarded_linear_insert comp) 0.
Proof.
  intros p x s _ Hp. unfold Libstdcxx.unguarded_linear_insert.
  rewrite nth_error_app_length.
  destruct (unguarded_linear_insert_loop_spec x (length p) (p ++ x :: s) p x s
              eq_refl eq_refl) as (p1 & p2 & -> & -> & Hp2 & Hp1).
  exists (p1 ++ x :: p2). split; [now rewrite <- app_assoc |].
  apply strongly_sorted_app in Hp. destruct Hp as (H1 & H2 & H12). split.
  - apply strongly_sorted_app. split; [assumption |]. split.
    + constructor; [assumption |].
      eapply Forall_impl; [| exact Hp2]. intros b Hb. now apply comp_asym.
    + intros a b Ha [<- | Hb]; [| now apply H12].
      destruct (exists_last (l := p1)) as (p1' & z & ->);
        [intros ->; destruct Ha |].
      specialize (Hp1 p1' z eq_refl).
      apply in_app_or in Ha. destruct Ha as [Ha | [<- | []]]; [| assumption].
      apply strongly_sorted_app in H1. destruct H1 as (_ & _ & H1).
      unfold comp_le in *. apply (comp_le_trans a z x); [| assumption].
      apply H1; [assumption | now left].
  - rewrite <- app_assoc. apply Permutation_app_head.
    symmetry. apply Permutation_cons_append.
Qed.

Lemma firstn_app_length (p s : list A) : firstn (length p) (p ++ s) = p.
Proof. induction p as [|a p IH]; cbn; [now destruct s | now rewrite IH]. Qed.

Lemma skipn_app_length (p s : list A) : skipn (length p) (p ++ s) = s.
Proof. induction p as [|a p IH]; cbn; auto. Qed.

Lemma insertion_sort_step_inserts :
  inserts (fun v i => if Libstdcxx.comp_at comp v i 0
                      then Libstdcxx.move_to_first v 0 i
                      else Libstdcxx.unguarded_linear_insert comp v i) 1.
Proof.
  intros p x s Hlen Hp. cbv beta.
  destruct (Libstdcxx.comp_at comp (p ++ x :: s) (length p) 0) eqn:Hc;
    [| apply unguarded_linear_insert_inserts; [lia | assumption]].
  unfold Libstdcxx.comp_at in Hc. rewrite nth_error_app_length in Hc.
  destruct p as [|h p]; [cbn in Hlen; lia |]. cbn [app nth_error] in Hc.
  exists (x :: h :: p). split; [| split].
  - unfold Libstdcxx.move_to_first. rewrite nth_error_app_length.
    rewrite Nat.sub_0_r. cbn [firstn skipn app].
    change (h :: p ++ x :: s) with ((h :: p) ++ x :: s).
    rewrite firstn_app_length. cbn [length app].
    change (p ++ x :: s) with (p ++ [x] ++ s). rewrite app_assoc.
    replace (S (length p)) with (length (p ++ [x]))
      by (rewrite length_app; cbn [length]; lia).
    now rewrite skipn_app_length.
  - constructor; [assumption |].
    inversion Hp as [|? ? _ Hh]; subst. constructor; [now apply comp_asym |].
    eapply Forall_impl; [| exact Hh]. intros b Hb. unfold comp_le in *.
    apply (comp_le_trans x h b); [now apply comp_asym | assumption].
  - symmetry. apply (Permutation_cons_append (h :: p) x).
Qed.

Lemma fold_inserts (step : list A -> nat -> list A) (lo : nat) :
  inserts step lo ->
  forall (n : nat) (p r : list A),
    n <= length r -> lo <= length p -> StronglySorted comp_le p ->
    exists q,
      fold_left step (seq (length p) n) (p ++ r) = q ++ skipn n r /\
      StronglySorted comp_le q /\ Permutation (p ++ firstn n r) q.
Proof.
  intros Hstep. induction n as [|n IH]; intros p r Hn Hlo Hp.
  - exists p. cbn. rewrite app_nil_r. auto.
  - destruct r as [|x r]; [cbn in Hn; lia |]. cbn [seq fold_left skipn firstn].
    destruct (Hstep p x r Hlo Hp) as (q1 & -> & Hq1 & Hperm).
    assert (Hlen : length q1 = S (length p)).
    { rewrite <- (Permutation_length Hperm), length_app. cbn [length]. lia. }
    rewrite <- Hlen.
    destruct (IH q1 r) as (q & Hfold & Hq & Hperm'); [cbn in Hn; lia | lia | assumption |].
    exists q. split; [assumption |]. split; [assumption |].
    rewrite <- Hperm', <- Hperm, <- app_assoc. reflexivity.
Qed.

Lemma insertion_sort_spec (v : list A) (last : nat) :
  1 <= last <= length v ->
  exists q,
    Libstdcxx.insertion_sort comp v 0 last = q ++ skipn last v /\
    StronglySorted comp_le q /\ Permutation (firstn last v) q.
Proof.
  intros H. unfold Libstdcxx.insertion_sort.
  destruct (Nat.eqb_spec 0 last) as [|_]; [lia |].
  destruct v as [|h t]; [cbn in H; lia |].
  destruct (fold_inserts _ 1 insertion_sort_step_inserts (last - (0 + 1)) [h] t)
    as (q & Hfold & Hq & Hperm);
    [cbn in H |- *; lia | cbn; lia | repeat constructor |].
  exists q. cbn [length app] in Hfold. change (0 + 1) with 1 in *.
  rewrite Hfold. destruct last as [|last]; [lia |].
  cbn [skipn firstn]. cbn [Nat.sub] in Hperm |- *. rewrite Nat.sub_0_r in *.
  auto.
Qed.

Lemma final_insertion_sort_spec (v : list A) :
  v <> [] ->
  StronglySorted comp_le (Libstdcxx.final_insertion_sort comp v 0 (length v)) /\
  Permutation v (Libstdcxx.final_insertion_sort comp v 0 (length v)).
Proof.
  intros Hne. assert (Hpos : 1 <= length v) by (destruct v; [congruence | cbn; lia]).
  unfold Libstdcxx.final_insertion_sort. rewrite Nat.sub_0_r.
  destruct (Nat.ltb_spec Libstdcxx._S_threshold (length v)) as [Hlt | Hge].
  - cbn [Nat.add]. unfold Libstdcxx._S_threshold in *.
    destruct (insertion_sort_spec v 16) as (q & -> & Hq & Hperm); [lia |].
    assert (Hlen : length q = 16).
    { rewrite <- (Permutation_length Hperm), length_firstn. lia. }
    unfold Libstdcxx.unguarded_insertion_sort.
    destruct (fold_inserts _ 0 unguarded_linear_insert_inserts (length v - 16) q
                           (skipn 16 v)) as (q' & Hfold & Hq' & Hperm');
      [rewrite length_skipn; lia | lia | assumption |].
    rewrite Hlen in Hfold. rewrite Hfold.
    rewrite skipn_all2 by (rewrite length_skipn; lia).
    rewrite firstn_all2 in Hperm' by (rewrite length_skipn; lia).
    rewrite app_nil_r. split; [assumption |].
    rewrite <- Hperm', <- Hperm. now rewrite firstn_skipn.
  - destruct (insertion_sort_spec v (length v)) as (q & -> & Hq & Hperm); [lia |].
    rewrite skipn_all, app_nil_r. rewrite firstn_all in Hperm. auto.
Qed.

Lemma libstdcxx_sort_permutation (v : list A) : Permutation v (Libstdcxx.sort comp v).
Proof.
  unfold Libstdcxx.sort. destruct (Nat.eqb_spec 0 (length v)) as [|Hne]; [reflexivity |].
  rewrite Nat.sub_0_r.
  set (w := Libstdcxx.introsort_loop comp v 0 (length v) (Nat.log2 (length v) * 2)).
  assert (Hw : Permutation v w) by (apply introsort_loop_permutation; lia).
  rewrite (Permutation_length Hw). rewrite Hw at 1.
  apply final_insertion_sort_spec. intros E. rewrite E in Hw.
  apply Permutation_length in Hw. cbn in Hw. lia.
Qed.

Lemma libstdcxx_sort_ordered (v : list A) :
  StronglySorted comp_le (Libstdcxx.sort comp v).
Proof.
  unfold Libstdcxx.sort. destruct (Nat.eqb_spec 0 (length v)) as [E | Hne].
  - destruct v; [constructor | discriminate].
  - rewrite Nat.sub_0_r.
    set (w := Libstdcxx.introsort_loop comp v 0 (length v) (Nat.log2 (length v) * 2)).
    assert (Hw : Permutation v w) by (apply introsort_loop_permutation; lia).
    rewrite (Permutation_length Hw).
    apply final_insertion_sort_spec. intros E. rewrite E in Hw.
    apply Permutation_length in Hw. cbn in Hw. lia.
Qed.

End LibstdcxxFacts.

Section LibstdcxxSorter.

Context {guesses_t : Type}.

Lemma match_lt_asym (a b : @Match guesses_t) : match_lt a b = true -> match_lt b a = false.
Proof.
  intros H. apply match_lt_spec in H. apply match_lt_false. unfold key_le. lia.
Qed.

Lemma match_lt_le_trans (a b c : @Match guesses_t) :
  match_lt b a = false -> match_lt c b = false -> match_lt c a = false.
Proof.
  rewrite !match_lt_false. unfold key_le. lia.
Qed.

(** [std::sort] with the comparison of [sorted], as libstdc++ runs it. *)
Definition libstdcxx_sorter : @StdSort guesses_t :=
  {| std_sort := Libstdcxx.sort match_lt;
     std_sort_permutation :=
       libstdcxx_sort_permutation match_lt match_lt_asym match_lt_le_trans;
     std_sort_ordered :=
       libstdcxx_sort_ordered match_lt match_lt_asym match_lt_le_trans |}.

End LibstdcxxSorter.

(* ------------------------------------------------------------------------- *)
(** * The claims of the specification *)

Section Claims.

Context {guesses_t : Type} {sorter : @StdSort guesses_t} {env : @Environment guesses_t}.

Lemma in_range_substr (password : str) (m : @Match guesses_t) :
  in_range password m ->
  i m <= j m /\ j m < length password /\
  substr password (i m) (j m - i m + 1) = Ok (token m) /\
  length (token m) = j m - i m + 1.
Proof.
  intros (Hij & Hj & Htok). split; [assumption |]. split; [assumption |].
  rewrite substr_Ok by lia. rewrite Htok. split; [reflexivity |].
  rewrite length_firstn, length_skipn. lia.
Qed.

(** C1.  For every password and user word list [omnimatch] returns, and
    every match [m] it returns satisfies [0 <= i <= j < length(password)],
    [token == password[i..=j]] (the [substr] of the password at [i] of
    [j - i + 1] bytes) and so [length(token) = j - i + 1].  The same holds for
    what each of the eight matchers returns to [omnimatch], the regular
    expression matcher and the reverse dictionary matcher included. *)
Theorem omnimatch_matches_in_range :
  forall (password : str) (ordered_list : list str),
  (exists matches,
     omnimatch password ordered_list = Ok matches /\
     Forall (fun m => i m <= j m /\ j m < length password /\
                      substr password (i m) (j m - i m + 1) = Ok (token m) /\
                      length (token m) = j m - i m + 1) matches) /\
  (forall matcher,
     In matcher (matchers (fun base_token => omnimatch base_token []) ordered_list) ->
     exists matches,
       matcher password = Ok matches /\
       Forall (fun m => i m <= j m /\ j m < length password /\
                        substr password (i m) (j m - i m + 1) = Ok (token m) /\
                        length (token m) = j m - i m + 1) matches).
Proof.
  intros password ordered_list. split.
  - destruct (omnimatch_rec_spec (S (length password)) password ordered_list
                                 (Nat.lt_succ_diag_r _)) as (ms & Hms & Hr).
    exists ms. split; [exact Hms |].
    eapply Forall_impl; [| exact Hr]. intros m. apply in_range_substr.
  - intros matcher Hin.
    destruct (matchers_spec (fun base_token => omnimatch base_token []) ordered_list
                            password) with (matcher := matcher) as (ms & Hms & Hr).
    + intros s _.
      destruct (omnimatch_rec_spec (S (length s)) s [] (Nat.lt_succ_diag_r _))
        as (r & Hr & _). eauto.
    + assumption.
    + exists ms. split; [exact Hms |].
      eapply Forall_impl; [| exact Hr]. intros m. apply in_range_substr.
Qed.

(** C9.  [omnimatch] is total: for every password and user word list it
    returns a sequence of matches (no exception, no failed assertion, no
    loop that does not end); for the empty password the sequence is empty,
    and so is what each of the eight matchers returns on the empty string;
    [spatial_match_helper] returns before [password.length() - 1] is
    computed for it. *)
Theorem omnimatch_total :
  forall (password : str) (ordered_list : list str),
  (exists matches, omnimatch password ordered_list = Ok matches) /\
  omnimatch [] ordered_list = Ok [] /\
  (forall matcher,
     In matcher (matchers (fun base_token => omnimatch base_token []) ordered_list) ->
     matcher [] = Ok []) /\
  (forall graph graph_tag,
     spatial_match_helper (guesses_t := guesses_t) [] graph graph_tag = Ok []).
Proof.
  intros password ordered_list. split; [| split; [| split]].
  - destruct (omnimatch_rec_spec (S (length password)) password ordered_list
                                 (Nat.lt_succ_diag_r _)) as (ms & Hms & _).
    eauto.
  - apply returns_in_range_nil. apply (omnimatch_rec_spec 1 [] ordered_list). simpl. lia.
  - intros matcher Hin. apply returns_in_range_nil.
    apply (matchers_spec (fun base_token => omnimatch base_token []) ordered_list []);
      [| assumption].
    intros s Hs. simpl in Hs. lia.
  - reflexivity.
Qed.

(** C7.  In every iteration of the repeat matcher the base token is not
    empty and strictly shorter than the repeat match's token, which is a
    part of the password: the nested call of [omnimatch] is on a strictly
    shorter string.  [repeat_match] therefore depends on [omnimatch] for
    strings shorter than the password only, and [omnimatch] returns once it
    may nest deeper than the password is long, whatever the depth beyond
    that: the mutual recursion ends for every password. *)
Theorem repeat_recursion_terminates :
  forall (password : str) (ordered_list : list str),
  (forall omni matches m,
     repeat_match omni password = Ok matches -> In m matches ->
     exists base_token base_guesses base_matches repeat_count,
       pattern m = PRepeat base_token base_guesses base_matches repeat_count /\
       0 < length base_token < length (token m) /\
       length (token m) <= length password) /\
  (forall omni1 omni2 : str -> result (list Match),
     (forall s, length s < length password -> omni1 s = omni2 s) ->
     repeat_match omni1 password = repeat_match omni2 password) /\
  (forall depth,
     length password < depth ->
     omnimatch_rec depth password ordered_list = omnimatch password ordered_list /\
     exists matches, omnimatch_rec depth password ordered_list = Ok matches).
Proof.
  intros password ordered_list. split; [| split].
  - intros omni matches m H Hm. apply repeat_match_sound in H.
    rewrite Forall_forall in H. destruct (H m Hm) as (Hrange & Hunit).
    unfold repeat_unit in Hunit.
    destruct (pattern m) as [| |base g bm rc| | |] eqn:Hp; try contradiction.
    destruct Hunit as (Hrep & _ & _).
    exists base, g, bm, rc. split; [reflexivity |].
    split; [now apply repeats_length |].
    apply in_range_substr in Hrange. lia.
  - intros omni1 omni2 H. unfold repeat_match. now apply repeat_loop_ext.
  - intros depth Hdepth. split.
    + apply omnimatch_rec_depth; [assumption | lia].
    + destruct (omnimatch_rec_spec depth password ordered_list Hdepth) as (ms & Hms & _).
      eauto.
Qed.

(** C2 (amended).  For every password and user word list each of the eight
    matchers returns, and [omnimatch] returns [sorted] of the concatenation of
    their outputs in the order of lines 141-154: a permutation of the
    concatenation in which [(i, j)] never decreases.  The order of two matches
    with equal [(i, j)] is the one [std::sort] leaves, which the library does
    not specify. *)
Theorem omnimatch_sorted_concatenation :
  forall (password : str) (ordered_list : list str),
  let ranked_dictionaries :=
    insert_dict default_ranked_dicts USER_INPUTS (build_ranked_dict ordered_list) in
  exists dictionary reverse l33t spatial repeat_ sequence_ regex date,
    dictionary_match password ranked_dictionaries = Ok dictionary /\
    reverse_dictionary_match password ranked_dictionaries = Ok reverse /\
    l33t_match password ranked_dictionaries L33T_TABLE = Ok l33t /\
    spatial_match password graphs = Ok spatial /\
    repeat_match (fun base_token => omnimatch base_token []) password = Ok repeat_ /\
    sequence_match password = Ok sequence_ /\
    regex_match password REGEXEN = Ok regex /\
    date_match password = Ok date /\
    let concatenation :=
      dictionary ++ reverse ++ l33t ++ spatial ++ repeat_ ++ sequence_ ++ regex ++ date in
    omnimatch password ordered_list = Ok (sorted concatenation) /\
    Permutation concatenation (sorted concatenation) /\
    StronglySorted key_le (sorted concatenation).
Proof.
  intros password ordered_list ranked_dictionaries.
  assert (Hshorter : forall s, length s < length password ->
                               exists r, omnimatch (guesses_t := guesses_t) s [] = Ok r).
  { intros s _.
    destruct (omnimatch_rec_spec (S (length s)) s [] (Nat.lt_succ_diag_r _))
      as (r & Hr & _). eauto. }
  destruct (dictionary_match_spec password ranked_dictionaries) as (m1 & H1 & _).
  destruct (reverse_dictionary_match_spec password ranked_dictionaries) as (m2 & H2 & _).
  destruct (l33t_match_spec password ranked_dictionaries) as (m3 & H3 & _).
  destruct (spatial_match_spec (guesses_t := guesses_t) password graphs) as (m4 & H4 & _).
  destruct (repeat_match_spec (fun base_token => omnimatch base_token []) password Hshorter)
    as (m5 & H5 & _).
  destruct (sequence_match_spec (guesses_t := guesses_t) password) as (m6 & H6 & _).
  destruct (regex_match_spec password) as (m7 & H7 & _).
  destruct (date_match_spec password) as (m8 & H8 & _).
  exists m1, m2, m3, m4, m5, m6, m7, m8. repeat (split; [assumption |]).
  cbv zeta. split; [| split].
  - rewrite omnimatch_unfold. unfold matchers. cbv zeta. cbn [for_each].
    fold ranked_dictionaries. rewrite H1, H2, H3, H4, H5, H6, H7, H8. cbn [bind].
    now rewrite app_nil_r.
  - apply std_sort_permutation.
  - unfold sorted.
    generalize (std_sort_ordered (m1 ++ m2 ++ m3 ++ m4 ++ m5 ++ m6 ++ m7 ++ m8)).
    induction 1 as [|x l Hl IH Hx]; constructor; [assumption |].
    eapply Forall_impl; [| exact Hx]. intros y Hy. now apply match_lt_false.
Qed.

End Claims.

Local Open Scope string_scope.

(** Up to 16 matches the library sorts by insertion and equivalent matches
    keep their order: for the password 1991 without user inputs the regex
    match stays before the date match. *)
Example omnimatch_1991_three_matches :
  omnimatch (sorter := libstdcxx_sorter) (env := sample_env 2000%N) (lit "1991") []
  = Ok [ mkMatch 0 3 (lit "1991") (PRegex (mkRegexMatch RECENT_YEAR [lit "1991"]));
         mkMatch 0 3 (lit "1991") (PDate (mkDateMatch [] 2001%N 9%N 19%N false));
         mkMatch 1 2 (lit "99") (PRepeat (lit "9") 0 [] 2) ].
Proof. vm_compute. reflexivity. Qed.

(** C2, the claim as stated fails: with the [std::sort] of libstdc++, for
    the password 1991 and the user inputs 1991, 199, 991, 19, 99, 91, 1, 9
    the eight matchers return 23 matches.  The regex match and the date
    match, both at (0, 3), go into the sort in this order and come out in
    the other one; the dictionary match and the reverse dictionary match at
    (0, 2), at (0, 3) and at (1, 3), and the dictionary match and the repeat
    match at (1, 2), change places as well. *)
Lemma omnimatch_sort_not_stable :
  let user_inputs : list str :=
    map lit ["1991"; "199"; "991"; "19"; "99"; "91"; "1"; "9"] in
  let word (reversed : bool) (i0 j0 : nat) (tok matched : string) (rank : rank_t)
    : @Match nat :=
    mkMatch i0 j0 (lit tok)
      (PDictionary (mkDictionaryMatch USER_INPUTS (lit matched) rank reversed false [] [])) in
  let repeat_99 : @Match nat :=
    mkMatch 1 2 (lit "99") (PRepeat (lit "9") 0 [] 2) in
  let regex_1991 : @Match nat :=
    mkMatch 0 3 (lit "1991") (PRegex (mkRegexMatch RECENT_YEAR [lit "1991"])) in
  let date_1991 : @Match nat :=
    mkMatch 0 3 (lit "1991") (PDate (mkDateMatch [] 2001%N 9%N 19%N false)) in
  for_each (matchers (sorter := libstdcxx_sorter) (env := sample_env 2000%N)
                     (fun base_token =>
                        omnimatch (sorter := libstdcxx_sorter) (env := sample_env 2000%N)
                                  base_token [])
                     user_inputs)
           (fun matcher => matcher (lit "1991"))
  = Ok [ word false 0 0 "1" "1" 7;
         word false 0 1 "19" "19" 4;
         word false 0 2 "199" "199" 2;
         word false 0 3 "1991" "1991" 1;
         word false 1 1 "9" "9" 8;
         word false 1 2 "99" "99" 5;
         word false 1 3 "991" "991" 3;
         word false 2 2 "9" "9" 8;
         word false 2 3 "91" "91" 6;
         word false 3 3 "1" "1" 7;
         word true 0 0 "1" "1" 7;
         word true 0 1 "19" "91" 6;
         word true 0 2 "199" "991" 3;
         word true 0 3 "1991" "1991" 1;
         word true 1 1 "9" "9" 8;
         word true 1 2 "99" "99" 5;
         word true 1 3 "991" "199" 2;
         word true 2 2 "9" "9" 8;
         word true 2 3 "91" "19" 4;
         word true 3 3 "1" "1" 7;
         repeat_99;
         regex_1991;
         date_1991 ] /\
  omnimatch (sorter := libstdcxx_sorter) (env := sample_env 2000%N) (lit "1991") user_inputs
  = Ok [ word false 0 0 "1" "1" 7;
         word true 0 0 "1" "1" 7;
         word false 0 1 "19" "19" 4;
         word true 0 1 "19" "91" 6;
         word true 0 2 "199" "991" 3;
         word false 0 2 "199" "199" 2;
         word true 0 3 "1991" "1991" 1;
         date_1991;
         regex_1991;
         word false 0 3 "1991" "1991" 1;
         word false 1 1 "9" "9" 8;
         word true 1 1 "9" "9" 8;
         word true 1 2 "99" "99" 5;
         repeat_99;
         word false 1 2 "99" "99" 5;
         word true 1 3 "991" "199" 2;
         word false 1 3 "991" "991" 3;
         word false 2 2 "9" "9" 8;
         word true 2 2 "9" "9" 8;
         word false 2 3 "91" "91" 6;
         word true 2 3 "91" "19" 4;
         word false 3 3 "1" "1" 7;
         word true 3 3 "1" "1" 7 ] /\
  match_lt regex_1991 date_1991 = false /\ match_lt date_1991 regex_1991 = false.
Proof. vm_compute. repeat split. Qed.

Local Close Scope string_scope.

(** ** Date triple resolution *)

Local Open Scope N_scope.

(** A four-digit year: a value in [[DATE_MIN_YEAR, DATE_MAX_YEAR]]. *)
Definition four_digit (v : date_t) : Prop := 1000 <= v <= 2050.

(** Two integers that are a day and a month, in one order or the other. *)
Definition day_month (a b : date_t) : Prop :=
  (1 <= a <= 31 /\ 1 <= b <= 12) \/ (1 <= b <= 31 /\ 1 <= a <= 12).

(** Over the maximum year, or too long for a two-digit year and too short
    for a four-digit one. *)
Definition not_a_date_part (v : date_t) : Prop := 2050 < v \/ 100 <= v <= 999.

(** The rejection rules in the words of the specification: the middle
    integer exceeds 31 or is zero; an integer exceeds 2050 or lies in
    100..999; two or more integers exceed 31; all three exceed 12; two or
    more equal zero; an outer integer is a four-digit year and the remaining
    two are no day and month. *)
Definition rejection_rule (v0 v1 v2 : date_t) : Prop :=
  (31 < v1 \/ v1 = 0) \/
  (not_a_date_part v0 \/ not_a_date_part v1 \/ not_a_date_part v2) \/
  ((31 < v0 /\ 31 < v1) \/ (31 < v0 /\ 31 < v2) \/ (31 < v1 /\ 31 < v2)) \/
  (12 < v0 /\ 12 < v1 /\ 12 < v2) \/
  ((v0 = 0 /\ v1 = 0) \/ (v0 = 0 /\ v2 = 0) \/ (v1 = 0 /\ v2 = 0)) \/
  (four_digit v2 /\ ~ day_month v0 v1) \/
  (four_digit v0 /\ ~ day_month v1 v2).

(** What the list leaves out: no outer integer is a four-digit year, and
    neither the first two nor the last two integers are a day and a month
    (lines 809-819). *)
Definition no_day_month (v0 v1 v2 : date_t) : Prop :=
  ~ four_digit v0 /\ ~ four_digit v2 /\ ~ day_month v0 v1 /\ ~ day_month v1 v2.

Ltac split_comparisons :=
  repeat match goal with
         | |- context [N.ltb ?a ?b] => destruct (N.ltb_spec a b); try (exfalso; lia)
         | |- context [N.leb ?a ?b] => destruct (N.leb_spec a b); try (exfalso; lia)
         | |- context [N.eqb ?a ?b] => destruct (N.eqb_spec a b); try (exfalso; lia)
         end.

Lemma map_ints_to_dm_None (a b : date_t) :
  map_ints_to_dm (a, b) = None <-> ~ day_month a b.
Proof.
  unfold map_ints_to_dm, day_month. cbn [List.find fst snd].
  split_comparisons; cbn [andb]; split; intros Hgoal; try discriminate; try lia;
    try reflexivity.
Qed.

Lemma map_ints_to_dm_Some (a b : date_t) :
  (exists dm, map_ints_to_dm (a, b) = Some dm) <-> day_month a b.
Proof.
  destruct (map_ints_to_dm (a, b)) as [dm|] eqn:Hdm.
  - split; [intros _ | eauto].
    unfold map_ints_to_dm, day_month in *. cbn [List.find fst snd] in Hdm.
    revert Hdm. split_comparisons; cbn [andb]; intros Hdm; try discriminate; lia.
  - apply map_ints_to_dm_None in Hdm. split; [intros [dm E]; discriminate | tauto].
Qed.

(** The counting loop in closed form. *)
Definition not_year_or_part (val : date_t) : bool :=
  (99 <? val) && (val <? DATE_MIN_YEAR) || (DATE_MAX_YEAR <? val).

Lemma count_ints_spec (vals : list date_t) :
  forall over_12 over_31 under_1 : nat,
  count_ints vals over_12 over_31 under_1 =
  if existsb not_year_or_part vals then None
  else Some (Nat.add over_12 (length (filter (fun v => 12 <? v) vals)),
             Nat.add over_31 (length (filter (fun v => 31 <? v) vals)),
             Nat.add under_1 (length (filter (fun v => v <=? 0) vals))).
Proof.
  induction vals as [|val vals IH]; intros over_12 over_31 under_1.
  - cbn. now rewrite !Nat.add_0_r.
  - cbn [count_ints existsb filter]. fold (not_year_or_part val).
    destruct (not_year_or_part val); [reflexivity |].
    rewrite IH. cbn [orb].
    destruct (existsb not_year_or_part vals); [reflexivity |].
    assert (Hcounters : forall a b c a' b' c' : nat,
               a = a' -> b = b' -> c = c' -> Some (a, b, c) = Some (a', b', c'))
      by (intros; subst; reflexivity).
    destruct (12 <? val), (31 <? val), (val <=? 0); cbn [length];
      apply Hcounters; lia.
Qed.

Lemma two_of_three (f : date_t -> bool) (v0 v1 v2 : date_t) :
  Nat.leb 2 (length (filter f [v0; v1; v2])) =
  (f v0 && f v1 || f v0 && f v2 || f v1 && f v2)%bool.
Proof. cbn. now destruct (f v0), (f v1), (f v2). Qed.

Lemma all_three (f : date_t -> bool) (v0 v1 v2 : date_t) :
  Nat.eqb (length (filter f [v0; v1; v2])) 3 = (f v0 && f v1 && f v2)%bool.
Proof. cbn. now destruct (f v0), (f v1), (f v2). Qed.

Lemma map_ints_to_dmy_stages (v0 v1 v2 : date_t) :
  map_ints_to_dmy (v0, v1, v2) =
  if (31 <? v1) || (v1 =? 0) then None
  else if not_year_or_part v0 || (not_year_or_part v1 || not_year_or_part v2) then None
  else if ((31 <? v0) && (31 <? v1) || (31 <? v0) && (31 <? v2) || (31 <? v1) && (31 <? v2))
          || ((12 <? v0) && (12 <? v1) && (12 <? v2))
          || ((v0 <=? 0) && (v1 <=? 0) || (v0 <=? 0) && (v2 <=? 0) || (v1 <=? 0) && (v2 <=? 0))
  then None
  else match four_digit_year [ (v2, (v0, v1)); (v0, (v1, v2)) ] with
       | Some r => r
       | None => two_digit_year [ (v2, (v0, v1)); (v0, (v1, v2)) ]
       end.
Proof.
  unfold map_ints_to_dmy. rewrite count_ints_spec. cbn [existsb Nat.add].
  rewrite Bool.orb_false_r.
  destruct ((31 <? v1) || (v1 =? 0)); [reflexivity |].
  destruct (not_year_or_part v0 || (not_year_or_part v1 || not_year_or_part v2));
    [reflexivity |].
  now rewrite (two_of_three (fun v => 31 <? v)), (all_three (fun v => 12 <? v)),
    (two_of_three (fun v => v <=? 0)).
Qed.

Ltac to_prop H :=
  repeat first
    [ rewrite Bool.orb_true_iff in H | rewrite Bool.orb_false_iff in H
    | rewrite Bool.andb_true_iff in H | rewrite Bool.andb_false_iff in H
    | rewrite N.ltb_lt in H | rewrite N.ltb_ge in H
    | rewrite N.leb_le in H | rewrite N.leb_gt in H
    | rewrite N.eqb_eq in H | rewrite N.eqb_neq in H ].

Lemma four_digit_test (y : date_t) :
  (DATE_MIN_YEAR <=? y) && (y <=? DATE_MAX_YEAR) = true <-> four_digit y.
Proof.
  unfold four_digit, DATE_MIN_YEAR, DATE_MAX_YEAR.
  rewrite Bool.andb_true_iff, !N.leb_le. tauto.
Qed.

(** C5 (amended).  Date triple resolution returns no date exactly when one
    of the rejection rules fires (the middle integer exceeds 31 or is zero;
    an integer exceeds 2050 or lies in 100..999; two or more integers exceed
    31; all three exceed 12; two or more equal zero; an outer integer lies
    in [1000, 2050] and the remaining two are no day and month in either
    order, in which case there is no fall back to a two-digit year) or,
    no outer integer lying in [1000, 2050], neither the first two nor the
    last two integers are a day and a month in either order. *)
Theorem map_ints_to_dmy_rejects :
  forall v0 v1 v2 : date_t,
  map_ints_to_dmy (v0, v1, v2) = None <->
  rejection_rule v0 v1 v2 \/ no_day_month v0 v1 v2.
Proof.
  intros v0 v1 v2. rewrite map_ints_to_dmy_stages.
  unfold rejection_rule, no_day_month, not_year_or_part, not_a_date_part.
  unfold DATE_MIN_YEAR at 1 2 3, DATE_MAX_YEAR at 1 2 3.
  destruct ((31 <? v1) || (v1 =? 0)) eqn:Hmiddle; to_prop Hmiddle.
  { split; [intros _; left; left; lia | reflexivity]. }
  match goal with |- context [if ?b then None else _] => destruct b eqn:Hpart end;
    to_prop Hpart.
  { split; [intros _; left; right; left; lia | reflexivity]. }
  match goal with |- context [if ?b then None else _] => destruct b eqn:Hcount end;
    to_prop Hcount.
  { split; [intros _; left; do 2 right | reflexivity].
    destruct Hcount as [[H31 | H12] | H0]; [left | right; left | do 2 right; left]; lia. }
  cbn [four_digit_year two_digit_year].
  destruct ((DATE_MIN_YEAR <=? v2) && (v2 <=? DATE_MAX_YEAR)) eqn:Hy2.
  { apply four_digit_test in Hy2.
    destruct (map_ints_to_dm (v0, v1)) as [dm|] eqn:Hdm.
    - assert (Hpair : day_month v0 v1) by (apply map_ints_to_dm_Some; eauto).
      split; [discriminate |]. intros Hrule. exfalso.
      unfold four_digit in *. unfold day_month in Hpair.
      unfold day_month at 1 in Hrule. lia.
    - apply map_ints_to_dm_None in Hdm.
      split; [intros _ | reflexivity]. left. do 5 right. left. now split. }
  assert (Hn2 : ~ four_digit v2)
    by (intros Hy; apply four_digit_test in Hy; congruence).
  clear Hy2.
  destruct ((DATE_MIN_YEAR <=? v0) && (v0 <=? DATE_MAX_YEAR)) eqn:Hy0.
  { apply four_digit_test in Hy0.
    destruct (map_ints_to_dm (v1, v2)) as [dm|] eqn:Hdm.
    - assert (Hpair : day_month v1 v2) by (apply map_ints_to_dm_Some; eauto).
      split; [discriminate |]. intros Hrule. exfalso.
      unfold four_digit in *. unfold day_month in Hpair.
      unfold day_month at 2 in Hrule. lia.
    - apply map_ints_to_dm_None in Hdm.
      split; [intros _ | reflexivity]. left. do 6 right. now split. }
  assert (Hn0 : ~ four_digit v0)
    by (intros Hy; apply four_digit_test in Hy; congruence).
  clear Hy0.
  destruct (map_ints_to_dm (v0, v1)) as [dm|] eqn:Hdm01.
  { assert (Hpair : day_month v0 v1) by (apply map_ints_to_dm_Some; eauto).
    split; [discriminate |]. intros [Hrule | Hnone]; exfalso.
    - unfold four_digit in *. lia.
    - now destruct Hnone as (_ & _ & Hno & _). }
  apply map_ints_to_dm_None in Hdm01.
  destruct (map_ints_to_dm (v1, v2)) as [dm|] eqn:Hdm12.
  { assert (Hpair : day_month v1 v2) by (apply map_ints_to_dm_Some; eauto).
    split; [discriminate |]. intros [Hrule | Hnone]; exfalso.
    - unfold four_digit in *. lia.
    - now destruct Hnone as (_ & _ & _ & Hno). }
  apply map_ints_to_dm_None in Hdm12.
  split; [intros _ | reflexivity]. right. now repeat split.
Qed.

(** C5, the claim as stated fails: the triple (0, 13, 13) is rejected and no
    rule of the list fires. *)
Lemma map_ints_to_dmy_rejects_more :
  map_ints_to_dmy (0, 13, 13) = None /\ ~ rejection_rule 0 13 13.
Proof.
  split; [reflexivity |].
  unfold rejection_rule, not_a_date_part, four_digit, day_month. lia.
Qed.

Local Close Scope N_scope.

(* ------------------------------------------------------------------------- *)
(** * The best candidate of the date matcher *)

(** [std::min_element] returns the first of the smallest elements. *)
Lemma min_element_first {A : Type} (key : A -> N) (first : A) (rest : list A) :
  exists before after,
    first :: rest = before ++ min_element (fun a b => (key a <? key b)%N) first rest :: after /\
    Forall (fun c => (key (min_element (fun a b => (key a <? key b)%N) first rest) < key c)%N)
           before /\
    Forall (fun c => (key (min_element (fun a b => (key a <? key b)%N) first rest) <= key c)%N)
           after.
Proof.
  induction rest as [|a rest IH] using rev_ind.
  - exists [], []. cbn. auto.
  - unfold min_element in *. rewrite fold_left_app. cbn [fold_left].
    set (best := fold_left _ rest first) in *.
    destruct IH as (before & after & Hsplit & Hbefore & Hafter).
    destruct (N.ltb_spec (key a) (key best)) as [Hlt | Hge].
    + exists (first :: rest), []. split; [reflexivity |]. split; [| constructor].
      rewrite Hsplit. apply Forall_app. split.
      * eapply Forall_impl; [| exact Hbefore]. cbv beta. intros; lia.
      * constructor; [assumption |].
        eapply Forall_impl; [| exact Hafter]. cbv beta. intros; lia.
    + exists before, (after ++ [a]). split; [| split].
      * change (first :: rest ++ [a]) with ((first :: rest) ++ [a]).
        rewrite Hsplit, <- app_assoc. reflexivity.
      * assumption.
      * apply Forall_app. split; [assumption |]. constructor; [assumption | constructor].
Qed.

Lemma sorted_singleton {guesses_t : Type} {sorter : @StdSort guesses_t} (m : Match) :
  sorted [m] = [m].
Proof.
  unfold sorted. apply Permutation_length_1_inv. apply std_sort_permutation.
Qed.

Lemma for_each_Ok_inv {A B : Type} (body : A -> result (list B)) (l : list A) (r : list B) :
  for_each l body = Ok r -> forall x, In x l -> exists ys, body x = Ok ys.
Proof.
  revert r. induction l as [|a l IH]; simpl; intros r H x Hx; [destruct Hx |].
  inv_bind H. inv_bind H. destruct Hx as [<- | Hx]; eauto.
Qed.

Lemma until_end_intro (password : str) (count first j0 : nat) :
  first <= j0 < first + count -> j0 < length password ->
  In j0 (until_end password first count).
Proof.
  unfold until_end. revert first. induction count as [|count IH]; intros first Hj Hlt; [lia |].
  cbn [seq take_while].
  destruct (Nat.ltb_spec first (length password)) as [_ | Hge]; [| lia].
  destruct (Nat.eq_dec first j0) as [-> | Hne]; [now left | right].
  apply IH; lia.
Qed.

(** The date that the integers of the split [(k, l)] of a token resolve to,
    lines 674-680: [map_ints_to_dmy] of [stou] of the three parts
    [token.substr(0, k)], [token.substr(k, l - k)] and [token.substr(l)]. *)
Definition split_date (tok : str) (kl : nat * nat) : option DMY :=
  match stou (firstn (fst kl) tok),
        stou (firstn (snd kl - fst kl) (skipn (fst kl) tok)),
        stou (skipn (snd kl) tok) with
  | Ok v0, Ok v1, Ok v2 => map_ints_to_dmy (v0, v1, v2)
  | _, _, _ => None
  end.

Definition option_list {A : Type} (o : option A) : list A :=
  match o with
  | Some a => [a]
  | None => []
  end.

Lemma for_each_flat_map {A B : Type} (body : A -> result (list B)) (f : A -> list B)
      (l : list A) :
  (forall x, In x l -> body x = Ok (f x)) -> for_each l body = Ok (flat_map f l).
Proof.
  induction l as [|a l IH]; intros H; cbn [for_each flat_map]; [reflexivity |].
  rewrite (H a) by now left. cbn [bind]. rewrite IH by (intros x Hx; apply H; now right).
  reflexivity.
Qed.

(** The candidates are the dates of all the splits for the length of the
    token, in the order of the splits. *)
Lemma date_candidates_splits (tok : str) (splits : list (nat * nat)) :
  4 <= length tok <= 8 -> all_digits tok ->
  nth_error DATE_SPLITS (length tok - 4) = Some splits ->
  date_candidates tok = Ok (flat_map (fun kl => option_list (split_date tok kl)) splits).
Proof.
  intros Hlen Hd Hsplits. unfold date_candidates. rewrite Hsplits.
  apply for_each_flat_map. intros [k l] Hin. cbn [fst snd].
  destruct (DATE_SPLITS_inside _ _ _ _ Hlen Hsplits Hin) as [Hkl Hl].
  unfold substr_from. rewrite !substr_Ok by lia. cbn [bind skipn].
  destruct (Nat.ltb_spec (length tok) l) as [|_]; [lia |]. cbn [bind].
  unfold split_date. cbn [fst snd].
  destruct (stou_total (firstn k tok)) as [v0 ->];
    [apply not_nil_length; rewrite length_firstn; lia
    | now apply all_digits_firstn | rewrite length_firstn; lia |].
  destruct (stou_total (firstn (l - k) (skipn k tok))) as [v1 ->];
    [apply not_nil_length; rewrite length_firstn, length_skipn; lia
    | now apply all_digits_firstn, all_digits_skipn
    | rewrite length_firstn, length_skipn; lia |].
  destruct (stou_total (skipn l tok)) as [v2 ->];
    [apply not_nil_length; rewrite length_skipn; lia
    | now apply all_digits_skipn | rewrite length_skipn; lia |].
  cbn [bind]. destruct (map_ints_to_dmy (v0, v1, v2)); reflexivity.
Qed.

(** An element of the list of the values that are there comes from one
    element of the list they are taken from. *)
Lemma flat_map_option_split {A B : Type} (g : A -> option B) (l : list A)
      (before : list B) (x : B) (after : list B) :
  flat_map (fun a => option_list (g a)) l = before ++ x :: after ->
  exists l1 a l2,
    l = l1 ++ a :: l2 /\ g a = Some x /\
    flat_map (fun a => option_list (g a)) l1 = before /\
    flat_map (fun a => option_list (g a)) l2 = after.
Proof.
  revert before. induction l as [|h t IH]; intros before H; cbn [flat_map] in H.
  - destruct before; discriminate.
  - destruct (g h) as [d|] eqn:Hg; cbn [option_list app] in H.
    + destruct before as [|b before]; cbn [app] in H.
      * injection H as -> Ht. exists [], h, t. cbn [flat_map app]. auto.
      * injection H as -> Ht. destruct (IH _ Ht) as (l1 & a & l2 & -> & Ha & H1 & H2).
        exists (h :: l1), a, l2. cbn [flat_map app]. rewrite Hg, H1. auto.
    + destruct (IH _ H) as (l1 & a & l2 & -> & Ha & H1 & H2).
      exists (h :: l1), a, l2. cbn [flat_map app]. rewrite Hg, H1. auto.
Qed.

Lemma flat_map_option_In {A B : Type} (g : A -> option B) (l : list A) (x : B) :
  In x (flat_map (fun a => option_list (g a)) l) <-> exists a, In a l /\ g a = Some x.
Proof.
  rewrite in_flat_map. split; intros (a & Ha & Hx); exists a; (split; [assumption |]).
  - destruct (g a); cbn in Hx; [destruct Hx as [-> | []]; reflexivity | destruct Hx].
  - rewrite Hx. now left.
Qed.

Section DateClaims.

Context {guesses_t : Type} {sorter : @StdSort guesses_t} {env : @Environment guesses_t}.

(** The match that the pass without separators builds from the best
    candidate, lines 698-709. *)
Definition best_match (i0 j0 : nat) (tok : str) (best_candidate : DMY) : @Match guesses_t :=
  mkMatch i0 j0 tok
    (PDate (mkDateMatch [] (dmy_year best_candidate) (dmy_month best_candidate)
              (dmy_day best_candidate) false)).

(** The pass without separators emits, for every substring of 4 to 8 digits
    with a candidate, the match of the first candidate of least metric. *)
Lemma date_without_separator_In (password : str) (without : list Match) :
  date_without_separator password = Ok without ->
  forall m, In m without <->
    exists i0 j0 first rest,
      i0 + 3 <= j0 <= i0 + 7 /\ j0 < length password /\
      all_digits (firstn (j0 - i0 + 1) (skipn i0 password)) /\
      date_candidates (firstn (j0 - i0 + 1) (skipn i0 password)) = Ok (first :: rest) /\
      m = best_match i0 j0 (firstn (j0 - i0 + 1) (skipn i0 password))
            (min_element (fun a b => (metric a <? metric b)%N) first rest).
Proof.
  intros Hwithout m. unfold date_without_separator in Hwithout.
  rewrite (for_each_In _ _ Hwithout). split.
  - intros (i0 & ys & Hi & Hrow & Hm).
    rewrite (for_each_In _ _ Hrow) in Hm. destruct Hm as (j0 & ys' & Hj & Hbody & Hm).
    apply in_seq in Hi. apply until_end_In in Hj.
    rewrite substr_Ok in Hbody by lia. cbn [bind] in Hbody.
    destruct (found _) eqn:Hfound; cbn [negb] in Hbody;
      [| injection Hbody as <-; destruct Hm].
    apply maybe_date_no_separator_found in Hfound. destruct Hfound as [Hlen Hd].
    inv_bind Hbody. destruct r as [|first rest]; [injection Hbody as <-; destruct Hm |].
    injection Hbody as <-. destruct Hm as [<- | []].
    exists i0, j0, first, rest. repeat split; try assumption; lia.
  - intros (i0 & j0 & first & rest & Hij & Hj & Hd & Hcs & ->).
    assert (Hi : In i0 (seq 0 (length password - 3))) by (apply in_seq; lia).
    destruct (for_each_Ok_inv _ _ _ Hwithout i0 Hi) as (ys & Hrow).
    exists i0, ys. split; [assumption |]. split; [assumption |].
    rewrite (for_each_In _ _ Hrow). exists j0. eexists.
    split; [apply until_end_intro; lia |].
    rewrite substr_Ok by lia. cbn [bind].
    assert (Hfound : found (Regex.regex_search maybe_date_no_separator
                              (firstn (j0 - i0 + 1) (skipn i0 password))) = true).
    { apply maybe_date_no_separator_found. split; [| assumption].
      rewrite length_firstn, length_skipn. lia. }
    rewrite Hfound, Hcs. cbn [negb bind]. split; [reflexivity | now left].
Qed.

Lemma date_candidates_1191 :
  date_candidates (lit "1191") = Ok [mkDMY 1991%N 1%N 1%N; mkDMY 2001%N 9%N 11%N].
Proof. reflexivity. Qed.

Lemma date_without_separator_1191 :
  date_without_separator (lit "1191")
  = Ok [best_match 0 3 (lit "1191")
          (min_element (fun a b => (metric a <? metric b)%N)
                       (mkDMY 1991%N 1%N 1%N) [mkDMY 2001%N 9%N 11%N])].
Proof.
  unfold date_without_separator.
  change (seq 0 (length (lit "1191") - 3)) with [0].
  cbn [for_each].
  change (until_end (lit "1191") (0 + 3) 5) with [3].
  cbn [for_each].
  change (substr (lit "1191") 0 (3 - 0 + 1)) with (Ok (A := str) (lit "1191")).
  cbn [bind].
  change (found (Regex.regex_search maybe_date_no_separator (lit "1191"))) with true.
  cbn [negb]. rewrite date_candidates_1191. reflexivity.
Qed.

Lemma min_element_1191 :
  min_element (fun a b => (metric a <? metric b)%N)
              (mkDMY 1991%N 1%N 1%N) [mkDMY 2001%N 9%N 11%N]
  = if (REFERENCE_YEAR <=? 1996)%N then mkDMY 1991%N 1%N 1%N else mkDMY 2001%N 9%N 11%N.
Proof.
  unfold min_element, metric. cbn [fold_left dmy_year].
  destruct (N.leb_spec REFERENCE_YEAR 1996), (N.leb_spec REFERENCE_YEAR 2001),
    (N.leb_spec REFERENCE_YEAR 1991);
    match goal with |- context [N.ltb ?a ?b] => destruct (N.ltb_spec a b) end;
    try reflexivity; exfalso; lia.
Qed.

(** The absolute distance of the year of a date from the reference year. *)
Definition year_distance (c : DMY) : Z :=
  Z.abs (Z.of_N (dmy_year c) - Z.of_N REFERENCE_YEAR).

Lemma metric_year_distance (c : DMY) : Z.of_N (metric c) = year_distance c.
Proof.
  unfold metric, year_distance.
  destruct (N.leb_spec REFERENCE_YEAR (dmy_year c)); lia.
Qed.

(** The first of the nearest: the split [kl] of [splits] resolves to [best],
    the splits before it resolve to dates that are further from the
    reference year, and the splits after it to dates that are no nearer. *)
Definition first_nearest (tok : str) (splits : list (nat * nat)) (best : DMY) : Prop :=
  exists before kl after,
    splits = before ++ kl :: after /\
    split_date tok kl = Some best /\
    (forall kl' c, In kl' before -> split_date tok kl' = Some c ->
                   (year_distance best < year_distance c)%Z) /\
    (forall kl' c, In kl' after -> split_date tok kl' = Some c ->
                   (year_distance best <= year_distance c)%Z).

Lemma min_element_first_nearest (tok : str) (splits : list (nat * nat))
      (first : DMY) (rest : list DMY) :
  flat_map (fun kl => option_list (split_date tok kl)) splits = first :: rest ->
  first_nearest tok splits (min_element (fun a b => (metric a <? metric b)%N) first rest).
Proof.
  intros Hcs.
  destruct (min_element_first metric first rest) as (before & after & Hsplit & Hb & Ha).
  set (best := min_element _ first rest) in *.
  rewrite Hsplit in Hcs.
  destruct (flat_map_option_split _ _ _ _ _ Hcs) as (l1 & kl & l2 & -> & Hkl & H1 & H2).
  exists l1, kl, l2. split; [reflexivity |]. split; [assumption |]. split.
  - intros kl' c Hin Hc. rewrite Forall_forall in Hb.
    assert (Hlt : (metric best < metric c)%N).
    { apply Hb. rewrite <- H1. apply flat_map_option_In. eauto. }
    rewrite <- !metric_year_distance. lia.
  - intros kl' c Hin Hc. rewrite Forall_forall in Ha.
    assert (Hle : (metric best <= metric c)%N).
    { apply Ha. rewrite <- H2. apply flat_map_option_In. eauto. }
    rewrite <- !metric_year_distance. lia.
Qed.

Lemma first_nearest_unique (tok : str) (splits : list (nat * nat)) (b1 b2 : DMY) :
  first_nearest tok splits b1 -> first_nearest tok splits b2 -> b1 = b2.
Proof.
  intros (l1 & kl1 & r1 & E1 & Hk1 & Hb1 & Ha1) (l2 & kl2 & r2 & E2 & Hk2 & Hb2 & Ha2).
  rewrite E1 in E2. apply app_eq_app in E2.
  destruct E2 as (mid & [[-> E] | [-> E]]).
  - destruct mid as [|x mid]; cbn [app] in E.
    + injection E as -> _. congruence.
    + injection E as -> ->. exfalso.
      assert (H1 : (year_distance b1 < year_distance b2)%Z).
      { refine (Hb1 _ _ _ Hk2). apply in_or_app. right. now left. }
      assert (H2 : (year_distance b2 <= year_distance b1)%Z).
      { refine (Ha2 _ _ _ Hk1). apply in_or_app. right. now left. }
      lia.
  - destruct mid as [|x mid]; cbn [app] in E.
    + injection E as -> _. congruence.
    + injection E as -> ->. exfalso.
      assert (H1 : (year_distance b2 < year_distance b1)%Z).
      { refine (Hb2 _ _ _ Hk1). apply in_or_app. right. now left. }
      assert (H2 : (year_distance b1 <= year_distance b2)%Z).
      { refine (Ha1 _ _ _ Hk2). apply in_or_app. right. now left. }
      lia.
Qed.

(** The pass without separators in terms of the splits: for a substring of
    4 to 8 digits it emits the match of the first of the nearest dates of
    all the splits for its length, and nothing when no split resolves. *)
Lemma date_without_separator_nearest (password : str) (without : list Match) :
  date_without_separator password = Ok without ->
  forall m, In m without <->
    exists i0 j0 splits best,
      i0 + 3 <= j0 <= i0 + 7 /\ j0 < length password /\
      all_digits (firstn (j0 - i0 + 1) (skipn i0 password)) /\
      nth_error DATE_SPLITS (length (firstn (j0 - i0 + 1) (skipn i0 password)) - 4)
      = Some splits /\
      first_nearest (firstn (j0 - i0 + 1) (skipn i0 password)) splits best /\
      m = best_match i0 j0 (firstn (j0 - i0 + 1) (skipn i0 password)) best.
Proof.
  intros Hwithout m. rewrite (date_without_separator_In _ _ Hwithout). split.
  - intros (i0 & j0 & first & rest & Hij & Hj & Hd & Hcs & ->).
    set (tok := firstn (j0 - i0 + 1) (skipn i0 password)) in *.
    assert (Hlen : 4 <= length tok <= 8)
      by (unfold tok; rewrite length_firstn, length_skipn; lia).
    destruct (DATE_SPLITS_defined _ Hlen) as [splits Hsplits].
    rewrite (date_candidates_splits tok splits Hlen Hd Hsplits) in Hcs.
    injection Hcs as Hcs.
    exists i0, j0, splits, (min_element (fun a b => (metric a <? metric b)%N) first rest).
    repeat (split; [assumption |]). split; [| reflexivity].
    now apply min_element_first_nearest.
  - intros (i0 & j0 & splits & best & Hij & Hj & Hd & Hsplits & Hbest & ->).
    set (tok := firstn (j0 - i0 + 1) (skipn i0 password)) in *.
    assert (Hlen : 4 <= length tok <= 8)
      by (unfold tok; rewrite length_firstn, length_skipn; lia).
    pose proof (date_candidates_splits tok splits Hlen Hd Hsplits) as Hcs.
    destruct (flat_map (fun kl => option_list (split_date tok kl)) splits)
      as [|first rest] eqn:Hlist.
    + exfalso. destruct Hbest as (before & kl & after & -> & Hkl & _).
      assert (Hin : In best (flat_map (fun kl => option_list (split_date tok kl))
                                      (before ++ kl :: after))).
      { apply flat_map_option_In. exists kl. split; [| assumption].
        apply in_or_app. right. now left. }
      rewrite Hlist in Hin. destruct Hin.
    + exists i0, j0, first, rest. repeat (split; [assumption |]).
      f_equal. apply (first_nearest_unique tok splits); [assumption |].
      now apply min_element_first_nearest.
Qed.

(** C4 (amended).  For every substring of 4 to 8 digits the pass without
    separators goes through all the splits of [DATE_SPLITS] for the length
    of the substring and, when one of them resolves to a date, emits one
    match: that of the date whose year has the least absolute distance from
    the reference year, and of the earliest split among those of the least
    distance.  When no split resolves it emits nothing for the substring.
    For the password 1191 the candidates are 1/1/1991 and 11/9/2001, in this
    order, and the emitted date match has day 1, month 1, year 1991 when the
    reference year is at most 1996, and day 11, month 9, year 2001 when it is
    larger. *)
Theorem date_match_best_candidate :
  (forall password : str,
     exists without,
       date_without_separator password = Ok without /\
       forall m, In m without <->
         exists i0 j0 splits before kl after best,
           i0 + 3 <= j0 <= i0 + 7 /\ j0 < length password /\
           let tok := firstn (j0 - i0 + 1) (skipn i0 password) in
           all_digits tok /\
           nth_error DATE_SPLITS (length tok - 4) = Some splits /\
           splits = before ++ kl :: after /\
           split_date tok kl = Some best /\
           (forall kl' c, In kl' before -> split_date tok kl' = Some c ->
                          (year_distance best < year_distance c)%Z) /\
           (forall kl' c, In kl' after -> split_date tok kl' = Some c ->
                          (year_distance best <= year_distance c)%Z) /\
           m = best_match i0 j0 tok best) /\
  date_candidates (lit "1191") = Ok [mkDMY 1991%N 1%N 1%N; mkDMY 2001%N 9%N 11%N] /\
  date_match (lit "1191")
  = Ok [best_match 0 3 (lit "1191")
          (if (REFERENCE_YEAR <=? 1996)%N
           then mkDMY 1991%N 1%N 1%N else mkDMY 2001%N 9%N 11%N)].
Proof.
  split; [| split].
  - intros password.
    destruct (date_without_separator_spec password) as (without & Hwithout & _).
    exists without. split; [assumption |]. intros m.
    rewrite (date_without_separator_nearest _ _ Hwithout). cbv zeta.
    unfold first_nearest. split.
    + intros (i0 & j0 & splits & best & Hij & Hj & Hd & Hsplits
              & (before & kl & after & Hs & Hkl & Hb & Ha) & Hm).
      exists i0, j0, splits, before, kl, after, best. auto 10.
    + intros (i0 & j0 & splits & before & kl & after & best & Hij & Hj & Hd & Hsplits
              & Hs & Hkl & Hb & Ha & Hm).
      exists i0, j0, splits, best. repeat (split; [assumption |]).
      split; [| assumption]. exists before, kl, after. auto.
  - exact date_candidates_1191.
  - apply date_match_filter.
    exists [best_match 0 3 (lit "1191")
              (min_element (fun a b => (metric a <? metric b)%N)
                           (mkDMY 1991%N 1%N 1%N) [mkDMY 2001%N 9%N 11%N])], [].
    split; [exact date_without_separator_1191 |]. split; [reflexivity |].
    rewrite min_element_1191. unfold is_submatch, best_match.
    cbn [app filter existsb i j Nat.eqb Nat.leb andb orb negb].
    now rewrite sorted_singleton.
Qed.

End DateClaims.

(** C4, the claim as stated fails: with the reference year 2000, for the
    password 1191 the emitted date match has day 11, month 9, year 2001. *)
Lemma date_match_1191_reference_2000 :
  date_match (sorter := stable_sorter) (env := sample_env 2000%N) (lit "1191")
  = Ok [mkMatch 0 3 (lit "1191") (PDate (mkDateMatch [] 2001%N 9%N 11%N false))].
Proof. reflexivity. Qed.

(* ------------------------------------------------------------------------- *)
(** * The regular expression matcher *)

(** The number of characters that a pattern without quantifiers and back
    references consumes, when it is the same on every path. *)
Fixpoint width (r : Regex.regex) : option nat :=
  match r with
  | Regex.REmpty | Regex.RBol | Regex.REol => Some 0
  | Regex.RChar _ | Regex.RAny | Regex.RClass _ => Some 1
  | Regex.RSeq r1 r2 =>
      match width r1, width r2 with
      | Some w1, Some w2 => Some (w1 + w2)
      | _, _ => None
      end
  | Regex.RAlt r1 r2 =>
      match width r1, width r2 with
      | Some w1, Some w2 => if w1 =? w2 then Some w1 else None
      | _, _ => None
      end
  | Regex.RGroup _ r' => width r'
  | Regex.RBackref _ | Regex.RQuant _ _ _ _ => None
  end.

Lemma char_matcher_width (input : str) (p : ascii -> bool) (x y : Regex.MatchState) :
  In y (Regex.char_matcher input p x) -> Regex.endIndex y = Regex.endIndex x + 1.
Proof.
  unfold Regex.char_matcher. destruct (nth_error _ _) as [ch|]; [| intros []].
  destruct (p ch); [| intros []]. intros [<- | []]. cbn. lia.
Qed.

Lemma compile_width (input : str) (r : Regex.regex) :
  forall w x y, width r = Some w -> In y (Regex.compile input r x) ->
                Regex.endIndex y = Regex.endIndex x + w.
Proof.
  induction r as [| c | | items | r1 IH1 r2 IH2 | r1 IH1 r2 IH2 | n r IH | n
                 | r IH min max greedy | |];
    intros w x y Hw Hy; cbn [width Regex.compile] in *;
    try discriminate;
    try (injection Hw as <-).
  - destruct Hy as [<- | []]. lia.
  - now apply char_matcher_width in Hy.
  - now apply char_matcher_width in Hy.
  - now apply char_matcher_width in Hy.
  - destruct (width r1) as [w1|]; [| discriminate].
    destruct (width r2) as [w2|]; [| discriminate]. injection Hw as <-.
    apply in_flat_map in Hy. destruct Hy as (z & Hz & Hy).
    rewrite (IH2 _ _ _ eq_refl Hy), (IH1 _ _ _ eq_refl Hz). lia.
  - destruct (width r1) as [w1|]; [| discriminate].
    destruct (width r2) as [w2|]; [| discriminate].
    destruct (Nat.eqb_spec w1 w2) as [<- | _]; [| discriminate]. injection Hw as <-.
    apply in_app_or in Hy. destruct Hy as [Hy | Hy]; eauto.
  - apply in_map_iff in Hy. destruct Hy as (z & <- & Hz). cbn. eauto.
  - destruct (Nat.eqb_spec (Regex.endIndex x) 0); [| destruct Hy].
    destruct Hy as [<- | []]. lia.
  - destruct (Nat.eqb_spec (Regex.endIndex x) (length input)); [| destruct Hy].
    destruct Hy as [<- | []]. lia.
Qed.

(** [std::regex_match] with a pattern of width [w] matches ranges of [w]
    characters only. *)
Lemma regex_match_width (r : Regex.regex) (w : nat) (input : str) :
  width r = Some w -> length input <> w -> Regex.regex_match r input = [].
Proof.
  intros Hw Hlen. unfold Regex.regex_match.
  destruct (List.find _ _) as [y|] eqn:Hfind; [| reflexivity].
  apply find_some in Hfind. destruct Hfind as [Hy Hend]. apply Nat.eqb_eq in Hend.
  apply (compile_width _ _ _ _ _ Hw) in Hy. cbn in Hy. lia.
Qed.

Lemma RECENT_YEAR_RX_width : width RECENT_YEAR_RX = Some 4.
Proof. reflexivity. Qed.

Section RegexClaims.

Context {guesses_t : Type} {sorter : @StdSort guesses_t} {env : @Environment guesses_t}.

(** The matcher as the specification words it: the next occurrence is
    searched for in what follows the previous one, and its span is counted
    from the start of the password. *)
Fixpoint spec_regex_loop (fuel : nat) (password : str) (tag : RegexTag)
         (regex : Regex.regex) (lastIndex : nat) : result (list (@Match guesses_t)) :=
  match fuel with
  | O => Err OutOfFuel
  | S fuel' =>
      if length password <? lastIndex then Err OutOfRange
      else
        let range := skipn lastIndex password in
        let rx_match := Regex.regex_search regex range in
        if Regex.size rx_match =? 0 then Ok []
        else
          let first := lastIndex + Regex.position rx_match 0 in
          let len := Regex.sub_length rx_match 0 in
          rest <- (if len =? 0 then Ok []
                   else spec_regex_loop fuel' password tag regex (first + len)) ;;
          Ok (mkMatch first (first + len - 1) (Regex.sub_str range rx_match 0)
                      (PRegex (mkRegexMatch tag (portable range rx_match)))
                :: rest)
  end.

Definition spec_regex_match (password : str) (regexen : list (RegexTag * Regex.regex))
  : result (list Match) :=
  matches <-
    for_each regexen (fun item =>
      spec_regex_loop (S (S (length password))) password (fst item) (snd item) 0) ;;
  Ok (sorted matches).

Lemma regex_loop_no_match (password : str) (tag : RegexTag) (fuel : nat) :
  Regex.regex_match RECENT_YEAR_RX password = [] ->
  regex_loop (guesses_t := guesses_t) (S fuel) password tag RECENT_YEAR_RX 0 = Ok [].
Proof.
  intros Hm. cbn [regex_loop]. simpl (length password <? 0). cbv iota. cbn [skipn].
  now rewrite Hm.
Qed.

(** C3.  [regex_match] tries the pattern on the whole of the password
    ([std::regex_match]) and not on its substrings: it returns no match
    unless the password is four characters long, and then the one match it
    may return is the whole password.  For the password x1991 it returns
    nothing, where the search for occurrences finds 1991 at 1..4. *)
Theorem regex_match_whole_password_only :
  (forall password : str,
     regex_match password REGEXEN = Ok [] \/
     (length password = 4 /\
      exists groups,
        regex_match password REGEXEN
        = Ok [mkMatch 0 3 password (PRegex (mkRegexMatch RECENT_YEAR groups))])) /\
  regex_match (lit "x1991") REGEXEN = Ok [] /\
  regex_match (lit "1991") REGEXEN
  = Ok [mkMatch 0 3 (lit "1991") (PRegex (mkRegexMatch RECENT_YEAR [lit "1991"]))] /\
  spec_regex_match (lit "x1991") REGEXEN
  = Ok [mkMatch 1 4 (lit "1991") (PRegex (mkRegexMatch RECENT_YEAR [lit "1991"]))].
Proof.
  split; [| split; [| split]].
  - intros password. unfold regex_match, REGEXEN. cbn [for_each fst snd].
    destruct (Nat.eq_dec (length password) 4) as [Hlen | Hlen].
    + destruct (regex_loop_RECENT_YEAR (guesses_t := guesses_t) password RECENT_YEAR
                  (length password)) as [-> | (_ & groups & ->)]; cbn [bind app].
      * left. now rewrite sorted_nil.
      * right. split; [assumption |]. exists groups.
        rewrite sorted_singleton, Hlen. reflexivity.
    + left. rewrite regex_loop_no_match
        by (apply (regex_match_width _ 4); [reflexivity | assumption]).
      cbn [bind app]. now rewrite sorted_nil.
  - unfold regex_match, REGEXEN. cbn [for_each fst snd].
    rewrite regex_loop_no_match by reflexivity. cbn [bind app]. now rewrite sorted_nil.
  - unfold regex_match, REGEXEN. cbn [for_each fst snd].
    change (regex_loop _ (lit "1991") RECENT_YEAR RECENT_YEAR_RX 0)
      with (Ok (A := list (@Match guesses_t))
              [mkMatch 0 3 (lit "1991") (PRegex (mkRegexMatch RECENT_YEAR [lit "1991"]))]).
    cbn [bind app]. now rewrite sorted_singleton.
  - unfold spec_regex_match, REGEXEN. cbn [for_each fst snd].
    change (spec_regex_loop _ (lit "x1991") RECENT_YEAR RECENT_YEAR_RX 0)
      with (Ok (A := list (@Match guesses_t))
              [mkMatch 1 4 (lit "1991") (PRegex (mkRegexMatch RECENT_YEAR [lit "1991"]))]).
    cbn [bind app]. now rewrite sorted_singleton.
Qed.

End RegexClaims.

(* ------------------------------------------------------------------------- *)
(** * Overlap pruning of the date matcher *)

Section PruningClaims.

Context {guesses_t : Type} {sorter : @StdSort guesses_t} {env : @Environment guesses_t}.

(** What survives the pruning, and what covers what is pruned. *)
Lemma date_match_survivors (password : str) (without with_ ms : list (@Match guesses_t)) :
  date_without_separator password = Ok without ->
  date_with_separator password = Ok with_ ->
  date_match password = Ok ms ->
  forall m,
    (In m ms <-> In m (without ++ with_) /\ is_submatch (without ++ with_) m = false) /\
    (is_submatch (without ++ with_) m = true <-> exists o, In o ms /\ covers o m = true).
Proof.
  intros Hwithout Hwith Hms m.
  apply date_match_filter in Hms. destruct Hms as (a & b & Ha & Hb & ->).
  assert (a = without) by congruence. assert (b = with_) by congruence. subst a b.
  assert (Hin : forall o, In o (sorted (filter (fun m => negb (is_submatch (without ++ with_) m))
                                               (without ++ with_)))
                          <-> In o (without ++ with_)
                              /\ is_submatch (without ++ with_) o = false).
  { intros o. rewrite sorted_In, filter_In, negb_true_iff. reflexivity. }
  split; [apply Hin |]. rewrite is_submatch_true. split.
  - intros (o & Ho & Hcov).
    destruct (maximal_cover _ m o Ho Hcov) as (o' & Ho' & Hcov' & Hmax).
    exists o'. split; [| assumption]. apply Hin. auto.
  - intros (o & Ho & Hcov). apply Hin in Ho. destruct Ho as [Ho _]. eauto.
Qed.

(** C6.  [date_match] returns the matches of its two passes without those
    whose range [i..j] lies inside the range of another match of the two
    passes that is not the same range; a match is discarded exactly when a
    match that survives covers it in this way.  For the password 2015_06_04
    the two passes find eight matches and one survives, the one that spans
    the whole password. *)
Theorem date_match_overlap_pruning :
  (forall password : str,
     exists without with_ ms,
       date_without_separator password = Ok without /\
       date_with_separator password = Ok with_ /\
       date_match password = Ok ms /\
       forall m,
         (In m ms <->
          In m (without ++ with_) /\
          ~ exists other_match,
              In other_match ms /\
              (i other_match <> i m \/ j other_match <> j m) /\
              i other_match <= i m /\ j m <= j other_match) /\
         ((exists other_match,
              In other_match ms /\
              (i other_match <> i m \/ j other_match <> j m) /\
              i other_match <= i m /\ j m <= j other_match) <->
          (exists other_match,
              In other_match (without ++ with_) /\
              (i other_match <> i m \/ j other_match <> j m) /\
              i other_match <= i m /\ j m <= j other_match))) /\
  (exists without with_,
     date_without_separator (lit "2015_06_04") = Ok without /\
     date_with_separator (lit "2015_06_04") = Ok with_ /\
     length (without ++ with_) = 8) /\
  date_match (lit "2015_06_04")
  = Ok [mkMatch 0 9 (lit "2015_06_04")
          (PDate (mkDateMatch (lit "_") 2015%N 4%N 6%N false))].
Proof.
  assert (Hcovers : forall o m : @Match guesses_t,
             covers o m = true <->
             (i o <> i m \/ j o <> j m) /\ i o <= i m /\ j m <= j o).
  { intros o m. unfold covers.
    rewrite !andb_true_iff, negb_true_iff, andb_false_iff, !Nat.leb_le, !Nat.eqb_neq.
    reflexivity. }
  split; [| split].
  - intros password.
    destruct (date_without_separator_spec password) as (without & Hwithout & _).
    destruct (date_with_separator_spec (guesses_t := guesses_t) password)
      as (with_ & Hwith & _).
    destruct (date_match_spec password) as (ms & Hms & _).
    exists without, with_, ms. repeat (split; [assumption |]). intros m.
    destruct (date_match_survivors _ _ _ _ Hwithout Hwith Hms m) as [Hin Hsub].
    assert (Hsurvivor : (exists o, In o ms /\ (i o <> i m \/ j o <> j m)
                                   /\ i o <= i m /\ j m <= j o)
                        <-> is_submatch (without ++ with_) m = true).
    { rewrite Hsub. split; intros (o & Ho & Hc); exists o; (split; [assumption |]);
        now apply Hcovers. }
    split.
    + rewrite Hin, Hsurvivor. rewrite not_true_iff_false. reflexivity.
    + rewrite Hsurvivor, is_submatch_true.
      split; intros (o & Ho & Hc); exists o; (split; [assumption |]); now apply Hcovers.
  - do 2 eexists. split; [vm_compute; reflexivity |].
    split; [vm_compute; reflexivity | reflexivity].
  - apply date_match_filter. do 2 eexists.
    split; [vm_compute; reflexivity |]. split; [vm_compute; reflexivity |].
    rewrite <- (sorted_singleton (mkMatch 0 9 _ _)). f_equal.
Qed.

End PruningClaims.

(* ------------------------------------------------------------------------- *)
(** * The l33t matcher keeps actual substitutions *)

Section L33tClaims.

Context {guesses_t : Type} {sorter : @StdSort guesses_t} {env : @Environment guesses_t}.

(** C8.  [l33t_match] returns the matches of its loop over the substitutions
    whose token has two characters or more.  Every match it returns is a
    dictionary match flagged [l33t] whose token, a substring of the password
    as it was typed, differs in lower case from the matched word.  The empty
    substitution ends the loop without a match, so a password with no l33t
    character has no l33t match. *)
Theorem l33t_match_actual_substitution :
  forall (password : str) (ranked_dictionaries : RankedDicts),
  exists matches ms,
    l33t_loop password ranked_dictionaries
              (enumerate_l33t_subs (relevant_l33t_subtable password L33T_TABLE))
    = Ok matches /\
    l33t_match password ranked_dictionaries L33T_TABLE = Ok ms /\
    (forall m, In m ms <-> In m matches /\ 2 <= length (token m)) /\
    Forall (fun m => 2 <= length (token m) /\ in_range password m /\
                     exists d, pattern m = PDictionary d /\ l33t d = true /\
                               ascii_lower (token m) <> matched_word d) ms /\
    (forall subs1 subs2,
        l33t_loop (guesses_t := guesses_t) password ranked_dictionaries (subs1 ++ [] :: subs2)
        = l33t_loop password ranked_dictionaries subs1) /\
    l33t_loop (guesses_t := guesses_t) password ranked_dictionaries [[]] = Ok [] /\
    (relevant_l33t_subtable password L33T_TABLE = [] -> ms = []).
Proof.
  intros password ranked_dictionaries.
  destruct (l33t_match_total password ranked_dictionaries) as [ms Hms].
  destruct (l33t_match_filter _ _ _ _ Hms) as (matches & Hloop & Hfilter).
  exists matches, ms. split; [assumption |]. split; [assumption |].
  assert (Hin : forall m, In m ms <-> In m matches /\ 2 <= length (token m)).
  { intros m. rewrite Hfilter, sorted_In, filter_In, negb_true_iff, Nat.leb_gt.
    reflexivity. }
  split; [assumption |]. split; [| split; [| split]].
  - pose proof (l33t_match_in_range _ _ _ Hms) as Hrange.
    pose proof (l33t_loop_substitution _ _ _ _ Hloop) as Hsub.
    rewrite Forall_forall in Hrange, Hsub. apply Forall_forall. intros m Hm.
    split; [now apply Hin |]. split; [now apply Hrange |].
    apply Hsub. now apply Hin.
  - intros subs1 subs2. apply l33t_loop_break.
  - reflexivity.
  - intros Htable. rewrite Htable in Hloop. cbn in Hloop. injection Hloop as <-.
    rewrite Hfilter. cbn [filter]. apply sorted_nil.
Qed.

End L33tClaims.

(* ------------------------------------------------------------------------- *)
(** * The repeat matcher on a run of one character *)

Lemma power_single (c : ascii) (k : nat) : power [c] k = repeat c k.
Proof.
  induction k as [|k IH]; [reflexivity |]. rewrite power_S, IH. reflexivity.
Qed.

Lemma run_repeat (p : ascii -> bool) (c : ascii) (k : nat) :
  p c = true -> run p (repeat c k) = k.
Proof.
  intros Hc. induction k as [|k IH]; [reflexivity |]. simpl. now rewrite Hc, IH.
Qed.

Lemma copies_repeat (c : ascii) (k : nat) : copies [c] (repeat c k) = k.
Proof. rewrite <- power_single. apply copies_power. simpl. lia. Qed.

(** The lazy search on a run of [n + 2] characters: the first character,
    and all the copies of it that follow. *)
Lemma lazy_search_run (c : ascii) (n : nat) :
  dot c = true ->
  Regex.regex_search lazy (repeat c (S (S n))) = [Some (0, S (S n)); Some (0, 1)].
Proof.
  intros Hc. rewrite lazy_unit. unfold Regex.regex_search.
  cbn [seq Regex.search_from]. rewrite compile_unit_pattern.
  unfold unit_lengths. cbn [skipn]. rewrite run_repeat by assumption.
  cbn [seq flat_map]. unfold unit_matches at 1.
  change (Regex.slice (repeat c (S (S n))) 0 (0 + 1)) with [c].
  change (skipn (0 + 1) (repeat c (S (S n)))) with (repeat c (S n)).
  rewrite copies_repeat. cbn [countdown map app].
  unfold Regex.results. cbn. do 3 f_equal. lia.
Qed.

(** On a run both searches succeed at the start, and the greedy match is
    not longer than the lazy one. *)
Lemma greedy_search_run (c : ascii) (n : nat) :
  dot c = true ->
  Regex.size (Regex.regex_search greedy (repeat c (S (S n)))) <> 0 /\
  Regex.sub_length (Regex.regex_search greedy (repeat c (S (S n)))) 0 <= S (S n).
Proof.
  intros Hc. pose proof (lazy_search_run c n Hc) as Hlazy.
  rewrite greedy_unit. rewrite lazy_unit in Hlazy.
  destruct (unit_search (repeat c (S (S n))))
    as [[_ Hnone] | (p & n1 & c1 & n2 & c2 & y1 & y2 & Hg & Hl & Hm1 & _)].
  - rewrite Hnone in Hlazy. discriminate.
  - rewrite Hg. split; [discriminate |].
    unfold Regex.sub_length, Regex.sub. cbn [nth].
    destruct Hm1 as [_ _ _ _ Hend]. rewrite repeat_length in Hend. lia.
Qed.

Section RepeatClaims.

Context {guesses_t : Type} {sorter : @StdSort guesses_t} {env : @Environment guesses_t}.

Lemma repeat_match_run (omni : str -> result (list Match)) (c : ascii) (n : nat)
      (sub_matches : list Match) :
  dot c = true ->
  omni [c] = Ok sub_matches ->
  repeat_match omni (repeat c (S (S n)))
  = Ok [mkMatch 0 (S n) (repeat c (S (S n)))
          (PRepeat [c]
                   (guesses (most_guessable_match_sequence [c] sub_matches false))
                   (sequence (most_guessable_match_sequence [c] sub_matches false))
                   (S (S n)))].
Proof.
  intros Hc Homni. unfold repeat_match. rewrite repeat_length.
  generalize (S n) at 1. intros fuel0.
  remember (S fuel0) as fuel eqn:Hfuel.
  cbn [repeat_loop]. rewrite repeat_length. cbn [Nat.ltb Nat.leb skipn].
  destruct (greedy_search_run c n Hc) as [Hsize Hlen].
  destruct (Nat.eqb_spec (Regex.size (Regex.regex_search greedy (repeat c (S (S n))))) 0)
    as [Hz | _]; [contradiction |].
  unfold choose_match. rewrite (lazy_search_run c n Hc).
  change (Regex.sub_length [Some (0, S (S n)); Some (0, 1)] 0) with (S (S n)).
  destruct (Nat.ltb_spec (S (S n))
              (Regex.sub_length (Regex.regex_search greedy (repeat c (S (S n)))) 0))
    as [Hlt | _]; [lia |].
  cbn [bind].
  change (Regex.sub_str (repeat c (S (S n))) [Some (0, S (S n)); Some (0, 1)] 1) with [c].
  rewrite Homni. cbn [bind].
  change (Regex.position [Some (0, S (S n)); Some (0, 1)] 0) with 0.
  change (Regex.sub_length [Some (0, S (S n)); Some (0, 1)] 0) with (S (S n)).
  unfold udiv. cbn [length Nat.eqb bind Nat.add].
  rewrite Nat.div_1_r.
  replace (S (S n) - 1 + 1) with (S (S n)) by lia.
  replace (S (S n) - 1) with (S n) by lia.
  rewrite Hfuel. cbn [repeat_loop]. rewrite repeat_length.
  destruct (Nat.ltb_spec (S (S n)) (S (S n))) as [Hlt | _]; [lia |]. cbn [bind].
  do 3 f_equal. unfold Regex.sub_str, Regex.sub, Regex.slice. cbn [nth skipn].
  rewrite Nat.sub_0_r. rewrite <- (repeat_length c (S (S n))) at 1. apply firstn_all.
Qed.

(** C10.  When the greedy match is not strictly longer than the lazy one,
    lines 476-500 choose the lazy match and its first group as the base
    token; the greedy match is chosen only when it is strictly longer.  In
    every match that [repeat_match] returns the base token is the shortest
    string that the token repeats twice or more.  On a run of [n + 2] copies
    of one character that is not a line terminator the matcher returns one
    match, the whole run, with that character as the base token. *)
Theorem repeat_match_prefers_lazy :
  (forall (range : str) (greedy_match lazy_match : Regex.smatch),
     Regex.sub_length greedy_match 0 <= Regex.sub_length lazy_match 0 ->
     choose_match range greedy_match lazy_match
     = Ok (lazy_match, Regex.sub_str range lazy_match 1)) /\
  (forall (range : str) (greedy_match lazy_match m : Regex.smatch) (base_token : str),
     choose_match range greedy_match lazy_match = Ok (m, base_token) ->
     (Regex.sub_length lazy_match 0 < Regex.sub_length greedy_match 0 /\ m = greedy_match) \/
     (Regex.sub_length greedy_match 0 <= Regex.sub_length lazy_match 0 /\
      m = lazy_match /\ base_token = Regex.sub_str range lazy_match 1)) /\
  (forall password : str,
     exists matches,
       repeat_match (fun base_token => omnimatch base_token []) password = Ok matches /\
       Forall (fun m : @Match guesses_t =>
                 exists base_token base_guesses base_matches repeat_count,
                   pattern m = PRepeat base_token base_guesses base_matches repeat_count /\
                   repeats base_token (token m) /\
                   (forall v, repeats v (token m) -> length base_token <= length v) /\
                   token m = power base_token repeat_count)
              matches) /\
  (forall (c : ascii) (n : nat),
     Regex.is_line_terminator c = false ->
     exists base_guesses base_matches,
       repeat_match (fun base_token => omnimatch base_token []) (repeat c (S (S n)))
       = Ok [mkMatch 0 (S n) (repeat c (S (S n)))
               (PRepeat [c] base_guesses base_matches (S (S n)))]).
Proof.
  assert (Homni : forall s, exists r, omnimatch (guesses_t := guesses_t) s [] = Ok r).
  { intros s.
    destruct (omnimatch_rec_spec (S (length s)) s [] (Nat.lt_succ_diag_r _))
      as (r & Hr & _). eauto. }
  split; [| split; [| split]].
  - intros range greedy_match lazy_match Hle. unfold choose_match.
    destruct (Nat.ltb_spec (Regex.sub_length lazy_match 0)
                (Regex.sub_length greedy_match 0)) as [Hlt | _]; [lia | reflexivity].
  - intros range greedy_match lazy_match m base_token. unfold choose_match.
    destruct (Nat.ltb_spec (Regex.sub_length lazy_match 0)
                (Regex.sub_length greedy_match 0)) as [Hlt | Hge].
    + destruct (Regex.size _ =? 0); [discriminate |].
      intros H. injection H as <- _. now left.
    + intros H. injection H as <- <-. right. auto.
  - intros password.
    destruct (repeat_match_spec (fun base_token => omnimatch base_token []) password)
      as (matches & Hmatches & _); [intros s _; apply Homni |].
    exists matches. split; [assumption |].
    apply repeat_match_sound in Hmatches.
    eapply Forall_impl; [| exact Hmatches]. intros m [_ Hunit].
    unfold repeat_unit in Hunit.
    destruct (pattern m) as [| |base g bm rc| | |]; try contradiction.
    exists base, g, bm, rc. split; [reflexivity | exact Hunit].
  - intros c n Hc. destruct (Homni [c]) as [sub_matches Hsub].
    do 2 eexists. apply repeat_match_run with (sub_matches := sub_matches).
    + unfold dot. now rewrite Hc.
    + exact Hsub.
Qed.

End RepeatClaims.

(* ------------------------------------------------------------------------- *)
(** * More on the date matcher: the dates it reports *)

(** [map_ints_to_dm], lines 822-831: the pair as (day, month) when that is
    valid, as (month, day) otherwise. *)
Lemma map_ints_to_dm_result (a b : date_t) (dm : DMY) :
  map_ints_to_dm (a, b) = Some dm ->
  dmy_year dm = 0%N /\
  (((1 <= a <= 31)%N /\ (1 <= b <= 12)%N /\ dmy_day dm = a /\ dmy_month dm = b) \/
   (~ ((1 <= a <= 31)%N /\ (1 <= b <= 12)%N) /\
    (1 <= b <= 31)%N /\ (1 <= a <= 12)%N /\ dmy_day dm = b /\ dmy_month dm = a)).
Proof.
  unfold map_ints_to_dm. cbn [List.find fst snd].
  destruct ((1 <=? a)%N && (a <=? 31)%N && (1 <=? b)%N && (b <=? 12)%N) eqn:Hfirst.
  - intros H. injection H as <-. cbn. rewrite !andb_true_iff, !N.leb_le in Hfirst.
    split; [reflexivity |]. left. lia.
  - destruct ((1 <=? b)%N && (b <=? 31)%N && (1 <=? a)%N && (a <=? 12)%N) eqn:Hsecond;
      [| discriminate].
    intros H. injection H as <-. cbn.
    rewrite !andb_true_iff, !N.leb_le in Hsecond.
    rewrite !andb_false_iff, !N.leb_gt in Hfirst.
    split; [reflexivity |]. right. lia.
Qed.

Ltac dm_result H :=
  apply map_ints_to_dm_result in H;
  let Hy := fresh "Hy" in
  destruct H as [Hy [(? & ? & ? & ?) | (? & ? & ? & ? & ?)]].

(** [dmy] has the day and the month that [map_ints_to_dm] reads in the pair
    [(a, b)]: day [a] and month [b] when that is valid, the other way round
    when it is not. *)
Definition day_month_of (a b : date_t) (dmy : DMY) : Prop :=
  ((1 <= a <= 31 /\ 1 <= b <= 12)%N -> dmy_day dmy = a /\ dmy_month dmy = b) /\
  (~ (1 <= a <= 31 /\ 1 <= b <= 12)%N -> dmy_day dmy = b /\ dmy_month dmy = a).

Lemma map_ints_to_dmy_resolved (v0 v1 v2 : date_t) (dmy : DMY) :
  map_ints_to_dmy (v0, v1, v2) = Some dmy ->
  (1 <= dmy_day dmy <= 31)%N /\ (1 <= dmy_month dmy <= 12)%N /\
  (DATE_MIN_YEAR <= dmy_year dmy <= DATE_MAX_YEAR)%N /\
  (day_month v0 v1 ->
   dmy_year dmy = two_to_four_digit_year v2 /\ day_month_of v0 v1 dmy) /\
  (~ day_month v0 v1 ->
   dmy_year dmy = two_to_four_digit_year v0 /\ day_month_of v1 v2 dmy).
Proof.
  rewrite map_ints_to_dmy_stages. unfold not_year_or_part.
  unfold DATE_MIN_YEAR, DATE_MAX_YEAR, two_to_four_digit_year, day_month, day_month_of.
  destruct ((31 <? v1)%N || (v1 =? 0)%N) eqn:Hmiddle; [discriminate |].
  to_prop Hmiddle.
  match goal with |- context [if ?b then None else _] => destruct b eqn:Hpart end;
    [discriminate |].
  to_prop Hpart.
  match goal with |- context [if ?b then None else _] => destruct b eqn:Hcount end;
    [discriminate |].
  clear Hcount. cbn [four_digit_year two_digit_year].
  unfold DATE_MIN_YEAR, DATE_MAX_YEAR, two_to_four_digit_year.
  destruct ((1000 <=? v2)%N && (v2 <=? 2050)%N) eqn:Hy2; to_prop Hy2.
  { destruct (map_ints_to_dm (v0, v1)) as [dm|] eqn:Hdm; [| discriminate].
    intros H. injection H as <-. cbn [dmy_year dmy_month dmy_day].
    dm_result Hdm; (destruct (N.ltb_spec 99 v2); [| lia]); lia. }
  destruct ((1000 <=? v0)%N && (v0 <=? 2050)%N) eqn:Hy0; to_prop Hy0.
  { destruct (map_ints_to_dm (v1, v2)) as [dm|] eqn:Hdm; [| discriminate].
    intros H. injection H as <-. cbn [dmy_year dmy_month dmy_day].
    dm_result Hdm; (destruct (N.ltb_spec 99 v0); [| lia]); lia. }
  destruct (map_ints_to_dm (v0, v1)) as [dm|] eqn:Hdm01.
  { intros H. injection H as <-. cbn [dmy_year dmy_month dmy_day].
    dm_result Hdm01;
      (destruct (N.ltb_spec 99 v2); [lia |]); (destruct (N.ltb_spec 50 v2)); lia. }
  apply map_ints_to_dm_None in Hdm01. unfold day_month in Hdm01.
  destruct (map_ints_to_dm (v1, v2)) as [dm|] eqn:Hdm12; [| discriminate].
  intros H. injection H as <-. cbn [dmy_year dmy_month dmy_day].
  dm_result Hdm12;
    (destruct (N.ltb_spec 99 v0); [lia |]); (destruct (N.ltb_spec 50 v0)); lia.
Qed.

Lemma map_ints_to_dmy_valid_bounds (v : date_t * date_t * date_t) (dmy : DMY) :
  map_ints_to_dmy v = Some dmy ->
  (1 <= dmy_day dmy <= 31)%N /\ (1 <= dmy_month dmy <= 12)%N /\
  (1000 <= dmy_year dmy <= 2050)%N.
Proof.
  destruct v as [[v0 v1] v2]. intros H.
  destruct (map_ints_to_dmy_resolved _ _ _ _ H) as (Hd & Hm & Hy & _).
  unfold DATE_MIN_YEAR, DATE_MAX_YEAR in Hy. auto.
Qed.

(** X1.  A date that [map_ints_to_dmy] resolves is a date: the day is in
    1..31, the month in 1..12 and the year in 1000..2050.  When the first
    two integers are a day and a month (in one order or the other) the year
    is the last integer; otherwise the year is the first integer and the day
    and the month are the last two.  The year is read with
    [two_to_four_digit_year]; of the two integers left the first is the day
    when that is valid, and the month otherwise. *)
Theorem map_ints_to_dmy_valid (v0 v1 v2 : date_t) (dmy : DMY) :
  map_ints_to_dmy (v0, v1, v2) = Some dmy ->
  (1 <= dmy_day dmy <= 31)%N /\ (1 <= dmy_month dmy <= 12)%N /\
  (DATE_MIN_YEAR <= dmy_year dmy <= DATE_MAX_YEAR)%N /\
  (day_month v0 v1 ->
   dmy_year dmy = two_to_four_digit_year v2 /\ day_month_of v0 v1 dmy) /\
  (~ day_month v0 v1 ->
   dmy_year dmy = two_to_four_digit_year v0 /\ day_month_of v1 v2 dmy).
Proof.
  intros H. destruct (map_ints_to_dmy_resolved v0 v1 v2 dmy H) as (Hd & Hm & Hy & Hlast & Hfirst).
  split; [exact Hd |]. split; [exact Hm |]. split; [exact Hy |].
  split; [exact Hlast | exact Hfirst].
Qed.

Lemma map_ints_to_dmy_valid_witness :
  map_ints_to_dmy (11, 9, 1)%N = Some (mkDMY 2001%N 9%N 11%N) /\
  (1 <= 11 <= 31)%N /\ (1 <= 9 <= 12)%N /\ (DATE_MIN_YEAR <= 2001 <= DATE_MAX_YEAR)%N.
Proof.
  split; [reflexivity |].
  destruct (map_ints_to_dmy_valid 11%N 9%N 1%N (mkDMY 2001%N 9%N 11%N) eq_refl)
    as (Hd & Hm & Hy & _).
  exact (conj Hd (conj Hm Hy)).
Defined.

Lemma skipn_cons_nth {A : Type} (l : list A) (n : nat) (a : A) :
  nth_error l n = Some a -> skipn n l = a :: skipn (S n) l.
Proof.
  intros H. rewrite nth_error_skipn in H.
  destruct (skipn n l) as [|b t] eqn:E; [discriminate |].
  injection H as ->. f_equal. symmetry. now apply skipn_S_tail with (a := a).
Qed.

(** The characters that line 664 accepts between the groups of digits. *)
Definition date_separator (c : ascii) : bool :=
  Regex.in_class [Regex.CSpace; Regex.CChar "/"; Regex.CChar "\";
                  Regex.CChar "_"; Regex.CChar "."; Regex.CChar "-"] c.

(** What [maybe_date_with_separator] matches, and its groups. *)
Lemma maybe_date_with_separator_shape (tok : str) :
  found (Regex.regex_match maybe_date_with_separator tok) = true ->
  exists (d1 d3 d4 : str) (s : ascii),
    tok = d1 ++ [s] ++ d3 ++ [s] ++ d4 /\
    date_separator s = true /\
    all_digits d1 /\ 1 <= length d1 <= 4 /\
    all_digits d3 /\ 1 <= length d3 <= 2 /\
    all_digits d4 /\ 1 <= length d4 <= 4 /\
    Regex.sub_str tok (Regex.regex_match maybe_date_with_separator tok) 1 = d1 /\
    Regex.sub_str tok (Regex.regex_match maybe_date_with_separator tok) 2 = [s] /\
    Regex.sub_str tok (Regex.regex_match maybe_date_with_separator tok) 3 = d3 /\
    Regex.sub_str tok (Regex.regex_match maybe_date_with_separator tok) 4 = d4.
Proof.
  intros Hfound. unfold Regex.regex_match in *.
  destruct (List.find _ _) as [y|] eqn:Hfind; [| discriminate]. clear Hfound.
  apply find_first_In in Hfind. destruct Hfind as [Hy _].
  unfold maybe_date_with_separator, Regex.rseq in Hy.
  cbn [Regex.compile Regex.endIndex Nat.eqb flat_map] in Hy.
  rewrite app_nil_r in Hy.
  apply in_flat_map in Hy. destruct Hy as (z1 & Hz1 & Hy).
  apply in_flat_map in Hy. destruct Hy as (z2 & Hz2 & Hy).
  apply in_flat_map in Hy. destruct Hy as (z3 & Hz3 & Hy).
  apply in_flat_map in Hy. destruct Hy as (z4 & Hz4 & Hy).
  apply in_flat_map in Hy. destruct Hy as (z5 & Hz5 & Hy).
  change (In z1 (Regex.compile tok
            (Regex.RGroup 1 (Regex.RQuant Regex.rdigit 1 (Some 4) true))
            (Regex.mkState 0 []))) in Hz1.
  change (In z3 (Regex.compile tok
            (Regex.RGroup 3 (Regex.RQuant Regex.rdigit 1 (Some 2) true)) z2)) in Hz3.
  change (In z5 (Regex.compile tok
            (Regex.RGroup 4 (Regex.RQuant Regex.rdigit 1 (Some 4) true)) z4)) in Hz5.
  apply digits_group in Hz1; [| lia]. destruct Hz1 as (k1 & Hk1 & Hr1 & ->).
  cbn [Regex.endIndex Regex.captures skipn] in *.
  apply in_map_iff in Hz2. destruct Hz2 as (w2 & <- & Hw2).
  unfold Regex.char_matcher in Hw2. cbn [Regex.endIndex Regex.captures] in Hw2.
  destruct (nth_error tok (0 + k1)) as [ch|] eqn:Hch; [| destruct Hw2].
  destruct (Regex.in_class _ ch) eqn:Hsep; [| destruct Hw2]. destruct Hw2 as [<- | []].
  cbn [Regex.endIndex Regex.captures] in *.
  apply digits_group in Hz3; [| lia]. destruct Hz3 as (k3 & Hk3 & Hr3 & ->).
  cbn [Regex.endIndex Regex.captures] in *.
  unfold Regex.backref_matcher in Hz4. cbn [Regex.captures Regex.capture Nat.eqb] in Hz4.
  destruct (_ && _) eqn:Hback; [| destruct Hz4]. destruct Hz4 as [<- | []].
  cbn [Regex.endIndex Regex.captures] in *.
  apply digits_group in Hz5; [| lia]. destruct Hz5 as (k4 & Hk4 & Hr4 & ->).
  destruct (_ =? _) eqn:Hend; [| destruct Hy]. destruct Hy as [<- | []].
  apply Nat.eqb_eq in Hend. apply andb_true_iff in Hback.
  destruct Hback as [Hle Hsame]. apply Nat.leb_le in Hle. apply str_eqb_eq in Hsame.
  cbn [Regex.endIndex Regex.captures Nat.add] in *.
  replace (S k1 - k1) with 1 in * by lia.
  unfold Regex.sub_str, Regex.sub, Regex.results.
  change (Regex.mark_count maybe_date_with_separator) with 4.
  cbn [Regex.captures Regex.endIndex seq map Regex.capture Nat.eqb nth].
  assert (Hs1 : skipn k1 tok = ch :: skipn (S k1) tok) by now apply skipn_cons_nth.
  assert (Hs2 : skipn (S (k1 + k3)) tok = ch :: skipn (S (k1 + k3 + 1)) tok).
  { unfold Regex.slice in Hsame. rewrite Hs1 in Hsame.
    replace (S k1 - k1) with 1 in Hsame by lia.
    replace (S (k1 + k3 + 1) - S (k1 + k3)) with 1 in Hsame by lia.
    cbn [firstn] in Hsame.
    destruct (skipn (S (k1 + k3)) tok) as [|c t] eqn:E.
    - apply (f_equal (@length ascii)) in E. rewrite length_skipn in E. simpl in E. lia.
    - cbn [firstn] in Hsame. injection Hsame as <-. f_equal.
      replace (k1 + k3 + 1) with (S (k1 + k3)) by lia.
      symmetry. now apply skipn_S_tail with (a := ch). }
  destruct (run_digits tok k1 Hr1) as [Hd1 Hl1].
  destruct (run_digits _ k3 Hr3) as [Hd3 Hl3].
  destruct (run_digits _ k4 Hr4) as [Hd4 Hl4].
  assert (Hl4' : length (skipn (S (k1 + k3 + 1)) tok) = k4)
    by (rewrite length_skipn; lia).
  assert (H4 : firstn k4 (skipn (S (k1 + k3 + 1)) tok) = skipn (S (k1 + k3 + 1)) tok)
    by (rewrite <- Hl4' at 1; apply firstn_all).
  exists (firstn k1 tok), (firstn k3 (skipn (S k1) tok)),
         (skipn (S (k1 + k3 + 1)) tok), ch.
  rewrite H4 in Hd4.
  split; [| split; [exact Hsep |]].
  { rewrite <- (firstn_skipn k1 tok) at 1. f_equal. rewrite Hs1. cbn [app]. f_equal.
    rewrite <- (firstn_skipn k3 (skipn (S k1) tok)) at 1. f_equal.
    rewrite skipn_skipn. replace (k3 + S k1) with (S (k1 + k3)) by lia. exact Hs2. }
  repeat (split; [first [assumption | lia] |]).
  unfold Regex.slice. rewrite Nat.sub_0_r. cbn [skipn].
  split; [reflexivity |]. split.
  { rewrite Hs1. replace (S k1 - k1) with 1 by lia. reflexivity. }
  split.
  { f_equal. lia. }
  replace (S (k1 + k3 + 1 + k4) - S (k1 + k3 + 1)) with k4 by lia. exact H4.
Qed.

(** [stou] on up to eight digits: their value, which fits [unsigned]. *)
Lemma stou_digits (s : str) :
  s <> [] -> all_digits s -> length s <= 8 -> stou s = Ok (parse_digits s 0).
Proof.
  intros Hne Hd Hlen. unfold stou. destruct s as [|c s]; [congruence |].
  inversion Hd as [|? ? Hc _]; subst. rewrite Hc.
  pose proof (parse_digits_bound (c :: s) 0) as Hb.
  assert (Hpow : (10 ^ N.of_nat (length (c :: s)) <= 10 ^ 8)%N)
    by (apply N.pow_le_mono_r; lia).
  change (10 ^ 8)%N with 100000000%N in Hpow.
  destruct (N.ltb_spec ULONG_MAX (parse_digits (c :: s) 0)) as [Hgt | _].
  - unfold ULONG_MAX in Hgt. lia.
  - f_equal. apply N.mod_small. unfold UINT_MODULUS. lia.
Qed.

(** The candidates of a token of digits: the dates that the splits of
    [DATE_SPLITS] for its length resolve to. *)
Lemma date_candidates_In (tok : str) (cs : list DMY) (c : DMY) :
  4 <= length tok <= 8 -> all_digits tok ->
  date_candidates tok = Ok cs -> In c cs ->
  exists splits k l,
    nth_error DATE_SPLITS (length tok - 4) = Some splits /\ In (k, l) splits /\
    0 < k < l /\ l < length tok /\
    map_ints_to_dmy (parse_digits (firstn k tok) 0,
                     parse_digits (firstn (l - k) (skipn k tok)) 0,
                     parse_digits (skipn l tok) 0) = Some c.
Proof.
  intros Hlen Hd Hcs Hc. unfold date_candidates in Hcs.
  destruct (DATE_SPLITS_defined _ Hlen) as [splits Hsplits]. rewrite Hsplits in Hcs.
  apply (for_each_In _ _ Hcs) in Hc. destruct Hc as ([k l] & ys & Hin & Hbody & Hc).
  cbn [fst snd] in Hbody.
  destruct (DATE_SPLITS_inside _ _ _ _ Hlen Hsplits Hin) as [Hkl Hl].
  unfold substr_from in Hbody. rewrite !substr_Ok in Hbody by lia.
  cbn [bind skipn] in Hbody.
  destruct (Nat.ltb_spec (length tok) l) as [|_]; [lia |]. cbn [bind] in Hbody.
  rewrite (stou_digits (firstn k tok)) in Hbody;
    [| apply not_nil_length; rewrite length_firstn; lia
     | now apply all_digits_firstn | rewrite length_firstn; lia].
  rewrite (stou_digits (firstn (l - k) (skipn k tok))) in Hbody;
    [| apply not_nil_length; rewrite length_firstn, length_skipn; lia
     | now apply all_digits_firstn, all_digits_skipn
     | rewrite length_firstn, length_skipn; lia].
  rewrite (stou_digits (skipn l tok)) in Hbody;
    [| apply not_nil_length; rewrite length_skipn; lia
     | now apply all_digits_skipn | rewrite length_skipn; lia].
  cbn [bind] in Hbody.
  exists splits, k, l. repeat (split; [first [assumption | lia] |]).
  destruct (map_ints_to_dmy _) as [dmy|]; injection Hbody as <-; [| destruct Hc].
  destruct Hc as [<- | []]. reflexivity.
Qed.

Lemma min_element_In {A : Type} (comp : A -> A -> bool) (first : A) (rest : list A) :
  In (min_element comp first rest) (first :: rest).
Proof.
  unfold min_element. revert first. induction rest as [|a rest IH]; intros first.
  - now left.
  - cbn [fold_left]. destruct (comp a first).
    + right. apply IH.
    + destruct (IH first) as [H | H]; [left; exact H | right; now right].
Qed.

Section DateReports.

Context {guesses_t : Type} {sorter : @StdSort guesses_t} {env : @Environment guesses_t}.

(** [tok] is four to eight digits, and one of the splits of [DATE_SPLITS]
    for its length resolves to [dmy]. *)
Definition date_of_digits (tok : str) (dmy : DMY) : Prop :=
  4 <= length tok <= 8 /\ all_digits tok /\
  exists splits k l,
    nth_error DATE_SPLITS (length tok - 4) = Some splits /\ In (k, l) splits /\
    map_ints_to_dmy (parse_digits (firstn k tok) 0,
                     parse_digits (firstn (l - k) (skipn k tok)) 0,
                     parse_digits (skipn l tok) 0) = Some dmy.

(** [tok] is three groups of digits with the separator [s] between them,
    and the values of the groups resolve to [dmy]. *)
Definition date_of_groups (tok : str) (s : ascii) (dmy : DMY) : Prop :=
  exists d1 d3 d4 : str,
    tok = d1 ++ [s] ++ d3 ++ [s] ++ d4 /\ date_separator s = true /\
    all_digits d1 /\ 1 <= length d1 <= 4 /\
    all_digits d3 /\ 1 <= length d3 <= 2 /\
    all_digits d4 /\ 1 <= length d4 <= 4 /\
    map_ints_to_dmy (parse_digits d1 0, parse_digits d3 0, parse_digits d4 0) = Some dmy.

Definition date_pattern (sep : str) (dmy : DMY) : @Pattern guesses_t :=
  PDate (mkDateMatch sep (dmy_year dmy) (dmy_month dmy) (dmy_day dmy) false).

Lemma date_without_separator_sound (password : str) (without : list Match) (m : Match) :
  date_without_separator password = Ok without -> In m without ->
  exists dmy, pattern m = date_pattern [] dmy /\ date_of_digits (token m) dmy.
Proof.
  intros Hwithout Hm. apply (date_without_separator_In _ _ Hwithout) in Hm.
  destruct Hm as (i0 & j0 & first & rest & Hij & Hj & Hd & Hcs & ->).
  set (tok := firstn (j0 - i0 + 1) (skipn i0 password)) in *.
  assert (Hlen : 4 <= length tok <= 8)
    by (unfold tok; rewrite length_firstn, length_skipn; lia).
  destruct (date_candidates_In tok _ _ Hlen Hd Hcs
              (min_element_In (fun a b => (metric a <? metric b)%N) first rest))
    as (splits & k & l & Hsplits & Hin & _ & _ & Hdmy).
  eexists. split; [reflexivity |]. cbn [token best_match].
  split; [assumption |]. split; [assumption |]. exists splits, k, l. auto.
Qed.

Lemma date_with_separator_sound (password : str) (with_ : list (@Match guesses_t))
      (m : Match) :
  date_with_separator password = Ok with_ -> In m with_ ->
  exists s dmy,
    pattern m = date_pattern [s] dmy /\ date_of_groups (token m) s dmy /\
    6 <= length (token m) <= 10.
Proof.
  intros Hwith Hm. unfold date_with_separator in Hwith.
  apply (for_each_In _ _ Hwith) in Hm. destruct Hm as (i0 & ys & Hi & Hrow & Hm).
  apply (for_each_In _ _ Hrow) in Hm. destruct Hm as (j0 & ys' & Hj & Hbody & Hm).
  apply in_seq in Hi. apply until_end_In in Hj.
  rewrite substr_Ok in Hbody by lia. cbn [bind] in Hbody.
  set (tok := firstn (j0 - i0 + 1) (skipn i0 password)) in *.
  assert (Hlen : length tok = j0 - i0 + 1)
    by (unfold tok; rewrite length_firstn, length_skipn; lia).
  destruct (found _) eqn:Hfound; cbn [negb] in Hbody;
    [| injection Hbody as <-; destruct Hm].
  destruct (maybe_date_with_separator_shape tok Hfound)
    as (d1 & d3 & d4 & s & Htok & Hs & Hd1 & Hl1 & Hd3 & Hl3 & Hd4 & Hl4
        & E1 & E2 & E3 & E4).
  rewrite E1, E2, E3, E4 in Hbody.
  rewrite (stou_digits d1), (stou_digits d3), (stou_digits d4) in Hbody;
    try assumption; try lia; try (apply not_nil_length; lia).
  cbn [bind] in Hbody.
  destruct (map_ints_to_dmy _) as [dmy|] eqn:Hdmy; injection Hbody as <-; [| destruct Hm].
  destruct Hm as [<- | []]. exists s, dmy. cbn [pattern token].
  split; [reflexivity |]. split; [| lia].
  exists d1, d3, d4. repeat (split; [first [assumption | lia] |]). assumption.
Qed.

(** X2.  Every match that [date_match] returns reports a date that the
    integers written in its token resolve to: the token is four to eight
    digits, cut as one of the splits of [DATE_SPLITS] for its length, and the
    separator is empty; or the token is one to four digits, a separator, one
    or two digits, the same separator and one to four digits, six to ten
    characters in all, and the separator is reported.  The day is in 1..31,
    the month in 1..12 and the year in 1000..2050. *)
Theorem date_match_reports_dates (password : str) :
  exists matches,
    date_match password = Ok matches /\
    Forall (fun m =>
              exists dmy,
                ((pattern m = date_pattern [] dmy /\ date_of_digits (token m) dmy) \/
                 (exists s, pattern m = date_pattern [s] dmy /\
                            date_of_groups (token m) s dmy /\
                            6 <= length (token m) <= 10)) /\
                (1 <= dmy_day dmy <= 31)%N /\ (1 <= dmy_month dmy <= 12)%N /\
                (1000 <= dmy_year dmy <= 2050)%N)
           matches.
Proof.
  destruct (date_match_spec password) as (ms & Hms & _).
  exists ms. split; [assumption |].
  apply date_match_filter in Hms. destruct Hms as (without & with_ & Hwithout & Hwith & ->).
  apply sorted_Forall. apply Forall_forall. intros m Hm.
  apply filter_In in Hm. destruct Hm as [Hm _]. apply in_app_or in Hm.
  destruct Hm as [Hm | Hm].
  - destruct (date_without_separator_sound _ _ _ Hwithout Hm) as (dmy & Hp & Hdate).
    exists dmy. split; [left; auto |].
    destruct Hdate as (_ & _ & splits & k & l & _ & _ & Hdmy).
    apply map_ints_to_dmy_valid_bounds in Hdmy. exact Hdmy.
  - destruct (date_with_separator_sound _ _ _ Hwith Hm) as (s & dmy & Hp & Hdate & Hlen).
    exists dmy. split; [right; eauto |].
    destruct Hdate as (d1 & d3 & d4 & _ & _ & _ & _ & _ & _ & _ & _ & Hdmy).
    apply map_ints_to_dmy_valid_bounds in Hdmy. exact Hdmy.
Qed.

End DateReports.

(* ------------------------------------------------------------------------- *)
(** * More on the spatial matcher: chains of neighbouring keys *)

(** The key at [b] stands in one of the neighbours that the graph lists for
    the key at [a]. *)
Definition key_adjacent (graph : Graph) (password : str) (a b : nat) : Prop :=
  exists (p c : ascii) (adjacents : list (option str)) (adj : str),
    nth_error password a = Some p /\ nth_error password b = Some c /\
    map_find graph [p] = Some adjacents /\ In (Some adj) adjacents /\
    find adj [c] <> None.

Lemma find_adjacent_Some (adjacents : list (option str)) (cur_char : str) :
  forall (d d' : Z) (at_ : nat),
  find_adjacent adjacents cur_char d = Some (d', at_) ->
  (d < d')%Z /\ exists adj, In (Some adj) adjacents /\ find adj cur_char = Some at_.
Proof.
  induction adjacents as [|adj adjacents IH]; intros d d' at_ H; [discriminate |].
  cbn [find_adjacent] in H. destruct adj as [a|].
  - destruct (find a cur_char) as [n|] eqn:Hfind.
    + injection H as <- <-. split; [lia |]. exists a. split; [now left | assumption].
    + apply IH in H. destruct H as [Hd (adj & Hin & Hadj)].
      split; [lia |]. exists adj. split; [now right | assumption].
  - apply IH in H. destruct H as [Hd (adj & Hin & Hadj)].
    split; [lia |]. exists adj. split; [now right | assumption].
Qed.

Lemma find_adjacent_None (adjacents : list (option str)) (cur_char : str) :
  forall d : Z,
  find_adjacent adjacents cur_char d = None ->
  forall adj, In (Some adj) adjacents -> find adj cur_char = None.
Proof.
  induction adjacents as [|a adjacents IH]; intros d H adj Hin; [destruct Hin |].
  cbn [find_adjacent] in H. destruct a as [a|].
  - destruct (find a cur_char) as [n|] eqn:Hfind; [discriminate |].
    destruct Hin as [E | Hin]; [injection E as <-; assumption | eauto].
  - destruct Hin as [E | Hin]; [discriminate | eauto].
Qed.

Lemma substr_char (s : str) (k : nat) :
  k < length s -> exists c, nth_error s k = Some c /\ substr s k 1 = Ok [c].
Proof.
  intros Hk. rewrite substr_Ok by lia.
  destruct (nth_error s k) as [c|] eqn:Hc.
  - exists c. split; [reflexivity |]. rewrite nth_error_skipn in Hc.
    destruct (skipn k s) as [|c' t]; [discriminate |]. injection Hc as ->. reflexivity.
  - apply nth_error_None in Hc. lia.
Qed.

(** The loop of lines 395-451 stops at the first key that is not a
    neighbour of the key before it. *)
Lemma spatial_grow_chain (password : str) (graph : Graph) :
  forall fuel j0 last_direction turns shifted_count j' turns' shifted_count',
  1 <= j0 <= length password ->
  spatial_grow fuel password graph j0 last_direction turns shifted_count
  = Ok (j', turns', shifted_count') ->
  j0 <= j' <= length password /\
  (forall k, j0 <= k < j' -> key_adjacent graph password (k - 1) k) /\
  ~ key_adjacent graph password (j' - 1) j' /\
  turns <= turns' <= turns + (j' - j0) /\
  shifted_count <= shifted_count' <= shifted_count + (j' - j0) /\
  (j0 < j' -> (last_direction < 0)%Z -> turns < turns').
Proof.
  induction fuel as [|fuel IH]; intros j0 ld t s j' t' s' Hj H; [discriminate |].
  cbn [spatial_grow] in H.
  destruct (substr_char password (j0 - 1)) as (p & Hp & Hsub); [lia |].
  rewrite Hsub in H. clear Hsub. cbn [bind] in H.
  destruct (Nat.ltb_spec j0 (length password)) as [Hlt | Hge].
  - destruct (substr_char password j0 Hlt) as (c & Hc & Hsub).
    rewrite Hsub in H. clear Hsub. cbn [bind] in H.
    destruct (find_adjacent _ [c] (-1)) as [[d at_]|] eqn:Hfound.
    + apply find_adjacent_Some in Hfound. destruct Hfound as [Hd (adj & Hin & Hadj)].
      assert (Hlink : key_adjacent graph password (j0 - 1) j0).
      { destruct (map_find graph [p]) as [adjacents|] eqn:Hgraph; [| destruct Hin].
        exists p, c, adjacents, adj. repeat (split; [assumption |]). congruence. }
      assert (Hnext : 1 <= j0 + 1 <= length password) by lia.
      destruct (Z.eqb_spec ld d) as [-> | Hturn];
        apply IH in H; try assumption;
        destruct H as (Hj' & Hchain & Hstop & Ht & Hs & _);
        (split; [lia |]);
        (split; [intros k Hk; destruct (Nat.eq_dec k j0) as [-> | Hne];
                 [assumption | apply Hchain; lia] |]);
        (split; [assumption |]);
        destruct (at_ =? 1); repeat split; try lia.
    + injection H as <- <- <-.
      split; [lia |]. split; [intros k Hk; lia |]. split; [| lia].
      intros (p' & c' & adjacents & adj & Hp' & Hc' & Hgraph & Hin & Hadj).
      assert (p' = p) by congruence. assert (c' = c) by congruence. subst p' c'.
      rewrite Hgraph in Hfound. apply Hadj.
      exact (find_adjacent_None _ _ _ Hfound adj Hin).
  - cbn [bind] in H. injection H as <- <- <-.
    split; [lia |]. split; [intros k Hk; lia |]. split; [| lia].
    intros (p' & c' & _ & _ & _ & Hc' & _).
    assert (Hnone : nth_error password j0 = None) by (apply nth_error_None; lia).
    congruence.
Qed.

Section SpatialChains.

Context {guesses_t : Type}.

(** What [spatial_match_helper] reports about a match: a chain of three
    keys or more, each a neighbour of the one before it, that the next key
    of the password does not continue. *)
Definition spatial_chain (password : str) (graph : Graph) (graph_tag : GraphTag)
           (m : @Match guesses_t) : Prop :=
  i m + 2 <= j m /\ j m < length password /\
  token m = firstn (j m - i m + 1) (skipn (i m) password) /\
  (exists turns shifted_count,
      pattern m = PSpatial (mkSpatialMatch graph_tag turns shifted_count) /\
      1 <= turns <= j m - i m /\ shifted_count <= j m - i m + 1) /\
  (forall k, i m < k <= j m -> key_adjacent graph password (k - 1) k) /\
  ~ key_adjacent graph password (j m) (j m + 1).

Lemma spatial_scan_chains (password : str) (graph : Graph) (graph_tag : GraphTag) :
  forall fuel i0 ms,
  spatial_scan fuel password graph graph_tag i0 = Ok ms ->
  Forall (fun m => i0 <= i m /\ spatial_chain password graph graph_tag m) ms /\
  StronglySorted (fun m1 m2 : @Match guesses_t => j m1 < i m2) ms.
Proof.
  induction fuel as [|fuel IH]; intros i0 ms H; [discriminate |].
  cbn [spatial_scan] in H.
  destruct (Nat.ltb_spec i0 (length password - 1)) as [Hlt | Hge];
    [| injection H as <-; split; constructor].
  apply bind_Ok in H. destruct H as (s0 & Hs0 & H).
  assert (Hshift : s0 <= 1).
  { destruct graph_tag; try (injection Hs0 as <-; lia);
      inv_bind Hs0; injection Hs0 as <-; destruct (_ =? 0); lia. }
  clear Hs0. apply bind_Ok in H.
  destruct H as ([[j' turns] shifted_count] & Hgrow & H).
  apply spatial_grow_chain in Hgrow; [| lia].
  destruct Hgrow as (Hj' & Hchain & Hstop & Ht & Hs & Hturn).
  apply bind_Ok in H. destruct H as (pushed & Hpushed & H).
  apply bind_Ok in H. destruct H as (rest & Hscan & H). injection H as <-.
  apply IH in Hscan. destruct Hscan as [Hrest Hsorted].
  assert (Hrest' : Forall (fun m : @Match guesses_t =>
                             i0 <= i m /\ spatial_chain password graph graph_tag m) rest).
  { eapply Forall_impl; [| exact Hrest]. intros m [Hi Hm]. split; [lia | assumption]. }
  destruct (Nat.ltb_spec 2 (j' - i0)) as [Hlong | Hshort].
  - rewrite substr_Ok in Hpushed by lia. cbn [bind] in Hpushed. injection Hpushed as <-.
    cbn [app]. split.
    + constructor; [| assumption]. split; [cbn [i]; lia |].
      unfold spatial_chain. cbn [i j token pattern].
      split; [lia |]. split; [lia |].
      split; [f_equal; lia |].
      split; [exists turns, shifted_count; split; [reflexivity |];
              specialize (Hturn ltac:(lia) ltac:(lia)); lia |].
      split; [intros k Hk; apply Hchain; lia |].
      replace (j' - 1 + 1) with j' by lia. assumption.
    + constructor; [assumption |].
      eapply Forall_impl; [| exact Hrest]. intros m [Hi _]. cbn [j]. lia.
  - injection Hpushed as <-. cbn [app]. split; assumption.
Qed.

(** X3.  For every keyboard graph, [spatial_match_helper] returns matches
    of three characters or more in which every key is a neighbour, in the
    graph, of the key before it, and which the next character of the
    password does not continue; it counts one turn at least and fewer turns
    than the token has keys, and no more shifted keys than the token has
    keys; the matches of one graph do not overlap and are in the order of
    their positions.  [spatial_match] returns such matches for the graphs
    it is given. *)
Theorem spatial_match_chains (password : str) (graphs : Graphs) :
  (forall (graph : Graph) (graph_tag : GraphTag),
     exists matches : list (@Match guesses_t),
       spatial_match_helper password graph graph_tag = Ok matches /\
       Forall (spatial_chain password graph graph_tag) matches /\
       StronglySorted (fun m1 m2 => j m1 < i m2) matches) /\
  (exists matches : list (@Match guesses_t),
     spatial_match password graphs = Ok matches /\
     Forall (fun m => exists item,
                 In item graphs /\ spatial_chain password (snd item) (fst item) m)
            matches).
Proof.
  assert (Hhelper : forall graph graph_tag (matches : list (@Match guesses_t)),
             spatial_match_helper password graph graph_tag = Ok matches ->
             Forall (spatial_chain password graph graph_tag) matches /\
             StronglySorted (fun m1 m2 => j m1 < i m2) matches).
  { intros graph graph_tag matches H. unfold spatial_match_helper in H.
    destruct (length password =? 0); [injection H as <-; split; constructor |].
    apply spatial_scan_chains in H. destruct H as [Hall Hsorted].
    split; [| assumption]. eapply Forall_impl; [| exact Hall]. now intros m [_ Hm]. }
  split.
  - intros graph graph_tag.
    destruct (spatial_match_spec (guesses_t := guesses_t) password [(graph_tag, graph)])
      as (ms & Hms & _).
    unfold spatial_match in Hms. cbn [for_each fst snd] in Hms.
    destruct (spatial_match_helper password graph graph_tag) as [matches|e] eqn:H;
      [| discriminate].
    exists matches. split; [reflexivity |]. now apply Hhelper.
  - destruct (spatial_match_spec (guesses_t := guesses_t) password graphs)
      as (ms & Hms & _).
    exists ms. split; [assumption |]. unfold spatial_match in Hms.
    apply Forall_forall. intros m Hm. apply (for_each_In _ _ Hms) in Hm.
    destruct Hm as (item & ys & Hitem & Hys & Hm). exists item. split; [assumption |].
    apply Hhelper in Hys. destruct Hys as [Hall _].
    rewrite Forall_forall in Hall. now apply Hall.
Qed.

End SpatialChains.

(* ------------------------------------------------------------------------- *)
(** * More on the sequence matcher: runs of one difference *)

(** [^[...]+$]: a string, not empty, of characters of the class. *)
Definition anchored_class (items : list Regex.class_item) : Regex.regex :=
  Regex.rseq [Regex.RBol; Regex.rplus (Regex.RClass items) true; Regex.REol].

Lemma anchored_class_compile (items : list Regex.class_item) (tok : str) (p : nat) :
  Regex.compile tok (anchored_class items) (Regex.mkState p []) =
  if p =? 0
  then flat_map (at_end tok)
                (map (at_ (Regex.mkState 0 []))
                     (countdown 1 (run (Regex.in_class items) tok)))
  else [].
Proof.
  unfold anchored_class, Regex.rseq, Regex.rplus.
  cbn [Regex.compile Regex.groups_of Regex.endIndex].
  destruct (Nat.eqb_spec p 0) as [-> | _]; [| reflexivity].
  cbn [flat_map]. rewrite app_nil_r.
  pose proof (run_le (Regex.in_class items) tok) as Hrun.
  rewrite repeat_char by (simpl; lia). cbn [Regex.endIndex skipn upper].
  replace (run (Regex.in_class items) tok + 1 - 1) with (run (Regex.in_class items) tok)
    by lia.
  reflexivity.
Qed.

Lemma run_length (p : ascii -> bool) (s : str) :
  run p s = length s <-> Forall (fun c => p c = true) s.
Proof.
  induction s as [|c s IH]; simpl.
  - split; [constructor | reflexivity].
  - destruct (p c) eqn:Hc.
    + split.
      * intros H. constructor; [assumption |]. apply IH. lia.
      * intros H. inversion H; subst. f_equal. now apply IH.
    + split; [discriminate |]. intros H. inversion H; subst. congruence.
Qed.

Lemma anchored_class_found (items : list Regex.class_item) (tok : str) :
  found (Regex.regex_search (anchored_class items) tok) = true <->
  tok <> [] /\ Forall (fun c => Regex.in_class items c = true) tok.
Proof.
  pose proof (run_le (Regex.in_class items) tok) as Hrun.
  unfold found, Regex.regex_search, Regex.size. split.
  - intros H.
    destruct (search_from_inv (anchored_class items) tok (seq 0 (S (length tok))))
      as [E | (p & y & ys & _ & Hc & _)]; [rewrite E in H; discriminate |].
    rewrite anchored_class_compile in Hc.
    destruct (p =? 0); [| discriminate].
    assert (Hy : In y (y :: ys)) by now left. rewrite <- Hc in Hy.
    apply in_flat_map in Hy. destruct Hy as (z & Hz & Hy).
    apply in_map_iff in Hz. destruct Hz as (k & <- & Hk). apply countdown_In in Hk.
    unfold at_end, at_ in Hy. cbn [Regex.endIndex] in Hy.
    destruct (Nat.eqb_spec (0 + k) (length tok)) as [E |]; [| destruct Hy].
    simpl in E. subst k. split.
    + intros ->. simpl in Hk. lia.
    + apply run_length. lia.
  - intros [Hne Hall]. apply run_length in Hall.
    assert (Hlen : 0 < length tok) by (destruct tok; simpl; [congruence | lia]).
    destruct (Regex.search_from _ _ _) eqn:E; [exfalso | reflexivity].
    revert E. apply search_from_found with (p := 0); [apply in_seq; lia |].
    rewrite anchored_class_compile. cbn [Nat.eqb]. rewrite Hall.
    intros E. rewrite flat_map_nil in E.
    specialize (E (at_ (Regex.mkState 0 []) (length tok))).
    unfold at_end, at_ in E. cbn [Regex.endIndex] in E.
    rewrite Nat.eqb_refl in E. simpl in E.
    assert (Hin : In (at_ (Regex.mkState 0 []) (length tok))
                     (map (at_ (Regex.mkState 0 [])) (countdown 1 (length tok)))).
    { apply in_map. apply countdown_In. lia. }
    specialize (E Hin). discriminate.
Qed.

(** [password[k] - password[k - 1]], line 583. *)
Definition delta_at (password : str) (k : nat) : option Z :=
  match k with
  | O => None
  | S k' =>
      match nth_error password k, nth_error password k' with
      | Some c, Some c_prev => Some (char_val c - char_val c_prev)%Z
      | _, _ => None
      end
  end.

Definition lower_case (c : ascii) : bool := Regex.in_class [Regex.CRange "a" "z"] c.
Definition upper_case (c : ascii) : bool := Regex.in_class [Regex.CRange "A" "Z"] c.
Definition digit (c : ascii) : bool := Regex.in_class [Regex.CDigit] c.

Section SequenceRuns.

Context {guesses_t : Type}.

(** What [sequence_match] reports about a match: the characters at
    [i .. j] go up or down by the same step [delta] from one to the next,
    and the characters before and after them do not go on in this way. *)
Definition sequence_run (password : str) (m : @Match guesses_t) : Prop :=
  exists (delta : Z) (s : SequenceMatch),
    i m < j m /\ j m < length password /\
    token m = firstn (j m - i m + 1) (skipn (i m) password) /\
    (forall k, i m < k <= j m -> delta_at password k = Some delta) /\
    delta_at password (j m + 1) <> Some delta /\
    (i m = 0 \/ delta_at password (i m) <> Some delta) /\
    (0 < Z.abs delta <= MAX_DELTA)%Z /\
    (2 <= j m - i m \/ Z.abs delta = 1%Z) /\
    pattern m = PSequence s /\
    ascending s = (0 <? delta)%Z /\
    (sequence_tag s = LOWER <-> Forall (fun c => lower_case c = true) (token m)) /\
    (sequence_tag s = UPPER <-> Forall (fun c => upper_case c = true) (token m)) /\
    (sequence_tag s = DIGITS <-> Forall (fun c => digit c = true) (token m)) /\
    (sequence_tag s = DIGITS -> sequence_space s = 10) /\
    (sequence_tag s <> DIGITS -> sequence_space s = 26).

Lemma classes_apart (c : ascii) :
  (lower_case c = true -> upper_case c = false /\ digit c = false) /\
  (upper_case c = true -> digit c = false).
Proof.
  unfold lower_case, upper_case, digit, Regex.in_class, Regex.in_item, Regex.is_digit.
  cbn [existsb].
  change (nat_of_ascii "a") with 97. change (nat_of_ascii "z") with 122.
  change (nat_of_ascii "A") with 65. change (nat_of_ascii "Z") with 90.
  rewrite !orb_false_r.
  destruct (Nat.leb_spec 97 (nat_of_ascii c)), (Nat.leb_spec (nat_of_ascii c) 122),
    (Nat.leb_spec 65 (nat_of_ascii c)), (Nat.leb_spec (nat_of_ascii c) 90),
    (Nat.leb_spec 48 (nat_of_ascii c)), (Nat.leb_spec (nat_of_ascii c) 57);
    cbn [andb]; split; intros; try discriminate; try lia; auto.
Qed.

Lemma Forall_apart (p q : ascii -> bool) (tok : str) :
  tok <> [] -> (forall c, p c = true -> q c = false) ->
  Forall (fun c => p c = true) tok -> ~ Forall (fun c => q c = true) tok.
Proof.
  intros Hne Hpq Hp Hq. destruct tok as [|c tok]; [congruence |].
  inversion Hp; subst. inversion Hq; subst.
  match goal with H : p c = true |- _ => apply Hpq in H end. congruence.
Qed.

(** The lambda [update], lines 548-576, on a run of one difference. *)
Lemma update_run (password : str) (i0 j0 : nat) (delta : Z) (ms : list (@Match guesses_t)) :
  i0 < j0 < length password ->
  (forall k, i0 < k <= j0 -> delta_at password k = Some delta) ->
  delta_at password (j0 + 1) <> Some delta ->
  (i0 = 0 \/ delta_at password i0 <> Some delta) ->
  update password i0 j0 delta = Ok ms ->
  Forall (fun m => sequence_run password m /\ i m = i0 /\ j m = j0) ms.
Proof.
  intros Hij Hrun Hstop Hstart H. unfold update in H.
  destruct (_ || _) eqn:Hlong; [| injection H as <-; constructor].
  destruct (_ && _) eqn:Hstep; [| injection H as <-; constructor].
  rewrite substr_Ok in H by lia. cbn [bind] in H.
  set (tok := firstn (j0 - i0 + 1) (skipn i0 password)) in *.
  assert (Hne : tok <> []).
  { apply not_nil_length. unfold tok. rewrite length_firstn, length_skipn. lia. }
  apply orb_true_iff in Hlong. rewrite Nat.ltb_lt, Z.eqb_eq in Hlong.
  apply andb_true_iff in Hstep. rewrite Z.ltb_lt, Z.leb_le in Hstep.
  pose proof (anchored_class_found [Regex.CRange "a" "z"] tok) as Hlower.
  pose proof (anchored_class_found [Regex.CRange "A" "Z"] tok) as Hupper.
  pose proof (anchored_class_found [Regex.CDigit] tok) as Hdigits.
  change (anchored_class [Regex.CRange "a" "z"]) with lower_rx in Hlower.
  change (anchored_class [Regex.CRange "A" "Z"]) with upper_rx in Hupper.
  change (anchored_class [Regex.CDigit]) with digits_rx in Hdigits.
  assert (Hl : found (Regex.regex_search lower_rx tok) = true
               <-> Forall (fun c => lower_case c = true) tok)
    by (rewrite Hlower; unfold lower_case; tauto).
  assert (Hu : found (Regex.regex_search upper_rx tok) = true
               <-> Forall (fun c => upper_case c = true) tok)
    by (rewrite Hupper; unfold upper_case; tauto).
  assert (Hd : found (Regex.regex_search digits_rx tok) = true
               <-> Forall (fun c => digit c = true) tok)
    by (rewrite Hdigits; unfold digit; tauto).
  clear Hlower Hupper Hdigits.
  assert (Hlu : Forall (fun c => lower_case c = true) tok ->
                ~ Forall (fun c => upper_case c = true) tok)
    by (apply Forall_apart;
        [assumption | intros c Hc; exact (proj1 (proj1 (classes_apart c) Hc))]).
  assert (Hld : Forall (fun c => lower_case c = true) tok ->
                ~ Forall (fun c => digit c = true) tok)
    by (apply Forall_apart;
        [assumption | intros c Hc; exact (proj2 (proj1 (classes_apart c) Hc))]).
  assert (Hud : Forall (fun c => upper_case c = true) tok ->
                ~ Forall (fun c => digit c = true) tok)
    by (apply Forall_apart;
        [assumption | intros c Hc; exact (proj2 (classes_apart c) Hc)]).
  assert (Hfacts : forall name space,
             (name = LOWER <-> Forall (fun c => lower_case c = true) tok) ->
             (name = UPPER <-> Forall (fun c => upper_case c = true) tok) ->
             (name = DIGITS <-> Forall (fun c => digit c = true) tok) ->
             (name = DIGITS -> space = 10) -> (name <> DIGITS -> space = 26) ->
             Forall (fun m => sequence_run password m /\ i m = i0 /\ j m = j0)
                    [mkMatch i0 j0 tok
                       (PSequence (mkSequenceMatch name space (0 <? delta)%Z))]).
  { intros name space H1 H2 H3 H4 H5. constructor; [| constructor].
    split; [| split; reflexivity].
    exists delta, (mkSequenceMatch name space (0 <? delta)%Z).
    cbn [i j token pattern sequence_tag sequence_space ascending].
    split; [lia |]. split; [lia |]. split; [reflexivity |].
    split; [exact Hrun |]. split; [exact Hstop |]. split; [exact Hstart |].
    split; [exact Hstep |]. split; [lia |]. split; [reflexivity |].
    split; [reflexivity |]. split; [exact H1 |]. split; [exact H2 |].
    split; [exact H3 |]. split; [exact H4 | exact H5]. }
  destruct (found (Regex.regex_search lower_rx tok)).
  { assert (Hall : Forall (fun c => lower_case c = true) tok) by now apply Hl.
    injection H as <-. apply Hfacts; try (intros; congruence).
    - split; [intros _; assumption | reflexivity].
    - split; [discriminate |]. intros Hx. exfalso. now apply Hlu.
    - split; [discriminate |]. intros Hx. exfalso. now apply Hld. }
  assert (Hnl : ~ Forall (fun c => lower_case c = true) tok)
    by (intros Hx; apply Hl in Hx; discriminate).
  destruct (found (Regex.regex_search upper_rx tok)).
  { assert (Hall : Forall (fun c => upper_case c = true) tok) by now apply Hu.
    injection H as <-. apply Hfacts; try (intros; congruence).
    - split; [discriminate | intros Hx; now elim Hnl].
    - split; [intros _; assumption | reflexivity].
    - split; [discriminate |]. intros Hx. exfalso. now apply Hud. }
  assert (Hnu : ~ Forall (fun c => upper_case c = true) tok)
    by (intros Hx; apply Hu in Hx; discriminate).
  destruct (found (Regex.regex_search digits_rx tok)).
  { assert (Hall : Forall (fun c => digit c = true) tok) by now apply Hd.
    injection H as <-. apply Hfacts; try (intros; congruence).
    - split; [discriminate | intros Hx; now elim Hnl].
    - split; [discriminate | intros Hx; now elim Hnu].
    - split; [intros _; assumption | reflexivity]. }
  assert (Hnd : ~ Forall (fun c => digit c = true) tok)
    by (intros Hx; apply Hd in Hx; discriminate).
  injection H as <-. apply Hfacts; try (intros; congruence).
  - split; [discriminate | intros Hx; now elim Hnl].
  - split; [discriminate | intros Hx; now elim Hnu].
  - split; [discriminate | intros Hx; now elim Hnd].
Qed.

Lemma update_cases (password : str) (i0 j0 : nat) (delta : Z) (ms : list (@Match guesses_t)) :
  update password i0 j0 delta = Ok ms -> ms = [] \/ exists m, ms = [m].
Proof.
  unfold update. destruct (_ || _); [| intros H; injection H as <-; now left].
  destruct (_ && _); [| intros H; injection H as <-; now left].
  destruct (substr _ _ _); [| discriminate]. cbn [bind].
  destruct (if found _ then _ else _) as [name space].
  intros H. injection H as <-. right. eauto.
Qed.

Lemma delta_at_step (password : str) (k : nat) (c c_prev : ascii) :
  1 <= k -> nth_error password k = Some c -> nth_error password (k - 1) = Some c_prev ->
  delta_at password k = Some (char_val c - char_val c_prev)%Z.
Proof.
  intros Hk Hc Hp. destruct k as [|k']; [lia |].
  cbn [delta_at]. replace (S k' - 1) with k' in Hp by lia. now rewrite Hc, Hp.
Qed.

Lemma delta_at_end (password : str) (k : nat) :
  length password <= k -> delta_at password k = None.
Proof.
  intros Hk. destruct k as [|k']; [reflexivity |]. cbn [delta_at].
  assert (E : nth_error password (S k') = None) by (apply nth_error_None; lia).
  now rewrite E.
Qed.

(** The state of the loop of lines 580-591 before it reads [password[k0]]:
    the run that started at [i0] has gone on until [k0 - 1]. *)
Definition run_so_far (password : str) (k0 i0 : nat) (maybe_last_delta : option Z) : Prop :=
  match maybe_last_delta with
  | Some last_delta =>
      i0 + 1 < k0 /\
      (forall k, i0 < k < k0 -> delta_at password k = Some last_delta) /\
      (i0 = 0 \/ delta_at password i0 <> Some last_delta)
  | None => k0 = 1 /\ i0 = 0
  end.

Lemma sequence_loop_runs (password : str) :
  forall n k0 i0 maybe_last_delta (ms : list (@Match guesses_t)),
  k0 + n = length password ->
  run_so_far password k0 i0 maybe_last_delta ->
  sequence_loop password (seq k0 n) i0 maybe_last_delta = Ok ms ->
  Forall (fun m => sequence_run password m /\ i0 <= i m) ms /\
  StronglySorted (fun m1 m2 => j m1 <= i m2) ms.
Proof.
  induction n as [|n IH]; intros k0 i0 last ms Hk Hinv H; cbn [seq sequence_loop] in H.
  - destruct last as [d|]; [| injection H as <-; split; constructor].
    destruct Hinv as (Hi & Hrun & Hstart).
    pose proof (update_cases _ _ _ _ _ H) as Hcases.
    apply update_run in H; try assumption; try lia.
    + split.
      * eapply Forall_impl; [| exact H]. intros m (Hm & Him & _). split; [assumption | lia].
      * destruct Hcases as [-> | [m ->]]; repeat constructor.
    + intros k Hk'. apply Hrun. lia.
    + rewrite delta_at_end by lia. discriminate.
  - assert (Hk0 : 1 <= k0 < length password)
      by (destruct last; [destruct Hinv as (? & _) | destruct Hinv]; lia).
    unfold char_at in H.
    destruct (nth_error password k0) as [c|] eqn:Hc;
      [| apply nth_error_None in Hc; lia].
    destruct (nth_error password (k0 - 1)) as [c_prev|] eqn:Hp;
      [| apply nth_error_None in Hp; lia].
    cbn [bind] in H.
    pose proof (delta_at_step password k0 c c_prev ltac:(lia) Hc Hp) as Hdelta.
    set (delta := (char_val c - char_val c_prev)%Z) in *.
    destruct (Z.eqb_spec delta (match last with Some d => d | None => delta end))
      as [Heq | Hne].
    + apply IH in H; [assumption | lia |].
      destruct last as [d|]; cbn [run_so_far] in *.
      * destruct Hinv as (Hi & Hrun & Hstart). subst d.
        split; [lia |]. split; [| assumption].
        intros k Hk'. destruct (Nat.eq_dec k k0) as [-> | Hne]; [assumption |].
        apply Hrun. lia.
      * destruct Hinv as [-> ->]. split; [lia |]. split; [| now left].
        intros k Hk'. assert (k = 1) by lia. subst k. assumption.
    + destruct last as [d|]; [| congruence].
      destruct Hinv as (Hi & Hrun & Hstart).
      apply bind_Ok in H. destruct H as (pushed & Hpushed & H).
      apply bind_Ok in H. destruct H as (rest & Hrest & H). injection H as <-.
      pose proof (update_cases _ _ _ _ _ Hpushed) as Hcases.
      apply update_run in Hpushed; try assumption; try lia.
      * apply IH in Hrest; [| lia |].
        -- destruct Hrest as [Hall Hsorted]. split.
           ++ apply Forall_app. split.
              ** eapply Forall_impl; [| exact Hpushed].
                 intros m (Hm & Him & _). split; [assumption | lia].
              ** eapply Forall_impl; [| exact Hall].
                 intros m (Hm & Him). split; [assumption | lia].
           ++ destruct Hcases as [-> | [m ->]]; [assumption |].
              cbn [app]. constructor; [assumption |].
              inversion Hpushed as [|? ? (_ & _ & Hjm) _]; subst.
              eapply Forall_impl; [| exact Hall]. intros m' (_ & Him'). lia.
        -- cbn [run_so_far]. split; [lia |]. split.
           ++ intros k Hk'. assert (k = k0) by lia. subst k. assumption.
           ++ right. rewrite Hrun by lia. congruence.
      * intros k Hk'. apply Hrun. lia.
      * replace (k0 - 1 + 1) with k0 by lia. rewrite Hdelta. congruence.
Qed.

(** A run of one step that [update] reports: as long as it can be, of a
    step of 1 to 5 up or down, and of three characters or more unless the
    step is 1 or -1. *)
Definition reportable_run (password : str) (i0 j0 : nat) (delta : Z) : Prop :=
  i0 < j0 < length password /\
  (forall k, i0 < k <= j0 -> delta_at password k = Some delta) /\
  delta_at password (j0 + 1) <> Some delta /\
  (i0 = 0 \/ delta_at password i0 <> Some delta) /\
  (0 < Z.abs delta <= MAX_DELTA)%Z /\
  (2 <= j0 - i0 \/ Z.abs delta = 1%Z).

Lemma update_emits (password : str) (i0 j0 : nat) (delta : Z) :
  reportable_run password i0 j0 delta ->
  exists m : @Match guesses_t,
    update password i0 j0 delta = Ok [m] /\ i m = i0 /\ j m = j0.
Proof.
  intros (Hij & _ & _ & _ & Hstep & Hlong). unfold update.
  assert (E1 : (1 <? j0 - i0) || (Z.abs delta =? 1)%Z = true).
  { apply orb_true_iff. rewrite Nat.ltb_lt, Z.eqb_eq. lia. }
  assert (E2 : (0 <? Z.abs delta)%Z && (Z.abs delta <=? MAX_DELTA)%Z = true).
  { apply andb_true_iff. rewrite Z.ltb_lt, Z.leb_le. lia. }
  rewrite E1, E2, substr_Ok by lia. cbn [bind].
  destruct (if found _ then _ else _) as [name space].
  eexists. split; [reflexivity |]. split; reflexivity.
Qed.

(** The runs that the loop has not closed before it reads [password[k0]]:
    the one that started at [i0], and those that start later. *)
Lemma sequence_loop_complete (password : str) :
  forall n k0 i0 maybe_last_delta (ms : list (@Match guesses_t)),
  k0 + n = length password ->
  run_so_far password k0 i0 maybe_last_delta ->
  sequence_loop password (seq k0 n) i0 maybe_last_delta = Ok ms ->
  forall a b delta,
    reportable_run password a b delta ->
    k0 <= b + 1 -> (a = i0 \/ k0 <= a + 1) ->
    exists m, In m ms /\ i m = a /\ j m = b.
Proof.
  induction n as [|n IH]; intros k0 i0 last ms Hk Hinv H a b delta Hrun Hb Ha;
    cbn [seq sequence_loop] in H.
  - destruct Hrun as (Hab & Hconst & Hstop & Hstart & Hstep & Hlong).
    assert (Hai : a = i0) by lia. subst a.
    destruct last as [d|]; [| destruct Hinv; lia].
    destruct Hinv as (Hi & Hsofar & _).
    assert (Hd : d = delta).
    { specialize (Hsofar (i0 + 1) ltac:(lia)). specialize (Hconst (i0 + 1) ltac:(lia)).
      congruence. }
    subst d. assert (Hbl : b = length password - 1) by lia. subst b.
    destruct (update_emits password i0 (length password - 1) delta) as (m & Hm & Him & Hjm).
    { repeat split; try assumption; lia. }
    rewrite Hm in H. injection H as <-. exists m. split; [now left | auto].
  - assert (Hk0 : 1 <= k0 < length password)
      by (destruct last; [destruct Hinv as (? & _) | destruct Hinv]; lia).
    unfold char_at in H.
    destruct (nth_error password k0) as [c|] eqn:Hc;
      [| apply nth_error_None in Hc; lia].
    destruct (nth_error password (k0 - 1)) as [c_prev|] eqn:Hp;
      [| apply nth_error_None in Hp; lia].
    cbn [bind] in H.
    pose proof (delta_at_step password k0 c c_prev ltac:(lia) Hc Hp) as Hdelta.
    set (step := (char_val c - char_val c_prev)%Z) in *.
    pose proof Hrun as (Hab & Hconst & Hstop & Hstart & Hstep & Hlong).
    destruct (Z.eqb_spec step (match last with Some d => d | None => step end))
      as [Heq | Hne].
    + (* the run goes on *)
      eapply (IH (S k0) i0 (Some (match last with Some d => d | None => step end)));
        try eassumption; try lia.
      * destruct last as [d|]; cbn [run_so_far] in *.
        -- destruct Hinv as (Hi & Hsofar & Hfirst). subst d.
           split; [lia |]. split; [| assumption].
           intros k Hk'. destruct (Nat.eq_dec k k0) as [-> | Hnk]; [assumption |].
           apply Hsofar. lia.
        -- destruct Hinv as [-> ->]. split; [lia |]. split; [| now left].
           intros k Hk'. assert (k = 1) by lia. subst k. assumption.
      * destruct last as [d|]; cbn [run_so_far] in Hinv.
        -- destruct Hinv as (Hi & Hsofar & Hfirst). subst d.
           destruct Ha as [-> | Ha].
           ++ assert (Hd : step = delta).
              { specialize (Hsofar (i0 + 1) ltac:(lia)).
                specialize (Hconst (i0 + 1) ltac:(lia)). congruence. }
              destruct (Nat.eq_dec (b + 1) k0) as [E | Hnb]; [| lia].
              exfalso. apply Hstop. rewrite E, Hdelta. congruence.
           ++ destruct (Nat.eq_dec (a + 1) k0) as [E | Hna]; [| lia].
              exfalso. assert (Hd : step = delta).
              { specialize (Hconst k0 ltac:(lia)). congruence. }
              destruct Hstart as [-> | Hstart]; [lia |].
              apply Hstart. rewrite Hsofar by lia. congruence.
        -- destruct Hinv as [-> ->]. lia.
      * destruct last as [d|]; cbn [run_so_far] in Hinv.
        -- destruct Hinv as (Hi & Hsofar & Hfirst). subst d.
           destruct Ha as [-> | Ha]; [now left |].
           destruct (Nat.eq_dec (a + 1) k0) as [E | Hna]; [| right; lia].
           exfalso. assert (Hd : step = delta).
           { specialize (Hconst k0 ltac:(lia)). congruence. }
           destruct Hstart as [-> | Hstart]; [lia |].
           apply Hstart. rewrite Hsofar by lia. congruence.
        -- destruct Hinv as [-> ->]. destruct (Nat.eq_dec a 0); [now left | right; lia].
    + (* the run ends at k0 - 1 *)
      destruct last as [d|]; [| congruence].
      destruct Hinv as (Hi & Hsofar & Hfirst).
      apply bind_Ok in H. destruct H as (pushed & Hpushed & H).
      apply bind_Ok in H. destruct H as (rest & Hrest & H). injection H as <-.
      destruct Ha as [-> | Ha].
      * assert (Hd : d = delta).
        { specialize (Hsofar (i0 + 1) ltac:(lia)).
          specialize (Hconst (i0 + 1) ltac:(lia)). congruence. }
        subst d.
        assert (Hbk : b = k0 - 1).
        { destruct (Nat.eq_dec b (k0 - 1)) as [E | Hnb]; [assumption | exfalso].
          specialize (Hconst k0 ltac:(lia)). congruence. }
        subst b.
        destruct (update_emits password i0 (k0 - 1) delta Hrun) as (m & Hm & Him & Hjm).
        rewrite Hm in Hpushed. injection Hpushed as <-.
        exists m. split; [now left | auto].
      * destruct (IH (S k0) (k0 - 1) (Some step) rest ltac:(lia)) with (a := a) (b := b)
          (delta := delta) as (m & Hm & Him & Hjm); try assumption; try lia.
        -- cbn [run_so_far]. split; [lia |]. split.
           ++ intros k Hk'. assert (k = k0) by lia. subst k. assumption.
           ++ right. rewrite Hsofar by lia. congruence.
        -- exists m. split; [apply in_or_app; now right | auto].
Qed.

(** X4.  [sequence_match] returns the runs of two characters or more in
    which each character differs from the one before it by the same step,
    whose absolute value is 1 to 5 (runs of two characters are reported for
    the steps 1 and -1 only), and which are as long as they can be: the
    characters before and after a run do not continue it.  Every match is
    such a run and every such run is a match.  A match is ascending when the
    step is positive, it is tagged LOWER, UPPER or DIGITS when all of its
    characters are lower-case letters, upper-case letters or digits, and the
    sequence space is 10 for DIGITS and 26 otherwise.  The matches are
    returned in the order of their positions, and a match starts no earlier
    than where the match before it ends. *)
Theorem sequence_match_runs (password : str) :
  exists matches : list (@Match guesses_t),
    sequence_match password = Ok matches /\
    Forall (sequence_run password) matches /\
    StronglySorted (fun m1 m2 => j m1 <= i m2) matches /\
    forall i0 j0 delta,
      reportable_run password i0 j0 delta ->
      exists m, In m matches /\ i m = i0 /\ j m = j0.
Proof.
  destruct (sequence_match_spec (guesses_t := guesses_t) password) as (ms & Hms & _).
  exists ms. split; [assumption |]. unfold sequence_match in Hms.
  destruct (Nat.eqb_spec (length password) 1) as [Hone | Hmore].
  { injection Hms as <-. split; [constructor |]. split; [constructor |].
    intros i0 j0 delta (Hij & _). lia. }
  destruct (length password) as [|len] eqn:Hlen.
  { injection Hms as <-. split; [constructor |]. split; [constructor |].
    intros i0 j0 delta (Hij & _). lia. }
  rewrite <- Hlen in *.
  assert (Hstart : run_so_far password 1 0 None) by (cbn [run_so_far]; auto).
  assert (Hk : 1 + (length password - 1) = length password) by lia.
  pose proof (sequence_loop_runs password _ _ _ _ _ Hk Hstart Hms) as [Hall Hsorted].
  split; [eapply Forall_impl; [| exact Hall]; now intros m [Hm _] |].
  split; [assumption |].
  intros i0 j0 delta Hrun.
  apply (sequence_loop_complete password _ _ _ _ _ Hk Hstart Hms i0 j0 delta Hrun).
  - destruct Hrun as (Hij & _). lia.
  - destruct (Nat.eq_dec i0 0); [now left | right; lia].
Qed.

End SequenceRuns.

(* ------------------------------------------------------------------------- *)
(** * More on the dictionary matchers: what is reported *)

Lemma ascii_lower_substring (s : str) (a n : nat) :
  firstn n (skipn a (ascii_lower s)) = ascii_lower (firstn n (skipn a s)).
Proof. unfold ascii_lower. now rewrite skipn_map, firstn_map. Qed.

Lemma for_each_in_place_In {A : Type} (body : A -> result A) (v r : list A) :
  for_each_in_place v body = Ok r ->
  forall y, In y r <-> exists x, In x v /\ body x = Ok y.
Proof.
  revert r. induction v as [|a v IH]; cbn [for_each_in_place]; intros r H y.
  - injection H as <-. split; [intros [] | intros (x & [] & _)].
  - apply bind_Ok in H. destruct H as (a' & Ha & H).
    apply bind_Ok in H. destruct H as (rest & Hrest & H). injection H as <-.
    cbn [In]. rewrite (IH _ Hrest). split.
    + intros [<- | (x & Hx & Hb)]; [exists a | exists x]; auto.
    + intros (x & [<- | Hx] & Hb); [left; congruence | right; eauto].
Qed.

Section DictionaryReports.

Context {guesses_t : Type} {sorter : @StdSort guesses_t} {env : @Environment guesses_t}.

(** The match that line 183 builds. *)
Definition dictionary_entry (password : str) (tag : DictionaryTag) (i0 j0 : nat)
           (rank : rank_t) (reversed : bool) : @Match guesses_t :=
  let tok := firstn (j0 - i0 + 1) (skipn i0 password) in
  let word := ascii_lower (if reversed then reverse_string tok else tok) in
  mkMatch i0 j0 tok
    (PDictionary (mkDictionaryMatch tag word rank reversed false [] [])).

Ltac entry_fields :=
  cbn [i j token dictionary_tag matched_word rank l33t sub sub_display].

Ltac entry_fields_in H :=
  cbn [i j token dictionary_tag matched_word rank l33t sub sub_display] in H.

Lemma dictionary_match_In (password : str) (dicts : RankedDicts) (ms : list Match) :
  dictionary_match password dicts = Ok ms ->
  forall m,
    In m ms <->
    exists tag dict i0 j0 rank,
      In (tag, dict) dicts /\ i0 <= j0 < length password /\
      map_find dict (ascii_lower (firstn (j0 - i0 + 1) (skipn i0 password))) = Some rank /\
      m = dictionary_entry password tag i0 j0 rank false.
Proof.
  unfold dictionary_match. intros H m.
  apply bind_Ok in H. destruct H as (matches & Hmatches & H). injection H as <-.
  rewrite sorted_In, (for_each_In _ _ Hmatches). split.
  - intros ([tag dict] & ys & Hitem & Hrow & Hm). cbn [fst snd] in Hrow.
    apply (for_each_In _ _ Hrow) in Hm. destruct Hm as (i0 & ys' & Hi & Hrow' & Hm).
    apply (for_each_In _ _ Hrow') in Hm. destruct Hm as (j0 & ys'' & Hj & Hbody & Hm).
    apply in_seq in Hi, Hj.
    rewrite !substr_Ok in Hbody by (rewrite ?ascii_lower_length; lia).
    cbn [bind] in Hbody. rewrite ascii_lower_substring in Hbody.
    destruct (map_find dict _) as [rank|] eqn:Hrank;
      injection Hbody as <-; [| destruct Hm].
    destruct Hm as [<- | []]. exists tag, dict, i0, j0, rank.
    split; [assumption |]. split; [lia |]. split; [assumption | reflexivity].
  - intros (tag & dict & i0 & j0 & rank & Hitem & Hij & Hrank & ->).
    destruct (for_each_Ok_inv _ _ _ Hmatches (tag, dict) Hitem) as (ys & Hrow).
    exists (tag, dict), ys. split; [assumption |]. split; [assumption |].
    cbn [fst snd] in Hrow. rewrite (for_each_In _ _ Hrow).
    assert (Hi : In i0 (seq 0 (length password))) by (apply in_seq; lia).
    destruct (for_each_Ok_inv _ _ _ Hrow i0 Hi) as (ys' & Hrow').
    exists i0, ys'. split; [assumption |]. split; [assumption |].
    rewrite (for_each_In _ _ Hrow'). exists j0. eexists.
    split; [apply in_seq; lia |].
    rewrite !substr_Ok by (rewrite ?ascii_lower_length; lia). cbn [bind].
    rewrite ascii_lower_substring, Hrank. split; [reflexivity | now left].
Qed.

(** X5.  [dictionary_match] reports a substring of the password exactly
    when its lower-case form is a word of one of the dictionaries: once for
    every dictionary that has the word, with the tag of the dictionary, the
    word, its rank and the substring as it was typed, and with [reversed] and
    [l33t] unset. *)
Theorem dictionary_match_reports (password : str) (ranked_dictionaries : RankedDicts) :
  exists matches,
    dictionary_match password ranked_dictionaries = Ok matches /\
    forall m,
      In m matches <->
      exists tag dict i0 j0 rank,
        In (tag, dict) ranked_dictionaries /\ i0 <= j0 < length password /\
        map_find dict (ascii_lower (firstn (j0 - i0 + 1) (skipn i0 password)))
        = Some rank /\
        m = dictionary_entry password tag i0 j0 rank false.
Proof.
  destruct (dictionary_match_total password ranked_dictionaries) as [ms Hms].
  exists ms. split; [assumption |]. now apply dictionary_match_In.
Qed.

Lemma reverse_dictionary_match_In (password : str) (ranked_dictionaries : RankedDicts)
      (ms : list Match) :
  reverse_dictionary_match password ranked_dictionaries = Ok ms ->
  forall m,
    In m ms <->
    exists tag dict i0 j0 rank,
      In (tag, dict) ranked_dictionaries /\ i0 <= j0 < length password /\
      map_find dict
               (ascii_lower (reverse_string (firstn (j0 - i0 + 1) (skipn i0 password))))
      = Some rank /\
      m = dictionary_entry password tag i0 j0 rank true.
Proof.
  intros Hms m.
  unfold reverse_dictionary_match in Hms.
  apply bind_Ok in Hms. destruct Hms as (found & Hfound & Hms).
  apply bind_Ok in Hms. destruct Hms as (mapped & Hmapped & Hms). injection Hms as <-.
  rewrite sorted_In, (for_each_in_place_In _ _ _ Hmapped).
  pose proof (dictionary_match_In _ _ _ Hfound) as Hin.
  unfold reverse_string in *. set (len := length password) in *.
  assert (Hlen : length (rev password) = len) by apply length_rev.
  split.
  - intros (m' & Hm' & Hbody). apply Hin in Hm'.
    destruct Hm' as (tag & dict & i' & j' & rank & Hitem & Hij & Hrank & ->).
    rewrite Hlen in Hij. cbn [get_dictionary dictionary_entry pattern bind] in Hbody.
    entry_fields_in Hbody.
    injection Hbody as <-.
    exists tag, dict, (len - 1 - j'), (len - 1 - i'), rank.
    split; [assumption |]. split; [lia |].
    replace (len - 1 - i' - (len - 1 - j') + 1) with (j' - i' + 1) by lia.
    assert (Hrev : rev (firstn (j' - i' + 1) (skipn i' (rev password)))
                   = firstn (j' - i' + 1) (skipn (len - 1 - j') password)).
    { rewrite rev_substring by (fold len; lia). f_equal. f_equal. unfold len. lia. }
    split.
    + rewrite <- Hrev, rev_involutive. exact Hrank.
    + unfold dictionary_entry, reverse_string. cbv zeta.
      replace (len - 1 - i' - (len - 1 - j') + 1) with (j' - i' + 1) by lia.
      rewrite <- Hrev, rev_involutive. reflexivity.
  - intros (tag & dict & i0 & j0 & rank & Hitem & Hij & Hrank & ->).
    assert (Hrev : rev (firstn (j0 - i0 + 1) (skipn (len - 1 - j0) (rev password)))
                   = firstn (j0 - i0 + 1) (skipn i0 password)).
    { rewrite rev_substring by (fold len; lia). f_equal. f_equal. unfold len. lia. }
    exists (dictionary_entry (rev password) tag (len - 1 - j0) (len - 1 - i0) rank false).
    split.
    + apply Hin. exists tag, dict, (len - 1 - j0), (len - 1 - i0), rank.
      split; [assumption |]. split; [rewrite Hlen; lia |].
      split; [| reflexivity].
      replace (len - 1 - i0 - (len - 1 - j0) + 1) with (j0 - i0 + 1) by lia.
      rewrite <- Hrev, rev_involutive in Hrank. exact Hrank.
    + unfold dictionary_entry, reverse_string, get_dictionary. cbv zeta.
      cbn [pattern bind].
      entry_fields.
      replace (len - 1 - i0 - (len - 1 - j0) + 1) with (j0 - i0 + 1) by lia.
      replace (len - 1 - (len - 1 - i0)) with i0 by lia.
      replace (len - 1 - (len - 1 - j0)) with j0 by lia.
      rewrite <- Hrev, rev_involutive. reflexivity.
Qed.

(** X6.  [reverse_dictionary_match] reports a substring of the password
    exactly when its reversal, in lower case, is a word of one of the
    dictionaries.  The match carries the positions of the substring in the
    password as it was typed (not in the reversed password), the substring
    as it was typed, the word that was found, and [reversed] set. *)
Theorem reverse_dictionary_match_reports (password : str)
        (ranked_dictionaries : RankedDicts) :
  exists matches,
    reverse_dictionary_match password ranked_dictionaries = Ok matches /\
    forall m,
      In m matches <->
      exists tag dict i0 j0 rank,
        In (tag, dict) ranked_dictionaries /\ i0 <= j0 < length password /\
        map_find dict
                 (ascii_lower (reverse_string (firstn (j0 - i0 + 1) (skipn i0 password))))
        = Some rank /\
        m = dictionary_entry password tag i0 j0 rank true.
Proof.
  destruct (reverse_dictionary_match_total password ranked_dictionaries) as [ms Hms].
  exists ms. split; [assumption |]. now apply reverse_dictionary_match_In.
Qed.

End DictionaryReports.

(* ------------------------------------------------------------------------- *)
(** * More on the l33t matcher: substitutions *)

(** ** translate *)

(** What [translate] appends for one character, lines 107-117. *)
Definition translate_char (chr_map : list (str * str)) (c : ascii) : str :=
  if (char_val c <? 0)%Z then [c]
  else match map_find chr_map [c] with
       | Some v => v
       | None => [c]
       end.

Lemma translate_flat_map (s : str) (chr_map : list (str * str)) :
  translate s chr_map = flat_map (translate_char chr_map) s.
Proof. reflexivity. Qed.

Lemma map_find_In {V : Type} (m : list (str * V)) (key : str) (v : V) :
  map_find m key = Some v -> In (key, v) m.
Proof.
  induction m as [|[k w] m IH]; simpl; [discriminate |].
  destruct (str_eqb k key) eqn:E.
  - intros H. injection H as <-. apply str_eqb_eq in E. subst. now left.
  - intros H. right. auto.
Qed.

Lemma map_find_None {V : Type} (m : list (str * V)) (key : str) :
  map_find m key = None <-> ~ In key (map fst m).
Proof.
  induction m as [|[k w] m IH]; simpl; [tauto |].
  destruct (str_eqb k key) eqn:E.
  - apply str_eqb_eq in E. split; [discriminate | tauto].
  - rewrite IH. split; [| tauto]. intros H [-> | Hin]; [| tauto].
    now rewrite str_eqb_refl in E.
Qed.

Lemma translate_char_single (chr_map : list (str * str)) (c : ascii) :
  Forall (fun kv => length (snd kv) = 1) chr_map ->
  exists c', translate_char chr_map c = [c'].
Proof.
  intros Hmap. unfold translate_char. destruct (char_val c <? 0)%Z; [eauto |].
  destruct (map_find chr_map [c]) as [v|] eqn:Hfind; [| eauto].
  apply map_find_In in Hfind. rewrite Forall_forall in Hmap.
  specialize (Hmap _ Hfind). cbn [snd] in Hmap.
  destruct v as [|c' [|? ?]]; try discriminate. eauto.
Qed.

Lemma translate_nth (s : str) (chr_map : list (str * str)) :
  Forall (fun kv => length (snd kv) = 1) chr_map ->
  forall k c, nth_error s k = Some c ->
  exists c', translate_char chr_map c = [c'] /\
             nth_error (translate s chr_map) k = Some c'.
Proof.
  intros Hmap. rewrite translate_flat_map.
  induction s as [|a s IH]; intros k c Hk; [destruct k; discriminate |].
  cbn [flat_map]. destruct (translate_char_single chr_map a Hmap) as [a' Ha].
  rewrite Ha. destruct k as [|k]; cbn [nth_error app] in *.
  - injection Hk as <-. eauto.
  - now apply IH.
Qed.

Lemma translate_substring (s : str) (chr_map : list (str * str)) (a n : nat) :
  Forall (fun kv => length (snd kv) = 1) chr_map ->
  firstn n (skipn a (translate s chr_map)) = translate (firstn n (skipn a s)) chr_map.
Proof.
  intros Hmap. rewrite !translate_flat_map. revert a n.
  induction s as [|c s IH]; intros a n.
  - now rewrite !skipn_nil, !firstn_nil.
  - cbn [flat_map]. destruct (translate_char_single chr_map c Hmap) as [c' Hc].
    rewrite Hc. destruct a as [|a]; cbn [skipn app].
    + destruct n as [|n]; [reflexivity |]. cbn [firstn flat_map app].
      rewrite Hc. cbn [app]. f_equal. apply (IH 0 n).
    + apply IH.
Qed.

(** X7.  With a map whose values are single characters (as the l33t
    substitutions are), [translate] keeps the length of the string and
    works position by position: a byte with the high bit set, or a character
    that is no key of the map, stays; a character that is a key is replaced
    by the character the map gives for it. *)
Theorem translate_positions (s : str) (chr_map : list (str * str)) :
  Forall (fun kv => length (snd kv) = 1) chr_map ->
  length (translate s chr_map) = length s /\
  forall k c,
    nth_error s k = Some c ->
    exists c',
      nth_error (translate s chr_map) k = Some c' /\
      ((((char_val c < 0)%Z \/ map_find chr_map [c] = None) /\ c' = c) \/
       ((0 <= char_val c)%Z /\ map_find chr_map [c] = Some [c'])).
Proof.
  intros Hmap. split; [now apply translate_length |].
  intros k c Hk. destruct (translate_nth s chr_map Hmap k c Hk) as (c' & Hc & Hnth).
  exists c'. split; [assumption |]. unfold translate_char in Hc.
  destruct (Z.ltb_spec (char_val c) 0) as [Hneg | Hpos].
  - injection Hc as <-. left. auto.
  - destruct (map_find chr_map [c]) as [v|]; [| injection Hc as <-; left; auto].
    subst v. right. auto.
Qed.

Lemma translate_positions_witness :
  Forall (fun kv : str * str => length (snd kv) = 1) [(lit "4", lit "a"); (lit "0", lit "o")] /\
  length (translate (lit "p4ssw0rd") [(lit "4", lit "a"); (lit "0", lit "o")])
  = length (lit "p4ssw0rd").
Proof.
  assert (H : Forall (fun kv : str * str => length (snd kv) = 1)
                     [(lit "4", lit "a"); (lit "0", lit "o")])
    by (repeat constructor).
  split; [exact H |].
  exact (proj1 (translate_positions (lit "p4ssw0rd") _ H)).
Defined.

(** ** relevant_l33t_subtable *)

(** [password.find(sub) != password.npos], line 228. *)
Definition occurs (password sub : str) : bool :=
  match find password sub with
  | Some _ => true
  | None => false
  end.

(** One round of the loop of lines 222-236. *)
Definition relevant_step (password : str) (subtable : list (str * list str))
           (item : str * list str) : list (str * list str) :=
  let relevant_subs := filter (occurs password) (snd item) in
  if length relevant_subs =? 0 then subtable
  else map_insert subtable (fst item) relevant_subs.

Lemma relevant_l33t_subtable_snoc (password : str) (table : list (str * list str))
      (item : str * list str) :
  relevant_l33t_subtable password (table ++ [item])
  = relevant_step password (relevant_l33t_subtable password table) item.
Proof. unfold relevant_l33t_subtable. rewrite fold_left_app. reflexivity. Qed.

Lemma map_insert_keys {V : Type} (m : list (str * V)) (k : str) (v : V) :
  NoDup (map fst m) -> NoDup (map fst (map_insert m k v)) /\ In k (map fst (map_insert m k v)).
Proof.
  intros Hm. unfold map_insert. destruct (map_find m k) as [w|] eqn:Hfind.
  - split; [assumption |]. apply map_find_In in Hfind.
    change k with (fst (k, w)). now apply in_map.
  - apply map_find_None in Hfind. rewrite map_app. cbn [map fst]. split.
    + apply NoDup_app; [assumption | repeat constructor; intros [] |].
      intros x Hx [<- | []]. contradiction.
    + apply in_or_app. right. now left.
Qed.

Lemma relevant_l33t_subtable_entries (password : str) (table : list (str * list str)) :
  NoDup (map fst (relevant_l33t_subtable password table)) /\
  (forall letter subs',
     In (letter, subs') (relevant_l33t_subtable password table) ->
     subs' <> [] /\
     (forall sub, In sub subs' -> find password sub <> None) /\
     exists subs, In (letter, subs) table /\ subs' = filter (occurs password) subs) /\
  (forall letter subs sub,
     In (letter, subs) table -> In sub subs -> find password sub <> None ->
     In letter (map fst (relevant_l33t_subtable password table))).
Proof.
  induction table as [|item table IH] using rev_ind.
  - split; [constructor |]. split; [intros ? ? [] | intros ? ? ? []].
  - rewrite relevant_l33t_subtable_snoc. destruct IH as (Hkeys & Hsound & Hcomplete).
    set (r := relevant_l33t_subtable password table) in *.
    unfold relevant_step.
    destruct (Nat.eqb_spec (length (filter (occurs password) (snd item))) 0) as [Hnone | Hsome].
    + split; [assumption |]. split.
      * intros letter subs' Hin. destruct (Hsound _ _ Hin) as (Hne & Hocc & subs & Hsubs & E).
        split; [assumption |]. split; [assumption |]. exists subs.
        split; [apply in_or_app; now left | assumption].
      * intros letter subs sub Hin Hsub Hfind. apply in_app_or in Hin.
        destruct Hin as [Hin | [E | []]]; [eauto |]. subst item. exfalso.
        assert (Hf : In sub (filter (occurs password) subs)).
        { apply filter_In. split; [assumption |]. unfold occurs.
          destruct (find password sub); [reflexivity | congruence]. }
        cbn [snd] in Hnone. destruct (filter (occurs password) subs); [destruct Hf | discriminate].
    + destruct (map_insert_keys r (fst item) (filter (occurs password) (snd item)) Hkeys)
        as [Hkeys' Hkey].
      split; [assumption |]. split.
      * intros letter subs' Hin. apply map_insert_In in Hin. destruct Hin as [Hin | E].
        -- destruct (Hsound _ _ Hin) as (Hne & Hocc & subs & Hsubs & E).
           split; [assumption |]. split; [assumption |]. exists subs.
           split; [apply in_or_app; now left | assumption].
        -- injection E as -> ->. split; [intros E; rewrite E in Hsome; now apply Hsome |].
           split.
           ++ intros sub Hsub. apply filter_In in Hsub. destruct Hsub as [_ Hocc].
              unfold occurs in Hocc. destruct (find password sub); [discriminate | discriminate].
           ++ exists (snd item). split; [| reflexivity].
              apply in_or_app. right. left. now destruct item.
      * intros letter subs sub Hin Hsub Hfind. apply in_app_or in Hin.
        destruct Hin as [Hin | [E | []]]; [| subst item; exact Hkey].
        specialize (Hcomplete _ _ _ Hin Hsub Hfind).
        apply in_map_iff in Hcomplete. destruct Hcomplete as ([k v] & <- & Hkv).
        unfold map_insert. destruct (map_find r (fst item)).
        -- change (fst (k, v)) with (fst (k, v)). now apply in_map.
        -- rewrite map_app. apply in_or_app. left. now apply in_map.
Qed.

(** X8.  [relevant_l33t_subtable] keeps, for every letter of the table,
    the l33t characters of that letter that occur in the password, and drops
    the letters for which there are none: a letter is a key of the result
    exactly when one of its l33t characters occurs in the password, every
    key has one entry, and no entry is empty.  The result is empty exactly
    when no l33t character of the table occurs in the password. *)
Theorem relevant_l33t_subtable_spec (password : str) (table : list (str * list str)) :
  NoDup (map fst (relevant_l33t_subtable password table)) /\
  (forall letter subs',
     In (letter, subs') (relevant_l33t_subtable password table) ->
     subs' <> [] /\
     (forall sub, In sub subs' -> find password sub <> None) /\
     exists subs, In (letter, subs) table /\ subs' = filter (occurs password) subs) /\
  (forall letter subs sub,
     In (letter, subs) table -> In sub subs -> find password sub <> None ->
     In letter (map fst (relevant_l33t_subtable password table))) /\
  (relevant_l33t_subtable password table = [] <->
   forall letter subs sub, In (letter, subs) table -> In sub subs -> find password sub = None).
Proof.
  destruct (relevant_l33t_subtable_entries password table) as (Hkeys & Hsound & Hcomplete).
  repeat (split; [assumption |]). split.
  - intros Hnil letter subs sub Hin Hsub.
    destruct (find password sub) as [n|] eqn:Hfind; [exfalso | reflexivity].
    assert (Hkey : In letter (map fst (relevant_l33t_subtable password table)))
      by (apply (Hcomplete letter subs sub); [assumption | assumption | congruence]).
    rewrite Hnil in Hkey. destruct Hkey.
  - intros Hnone.
    destruct (relevant_l33t_subtable password table) as [|[letter subs'] r];
      [reflexivity | exfalso].
    destruct (Hsound letter subs' (or_introl eq_refl)) as (Hne & Hocc & subs & Hsubs & E).
    destruct subs' as [|sub subs']; [congruence |].
    apply (Hocc sub (or_introl eq_refl)). apply (Hnone letter subs); [assumption |].
    assert (Hin : In sub (filter (occurs password) subs)) by (rewrite <- E; now left).
    apply filter_In in Hin. tauto.
Qed.

(** ** enumerate_l33t_subs *)

Lemma to_unordered_map_NoDup (sub : list (str * str)) :
  NoDup (map fst (to_unordered_map sub)).
Proof.
  unfold to_unordered_map.
  apply (fold_left_invariant (fun acc : list (str * str) => NoDup (map fst acc))).
  - intros acc x _ Hacc. now apply map_insert_keys.
  - constructor.
Qed.

Lemma extend_sub_pairs (sub : list (str * str)) (chr key : str) sub' kv :
  In sub' (extend_sub sub chr key) -> In kv sub' -> In kv sub \/ kv = (chr, key).
Proof. apply extend_sub_In. Qed.

Lemma enumerate_step_pairs subs item sub kv :
  In sub (enumerate_step subs item) -> In kv sub ->
  (exists sub0, In sub0 subs /\ In kv sub0) \/
  (snd kv = fst item /\ In (fst kv) (snd item)).
Proof.
  unfold enumerate_step. intros H Hkv. apply dedup_In in H.
  apply in_flat_map in H. destruct H as (chr & Hchr & H).
  apply in_flat_map in H. destruct H as (sub0 & Hsub0 & H).
  destruct (extend_sub_pairs _ _ _ _ kv H Hkv) as [Hin | ->]; [eauto |].
  right. auto.
Qed.

Lemma enumerate_l33t_subs_licensed (table : list (str * list str)) :
  Forall (fun sub =>
            NoDup (map fst sub) /\
            forall l33t_chr letter,
              In (l33t_chr, letter) sub ->
              exists subs, In (letter, subs) table /\ In l33t_chr subs)
         (enumerate_l33t_subs table).
Proof.
  apply Forall_forall. intros sub Hsub. rewrite enumerate_l33t_subs_fold in Hsub.
  apply in_map_iff in Hsub. destruct Hsub as (sub0 & <- & Hsub0).
  split; [apply to_unordered_map_NoDup |].
  intros l33t_chr letter Hin. apply to_unordered_map_In in Hin.
  revert sub0 Hsub0 l33t_chr letter Hin.
  apply (fold_left_invariant
           (fun subs : SubsType =>
              forall sub0, In sub0 subs ->
              forall l33t_chr letter, In (l33t_chr, letter) sub0 ->
              exists subs', In (letter, subs') table /\ In l33t_chr subs')).
  - intros acc item Hitem Hacc sub0 Hsub0 l33t_chr letter Hin.
    destruct (enumerate_step_pairs _ _ _ _ Hsub0 Hin) as [(s & Hs & Hkv) | [E Hchr]];
      [eauto |].
    cbn [fst snd] in E, Hchr. subst letter. exists (snd item).
    split; [now destruct item | assumption].
  - intros sub0 [<- | []] ? ? [].
Qed.

(** X9.  In every substitution that [enumerate_l33t_subs] lists, a l33t
    character stands for one letter only, and it does so by the table: the
    letter is a key of the table and the character is one of the l33t
    characters of that letter.  For a table that is not empty no
    substitution is empty; for the empty table the empty substitution is the
    only one. *)
Theorem enumerate_l33t_subs_spec (table : list (str * list str)) :
  Forall (fun sub =>
            NoDup (map fst sub) /\
            forall l33t_chr letter,
              In (l33t_chr, letter) sub ->
              exists subs, In (letter, subs) table /\ In l33t_chr subs)
         (enumerate_l33t_subs table) /\
  (table <> [] -> Forall (fun sub => sub <> []) (enumerate_l33t_subs table)) /\
  enumerate_l33t_subs [] = [[]].
Proof.
  split; [apply enumerate_l33t_subs_licensed |].
  split; [apply enumerate_l33t_subs_not_nil | reflexivity].
Qed.

(** ** l33t_match *)

Lemma is_prefix_single (c : ascii) (s : str) : is_prefix [c] (c :: s) = true.
Proof. simpl. now rewrite Ascii.eqb_refl. Qed.

Lemma find_char_In (tok : str) (c : ascii) : In c tok -> find tok [c] <> None.
Proof.
  induction tok as [|a tok IH]; [intros [] |].
  intros Hin. cbn [find]. destruct (is_prefix [c] (a :: tok)) eqn:Hprefix; [discriminate |].
  destruct Hin as [-> | Hin]; [rewrite is_prefix_single in Hprefix; discriminate |].
  specialize (IH Hin). destruct (find tok [c]); [discriminate | congruence].
Qed.

Lemma map_find_filter {V : Type} (p : str * V -> bool) (m : list (str * V)) (key : str) :
  (forall kv, In kv m -> fst kv = key -> p kv = true) ->
  map_find (filter p m) key = map_find m key.
Proof.
  induction m as [|[k v] m IH]; intros Hp; [reflexivity |].
  cbn [filter map_find]. destruct (str_eqb k key) eqn:E.
  - apply str_eqb_eq in E. subst k.
    rewrite (Hp (key, v)) by (auto; now left). cbn [map_find].
    now rewrite str_eqb_refl.
  - destruct (p (k, v)); cbn [map_find]; rewrite ?E; apply IH;
      intros kv Hkv; apply Hp; now right.
Qed.

Lemma translate_ext (tok : str) (m1 m2 : list (str * str)) :
  (forall c, In c tok -> map_find m1 [c] = map_find m2 [c]) ->
  translate tok m1 = translate tok m2.
Proof.
  intros H. rewrite !translate_flat_map. induction tok as [|c tok IH]; [reflexivity |].
  cbn [flat_map]. f_equal.
  - unfold translate_char. rewrite (H c) by now left. reflexivity.
  - apply IH. intros c' Hc'. apply H. now right.
Qed.

(** The substitutions in use for a token, lines 317-322, translate it as the
    whole substitution does. *)
Lemma translate_in_use (tok : str) (sub0 : list (str * str)) :
  translate tok (filter (fun item => occurs tok (fst item)) sub0) = translate tok sub0.
Proof.
  apply translate_ext. intros c Hc. apply map_find_filter.
  intros kv _ Hkey. rewrite Hkey. unfold occurs.
  pose proof (find_char_In tok c Hc) as Hfind.
  destruct (find tok [c]); [reflexivity | congruence].
Qed.

Lemma translate_nil (tok : str) : translate tok [] = tok.
Proof.
  rewrite translate_flat_map. induction tok as [|c tok IH]; [reflexivity |].
  cbn [flat_map]. rewrite IH. unfold translate_char. cbn [map_find].
  now destruct (char_val c <? 0)%Z.
Qed.

Section L33tReports.

Context {guesses_t : Type} {sorter : @StdSort guesses_t} {env : @Environment guesses_t}.

(** What the loop of lines 306-337 pushes for the substitution [sub0] and
    the substring at [i0 .. j0]. *)
Definition l33t_entry (password : str) (sub0 : list (str * str)) (tag : DictionaryTag)
           (i0 j0 : nat) (rank : rank_t) : @Match guesses_t :=
  let tok := firstn (j0 - i0 + 1) (skipn i0 password) in
  let match_sub := filter (fun item => occurs tok (fst item)) sub0 in
  mkMatch i0 j0 tok
    (PDictionary (mkDictionaryMatch tag (ascii_lower (translate tok sub0)) rank false true
                                    match_sub (display match_sub []))).

Ltac l33t_word_in H :=
  cbn [bind matched_word dictionary_tag rank reversed] in H.

Ltac l33t_entry_fields :=
  cbn [l33t_entry token sub matched_word dictionary_tag rank reversed l33t sub_display].

Lemma l33t_loop_In (password : str) (dicts : RankedDicts) :
  forall subs ms,
  Forall (Forall (fun kv : str * str => length (snd kv) = 1)) subs ->
  l33t_loop password dicts subs = Ok ms ->
  forall m, In m ms ->
  exists sub0 tag dict i0 j0 rank,
    In sub0 subs /\ In (tag, dict) dicts /\ i0 <= j0 < length password /\
    map_find dict (ascii_lower (translate (firstn (j0 - i0 + 1) (skipn i0 password)) sub0))
    = Some rank /\
    ascii_lower (firstn (j0 - i0 + 1) (skipn i0 password))
    <> ascii_lower (translate (firstn (j0 - i0 + 1) (skipn i0 password)) sub0) /\
    m = l33t_entry password sub0 tag i0 j0 rank.
Proof.
  induction subs as [|sub0 subs IH]; intros ms Hsubs H m Hm; cbn [l33t_loop] in H.
  - injection H as <-. destruct Hm.
  - destruct (length sub0 =? 0); [injection H as <-; destruct Hm |].
    inversion Hsubs as [|? ? Hsingle Hsubs']; subst.
    apply bind_Ok in H. destruct H as (found & Hfound & H).
    apply bind_Ok in H. destruct H as (pushed & Hpushed & H).
    apply bind_Ok in H. destruct H as (rest & Hrest & H). injection H as <-.
    apply in_app_or in Hm. destruct Hm as [Hm | Hm].
    + apply (for_each_In _ _ Hpushed) in Hm. destruct Hm as (m' & ys & Hm' & Hbody & Hm).
      apply (dictionary_match_In _ _ _ Hfound) in Hm'.
      destruct Hm' as (tag & dict & i0 & j0 & rank & Hitem & Hij & Hrank & ->).
      rewrite translate_length in Hij by assumption.
      rewrite translate_substring in Hrank by assumption.
      unfold dictionary_entry, get_dictionary in Hbody. cbv zeta in Hbody.
      cbn [pattern bind i j] in Hbody. rewrite substr_Ok in Hbody by lia.
      l33t_word_in Hbody.
      rewrite translate_substring in Hbody by assumption.
      destruct (str_eqb _ _) eqn:Hsame; injection Hbody as <-; [destruct Hm |].
      destruct Hm as [<- | []].
      exists sub0, tag, dict, i0, j0, rank. split; [now left |].
      split; [assumption |]. split; [assumption |]. split; [assumption |].
      split; [| reflexivity].
      intros E. rewrite E, str_eqb_refl in Hsame. discriminate.
    + destruct (IH _ Hsubs' Hrest m Hm)
        as (s & tag & dict & i0 & j0 & rank & Hs & Hrest').
      exists s, tag, dict, i0, j0, rank. split; [now right | assumption].
Qed.

(** X10.  Every match that [l33t_match] returns is explained by the
    substitutions it reports: [sub] is not empty, each of its l33t
    characters occurs in the token and stands, by [L33T_TABLE], for the
    letter it is given; the matched word is the token with these
    substitutions applied, in lower case; the word is in the dictionary of
    the reported tag with the reported rank; and [sub_display] is the text of
    [sub].  A password in which no l33t character of the table occurs has no
    l33t match. *)
Theorem l33t_match_reports (password : str) (ranked_dictionaries : RankedDicts) :
  exists matches,
    l33t_match password ranked_dictionaries L33T_TABLE = Ok matches /\
    Forall (fun m =>
              exists d,
                pattern m = PDictionary d /\
                sub d <> [] /\
                (forall l33t_chr letter,
                    In (l33t_chr, letter) (sub d) ->
                    find (token m) l33t_chr <> None /\
                    exists subs, In (letter, subs) L33T_TABLE /\ In l33t_chr subs) /\
                matched_word d = ascii_lower (translate (token m) (sub d)) /\
                (exists dict, In (dictionary_tag d, dict) ranked_dictionaries /\
                              map_find dict (matched_word d) = Some (rank d)) /\
                reversed d = false /\ l33t d = true /\
                sub_display d = display (sub d) [])
           matches /\
    ((forall letter subs l33t_chr,
         In (letter, subs) L33T_TABLE -> In l33t_chr subs ->
         find password l33t_chr = None) ->
     matches = []).
Proof.
  destruct (l33t_match_total password ranked_dictionaries) as [ms Hms].
  exists ms. split; [assumption |].
  destruct (l33t_match_filter _ _ _ _ Hms) as (matches & Hloop & ->).
  split.
  - apply sorted_Forall. apply Forall_forall. intros m Hm.
    apply filter_In in Hm. destruct Hm as [Hm _].
    destruct (l33t_loop_In _ _ _ _ (l33t_subs_single password) Hloop m Hm)
      as (sub0 & tag & dict & i0 & j0 & rank & Hsub0 & Hitem & Hij & Hrank & Hdiff & ->).
    set (tok := firstn (j0 - i0 + 1) (skipn i0 password)) in *.
    eexists. split; [reflexivity |].
    l33t_entry_fields.
    fold tok. split; [| split; [| split; [| split]]].
    + intros E. apply Hdiff. rewrite <- (translate_in_use tok sub0), E.
      now rewrite translate_nil.
    + intros l33t_chr letter Hin. apply filter_In in Hin. destruct Hin as [Hin Hocc].
      cbn [fst] in Hocc. split.
      * unfold occurs in Hocc. destruct (find tok l33t_chr); [discriminate | discriminate].
      * pose proof (enumerate_l33t_subs_licensed
                      (relevant_l33t_subtable password L33T_TABLE)) as Hall.
        rewrite Forall_forall in Hall. destruct (Hall _ Hsub0) as [_ Hlicensed].
        destruct (Hlicensed _ _ Hin) as (subs' & Hsubs' & Hchr).
        destruct (relevant_l33t_subtable_entries password L33T_TABLE) as (_ & Hsound & _).
        destruct (Hsound _ _ Hsubs') as (_ & _ & subs & Hsubs & ->).
        exists subs. split; [assumption |]. apply filter_In in Hchr. tauto.
    + now rewrite translate_in_use.
    + exists dict. auto.
    + auto.
  - intros Hnone.
    assert (Htable : relevant_l33t_subtable password L33T_TABLE = []).
    { destruct (relevant_l33t_subtable_entries password L33T_TABLE) as (_ & Hsound & _).
      destruct (relevant_l33t_subtable password L33T_TABLE) as [|[letter subs'] r];
        [reflexivity | exfalso].
      destruct (Hsound letter subs' (or_introl eq_refl)) as (Hne & Hocc & subs & Hsubs & E).
      destruct subs' as [|l33t_chr subs']; [congruence |].
      apply (Hocc l33t_chr (or_introl eq_refl)).
      apply (Hnone letter subs); [assumption |].
      assert (Hin : In l33t_chr (filter (occurs password) subs))
        by (rewrite <- E; now left).
      apply filter_In in Hin. tauto. }
    rewrite Htable in Hloop. cbn in Hloop. injection Hloop as <-.
    cbn [filter]. apply sorted_nil.
Qed.

End L33tReports.

(* ------------------------------------------------------------------------- *)
(** * More on the repeat matcher: the blocks it reports *)

Section RepeatBlocks.

Context {guesses_t : Type} {sorter : @StdSort guesses_t} {env : @Environment guesses_t}.

(** What [repeat_match] reports about a match: the analysis of the base
    token that [omni] and the scoring engine give, and the number of times
    the token has it. *)
Definition repeat_block (omni : str -> result (list Match)) (m : @Match guesses_t) : Prop :=
  exists base_token sub_matches,
    omni base_token = Ok sub_matches /\
    pattern m = PRepeat base_token
                        (guesses (most_guessable_match_sequence base_token sub_matches false))
                        (sequence (most_guessable_match_sequence base_token sub_matches false))
                        (length (token m) / length base_token) /\
    2 <= length (token m) / length base_token /\
    length (token m) = length (token m) / length base_token * length base_token.

Lemma repeat_loop_blocks (omni : str -> result (list Match)) (password : str) :
  forall fuel lastIndex ms,
  repeat_loop fuel omni password lastIndex = Ok ms ->
  Forall (fun m => lastIndex <= i m /\ repeat_block omni m) ms /\
  StronglySorted (fun m1 m2 => j m1 < i m2) ms.
Proof.
  induction fuel as [|fuel IH]; intros lastIndex ms H; [discriminate |].
  cbn [repeat_loop] in H.
  destruct (Nat.ltb_spec lastIndex (length password)) as [Hlt | Hge];
    [| injection H as <-; split; constructor].
  set (range := skipn lastIndex password) in *.
  destruct (Nat.eqb_spec (Regex.size (Regex.regex_search greedy range)) 0) as [Hz | Hnz];
    [injection H as <-; split; constructor |].
  destruct (choose_match_spec range Hnz)
    as (m & base & p & len & Hch & Hp & Hlen & Hend & Hstr & Hrep & Hmin & _).
  rewrite Hch in H. cbn [bind] in H. rewrite Hp, Hlen, Hstr in H.
  apply bind_Ok in H. destruct H as (sub_matches & Homni & H).
  apply bind_Ok in H. destruct H as (repeat_count & Hcount & H).
  apply bind_Ok in H. destruct H as (rest & Hrest & H). injection H as <-.
  pose proof (repeats_length Hrep) as Hbase.
  assert (Hrange : length range = length password - lastIndex)
    by (unfold range; apply length_skipn).
  assert (Hslice : length (Regex.slice range p (p + len)) = len)
    by (rewrite slice_length; lia).
  rewrite Hslice in Hbase.
  unfold udiv in Hcount. destruct (length base =? 0); [discriminate |].
  injection Hcount as <-.
  apply IH in Hrest. destruct Hrest as [Hall Hsorted].
  assert (Hpower : Regex.slice range p (p + len) = power base (len / length base)).
  { rewrite <- Hslice at 2. now apply repeats_div. }
  assert (Hlen' : len = len / length base * length base).
  { rewrite <- Hslice at 1. rewrite Hpower at 1. apply power_length. }
  split.
  - constructor.
    + split; [cbn [i]; lia |]. exists base, sub_matches.
      cbn [token pattern]. rewrite Hslice.
      split; [assumption |]. split; [reflexivity |]. split; [| assumption].
      destruct (len / length base) as [|[|k]]; lia.
    + eapply Forall_impl; [| exact Hall]. intros a (Hi & Ha). split; [lia | assumption].
  - constructor; [assumption |].
    eapply Forall_impl; [| exact Hall]. intros a (Hi & _). cbn [j]. lia.
Qed.

(** X11.  The matches that [repeat_match] returns do not overlap and are
    in the order of their positions.  Each reports the analysis that the
    scoring engine gives for [omnimatch] of the base token, and a repeat
    count of two or more that, times the length of the base token, is the
    length of the token. *)
Theorem repeat_match_blocks (password : str) :
  exists matches,
    repeat_match (fun base_token => omnimatch base_token []) password = Ok matches /\
    Forall (repeat_block (fun base_token => omnimatch base_token [])) matches /\
    StronglySorted (fun m1 m2 => j m1 < i m2) matches.
Proof.
  destruct (repeat_match_spec (fun base_token => omnimatch base_token []) password)
    as (matches & Hmatches & _).
  { intros s _.
    destruct (omnimatch_rec_spec (S (length s)) s [] (Nat.lt_succ_diag_r _))
      as (r & Hr & _). eauto. }
  exists matches. split; [assumption |].
  apply repeat_loop_blocks in Hmatches. destruct Hmatches as [Hall Hsorted].
  split; [| assumption]. eapply Forall_impl; [| exact Hall]. now intros m [_ Hm].
Qed.

End RepeatBlocks.

(* ------------------------------------------------------------------------- *)
(** * The matches of omnimatch, kind by kind *)

Section Kinds.

Context {guesses_t : Type} {sorter : @StdSort guesses_t} {env : @Environment guesses_t}.

(** How long the token of a match is, by the kind of the match. *)
Definition kind_length (password : str) (m : @Match guesses_t) : Prop :=
  match pattern m with
  | PDictionary d => if l33t d then 2 <= length (token m) else 1 <= length (token m)
  | PSpatial _ => 3 <= length (token m)
  | PRepeat base_token _ _ repeat_count =>
      2 <= repeat_count /\ length (token m) = repeat_count * length base_token
  | PSequence _ => 2 <= length (token m)
  | PRegex _ => length (token m) = 4 /\ token m = password
  | PDate _ => 4 <= length (token m) <= 10
  end.

Lemma substring_length (password : str) (i0 j0 : nat) :
  i0 <= j0 < length password ->
  length (firstn (j0 - i0 + 1) (skipn i0 password)) = j0 - i0 + 1.
Proof. intros H. rewrite length_firstn, length_skipn. lia. Qed.

Lemma dictionary_match_kind (password : str) (dicts : RankedDicts) (ms : list Match) :
  dictionary_match password dicts = Ok ms -> Forall (kind_length password) ms.
Proof.
  intros H. apply Forall_forall. intros m Hm.
  apply (dictionary_match_In _ _ _ H) in Hm.
  destruct Hm as (tag & dict & i0 & j0 & rank & _ & Hij & _ & ->).
  unfold kind_length. cbn [dictionary_entry pattern token l33t].
  rewrite substring_length by assumption. lia.
Qed.

Lemma reverse_dictionary_match_kind (password : str) (dicts : RankedDicts)
      (ms : list Match) :
  reverse_dictionary_match password dicts = Ok ms -> Forall (kind_length password) ms.
Proof.
  intros H. apply Forall_forall. intros m Hm.
  apply (reverse_dictionary_match_In _ _ _ H) in Hm.
  destruct Hm as (tag & dict & i0 & j0 & rank & _ & Hij & _ & ->).
  unfold kind_length. cbn [dictionary_entry pattern token l33t].
  rewrite substring_length by assumption. lia.
Qed.

Lemma l33t_match_kind (password : str) (dicts : RankedDicts) (ms : list Match) :
  l33t_match password dicts L33T_TABLE = Ok ms -> Forall (kind_length password) ms.
Proof.
  intros H. apply l33t_match_filter in H. destruct H as (matches & Hloop & ->).
  apply sorted_Forall. apply l33t_loop_substitution in Hloop.
  rewrite Forall_forall in Hloop. apply Forall_forall. intros m Hm.
  apply filter_In in Hm. destruct Hm as [Hm Hlen].
  destruct (Hloop m Hm) as (d & Hd & Hl33t & _).
  unfold kind_length. rewrite Hd, Hl33t.
  apply negb_true_iff, Nat.leb_gt in Hlen. lia.
Qed.

Lemma spatial_match_kind (password : str) (gs : Graphs) (ms : list (@Match guesses_t)) :
  spatial_match password gs = Ok ms -> Forall (kind_length password) ms.
Proof.
  intros H. unfold spatial_match in H. apply Forall_forall. intros m Hm.
  apply (for_each_In _ _ H) in Hm. destruct Hm as (item & ys & _ & Hys & Hm).
  unfold spatial_match_helper in Hys.
  destruct (length password =? 0); [injection Hys as <-; destruct Hm |].
  apply spatial_scan_chains in Hys. destruct Hys as [Hall _].
  rewrite Forall_forall in Hall.
  destruct (Hall m Hm) as (_ & Hij & Hj & Htok & (t & s & Hp & _) & _).
  unfold kind_length. rewrite Hp, Htok, substring_length by lia. lia.
Qed.

Lemma repeat_match_kind (omni : str -> result (list Match)) (password : str)
      (ms : list Match) :
  repeat_match omni password = Ok ms -> Forall (kind_length password) ms.
Proof.
  intros H. apply repeat_loop_blocks in H. destruct H as [Hall _].
  eapply Forall_impl; [| exact Hall].
  intros m (_ & base & sub_matches & _ & Hp & Hcount & Hlen).
  unfold kind_length. rewrite Hp. auto.
Qed.

Lemma sequence_match_kind (password : str) (ms : list (@Match guesses_t)) :
  sequence_match password = Ok ms -> Forall (kind_length password) ms.
Proof.
  intros H. unfold sequence_match in H.
  destruct (length password =? 1); [injection H as <-; constructor |].
  destruct (length password) as [|len] eqn:Hlen; [injection H as <-; constructor |].
  rewrite <- Hlen in H. apply sequence_loop_runs in H;
    [| lia | cbn [run_so_far]; auto].
  destruct H as [Hall _]. eapply Forall_impl; [| exact Hall].
  intros m ((delta & s & Hij & Hj & Htok & _ & _ & _ & _ & _ & Hp & _) & _).
  unfold kind_length. rewrite Hp, Htok, substring_length by lia. lia.
Qed.

Lemma regex_match_kind (password : str) (ms : list Match) :
  regex_match password REGEXEN = Ok ms -> Forall (kind_length password) ms.
Proof.
  unfold regex_match, REGEXEN. cbn [for_each fst snd]. intros H.
  destruct (Nat.eq_dec (length password) 4) as [Hlen | Hlen].
  - destruct (regex_loop_RECENT_YEAR (guesses_t := guesses_t) password RECENT_YEAR
                (length password)) as [E | (_ & groups & E)];
      rewrite E in H; cbn [bind app] in H; injection H as <-; apply sorted_Forall;
      constructor; [| constructor].
    unfold kind_length. cbn [pattern token]. auto.
  - rewrite regex_loop_no_match in H
      by (apply (regex_match_width _ 4); [reflexivity | assumption]).
    cbn [bind app] in H. injection H as <-. apply sorted_Forall. constructor.
Qed.

Lemma date_match_kind (password : str) (ms : list Match) :
  date_match password = Ok ms -> Forall (kind_length password) ms.
Proof.
  intros H. apply date_match_filter in H.
  destruct H as (without & with_ & Hwithout & Hwith & ->).
  apply sorted_Forall. apply Forall_forall. intros m Hm.
  apply filter_In in Hm. destruct Hm as [Hm _]. apply in_app_or in Hm.
  unfold kind_length. destruct Hm as [Hm | Hm].
  - destruct (date_without_separator_sound _ _ _ Hwithout Hm) as (dmy & Hp & Hlen & _).
    rewrite Hp. cbn [date_pattern]. lia.
  - destruct (date_with_separator_sound _ _ _ Hwith Hm) as (s & dmy & Hp & _ & Hlen).
    rewrite Hp. cbn [date_pattern]. lia.
Qed.

(** X12.  In what [omnimatch] returns the token of a dictionary match has
    one character or more, and two or more when it is a l33t match; the
    token of a spatial match has three or more; the token of a repeat match
    is its base token two times or more; the token of a sequence match has
    two or more; the token of a regex match is the whole password, of four
    characters; the token of a date match has four to ten. *)
Theorem omnimatch_token_lengths (password : str) (ordered_list : list str) :
  exists matches,
    omnimatch password ordered_list = Ok matches /\
    Forall (kind_length password) matches.
Proof.
  destruct (omnimatch_rec_spec (S (length password)) password ordered_list
              (Nat.lt_succ_diag_r _)) as (ms & Hms & _).
  exists ms. split; [exact Hms |].
  change (omnimatch password ordered_list = Ok ms) in Hms.
  rewrite omnimatch_unfold in Hms.
  apply bind_Ok in Hms. destruct Hms as (matches & Hmatches & Hms). injection Hms as <-.
  apply sorted_Forall. apply Forall_forall. intros m Hm.
  apply (for_each_In _ _ Hmatches) in Hm. destruct Hm as (matcher & ys & Hin & Hys & Hm).
  assert (Hkind : Forall (kind_length password) ys).
  { unfold matchers in Hin. cbv zeta in Hin.
    repeat (destruct Hin as [<- | Hin]); try destruct Hin.
    - now apply dictionary_match_kind in Hys.
    - now apply reverse_dictionary_match_kind in Hys.
    - now apply l33t_match_kind in Hys.
    - now apply spatial_match_kind in Hys.
    - now apply repeat_match_kind in Hys.
    - now apply sequence_match_kind in Hys.
    - now apply regex_match_kind in Hys.
    - now apply date_match_kind in Hys. }
  rewrite Forall_forall in Hkind. now apply Hkind.
Qed.

End Kinds.

(* ------------------------------------------------------------------------- *)
(** * The user inputs of omnimatch *)

Section UserInputs.

Context {guesses_t : Type} {sorter : @StdSort guesses_t} {env : @Environment guesses_t}.

(** X13.  When no built-in dictionary carries the tag USER_INPUTS,
    [omnimatch] reports every substring of the password whose lower-case
    form is a word of the dictionary built from the user inputs: as a
    dictionary match tagged USER_INPUTS, with the rank the word has
    there. *)
Theorem omnimatch_reports_user_inputs (password : str) (ordered_list : list str)
        (i0 j0 : nat) (rank : rank_t) :
  existsb (fun item => DictionaryTag_eqb (fst item) USER_INPUTS) default_ranked_dicts = false ->
  i0 <= j0 < length password ->
  map_find (build_ranked_dict ordered_list)
           (ascii_lower (firstn (j0 - i0 + 1) (skipn i0 password))) = Some rank ->
  exists matches,
    omnimatch password ordered_list = Ok matches /\
    In (dictionary_entry password USER_INPUTS i0 j0 rank false) matches.
Proof.
  intros Hdefault Hij Hrank.
  destruct (omnimatch_rec_spec (S (length password)) password ordered_list
              (Nat.lt_succ_diag_r _)) as (ms & Hms & _).
  exists ms. split; [exact Hms |].
  change (omnimatch password ordered_list = Ok ms) in Hms.
  rewrite omnimatch_unfold in Hms.
  apply bind_Ok in Hms. destruct Hms as (matches & Hmatches & Hms). injection Hms as <-.
  apply sorted_In. apply (for_each_In _ _ Hmatches).
  set (ranked_dictionaries :=
         insert_dict default_ranked_dicts USER_INPUTS (build_ranked_dict ordered_list)).
  destruct (dictionary_match_total password ranked_dictionaries) as [ys Hys].
  exists (fun p => dictionary_match p ranked_dictionaries), ys.
  split; [now left |]. split; [exact Hys |].
  apply (dictionary_match_In _ _ _ Hys).
  exists USER_INPUTS, (build_ranked_dict ordered_list), i0, j0, rank.
  split; [| auto].
  unfold ranked_dictionaries, insert_dict. rewrite Hdefault.
  apply in_or_app. right. now left.
Qed.

End UserInputs.

Lemma omnimatch_reports_user_inputs_witness :
  existsb (fun item => DictionaryTag_eqb (fst item) USER_INPUTS)
          (default_ranked_dicts (Environment := sample_env 2000%N)) = false /\
  0 <= 2 < length (lit "Tom1991") /\
  exists matches,
    omnimatch (sorter := stable_sorter) (env := sample_env 2000%N)
              (lit "Tom1991") [lit "tom"; lit "smith"] = Ok matches /\
    In (dictionary_entry (lit "Tom1991") USER_INPUTS 0 2 1 false) matches.
Proof.
  split; [reflexivity |]. split; [simpl; lia |].
  apply (omnimatch_reports_user_inputs (sorter := stable_sorter) (env := sample_env 2000%N)
           (lit "Tom1991") [lit "tom"; lit "smith"] 0 2 1).
  - reflexivity.
  - simpl; lia.
  - reflexivity.
Defined.

(* ------------------------------------------------------------------------- *)
(** * What regex_match reports *)

(** The strings of the pattern [19\d\d|200\d|201\d]: the years 1900 to 2019. *)
Definition recent_year (s : str) : bool :=
  match s with
  | [a; b; c; d] =>
      (Ascii.eqb "1" a && Ascii.eqb "9" b && Regex.is_digit c && Regex.is_digit d)
      || (Ascii.eqb "2" a && Ascii.eqb "0" b && (Ascii.eqb "0" c || Ascii.eqb "1" c)
          && Regex.is_digit d)
  | _ => false
  end.

Lemma in_class_digit (c : ascii) : Regex.in_class [Regex.CDigit] c = Regex.is_digit c.
Proof. unfold Regex.in_class. cbn [existsb Regex.in_item]. apply orb_false_r. Qed.

Ltac run_matchers :=
  cbn [Regex.char_matcher Regex.endIndex Regex.captures nth_error flat_map app].

Lemma RECENT_YEAR_RX_matches (s : str) :
  Regex.regex_match RECENT_YEAR_RX s = if recent_year s then [Some (0, 4)] else [].
Proof.
  destruct s as [|a [|b [|c [|d [|e s]]]]];
    try (rewrite regex_match_width with (w := 4); [reflexivity | reflexivity | simpl; lia]).
  unfold recent_year, Regex.regex_match, RECENT_YEAR_RX.
  rewrite <- (in_class_digit c), <- (in_class_digit d).
  cbn [Regex.compile Regex.rseq Regex.rtext Regex.rdigit list_ascii_of_string map].
  run_matchers.
  destruct (Ascii.eqb "1" a), (Ascii.eqb "2" a); run_matchers;
    destruct (Ascii.eqb "9" b), (Ascii.eqb "0" b); run_matchers;
    destruct (Ascii.eqb "0" c), (Ascii.eqb "1" c), (Regex.in_class [Regex.CDigit] c);
    run_matchers;
    destruct (Regex.in_class [Regex.CDigit] d); reflexivity.
Qed.

Section RegexReports.

Context {guesses_t : Type} {sorter : @StdSort guesses_t} {env : @Environment guesses_t}.

(** X14.  [regex_match] reports a match exactly when the whole password is
    a year from 1900 to 2019 (the pattern [19\d\d|200\d|201\d]): the one
    match is then the password itself at 0..3, named recent_year; for every
    other password the result is empty. *)
Theorem regex_match_recent_years (password : str) :
  regex_match (guesses_t := guesses_t) password REGEXEN
  = Ok (if recent_year password
        then [mkMatch 0 3 password (PRegex (mkRegexMatch RECENT_YEAR [password]))]
        else []).
Proof.
  unfold regex_match, REGEXEN. cbn [for_each fst snd].
  pose proof (RECENT_YEAR_RX_matches password) as Hrx.
  destruct (recent_year password) eqn:Hyear.
  - destruct password as [|a [|b [|c [|d [|e s]]]]]; try discriminate.
    cbn [length]. cbn [regex_loop]. simpl (_ <? _). cbv iota. cbn [skipn]. rewrite Hrx.
    cbn [Regex.size length Nat.eqb Regex.sub_length Regex.sub nth Nat.sub Nat.add skipn].
    simpl (_ <? _). cbv iota. rewrite RECENT_YEAR_RX_matches.
    change (4 <? 0) with false. change (4 <? 4) with false.
    cbn [recent_year Regex.size length Nat.eqb bind app].
    rewrite sorted_singleton. reflexivity.
  - rewrite regex_loop_no_match by exact Hrx. cbn [bind app]. now rewrite sorted_nil.
Qed.

End RegexReports.
